(** * universal-silabs-flasher: the XMODEM-128/CRC sender and its helpers

    A shallow embedding of [universal_silabs_flasher/common.py] (checksums,
    [pad_to_multiple], [StateMachine]) and of
    [universal_silabs_flasher/xmodemcrc.py] (packet framing and the sender),
    followed by the properties the specification states about them, and by
    further properties of this code and of the rest of [common.py]
    ([put_first], [CommaSeparatedNumbers], [VersionComponent], [Version]).

    Conventions.  Python [int] is [Z]; [bytes] is [list byte]; a Python
    [set] of strings is a [gset string] and a [dict] a [gmap].  A call that
    can raise returns a [result]; a coroutine runs in the monad [M] over the
    state of the transport, and can also stay suspended for ever. *)

From Stdlib Require Import ZArith List Lia Bool String Ascii Sorted.
From Stdlib.Strings Require Import Byte.
From stdpp Require Import base gmap strings list.
Import ListNotations.
Local Open Scope Z_scope.

(** ** Python values shared by both modules *)

Abbreviation bytes := (list byte).

(** [len(x)] *)
Definition len {A : Type} (l : list A) : Z := Z.of_nat (length l).

(** The integer value of one element of a [bytes] object. *)
Definition byte_val (b : byte) : Z := Z.of_N (Byte.to_N b).

(** One piece of an f-string: literal text, or an interpolated value. *)
Inductive fpart : Type :=
| Lit (s : string)
| FInt (z : Z)                       (* {z} *)
| FReprBytes (b : bytes)             (* {b!r} *)
| FReprStr (s : string)              (* {s!r} *)
| FReprSet (s : gset string).        (* {s!r} *)

(** The exceptions that the modelled code raises or lets through. *)
Inductive exn : Type :=
| ValueError (msg : list fpart)
| AssertionError
| ZeroDivisionError
| OverflowError
| ReceiverCancelled                  (* xmodemcrc.ReceiverCancelled *)
| CancelledError                     (* asyncio.CancelledError *)
| IncompleteReadError                (* asyncio.IncompleteReadError *)
| LimitOverrunError                  (* asyncio.LimitOverrunError *)
| InvalidStateError                  (* asyncio.InvalidStateError *)
| ConnectionResetError.

(** The result of a call that either returns or raises. *)
Inductive result (A : Type) : Type :=
| Ok (a : A)
| Raise (e : exn).
Arguments Ok {A} a.
Arguments Raise {A} e.

Definition rbind {A B : Type} (r : result A) (k : A -> result B) : result B :=
  match r with
  | Ok a => k a
  | Raise e => Raise e
  end.

(** [range(n)] *)
Definition range (n : Z) : list Z := map Z.of_nat (seq 0 (Z.to_nat n)).

(** [b * k] for a [bytes] object [b]: empty when [k <= 0]. *)
Definition bytes_mul (b : bytes) (k : Z) : bytes := concat (repeat b (Z.to_nat k)).

(** [data[lo:hi]] for [0 <= lo] and [0 <= hi], clamped to the length as
    Python slices are. *)
Definition slice (data : bytes) (lo hi : Z) : bytes :=
  firstn (Z.to_nat (hi - lo)) (skipn (Z.to_nat lo) data).

(** ** The [crc] package

    [common.py] builds its two checksums with [crc.Configuration] and
    [crc.Calculator] of the [crc] package, which is not among the sources. *)

Module Crc.

(** Modelled from the spec: the parameter set of a checksum (bit width,
    polynomial, initial value, final XOR value, input and output reversal),
    for the absent [crc.Configuration]. *)
Record Configuration : Type := {
  width : Z;
  polynomial : Z;
  init_value : Z;
  final_xor_value : Z;
  reverse_input : bool;
  reverse_output : bool }.

Definition topbit (c : Configuration) : Z := Z.shiftl 1 (width c - 1).
Definition bitmask (c : Configuration) : Z := 2 ^ width c - 1.

(** Python truthiness of an [int]. *)
Definition truthy (x : Z) : bool := negb (x =? 0).

(** Modelled from the spec: bit reversal over [w] bits, for the absent
    reversal of the package; bit [w - 1 - index] of the result is bit
    [index] of [x]. *)
Definition reverse_bits (w x : Z) : Z :=
  fold_left
    (fun reversed_value index =>
       if truthy (Z.land (Z.shiftr x index) 1)
       then Z.lor reversed_value (Z.shiftl 1 ((w - 1) - index))
       else reversed_value)
    (range w) 0.

(** Modelled from the spec: one shift of the register of the absent
    calculator; the polynomial is xored in when a one leaves the register. *)
Definition shift_register (c : Configuration) (register : Z) : Z :=
  if truthy (Z.land register (topbit c))
  then Z.land (Z.lxor (Z.shiftl register 1) (polynomial c)) (bitmask c)
  else Z.land (Z.shiftl register 1) (bitmask c).

(** Modelled from the spec: the absent calculator on one byte; the byte is
    xored into the top eight bits of the register, which then shifts eight
    times. *)
Definition process_byte (c : Configuration) (register byte : Z) : Z :=
  let register := Z.land (Z.lxor register (Z.shiftl byte (width c - 8))) (bitmask c) in
  fold_left (fun register _ => shift_register c register) (range 8) register.

(** Modelled from the spec: the absent calculator on a byte string; every
    byte is bit-reversed first when the input is reflected. *)
Definition update (c : Configuration) (register : Z) (data : bytes) : Z :=
  fold_left
    (fun register b =>
       let byte := if reverse_input c then reverse_bits 8 (byte_val b) else byte_val b in
       process_byte c register byte)
    data register.

(** Modelled from the spec: the result of the absent calculator; the
    register, bit-reversed when the output is reflected, xored with the
    final value. *)
Definition digest (c : Configuration) (register : Z) : Z :=
  let register := if reverse_output c then reverse_bits (width c) register else register in
  Z.lxor register (final_xor_value c).

(** Modelled from the spec: the absent [crc.Calculator(c).checksum(data)],
    the 16-bit CRC that the parameter set [c] defines. *)
Definition checksum (c : Configuration) (data : bytes) : Z :=
  digest c (update c (Z.land (init_value c) (bitmask c)) data).

End Crc.

(** ** Reference checksums

    The two checksums as the specification defines them, written
    independently of the calculator above: the parameter sets of its
    Variant A and Variant B, and the two textbook bit-serial algorithms, one
    consuming every byte most significant bit first (the unreflected,
    CCITT-FALSE style) and one consuming it least significant bit first with
    the reversed polynomial (the reflected, Kermit style). *)

Module CrcReference.

Definition variant_A : Crc.Configuration := {|
  Crc.width := 16; Crc.polynomial := 0x1021;
  Crc.init_value := 0x0000; Crc.final_xor_value := 0x0000;
  Crc.reverse_input := false; Crc.reverse_output := false |}.

Definition variant_B : Crc.Configuration := {|
  Crc.width := 16; Crc.polynomial := 0x1021;
  Crc.init_value := 0xFFFF; Crc.final_xor_value := 0xFFFF;
  Crc.reverse_input := true; Crc.reverse_output := true |}.

(** The bits of a byte, most significant first. *)
Definition bits_msb_first (b : Z) : list bool :=
  map (Z.testbit b) [7; 6; 5; 4; 3; 2; 1; 0].

(** Unreflected: the bit leaving the register is compared with the next
    message bit, and the polynomial is xored in when they differ. *)
Definition msb_first_bit (crc : Z) (bit : bool) : Z :=
  let leaving := Z.testbit crc 15 in
  let crc := Z.land (Z.shiftl crc 1) 0xFFFF in
  if xorb leaving bit then Z.lxor crc 0x1021 else crc.

Definition ccitt_false_style (init xorout : Z) (data : bytes) : Z :=
  Z.lxor
    (fold_left (fun crc b => fold_left msb_first_bit (bits_msb_first (byte_val b)) crc)
               data init)
    xorout.

(** Reflected: the byte is xored into the low end and the register shifts
    right, with the bit-reversed polynomial 0x8408. *)
Definition lsb_first_shift (crc : Z) : Z :=
  if Z.odd crc then Z.lxor (Z.shiftr crc 1) 0x8408 else Z.shiftr crc 1.

Definition lsb_first_byte (crc : Z) (b : Z) : Z :=
  Nat.iter 8 lsb_first_shift (Z.lxor crc b).

Definition kermit_style (init xorout : Z) (data : bytes) : Z :=
  Z.lxor (fold_left (fun crc b => lsb_first_byte crc (byte_val b)) data init) xorout.

End CrcReference.

(** ** common.py *)

Module Common.

Definition CRC_CCITT : Crc.Configuration := {|
  Crc.width := 16;
  Crc.polynomial := 0x1021;
  Crc.init_value := 0x0000;
  Crc.final_xor_value := 0x0000;
  Crc.reverse_input := false;
  Crc.reverse_output := false |}.

Definition CRC_KERMIT : Crc.Configuration := {|
  Crc.width := 16;
  Crc.polynomial := 0x1021;
  Crc.init_value := 0xFFFF;
  Crc.final_xor_value := 0xFFFF;
  Crc.reverse_input := true;
  Crc.reverse_output := true |}.

Definition crc16_ccitt (data : bytes) : Z := Crc.checksum CRC_CCITT data.

Definition crc16_kermit (data : bytes) : Z := Crc.checksum CRC_KERMIT data.

(** [pad_to_multiple]: [%] and [//] are floor division, which [Z.modulo] and
    [Z.div] are too; a zero divisor raises. *)
Definition pad_to_multiple (data : bytes) (multiple : Z) (padding : bytes) : result bytes :=
  if negb (len padding =? 1) then Raise AssertionError
  else if multiple =? 0 then Raise ZeroDivisionError
  else if len data mod multiple =? 0 then Ok data
  else
    let num_complete_blocks := len data / multiple in
    let padded_size := multiple * (num_complete_blocks + 1) in
    Ok (data ++ bytes_mul padding (padded_size - len data)).

(** *** [StateMachine]

    Futures are objects of the event loop, shared between the machine's
    waiter lists and the tasks that await them: they live in a store by
    identity, and the lists hold identities. *)

Inductive future_state : Type :=
| FutPending
| FutDone                            (* [set_result(None)] was called *)
| FutCancelled.

Record StateMachine : Type := {
  _states : gset string;
  _state : string;
  _futures_for_state : gmap string (list nat) }.

(** A [defaultdict(list)] lookup: the stored list, or a new empty one. *)
Definition futures_for (sm : StateMachine) (state : string) : list nat :=
  default [] (_futures_for_state sm !! state).

(** [StateMachine(states, initial)] *)
Definition StateMachine_init (states : gset string) (initial : string)
  : result StateMachine :=
  if decide (initial ∈ states) then
    Ok {| _states := states; _state := initial; _futures_for_state := ∅ |}
  else
    Raise (ValueError [Lit "Unknown initial state "; FReprStr initial;
                       Lit ": expected "; FReprSet states]).

(** The [state] property. *)
Definition state (sm : StateMachine) : string := _state sm.

(** [future.set_result(None)]: only a pending future accepts a result. *)
Definition set_result (future : nat) (futures : gmap nat future_state)
  : result unit * gmap nat future_state :=
  match futures !! future with
  | Some FutPending => (Ok tt, <[future := FutDone]> futures)
  | _ => (Raise InvalidStateError, futures)
  end.

(** [for future in l: future.set_result(None)] *)
Fixpoint set_results (l : list nat) (futures : gmap nat future_state)
  : result unit * gmap nat future_state :=
  match l with
  | [] => (Ok tt, futures)
  | future :: l' =>
      match set_result future futures with
      | (Ok _, futures') => set_results l' futures'
      | (Raise e, futures') => (Raise e, futures')
      end
  end.

(** The [state] setter.  Reading [self._futures_for_state[state]] stores an
    empty list under a key that was missing. *)
Definition set_state (new_state : string) (sm : StateMachine)
    (futures : gmap nat future_state)
  : result unit * StateMachine * gmap nat future_state :=
  if decide (new_state ∈ _states sm) then
    let l := futures_for sm new_state in
    let sm' := {| _states := _states sm;
                  _state := new_state;
                  _futures_for_state := <[new_state := l]> (_futures_for_state sm) |} in
    let '(r, futures') := set_results l futures in
    (r, sm', futures')
  else
    (Raise (ValueError [Lit "Unknown state "; FReprStr new_state;
                        Lit ": expected "; FReprSet (_states sm)]),
     sm, futures).

(** What a call of the coroutine [wait_for_state] does up to its first
    suspension: it raises, returns at once, or registers a new future and
    suspends on it. *)
Inductive wait_step : Type :=
| WaitRaised (e : exn)
| WaitReturned
| WaitSuspended (future : nat).

Definition wait_for_state (wanted : string) (sm : StateMachine)
    (futures : gmap nat future_state)
  : wait_step * StateMachine * gmap nat future_state :=
  if decide (wanted ∈ _states sm) then
    if decide (state sm = wanted) then (WaitReturned, sm, futures)
    else
      let future := fresh (dom futures) in
      let sm' := {| _states := _states sm;
                    _state := _state sm;
                    _futures_for_state :=
                      <[wanted := futures_for sm wanted ++ [future]]>
                        (_futures_for_state sm) |} in
      (WaitSuspended future, sm', <[future := FutPending]> futures)
  else (WaitRaised AssertionError, sm, futures).

(** [l.remove(x)]: drops the first occurrence, and raises when there is none. *)
Fixpoint list_remove (x : nat) (l : list nat) : result (list nat) :=
  match l with
  | [] => Raise (ValueError [Lit "list.remove(x): x not in list"])
  | y :: l' =>
      if decide (y = x) then Ok l'
      else rbind (list_remove x l') (fun l'' => Ok (y :: l''))
  end.

(** The rest of [wait_for_state] once the awaited future has a result or the
    task was cancelled: the [finally] block removes the future from its list,
    then the coroutine returns or the cancellation propagates. *)
Definition wait_for_state_resume (wanted : string) (future : nat) (sm : StateMachine)
    (futures : gmap nat future_state)
  : result unit * StateMachine :=
  match list_remove future (futures_for sm wanted) with
  | Raise e => (Raise e, sm)
  | Ok l =>
      let sm' := {| _states := _states sm;
                    _state := _state sm;
                    _futures_for_state := <[wanted := l]> (_futures_for_state sm) |} in
      match futures !! future with
      | Some FutDone => (Ok tt, sm')
      | _ => (Raise CancelledError, sm')
      end
  end.

(** *** [put_first] *)

(** [e not in elements] compares with [==], a decidable equality here. *)
Definition put_first {A : Type} `{EqDecision A} (lst elements : list A) : list A :=
  elements ++ filter (fun e => e ∉ elements) lst.

(** *** Python's [str]

    A [str] is a [string], read as a sequence of code points below U+0100. *)

(** [ord(c)] *)
Definition ord (c : ascii) : Z := Z.of_N (N_of_ascii c).

(** [c.isspace()]: the ASCII white space, the separators U+001C to U+001F,
    U+0085 and U+00A0. *)
Definition char_isspace (c : ascii) : bool :=
  ((9 <=? ord c) && (ord c <=? 13)) || ((28 <=? ord c) && (ord c <=? 32))
  || (ord c =? 0x85) || (ord c =? 0xA0).

(** [c.isdecimal()]: the digits 0 to 9. *)
Definition char_isdecimal (c : ascii) : bool := (48 <=? ord c) && (ord c <=? 57).

(** [c.isdigit()]: the decimal digits and the superscripts U+00B2, U+00B3
    and U+00B9. *)
Definition char_isdigit (c : ascii) : bool :=
  char_isdecimal c || (ord c =? 0xB2) || (ord c =? 0xB3) || (ord c =? 0xB9).

Fixpoint str_all (p : ascii -> bool) (s : string) : bool :=
  match s with
  | EmptyString => true
  | String c s' => p c && str_all p s'
  end.

(** [s.isdigit()]: every character is a digit and there is at least one. *)
Definition isdigit (s : string) : bool :=
  match s with
  | EmptyString => false
  | _ => str_all char_isdigit s
  end.

(** [s.lstrip()], [s.rstrip()] and [s.strip()] *)
Fixpoint lstrip (s : string) : string :=
  match s with
  | EmptyString => EmptyString
  | String c s' => if char_isspace c then lstrip s' else s
  end.

Fixpoint rstrip (s : string) : string :=
  match s with
  | EmptyString => EmptyString
  | String c s' =>
      match rstrip s' with
      | EmptyString => if char_isspace c then EmptyString else String c EmptyString
      | t => String c t
      end
  end.

Definition strip (s : string) : string := rstrip (lstrip s).

(** [s.startswith(prefix)] *)
Fixpoint startswith (s prefix : string) {struct prefix} : bool :=
  match prefix with
  | EmptyString => true
  | String a prefix' =>
      match s with
      | EmptyString => false
      | String b s' => Ascii.eqb a b && startswith s' prefix'
      end
  end.

(** [s.split(sep)] for a separator of one character. *)
Fixpoint str_split (sep : ascii) (s : string) : list string :=
  match s with
  | EmptyString => [EmptyString]
  | String c s' =>
      if Ascii.eqb c sep then EmptyString :: str_split sep s'
      else
        match str_split sep s' with
        | piece :: rest => String c piece :: rest
        | [] => [String c EmptyString]
        end
  end.

(** *** [int(s, 10)]

    The literal may be surrounded by white space, for which [int] takes
    less than [str.isspace]: not the separators U+001C to U+001F.  It may
    start with one sign, and its digits may be separated by single
    underscores.  More than [sys.int_info.default_max_str_digits] digits
    are refused. *)

Definition char_int_space (c : ascii) : bool :=
  ((9 <=? ord c) && (ord c <=? 13)) || (ord c =? 32) || (ord c =? 0x85) || (ord c =? 0xA0).

Fixpoint skip_int_space (s : string) : string :=
  match s with
  | EmptyString => EmptyString
  | String c s' => if char_int_space c then skip_int_space s' else s
  end.

Definition max_str_digits : Z := 4300.

(** The digits of a literal: its value, the number of its digits and the
    text behind it; nothing when there is no digit, or an underscore that
    does not stand between two digits. *)
Fixpoint int_digits (after_digit : bool) (value ndigits : Z) (s : string)
  : option (Z * Z * string) :=
  match s with
  | EmptyString => if after_digit then Some (value, ndigits, EmptyString) else None
  | String c s' =>
      if char_isdecimal c then int_digits true (10 * value + (ord c - 48)) (ndigits + 1) s'
      else if Ascii.eqb c "_" then
        if after_digit then int_digits false value ndigits s' else None
      else if after_digit then Some (value, ndigits, s) else None
  end.

(** The sign in front of the digits. *)
Definition int_sign (literal : string) : bool * string :=
  match literal with
  | String "+" rest => (false, rest)
  | String "-" rest => (true, rest)
  | _ => (false, literal)
  end.

Definition int_base10 (s : string) : result Z :=
  let invalid :=
    Raise (ValueError [Lit "invalid literal for int() with base 10: "; FReprStr s]) in
  let '(negative, digits) := int_sign (skip_int_space s) in
  match int_digits false 0 0 digits with
  | None => invalid
  | Some (value, ndigits, rest) =>
      if ndigits >? max_str_digits then
        Raise (ValueError [Lit "Exceeds the limit (4300 digits) for integer string conversion: value has ";
                           FInt ndigits;
                           Lit " digits; use sys.set_int_max_str_digits() to increase the limit"])
      else
        match skip_int_space rest with
        | EmptyString => Ok (if negative then - value else value)
        | _ => invalid
        end
  end.

(** *** [CommaSeparatedNumbers] *)

(** What [convert] does: it returns the numbers, or raises
    [click.BadParameter]. *)
Inductive converted : Type :=
| Numbers (values : list Z)
| BadParameter (message : list fpart).

(** The loop of [convert] over the pieces of the value. *)
Fixpoint convert_loop (pieces : list string) (values : list Z) : converted :=
  match pieces with
  | [] => Numbers values
  | v :: pieces' =>
      match strip v with
      | EmptyString => convert_loop pieces' values
      | _ =>
          match int_base10 v with
          | Ok n => convert_loop pieces' (values ++ [n])
          | Raise _ =>
              BadParameter [Lit "Comma-separated list of numbers contains bad value: ";
                            FReprStr v]
          end
      end
  end.

(** [CommaSeparatedNumbers().convert(value, param, ctx)]: a value that is a
    list already is returned as it is. *)
Definition convert (value : list Z + string) : converted :=
  match value with
  | inl numbers => Numbers numbers
  | inr text => convert_loop (str_split "," text) []
  end.

(** *** [VersionComponent] *)

(** [str | int] *)
Inductive str_or_int : Type :=
| Str (s : string)
| Int (n : Z).

Record VersionComponent : Type := {
  comparable : bool;
  data : str_or_int }.

#[global] Instance str_or_int_eq_dec : EqDecision str_or_int.
Proof. solve_decision. Defined.

#[global] Instance VersionComponent_eq_dec : EqDecision VersionComponent.
Proof. solve_decision. Defined.

(** [a < b] for two values of a [data] field; a [str] and an [int] do not
    compare: [None] stands for the [TypeError]. *)
Definition data_lt (a b : str_or_int) : option bool :=
  match a, b with
  | Int x, Int y => Some (x <? y)
  | Str x, Str y => Some (String.ltb x y)
  | _, _ => None
  end.

(** The [__lt__] that [dataclass(order=True)] generates: the tuples
    [(comparable, data)] are compared, where [False < True]. *)
Definition VersionComponent_lt (self other : VersionComponent) : option bool :=
  if negb (Bool.eqb (comparable self) (comparable other)) then
    Some (negb (comparable self) && comparable other)
  else if decide (data self = data other) then Some false
  else data_lt (data self) (data other).

(** [a < b] for two tuples of components: the first place where they differ
    decides, and a proper initial part is smaller. *)
Fixpoint tuple_lt (a b : list VersionComponent) : option bool :=
  match a, b with
  | x :: a', y :: b' => if decide (x = y) then tuple_lt a' b' else VersionComponent_lt x y
  | [], _ :: _ => Some true
  | _, [] => Some false
  end.

(** *** [Version] *)

(** The set [_SEPARATORS], in one of the orders in which it can be iterated. *)
Definition _SEPARATORS : list string := ["."; "-"; "/"; "_"; " build "].

(** The regular expression built from a list of separators is one group of
    literal alternatives: at a position it matches the first separator of
    the list that the text starts with. *)
Fixpoint match_at (separators : list string) (s : string) : option string :=
  match separators with
  | [] => None
  | sep :: separators' => if startswith s sep then Some sep else match_at separators' s
  end.

(** [regex.split(s)] for such an expression: the text between the matches
    and, because of the group, the separators themselves, none of which is
    empty.  [piece] is the text since the last match; [skip] counts the
    characters of a separator that was matched and emitted and that the
    scan has not yet passed. *)
Fixpoint re_split (separators : list string) (skip : nat) (piece s : string)
  : list string :=
  match s with
  | EmptyString => [piece]
  | String c s' =>
      match skip with
      | S skip' => re_split separators skip' piece s'
      | O =>
          match match_at separators s with
          | Some sep =>
              piece :: sep :: re_split separators (String.length sep - 1) EmptyString s'
          | None => re_split separators 0 (piece +:+ String c EmptyString) s'
          end
      end
  end.

(** [_SEPARATORS_REGEX.split(version)] *)
Definition _SEPARATORS_REGEX_split (version : string) : list string :=
  re_split _SEPARATORS 0 EmptyString version.

Record Version : Type := {
  components : list VersionComponent }.

(** The body of the loop of [Version.__init__]. *)
Definition Version_component (component : string) : result VersionComponent :=
  if isdigit component then
    rbind (int_base10 component) (fun n => Ok {| comparable := true; data := Int n |})
  else Ok {| comparable := false; data := Str component |}.

(** The loop of [Version.__init__] over the pieces. *)
Fixpoint Version_init_loop (pieces : list string) : result (list VersionComponent) :=
  match pieces with
  | [] => Ok []
  | component :: pieces' =>
      rbind (Version_component component) (fun c =>
      rbind (Version_init_loop pieces') (fun cs => Ok (c :: cs)))
  end.

(** [Version(version)] *)
Definition Version_init (version : string) : result Version :=
  rbind (Version_init_loop (_SEPARATORS_REGEX_split version)) (fun cs =>
  Ok {| components := cs |}).

Definition comparable_components (self : Version) : list VersionComponent :=
  filter (fun c => comparable c = true) (components self).

Definition compatible_with (self other : Version) : bool :=
  let our_comparable := comparable_components self in
  let their_comparable := comparable_components other in
  let prefix_length := Nat.min (length our_comparable) (length their_comparable) in
  bool_decide (take prefix_length our_comparable = take prefix_length their_comparable).

(** [Version.__eq__] and [Version.__lt__], for another [Version]. *)
Definition Version_eq (self other : Version) : bool :=
  bool_decide (components self = components other).

Definition Version_lt (self other : Version) : option bool :=
  tuple_lt (comparable_components self) (comparable_components other).

(** The comparisons that [functools.total_ordering] adds: [a > b] is
    [not a < b and a != b], [a <= b] is [a < b or a == b], and [a >= b] is
    [not a < b]; [a != b] is the negation of [a == b]. *)
Definition Version_ne (self other : Version) : bool := negb (Version_eq self other).

Definition Version_gt (self other : Version) : option bool :=
  match Version_lt self other with
  | Some op_result => Some (negb op_result && Version_ne self other)
  | None => None
  end.

Definition Version_le (self other : Version) : option bool :=
  match Version_lt self other with
  | Some op_result => Some (op_result || Version_eq self other)
  | None => None
  end.

Definition Version_ge (self other : Version) : option bool :=
  match Version_lt self other with
  | Some op_result => Some (negb op_result)
  | None => None
  end.

End Common.

(** ** The transport, the stream reader and the coroutine monad

    [send_xmodem128_crc] talks to the receiver through an
    [asyncio.Transport], an [asyncio.StreamReader] that it attaches to the
    transport, and an [asyncio.StreamWriter].  Their state is one record.
    The receiver and the event loop are the environment: [incoming] lists
    what the loop delivers each time the coroutine has to wait for more
    input (the bytes fed to the reader since the last wait, or the exception
    that the wait raises, such as a cancellation of the task or the end of
    the stream), and [drains] how each [await writer.drain()] ends: the
    flush completes, raises, or never completes.  When [incoming] is
    exhausted, or a flush never completes, the coroutine stays suspended.
    [trace] records, in order, what the coroutine did. *)

Inductive protocol : Type :=
| CallerProtocol (id : nat)          (* whatever the caller had attached *)
| StreamReaderProtocol.              (* the one [send_xmodem128_crc] creates *)

Inductive event : Type :=
| Feed (chunk : bytes)
| Throw (e : exn).

Inductive io : Type :=
| SetProtocol (p : protocol)         (* transport.set_protocol(p) *)
| ReadUntil (chunk : bytes)          (* reader.readuntil(b"C") returned chunk *)
| BufferClear (dropped : bytes)      (* reader._buffer.clear() *)
| Progress (done total : Z)          (* progress_callback(done, total) *)
| Wr (data : bytes)                  (* writer.write(data) *)
| Rd (b : byte).                     (* reader.readexactly(1) returned bytes([b]) *)

(** How a coroutine ends: it returns, raises, or never resumes. *)
Inductive outcome (A : Type) : Type :=
| Returned (a : A)
| Raised (e : exn)
| Suspended.
Arguments Returned {A} a.
Arguments Raised {A} e.
Arguments Suspended {A}.

Record World : Type := {
  w_protocol : protocol;
  w_incoming : list event;
  w_drains : list (outcome unit);
  w_buffer : bytes;
  w_trace : list io }.

Definition log (x : io) (w : World) : World :=
  {| w_protocol := w_protocol w; w_incoming := w_incoming w; w_drains := w_drains w;
     w_buffer := w_buffer w; w_trace := w_trace w ++ [x] |}.

Definition with_protocol (p : protocol) (w : World) : World :=
  {| w_protocol := p; w_incoming := w_incoming w; w_drains := w_drains w;
     w_buffer := w_buffer w; w_trace := w_trace w |}.

Definition with_reader (buf : bytes) (evs : list event) (w : World) : World :=
  {| w_protocol := w_protocol w; w_incoming := evs; w_drains := w_drains w;
     w_buffer := buf; w_trace := w_trace w |}.

Definition with_drains (ds : list (outcome unit)) (w : World) : World :=
  {| w_protocol := w_protocol w; w_incoming := w_incoming w; w_drains := ds;
     w_buffer := w_buffer w; w_trace := w_trace w |}.

Definition M (A : Type) : Type := World -> outcome A * World.

Definition ret {A : Type} (a : A) : M A := fun w => (Returned a, w).

Definition raise_ {A : Type} (e : exn) : M A := fun w => (Raised e, w).

Definition bind {A B : Type} (m : M A) (k : A -> M B) : M B :=
  fun w =>
    match m w with
    | (Returned a, w') => k a w'
    | (Raised e, w') => (Raised e, w')
    | (Suspended, w') => (Suspended, w')
    end.

Declare Scope coro_scope.
Delimit Scope coro_scope with coro.
Notation "x <- m ;; k" := (bind m (fun x => k))
  (at level 100, m at next level, k at level 200, right associativity) : coro_scope.
Notation "m ;; k" := (bind m (fun _ => k))
  (at level 100, k at level 200, right associativity) : coro_scope.
Local Open Scope coro_scope.

(** A call of a function that returns or raises. *)
Definition lift {A : Type} (r : result A) : M A :=
  match r with
  | Ok a => ret a
  | Raise e => raise_ e
  end.

(** [try: body finally: cleanup].  A coroutine that never resumes does not
    reach its [finally] block. *)
Definition try_finally {A : Type} (body : M A) (cleanup : M unit) : M A :=
  fun w =>
    match body w with
    | (Suspended, w') => (Suspended, w')
    | (r, w') =>
        match cleanup w' with
        | (Returned _, w'') => (r, w'')
        | (Raised e, w'') => (Raised e, w'')
        | (Suspended, w'') => (Suspended, w'')
        end
    end.

(** [for x in l: body], where the body may [return] from the function. *)
Inductive flow : Type :=
| Next
| Return_.

Fixpoint for_in {A : Type} (l : list A) (body : A -> M flow) : M flow :=
  match l with
  | [] => ret Next
  | x :: l' =>
      f <- body x ;;
      match f with
      | Next => for_in l' body
      | Return_ => ret Return_
      end
  end.

Definition get_protocol : M protocol := fun w => (Returned (w_protocol w), w).

Definition set_protocol (p : protocol) : M unit :=
  fun w => (Returned tt, log (SetProtocol p) (with_protocol p w)).

(** [asyncio.StreamReader(limit=65536, loop=loop)]: a reader with an empty buffer. *)
Definition limit : Z := 65536.

Definition new_stream_reader : M unit :=
  fun w => (Returned tt, with_reader [] (w_incoming w) w).

(** [writer.write(data)] *)
Definition write (data : bytes) : M unit := fun w => (Returned tt, log (Wr data) w).

(** [await writer.drain()]: a wait for the transport to take what was
    written.  It ends as the environment says, and completes at once when
    the environment says nothing. *)
Definition drain : M unit :=
  fun w =>
    match w_drains w with
    | [] => (Returned tt, w)
    | r :: ds => (r, with_drains ds w)
    end.

(** Waiting on an empty buffer until one byte is there. *)
Fixpoint wait_for_byte (evs : list event) : outcome (byte * bytes) * list event :=
  match evs with
  | [] => (Suspended, [])
  | Throw e :: evs' => (Raised e, evs')
  | Feed [] :: evs' => wait_for_byte evs'
  | Feed (b :: rest) :: evs' => (Returned (b, rest), evs')
  end.

(** The loop of [StreamReader.readexactly] for one byte: take it from the
    buffer, or wait until there is one. *)
Definition readexactly_loop (buf : bytes) (evs : list event)
  : outcome byte * bytes * list event :=
  match buf with
  | b :: rest => (Returned b, rest, evs)
  | [] =>
      match wait_for_byte evs with
      | (Returned (b, rest), evs') => (Returned b, rest, evs')
      | (Raised e, evs') => (Raised e, [], evs')
      | (Suspended, evs') => (Suspended, [], evs')
      end
  end.

(** [await reader.readexactly(1)], as the byte it returns. *)
Definition readexactly_1 : M byte :=
  fun w =>
    match readexactly_loop (w_buffer w) (w_incoming w) with
    | (Returned b, buf, evs) => (Returned b, log (Rd b) (with_reader buf evs w))
    | (Raised e, buf, evs) => (Raised e, with_reader buf evs w)
    | (Suspended, buf, evs) => (Suspended, with_reader buf evs w)
    end.

(** [buf.find(sep)] *)
Fixpoint find_byte (sep : byte) (buf : bytes) : option nat :=
  match buf with
  | [] => None
  | b :: buf' =>
      if Byte.eqb b sep then Some O
      else match find_byte sep buf' with
           | Some i => Some (S i)
           | None => None
           end
  end.

(** The loop of [StreamReader.readuntil] for a one-byte separator: search
    the buffer; give up when the text before the separator is longer than
    the limit; otherwise wait for more input. *)
Fixpoint readuntil_loop (sep : byte) (buf : bytes) (evs : list event)
  : outcome bytes * bytes * list event :=
  match find_byte sep buf with
  | Some isep =>
      if Z.of_nat isep >? limit then (Raised LimitOverrunError, buf, evs)
      else (Returned (firstn (S isep) buf), skipn (S isep) buf, evs)
  | None =>
      if len buf >? limit then (Raised LimitOverrunError, buf, evs)
      else
        match evs with
        | [] => (Suspended, buf, [])
        | Throw e :: evs' => (Raised e, buf, evs')
        | Feed chunk :: evs' => readuntil_loop sep (buf ++ chunk) evs'
        end
  end.

(** [await reader.readuntil(sep)] *)
Definition readuntil (sep : byte) : M bytes :=
  fun w =>
    match readuntil_loop sep (w_buffer w) (w_incoming w) with
    | (Returned chunk, buf, evs) =>
        (Returned chunk, log (ReadUntil chunk) (with_reader buf evs w))
    | (Raised e, buf, evs) => (Raised e, with_reader buf evs w)
    | (Suspended, buf, evs) => (Suspended, with_reader buf evs w)
    end.

(** [reader._buffer.clear()] *)
Definition buffer_clear : M unit :=
  fun w => (Returned tt, log (BufferClear (w_buffer w)) (with_reader [] (w_incoming w) w)).

(** A progress callback returns or raises. *)
Definition callback : Type := Z -> Z -> result unit.

(** [if progress_callback is not None: progress_callback(done, total)] *)
Definition call_progress (progress_callback : option callback) (done total : Z) : M unit :=
  match progress_callback with
  | None => ret tt
  | Some f => fun w => lift (f done total) (log (Progress done total) w)
  end.

(** ** xmodemcrc.py *)

Module Xmodemcrc.

Definition BLOCK_SIZE : Z := 128.

Inductive Symbol : Type :=
| SOH                                (* Start of Header *)
| EOT                                (* End of Transmission *)
| CAN                                (* Cancel *)
| ETB                                (* End of Transmission Block *)
| ACK                                (* Acknowledge *)
| NAK.                               (* Not Acknowledge *)

Definition Symbol_value (s : Symbol) : Z :=
  match s with
  | SOH => 0x01
  | EOT => 0x04
  | CAN => 0x18
  | ETB => 0x17
  | ACK => 0x06
  | NAK => 0x15
  end.

(** [bytes([x, ...])]: every element has to be in [range(256)]. *)
Definition byte_of_int (x : Z) : result byte :=
  match (if (0 <=? x) && (x <? 256) then Byte.of_N (Z.to_N x) else None) with
  | Some b => Ok b
  | None => Raise (ValueError [Lit "bytes must be in range(0, 256)"])
  end.

Fixpoint bytes_of_ints (l : list Z) : result bytes :=
  match l with
  | [] => Ok []
  | x :: l' =>
      rbind (byte_of_int x) (fun b =>
      rbind (bytes_of_ints l') (fun bs => Ok (b :: bs)))
  end.

(** [x.to_bytes(2, "big")] *)
Definition to_bytes_2_big (x : Z) : result bytes :=
  if x <? 0 then Raise OverflowError
  else if 2 ^ 16 <=? x then Raise OverflowError
  else bytes_of_ints [Z.shiftr x 8; Z.land x 0xFF].

Record Xmodem128CRCPacket : Type := {
  number : Z;
  payload : bytes }.

Definition serialize (self : Xmodem128CRCPacket) : result bytes :=
  rbind (bytes_of_ints [Symbol_value SOH; number self; 0xFF - number self]) (fun header =>
  rbind (to_bytes_2_big (Common.crc16_ccitt (payload self))) (fun crc =>
  Ok (header ++ payload self ++ crc))).

Definition send_xmodem128_crc_data (data : bytes) (max_failures : Z) : M unit :=
  for_in (range (max_failures + 1)) (fun attempt =>
    (* Send off the data *)
    write data ;;
    drain ;;
    (* And wait for a response *)
    rsp_byte <- readexactly_1 ;;
    if byte_val rsp_byte =? Symbol_value ACK then ret Return_
    else if byte_val rsp_byte =? Symbol_value NAK then
      if attempt >=? max_failures then
        raise_ (ValueError [Lit "Received "; FInt max_failures;
                            Lit " consecutive failures"])
      else ret Next
    else if byte_val rsp_byte =? Symbol_value CAN then raise_ ReceiverCancelled
    else raise_ (ValueError [Lit "Invalid response: "; FReprBytes [rsp_byte]])) ;;
  ret tt.

Definition send_xmodem128_crc (data : bytes) (max_failures : Z)
    (progress_callback : option callback) : M unit :=
  if negb (len data mod BLOCK_SIZE =? 0) then
    raise_ (ValueError [Lit "Data length must be divisible by "; FInt BLOCK_SIZE;
                        Lit ": "; FInt (len data)])
  else
    new_stream_reader ;;
    (* Swap protocols *)
    old_protocol <- get_protocol ;;
    set_protocol StreamReaderProtocol ;;
    try_finally
      ((* Read until the first ASCII "C" *)
       readuntil "C"%byte ;;
       call_progress progress_callback 0 (len data) ;;
       buffer_clear ;;
       for_in (range (len data / BLOCK_SIZE)) (fun index =>
         let packet := {| number := Z.land (index + 1) 0xFF;
                          payload := slice data (BLOCK_SIZE * index)
                                                (BLOCK_SIZE * (index + 1)) |} in
         (* Send off the packet *)
         serialized <- lift (serialize packet) ;;
         send_xmodem128_crc_data serialized max_failures ;;
         call_progress progress_callback ((index + 1) * BLOCK_SIZE) (len data) ;;
         ret Next) ;;
       (* Once we are done, finalize the transmission *)
       eot <- lift (bytes_of_ints [Symbol_value EOT]) ;;
       send_xmodem128_crc_data eot max_failures)
      ((* Reset the old protocol *)
       set_protocol old_protocol).

End Xmodemcrc.

(** ** The wire format, as the specification words it

    Written independently of [serialize]: SOH, the sequence number, its
    complement, the payload, and the Variant A checksum of the payload, most
    significant byte first. *)

Module WireFormat.

(** The byte with a given value in [0, 255]. *)
Definition byte_of_Z (z : Z) : byte := default "000"%byte (Byte.of_N (Z.to_N z)).

Definition checksum_bytes (payload : bytes) : bytes :=
  let crc := Crc.checksum CrcReference.variant_A payload in
  [byte_of_Z (crc / 256); byte_of_Z (crc mod 256)].

Definition packet (seq_no : Z) (payload : bytes) : bytes :=
  [byte_of_Z 0x01; byte_of_Z seq_no; byte_of_Z (255 - seq_no)]
  ++ payload ++ checksum_bytes payload.

(** The block with 0-based index [i] of the data. *)
Definition block (data : bytes) (i : Z) : bytes := slice data (128 * i) (128 * (i + 1)).

(** The packet for the block with 0-based index [i]. *)
Definition block_packet (data : bytes) (i : Z) : bytes :=
  packet ((i + 1) mod 256) (block data i).

(** The single byte that ends the transmission. *)
Definition end_of_transmission : bytes := [byte_of_Z 0x04].

(** The big-endian integer that two bytes encode. *)
Definition int_from_bytes_2_big (b : bytes) : Z :=
  match b with
  | [hi; lo] => 256 * byte_val hi + byte_val lo
  | _ => -1
  end.

End WireFormat.

(** ** The failures of the transfer, as the specification names them *)

Module Failure.

(** [InvalidInput]: the length of the data is not a multiple of the block size. *)
Definition InvalidInput (length : Z) : exn :=
  ValueError [Lit "Data length must be divisible by "; FInt 128; Lit ": "; FInt length].

(** [TooManyFailures]: more consecutive NAKs than the bound allows. *)
Definition TooManyFailures (max_failures : Z) : exn :=
  ValueError [Lit "Received "; FInt max_failures; Lit " consecutive failures"].

(** [ProtocolViolation]: a response that is none of ACK, NAK and CAN. *)
Definition ProtocolViolation (rsp : byte) : exn :=
  ValueError [Lit "Invalid response: "; FReprBytes [rsp]].

End Failure.

(** ** Describing the receiver and the event loop *)

Module Receiver.

Import Xmodemcrc.

(** The byte of a protocol symbol. *)
Definition symbol_byte (s : Symbol) : byte := WireFormat.byte_of_Z (Symbol_value s).

(** The next responses that the reader hands out, one byte per
    [readexactly(1)], are [rsps]; they leave the reader with buffer [buf']
    and the environment with [evs']. *)
Inductive answers : bytes -> list event -> list byte -> bytes -> list event -> Prop :=
| answers_nil buf evs : answers buf evs [] buf evs
| answers_cons buf evs b buf1 evs1 rsps buf' evs' :
    readexactly_loop buf evs = (Returned b, buf1, evs1) ->
    answers buf1 evs1 rsps buf' evs' ->
    answers buf evs (b :: rsps) buf' evs'.

(** Every [await writer.drain()] completes. *)
Definition quiet (w : World) : Prop := Forall (fun d => d = Returned tt) (w_drains w).

(** The progress callback, when there is one, returns. *)
Definition returns (progress_callback : option callback) : Prop :=
  forall f, progress_callback = Some f -> forall done total, f done total = Ok tt.

(** The handshake byte arrives: waiting on a new reader for the first "C"
    ends with the text [chunk] up to it, [rest] left in the buffer. *)
Definition handshake (evs : list event) (chunk rest : bytes) (evs' : list event) : Prop :=
  readuntil_loop "C"%byte [] evs = (Returned chunk, rest, evs').

(** What the trace holds. *)
Definition writes_of (t : list io) : list bytes :=
  flat_map (fun x => match x with Wr d => [d] | _ => [] end) t.

Definition progress_of (t : list io) : list (Z * Z) :=
  flat_map (fun x => match x with Progress a b => [(a, b)] | _ => [] end) t.

(** The trace of an exchange with [k] NAKs before the response [f]. *)
Definition retried (data : bytes) (k : nat) (f : byte) : list io :=
  concat (repeat [Wr data; Rd (symbol_byte NAK)] k) ++ [Wr data; Rd f].

End Receiver.

(** ** Whole runs of the sender, described from outside *)

Module Run.

Import Xmodemcrc WireFormat Receiver.

(** What a supplied callback adds to the trace when it is called. *)
Definition progress_events (progress_callback : option callback) (done total : Z)
  : list io :=
  match progress_callback with
  | None => []
  | Some _ => [Progress done total]
  end.

(** The responses of a receiver that answers the block with index [i] by
    [ks !! i] NAKs and then ACK. *)
Definition responses (ks : list nat) : list byte :=
  flat_map (fun k => repeat (symbol_byte NAK) k ++ [symbol_byte ACK]) ks.

(** The trace of the blocks [i], [i + 1], ... sent against such a receiver. *)
Fixpoint blocks_trace (data : bytes) (progress_callback : option callback)
    (i : nat) (ks : list nat) : list io :=
  match ks with
  | [] => []
  | k :: ks' =>
      retried (block_packet data (Z.of_nat i)) k (symbol_byte ACK)
      ++ progress_events progress_callback ((Z.of_nat i + 1) * 128) (len data)
      ++ blocks_trace data progress_callback (S i) ks'
  end.

(** What these blocks put on the wire: every block once, and once more for
    every NAK. *)
Fixpoint blocks_writes (data : bytes) (i : nat) (ks : list nat) : list bytes :=
  match ks with
  | [] => []
  | k :: ks' => repeat (block_packet data (Z.of_nat i)) (S k) ++ blocks_writes data (S i) ks'
  end.

(** The data of the call of [send_xmodem128_crc_data] that follows [j]
    acknowledged blocks: the next block, or the end of the transmission. *)
Definition next_data (data : bytes) (j : nat) : bytes :=
  if (j <? Z.to_nat (len data / 128))%nat then block_packet data (Z.of_nat j)
  else end_of_transmission.

(** The calls of the progress callback in a transfer of [n] blocks. *)
Definition progress_calls (data : bytes) (n : Z) : list (Z * Z) :=
  (0, len data) :: map (fun i => ((i + 1) * 128, len data)) (range n).

(** What the transfer does before the first block: the handshake. *)
Definition opening (data : bytes) (progress_callback : option callback)
    (chunk rest : bytes) : list io :=
  [ReadUntil chunk]
  ++ progress_events progress_callback 0 (len data)
  ++ [BufferClear rest].

(** The state in which the [try] statement is entered: a new reader, and
    its protocol attached to the transport. *)
Definition swapped (w : World) : World :=
  log (SetProtocol StreamReaderProtocol)
      (with_protocol StreamReaderProtocol (with_reader [] (w_incoming w) w)).

(** The state after the [finally] block. *)
Definition restored (old_protocol : protocol) (w : World) : World :=
  log (SetProtocol old_protocol) (with_protocol old_protocol w).

End Run.

(** ** Notions that the statements and their proofs use *)

Section Notions.
Import Crc CrcReference Common Xmodemcrc WireFormat Failure Receiver Run.

(** Exhaustive checks over the integers of [n] bits, by halving. *)
Fixpoint check_bits (n : nat) (P : Z -> bool) : bool :=
  match n with
  | O => P 0
  | S n => check_bits n (fun x => P (2 * x)) && check_bits n (fun x => P (2 * x + 1))
  end.

(** The bits of the byte that are still to enter the register after [k]
    shifts, in the position where the calculator holds them. *)
Definition pending (b k : Z) : Z := Z.shiftl (Z.land b (Z.ones (8 - k))) (8 + k).

(** [w'] is [w] after the coroutine did [t], with the same protocol attached. *)
Definition evolves (w w' : World) (t : list io) : Prop :=
  w_trace w' = w_trace w ++ t /\ w_protocol w' = w_protocol w.

(** The body of the retry loop. *)
Definition attempt (data : bytes) (max_failures : Z) (attempt : Z) : M flow :=
  write data ;;
  drain ;;
  rsp_byte <- readexactly_1 ;;
  if byte_val rsp_byte =? Symbol_value ACK then ret Return_
  else if byte_val rsp_byte =? Symbol_value NAK then
    if attempt >=? max_failures then raise_ (TooManyFailures max_failures)
    else ret Next
  else if byte_val rsp_byte =? Symbol_value CAN then raise_ ReceiverCancelled
  else raise_ (ProtocolViolation rsp_byte).

(** How an attempt that got the response [b] ends. *)
Definition respond (max_failures attempt : Z) (b : byte) : outcome flow :=
  if byte_val b =? Symbol_value ACK then Returned Return_
  else if byte_val b =? Symbol_value NAK then
    if attempt >=? max_failures then Raised (TooManyFailures max_failures)
    else Returned Next
  else if byte_val b =? Symbol_value CAN then Raised ReceiverCancelled
  else Raised (ProtocolViolation b).

Definition returned {A : Type} (r : outcome A) : Prop := exists a, r = Returned a.

(** Forgetting the value a coroutine returned. *)
Definition forget {A : Type} (r : outcome A) : outcome unit :=
  match r with
  | Returned _ => Returned tt
  | Raised e => Raised e
  | Suspended => Suspended
  end.

(** What one call of [send_xmodem128_crc_data] adds to the trace, and how
    it ends: every attempt writes the data; an attempt that reads NAK is
    followed by another one unless it was the last. *)
Inductive exchange (data : bytes) (max_failures : Z) : outcome unit -> list io -> Prop :=
| exchange_unanswered r :
    ~ returned r -> exchange data max_failures r [Wr data]
| exchange_ack b :
    byte_val b = Symbol_value ACK ->
    exchange data max_failures (Returned tt) [Wr data; Rd b]
| exchange_retry b r t :
    byte_val b = Symbol_value NAK ->
    exchange data max_failures r t ->
    exchange data max_failures r (Wr data :: Rd b :: t)
| exchange_too_many b :
    byte_val b = Symbol_value NAK ->
    exchange data max_failures (Raised (TooManyFailures max_failures)) [Wr data; Rd b]
| exchange_cancel b :
    byte_val b = Symbol_value CAN ->
    exchange data max_failures (Raised ReceiverCancelled) [Wr data; Rd b]
| exchange_invalid b :
    byte_val b <> Symbol_value ACK -> byte_val b <> Symbol_value NAK ->
    byte_val b <> Symbol_value CAN ->
    exchange data max_failures (Raised (ProtocolViolation b)) [Wr data; Rd b].

(** The response to a write decides what follows it. *)
Definition classified (data : bytes) (max_failures : Z) (r : outcome unit)
    (b : byte) (post : list io) : Prop :=
  (byte_val b = Symbol_value ACK -> post = [] /\ r = Returned tt) /\
  (byte_val b = Symbol_value NAK ->
     (post = [] /\ r = Raised (TooManyFailures max_failures)) \/
     (exists post', post = Wr data :: post')) /\
  (byte_val b = Symbol_value CAN -> post = [] /\ r = Raised ReceiverCancelled) /\
  (byte_val b <> Symbol_value ACK -> byte_val b <> Symbol_value NAK ->
   byte_val b <> Symbol_value CAN -> post = [] /\ r = Raised (ProtocolViolation b)).

(** How a response other than NAK ends the call. *)
Definition verdict (f : byte) : outcome unit :=
  if byte_val f =? Symbol_value ACK then Returned tt
  else if byte_val f =? Symbol_value CAN then Raised ReceiverCancelled
  else Raised (ProtocolViolation f).

(** The body of the loop over the blocks. *)
Definition block_body (data : bytes) (max_failures : Z)
    (progress_callback : option callback) (index : Z) : M flow :=
  let packet := {| number := Z.land (index + 1) 0xFF;
                   payload := slice data (BLOCK_SIZE * index)
                                         (BLOCK_SIZE * (index + 1)) |} in
  serialized <- lift (serialize packet) ;;
  send_xmodem128_crc_data serialized max_failures ;;
  call_progress progress_callback ((index + 1) * BLOCK_SIZE) (len data) ;;
  ret Next.

(** The body of the [try] statement. *)
Definition transfer (data : bytes) (max_failures : Z)
    (progress_callback : option callback) : M unit :=
  readuntil "C"%byte ;;
  call_progress progress_callback 0 (len data) ;;
  buffer_clear ;;
  for_in (range (len data / BLOCK_SIZE)) (block_body data max_failures progress_callback) ;;
  eot <- lift (bytes_of_ints [Symbol_value EOT]) ;;
  send_xmodem128_crc_data eot max_failures.

(** [w'] is [w] after the coroutine did [t]: the reader is at [buf] and
    [evs], and the flushes to come still complete. *)
Definition lands (w w' : World) (t : list io) (buf : bytes) (evs : list event) : Prop :=
  evolves w w' t /\ w_buffer w' = buf /\ w_incoming w' = evs /\ quiet w'.

(** A response that ends the transfer at once, and the failure it causes. *)
Definition fatal (b : byte) : Prop :=
  byte_val b <> Symbol_value ACK /\ byte_val b <> Symbol_value NAK.

Definition failure_of (b : byte) : exn :=
  if byte_val b =? Symbol_value CAN then ReceiverCancelled else ProtocolViolation b.

(** In [t] every read follows a write, and a fatal response is the last
    thing in it and decides the outcome [r]. *)
Definition settled (r : outcome unit) (t : list io) : Prop :=
  forall pre b post, t = pre ++ Rd b :: post ->
    (exists pre' d, pre = pre' ++ [Wr d]) /\
    (fatal b -> post = [] /\ r = Raised (failure_of b)).

(** In [t] every read follows a write, and no response is fatal. *)
Definition benign (t : list io) : Prop :=
  forall pre b post, t = pre ++ Rd b :: post ->
    (exists pre' d, pre = pre' ++ [Wr d]) /\ ~ fatal b.

Definition no_reads (t : list io) : Prop := forall b, ~ In (Rd b) t.

(** The calls of [send_xmodem128_crc_data] from the block with index [i]
    on, with [m] blocks left, up to the end of the transmission. *)
Inductive session (data : bytes) (max_failures : Z) (progress_callback : option callback)
  : nat -> nat -> outcome unit -> list io -> Prop :=
| session_eot i r t :
    exchange end_of_transmission max_failures r t ->
    session data max_failures progress_callback i 0 r t
| session_abort i m r t :
    exchange (block_packet data (Z.of_nat i)) max_failures r t -> ~ returned r ->
    session data max_failures progress_callback i (S m) r t
| session_callback i m t f e :
    exchange (block_packet data (Z.of_nat i)) max_failures (Returned tt) t ->
    progress_callback = Some f ->
    f ((Z.of_nat i + 1) * 128) (len data) = Raise e ->
    session data max_failures progress_callback i (S m) (Raised e)
            (t ++ [Progress ((Z.of_nat i + 1) * 128) (len data)])
| session_next i m t r t' :
    exchange (block_packet data (Z.of_nat i)) max_failures (Returned tt) t ->
    session data max_failures progress_callback (S i) m r t' ->
    session data max_failures progress_callback i (S m) r
            (t ++ progress_events progress_callback ((Z.of_nat i + 1) * 128) (len data)
               ++ t').

(** The body of the [try] statement, entered with a new reader while the
    environment holds [evs]. *)
Inductive transfer_run (data : bytes) (max_failures : Z)
    (progress_callback : option callback) (evs : list event)
  : outcome unit -> list io -> Prop :=
| run_no_handshake r buf evs' :
    readuntil_loop "C"%byte [] evs = (r, buf, evs') -> ~ returned r ->
    transfer_run data max_failures progress_callback evs (forget r) []
| run_callback chunk rest evs' f e :
    handshake evs chunk rest evs' ->
    progress_callback = Some f -> f 0 (len data) = Raise e ->
    transfer_run data max_failures progress_callback evs (Raised e)
                 [ReadUntil chunk; Progress 0 (len data)]
| run_session chunk rest evs' r t :
    handshake evs chunk rest evs' ->
    session data max_failures progress_callback 0 (Z.to_nat (len data / 128)) r t ->
    transfer_run data max_failures progress_callback evs r
                 (opening data progress_callback chunk rest ++ t).

(** What the [finally] block adds. *)
Definition closing {A : Type} (r : outcome A) (old_protocol : protocol) : list io :=
  match r with
  | Suspended => []
  | _ => [SetProtocol old_protocol]
  end.

(** A sample world: the caller's protocol attached, a receiver that sends
    the given events, flushes that complete. *)
Definition sample_world (evs : list event) : World :=
  {| w_protocol := CallerProtocol 0; w_incoming := evs; w_drains := [Returned tt];
     w_buffer := []; w_trace := [] |}.

Definition sample_block : bytes := repeat "a"%byte 128.

Definition sample_callback : callback := fun _ _ => Ok tt.

Definition nak : byte := symbol_byte NAK.
Definition ack : byte := symbol_byte ACK.
Definition can : byte := symbol_byte CAN.

Definition check_input : bytes := ["1"; "2"; "3"; "4"; "5"; "6"; "7"; "8"; "9"]%byte.

End Notions.

(** ** Notions for the properties that hold in every run *)

Section RunNotions.
Import Xmodemcrc WireFormat Failure Receiver Run.

(** Whatever state it starts in, [m] only adds to the trace, and what it
    adds satisfies [P]. *)
Definition emits {A : Type} (P : list io -> Prop) (m : M A) : Prop :=
  forall w r w', m w = (r, w') -> exists t, w_trace w' = w_trace w ++ t /\ P t.

Definition at_most_writes (k : nat) (t : list io) : Prop :=
  (length (writes_of t) <= k)%nat.

Definition no_progress (t : list io) : Prop := progress_of t = [].

Definition no_writes (t : list io) : Prop := writes_of t = [].

(** The exceptions that the sender raises by itself once the length check
    has passed. *)
Definition raised_by_sender (max_failures : Z) (e : exn) : Prop :=
  e = TooManyFailures max_failures \/ e = ReceiverCancelled \/
  exists b, e = ProtocolViolation b.

(** Nothing is swallowed.  Of the events [evs] and the flushes [ds] that a
    run took from the environment, and of the calls of the callback in what
    it added to the trace [t], only the last can be an exception thrown
    into a wait, a flush that does not complete, or a call that raises; and
    this is then how the run ends. *)
Definition propagates (progress_callback : option callback) (evs : list event)
    (ds : list (outcome unit)) (t : list io) (r : outcome unit) : Prop :=
  (forall pre e post, evs = pre ++ Throw e :: post -> post = [] /\ r = Raised e) /\
  (forall pre x post, ds = pre ++ x :: post -> x <> Returned tt -> post = [] /\ r = x) /\
  (forall f pre done total post e,
     progress_callback = Some f -> t = pre ++ Progress done total :: post ->
     f done total = Raise e -> post = [] /\ r = Raised e).

(** Nothing is invented.  Where an exception that leaves the body of the
    [try] statement comes from: the sender raised it, the stream reader gave
    up the search for the handshake byte, it is the last event taken from
    the event loop, the last flush raised it, or the last call of the
    progress callback did. *)
Definition origin (progress_callback : option callback) (max_failures : Z)
    (evs : list event) (ds : list (outcome unit)) (t : list io) (e : exn) : Prop :=
  raised_by_sender max_failures e \/
  e = LimitOverrunError \/
  (exists pre, evs = pre ++ [Throw e]) \/
  (exists pre, ds = pre ++ [Raised e]) \/
  (exists f pre done total,
     progress_callback = Some f /\ f done total = Raise e /\
     t = pre ++ [Progress done total]).

(** [m] takes the events [evs] and the flushes [ds] from the front of what
    the environment holds, adds [t] to the trace, leaves the protocol alone,
    swallows and invents no exception, and stays suspended only when the
    environment has nothing more to deliver or a flush does not complete. *)
Definition tracks {A : Type} (progress_callback : option callback) (max_failures : Z)
    (m : M A) : Prop :=
  forall w r w', m w = (r, w') ->
    w_protocol w' = w_protocol w /\
    exists evs ds t,
      w_incoming w = evs ++ w_incoming w' /\
      w_drains w = ds ++ w_drains w' /\
      w_trace w' = w_trace w ++ t /\
      propagates progress_callback evs ds t (forget r) /\
      (forall e, r = Raised e -> origin progress_callback max_failures evs ds t e) /\
      (r = Suspended -> w_incoming w' = [] \/ exists pre, ds = pre ++ [Suspended]).

(** A property of traces that the empty trace has and that concatenation
    keeps: sequencing and loops keep it. *)
Definition closed (P : list io -> Prop) : Prop :=
  P [] /\ forall t1 t2, P t1 -> P t2 -> P (t1 ++ t2).

(** Nothing written and no call of the callback. *)
Definition silent (t : list io) : Prop := writes_of t = [] /\ progress_of t = [].

(** The calls of the progress callback for the blocks [i], ..., [i + m - 1]. *)
Definition block_progress (data : bytes) (i m : nat) : list (Z * Z) :=
  map (fun j => ((Z.of_nat j + 1) * 128, len data)) (seq i m).

End RunNotions.

(** ** Notions for the properties of versions and number lists *)

Section VersionNotions.
Import Common.

(** The number that a string of decimal digits denotes. *)
Fixpoint decimal_value_from (value : Z) (s : string) : Z :=
  match s with
  | EmptyString => value
  | String c s' => decimal_value_from (10 * value + (ord c - 48)) s'
  end.

Definition decimal_value (s : string) : Z := decimal_value_from 0 s.

(** A string without its first [n] characters. *)
Fixpoint str_drop (n : nat) (s : string) : string :=
  match n, s with
  | S n', String _ s' => str_drop n' s'
  | _, _ => s
  end.

(** No separator of the list starts anywhere in [s]. *)
Definition clean (separators : list string) (s : string) : Prop :=
  forall i sep, sep ∈ separators -> startswith (str_drop i s) sep = false.

(** What a split gives: pieces of text without a separator in them, with
    one separator between every two. *)
Inductive interleaved (separators : list string) : list string -> Prop :=
| interleaved_last piece :
    clean separators piece -> interleaved separators [piece]
| interleaved_more piece sep pieces :
    clean separators piece -> sep ∈ separators -> interleaved separators pieces ->
    interleaved separators (piece :: sep :: pieces).

(** A component as [Version.__init__] builds them: a number that is not
    negative and is comparable, or a text that is not a number and is not
    comparable. *)
Definition built (c : VersionComponent) : Prop :=
  match data c with
  | Int n => comparable c = true /\ 0 <= n
  | Str s => comparable c = false /\ isdigit s = false
  end.

(** The comparable component for a number. *)
Definition num (n : Z) : VersionComponent := {| comparable := true; data := Int n |}.

(** The lexicographic order of lists of numbers. *)
Fixpoint lex_ltb (a b : list Z) : bool :=
  match a, b with
  | x :: a', y :: b' => if x =? y then lex_ltb a' b' else x <? y
  | [], _ :: _ => true
  | _, [] => false
  end.

End VersionNotions.

(** ** Notions for the properties of lists *)

Section ListNotions.
Context {A : Type} `{EqDecision A}.

(** [l.count(x)]: how often [x] occurs in [l]. *)
Definition list_count (x : A) (l : list A) : nat := length (filter (fun y => y = x) l).

End ListNotions.

(** ** Properties of [pad_to_multiple] *)

Section PadToMultiple.
Import Common.

Lemma bytes_mul_singleton (p : byte) (k : Z) :
  bytes_mul [p] k = repeat p (Z.to_nat k).
Proof.
  unfold bytes_mul. induction (Z.to_nat k) as [|n IH]; simpl; [reflexivity|].
  now rewrite IH.
Qed.

Lemma len_app {A : Type} (l1 l2 : list A) : len (l1 ++ l2) = len l1 + len l2.
Proof. unfold len. rewrite length_app. lia. Qed.

Lemma len_nonneg {A : Type} (l : list A) : 0 <= len l.
Proof. unfold len. lia. Qed.

Lemma len_repeat {A : Type} (x : A) (n : nat) : len (repeat x n) = Z.of_nat n.
Proof. unfold len. now rewrite repeat_length. Qed.

Lemma Forall_repeat_eq {A : Type} (x : A) (n : nat) :
  Forall (fun y => y = x) (repeat x n).
Proof. induction n as [|n IH]; simpl; constructor; auto. Qed.

(** The size the padded branch computes is the next multiple after the length. *)
Lemma padded_size_spec (n m : Z) :
  0 < m -> 0 <= n ->
  let padded_size := m * (n / m + 1) in
  n < padded_size /\ padded_size <= n + m /\ padded_size mod m = 0 /\
  forall L, L mod m = 0 -> n < L -> padded_size <= L.
Proof.
  intros Hm Hn padded_size. subst padded_size.
  pose proof (Z.div_mod n m ltac:(lia)) as Hdm.
  pose proof (Z.mod_pos_bound n m Hm) as Hb.
  repeat split; try nia.
  - rewrite Z.mul_comm. apply Z.mod_mul. lia.
  - intros L HL HnL.
    apply Z.mod_divide in HL; [|lia]. destruct HL as [q ->].
    assert (n / m < q) by (apply Z.div_lt_upper_bound; nia).
    nia.
Qed.

(** C10. For a one-byte padding and a positive multiple, [pad_to_multiple]
    returns the data unchanged when its length is already a multiple, and
    otherwise the data followed by padding bytes up to the smallest multiple
    strictly above the length; in both cases the result starts with the data
    and its length is the least multiple that is at least the length of the
    data. *)
Theorem pad_to_multiple_spec (data : bytes) (m : Z) (p : byte) :
  0 < m ->
  (len data mod m = 0 -> pad_to_multiple data m [p] = Ok data) /\
  (len data mod m <> 0 ->
     exists next,
       pad_to_multiple data m [p] = Ok (data ++ repeat p (Z.to_nat (next - len data))) /\
       next mod m = 0 /\ len data < next /\
       (forall L, L mod m = 0 -> len data < L -> next <= L)) /\
  (exists out,
     pad_to_multiple data m [p] = Ok out /\
     firstn (length data) out = data /\
     len out mod m = 0 /\ len data <= len out /\
     (forall L, L mod m = 0 -> len data <= L -> len out <= L) /\
     Forall (fun b => b = p) (skipn (length data) out)).
Proof.
  intros Hm.
  pose proof (len_nonneg data) as Hlen.
  pose proof (padded_size_spec (len data) m Hm Hlen) as (Hlt & Hle & Hmod & Hleast).
  assert (Hm0 : (m =? 0) = false) by (apply Z.eqb_neq; lia).
  unfold pad_to_multiple. cbn [length len negb]. change (Z.of_nat 1 =? 1) with true.
  cbn [negb]. rewrite Hm0.
  destruct (Z.eqb_spec (len data mod m) 0) as [Hz|Hnz].
  - split; [reflexivity|]. split; [intros; contradiction|].
    exists data. split; [reflexivity|]. split; [apply firstn_all|].
    split; [exact Hz|]. split; [lia|]. split; [intros L _ HdL; exact HdL|].
    rewrite skipn_all. constructor.
  - split; [intros; contradiction|]. rewrite bytes_mul_singleton. split.
    + intros _. exists (m * (len data / m + 1)). auto.
    + eexists. split; [reflexivity|].
      assert (Hout : len (data ++ repeat p (Z.to_nat (m * (len data / m + 1) - len data)))
                     = m * (len data / m + 1)).
      { rewrite len_app, len_repeat. lia. }
      rewrite Hout. split; [|split; [exact Hmod|split; [lia|split]]].
      * rewrite firstn_app, Nat.sub_diag, firstn_all. simpl. apply app_nil_r.
      * intros L HL HdL. apply Hleast; [exact HL|].
        destruct (Z.eq_dec (len data) L) as [E|]; [congruence|lia].
      * rewrite skipn_app, Nat.sub_diag, skipn_all. cbn [skipn app].
        apply Forall_repeat_eq.
Qed.

Lemma pad_to_multiple_spec_witness :
  0 < 4 /\
  (exists out, pad_to_multiple ["a"; "b"; "c"; "d"; "e"]%byte 4 ["000"%byte] = Ok out /\ len out = 8).
Proof.
  split; [lia|].
  destruct (pad_to_multiple_spec ["a"; "b"; "c"; "d"; "e"]%byte 4 "000"%byte ltac:(lia))
    as (_ & _ & out & Hout & _).
  exists out. split; [exact Hout|].
  vm_compute in Hout. injection Hout as <-. reflexivity.
Defined.

End PadToMultiple.

(** ** Properties of the checksums *)

Section CrcProofs.
Import Crc CrcReference Common.

Lemma byte_val_range (b : byte) : 0 <= byte_val b < 256.
Proof.
  unfold byte_val. pose proof (Byte.to_N_bounded b). lia.
Qed.

Lemma check_bits_sound (n : nat) (P : Z -> bool) :
  check_bits n P = true -> forall x, 0 <= x < 2 ^ Z.of_nat n -> P x = true.
Proof.
  revert P. induction n as [|n IH]; intros P H x Hx; cbn [check_bits] in H.
  - change (2 ^ Z.of_nat 0) with 1 in Hx. now replace x with 0 by lia.
  - apply andb_true_iff in H as [He Ho].
    rewrite Nat2Z.inj_succ, Z.pow_succ_r in Hx by lia.
    destruct (Z.even x) eqn:Hpar.
    + apply Z.even_spec in Hpar as [h ->].
      apply (IH _ He h). lia.
    + rewrite <- Z.negb_odd in Hpar. apply negb_false_iff, Z.odd_spec in Hpar as [h ->].
      apply (IH _ Ho h). lia.
Qed.

Lemma truthy_land_1 (x i : Z) :
  0 <= i -> truthy (Z.land (Z.shiftr x i) 1) = Z.testbit x i.
Proof.
  intros Hi. unfold truthy.
  rewrite Z.testbit_odd.
  change 1 with (Z.ones 1). rewrite Z.land_ones by lia.
  change (2 ^ 1) with 2. rewrite Zmod_odd.
  now destruct (Z.odd (Z.shiftr x i)).
Qed.

Lemma testbit_lor_pow2 (acc k j : Z) :
  0 <= k ->
  Z.testbit (Z.lor acc (Z.shiftl 1 k)) j = Z.testbit acc j || (j =? k).
Proof.
  intros Hk. rewrite Z.lor_spec, Z.shiftl_1_l.
  rewrite Z.pow2_bits_eqb by lia. now rewrite (Z.eqb_sym k j).
Qed.

Lemma reverse_fold_spec (w x : Z) (l : list Z) (acc j : Z) :
  Forall (fun i => 0 <= i < w) l ->
  Z.testbit
    (fold_left
       (fun reversed_value index =>
          if truthy (Z.land (Z.shiftr x index) 1)
          then Z.lor reversed_value (Z.shiftl 1 ((w - 1) - index))
          else reversed_value) l acc) j
  = Z.testbit acc j || existsb (fun i => (j =? w - 1 - i) && Z.testbit x i) l.
Proof.
  revert acc. induction l as [|i l IH]; intros acc Hl; cbn [fold_left existsb].
  - now rewrite orb_false_r.
  - inversion Hl as [|? ? Hi Hl']; subst.
    rewrite IH by assumption. rewrite truthy_land_1 by lia.
    destruct (Z.testbit x i) eqn:Hb.
    + rewrite testbit_lor_pow2 by lia. rewrite andb_true_r. now rewrite orb_assoc.
    + now rewrite andb_false_r.
Qed.

Lemma range_Forall (w : Z) : Forall (fun i => 0 <= i < w) (range w).
Proof.
  unfold range. apply Forall_forall. intros i Hi.
  apply list_elem_of_In in Hi. apply in_map_iff in Hi. destruct Hi as (n & <- & Hn).
  apply in_seq in Hn. lia.
Qed.

Lemma In_range (w i : Z) : In i (range w) <-> 0 <= i < w.
Proof.
  unfold range. rewrite in_map_iff. split.
  - intros (n & <- & Hn). apply in_seq in Hn. lia.
  - intros Hi. exists (Z.to_nat i). split; [lia|]. apply in_seq. lia.
Qed.

(** Bit [j] of the reversal is bit [w - 1 - j] of the argument. *)
Lemma reverse_bits_spec (w x j : Z) :
  Z.testbit (reverse_bits w x) j = (0 <=? j) && (j <? w) && Z.testbit x (w - 1 - j).
Proof.
  unfold reverse_bits. rewrite reverse_fold_spec by apply range_Forall.
  rewrite Z.bits_0. cbn [orb].
  destruct ((0 <=? j) && (j <? w) && Z.testbit x (w - 1 - j)) eqn:E.
  - apply andb_true_iff in E as [E Hb]. apply andb_true_iff in E as [H0 Hw].
    apply existsb_exists. exists (w - 1 - j). split.
    + apply In_range. lia.
    + rewrite Hb, andb_true_r. apply Z.eqb_eq. lia.
  - apply not_true_is_false. intros Hex. apply existsb_exists in Hex.
    destruct Hex as (i & Hi & Hb). apply In_range in Hi.
    apply andb_true_iff in Hb as [Hj Hb]. apply Z.eqb_eq in Hj. subst j.
    replace (w - 1 - (w - 1 - i)) with i in E by lia. rewrite Hb in E.
    rewrite andb_true_r in E. apply andb_false_iff in E as [E|E]; lia.
Qed.

Lemma testbit_above (n x j : Z) :
  0 <= n -> 0 <= x < 2 ^ n -> n <= j -> Z.testbit x j = false.
Proof.
  intros Hn Hx Hj. rewrite <- (Z.mod_small x (2 ^ n)) by lia.
  apply Z.mod_pow2_bits_high. lia.
Qed.

Lemma below_pow2_of_bits (n x : Z) :
  0 <= n -> 0 <= x -> (forall j, n <= j -> Z.testbit x j = false) -> x < 2 ^ n.
Proof.
  intros Hn Hx Hbits.
  assert (E : x = x mod 2 ^ n).
  { apply Z.bits_inj'. intros j Hj.
    destruct (Z_lt_le_dec j n) as [Hlt|Hge].
    - now rewrite Z.mod_pow2_bits_low by lia.
    - rewrite Z.mod_pow2_bits_high by lia. now apply Hbits. }
  rewrite E. apply Z.mod_pos_bound. lia.
Qed.

Lemma lxor_range (n x y : Z) :
  0 <= n -> 0 <= x < 2 ^ n -> 0 <= y < 2 ^ n -> 0 <= Z.lxor x y < 2 ^ n.
Proof.
  intros Hn Hx Hy.
  assert (H0 : 0 <= Z.lxor x y) by (apply Z.lxor_nonneg; lia).
  split; [exact H0|]. apply below_pow2_of_bits; [lia|exact H0|].
  intros j Hj. rewrite Z.lxor_spec.
  now rewrite (testbit_above n x j), (testbit_above n y j).
Qed.

Lemma land_mask16_range (x : Z) : 0 <= Z.land x 65535 < 65536.
Proof.
  change 65535 with (Z.ones 16). rewrite Z.land_ones by lia.
  apply Z.mod_pos_bound. lia.
Qed.

Lemma reverse_bits_range (w x : Z) : 0 <= w -> 0 <= reverse_bits w x < 2 ^ w.
Proof.
  intros Hw.
  assert (H0 : 0 <= reverse_bits w x).
  { apply Z.bits_iff_nonneg_ex. exists w. intros j Hj.
    rewrite reverse_bits_spec.
    destruct (Z.ltb_spec j w); [lia|]. now rewrite andb_false_r. }
  split; [exact H0|]. apply below_pow2_of_bits; [lia|exact H0|].
  intros j Hj. rewrite reverse_bits_spec.
  destruct (Z.ltb_spec j w); [lia|]. now rewrite andb_false_r.
Qed.

Lemma shift_register_range (c : Configuration) (x : Z) :
  width c = 16 -> 0 <= shift_register c x < 65536.
Proof.
  intros Hw. unfold shift_register, bitmask. rewrite Hw. change (2 ^ 16 - 1) with 65535.
  destruct (truthy _); apply land_mask16_range.
Qed.

(** *** The reflected calculator is the least-significant-bit-first register *)

Lemma reverse_shift_register (x : Z) :
  0 <= x < 65536 ->
  reverse_bits 16 (shift_register CRC_KERMIT x) = lsb_first_shift (reverse_bits 16 x).
Proof.
  intros Hx.
  assert (H : check_bits 16
                (fun x => reverse_bits 16 (shift_register CRC_KERMIT x)
                          =? lsb_first_shift (reverse_bits 16 x)) = true)
    by (vm_compute; reflexivity).
  apply Z.eqb_eq. apply (check_bits_sound _ _ H). exact Hx.
Qed.

Lemma reverse_xor_byte (x b : Z) :
  0 <= x < 65536 -> 0 <= b < 256 ->
  reverse_bits 16 (Z.land (Z.lxor x (Z.shiftl (reverse_bits 8 b) 8)) 65535)
  = Z.lxor (reverse_bits 16 x) b.
Proof.
  intros Hx Hb. apply Z.bits_inj'. intros j Hj.
  rewrite reverse_bits_spec, Z.lxor_spec, reverse_bits_spec.
  destruct (Z.leb_spec 0 j) as [_|]; [|lia]. cbn [andb].
  destruct (Z.ltb_spec j 16) as [Hj16|Hj16]; cbn [andb].
  - rewrite Z.land_spec, Z.lxor_spec.
    rewrite Z.shiftl_spec by lia. rewrite reverse_bits_spec.
    change 65535 with (Z.ones 16). rewrite Z.ones_spec_low by lia.
    rewrite andb_true_r. f_equal.
    destruct (Z.ltb_spec j 8) as [Hj8|Hj8].
    + destruct (Z.leb_spec 0 (16 - 1 - j - 8)); [|lia].
      destruct (Z.ltb_spec (16 - 1 - j - 8) 8); [|lia]. cbn [andb].
      f_equal. lia.
    + destruct (Z.leb_spec 0 (16 - 1 - j - 8)); [lia|]. cbn [andb].
      symmetry. apply (testbit_above 8); lia.
  - symmetry. apply (testbit_above 8); lia.
Qed.

Lemma iter_shift_reverse (n : nat) (x : Z) :
  0 <= x < 65536 ->
  reverse_bits 16 (Nat.iter n (shift_register CRC_KERMIT) x)
  = Nat.iter n lsb_first_shift (reverse_bits 16 x)
  /\ 0 <= Nat.iter n (shift_register CRC_KERMIT) x < 65536.
Proof.
  intros Hx. induction n as [|n [IH1 IH2]].
  - split; [reflexivity|exact Hx].
  - rewrite !Nat.iter_succ. split.
    + rewrite (reverse_shift_register _ IH2). now rewrite IH1.
    + now apply shift_register_range.
Qed.

Lemma fold_range_8 {A : Type} (f : A -> A) (x : A) :
  fold_left (fun r (_ : Z) => f r) (range 8) x = Nat.iter 8 f x.
Proof. reflexivity. Qed.

Lemma process_byte_range (c : Configuration) (r b : Z) :
  width c = 16 -> 0 <= process_byte c r b < 65536.
Proof.
  intros Hw. unfold process_byte. rewrite fold_range_8.
  rewrite Nat.iter_succ. now apply shift_register_range.
Qed.

Lemma process_byte_reflected (r b : Z) :
  0 <= r < 65536 -> 0 <= b < 256 ->
  reverse_bits 16 (process_byte CRC_KERMIT r (reverse_bits 8 b))
  = lsb_first_byte (reverse_bits 16 r) b.
Proof.
  intros Hr Hb. unfold process_byte, lsb_first_byte. rewrite fold_range_8.
  change (bitmask CRC_KERMIT) with 65535. change (width CRC_KERMIT - 8) with 8.
  destruct (iter_shift_reverse 8
              (Z.land (Z.lxor r (Z.shiftl (reverse_bits 8 b) 8)) 65535)
              (land_mask16_range _)) as [-> _].
  now rewrite reverse_xor_byte.
Qed.

Lemma update_cons (c : Configuration) (r : Z) (b : byte) (data : bytes) :
  update c r (b :: data)
  = update c (process_byte c r (if reverse_input c then reverse_bits 8 (byte_val b)
                                else byte_val b)) data.
Proof. reflexivity. Qed.

Lemma update_nil (c : Configuration) (r : Z) : update c r [] = r.
Proof. reflexivity. Qed.

Lemma fold_left_nil_eq {A B : Type} (f : A -> B -> A) (a : A) : fold_left f [] a = a.
Proof. reflexivity. Qed.

Lemma fold_left_cons_eq {A B : Type} (f : A -> B -> A) (a : A) (b : B) (l : list B) :
  fold_left f (b :: l) a = fold_left f l (f a b).
Proof. reflexivity. Qed.

Lemma reverse_input_kermit : reverse_input CRC_KERMIT = true.
Proof. reflexivity. Qed.

Lemma update_reflected (data : bytes) (r : Z) :
  0 <= r < 65536 ->
  reverse_bits 16 (update CRC_KERMIT r data)
  = fold_left (fun crc b => lsb_first_byte crc (byte_val b)) data (reverse_bits 16 r).
Proof.
  revert r. induction data as [|b data IH]; intros r Hr.
  - rewrite update_nil, fold_left_nil_eq. reflexivity.
  - rewrite update_cons, fold_left_cons_eq, reverse_input_kermit.
    rewrite IH by (now apply process_byte_range).
    rewrite process_byte_reflected by (auto using byte_val_range).
    reflexivity.
Qed.

Lemma crc16_kermit_reference (data : bytes) :
  crc16_kermit data = kermit_style 0xFFFF 0xFFFF data.
Proof.
  unfold crc16_kermit, checksum, digest, kermit_style.
  change (reverse_output CRC_KERMIT) with true. cbv iota.
  change (Z.land (init_value CRC_KERMIT) (bitmask CRC_KERMIT)) with 65535.
  change (width CRC_KERMIT) with 16. change (final_xor_value CRC_KERMIT) with 65535.
  rewrite update_reflected by lia.
  assert (E : reverse_bits 16 65535 = 65535) by (vm_compute; reflexivity).
  rewrite E. reflexivity.
Qed.

(** *** The unreflected calculator is the most-significant-bit-first register *)

Lemma land_mask16_small (x : Z) : 0 <= x < 65536 -> Z.land x 65535 = x.
Proof.
  intros Hx. change 65535 with (Z.ones 16). rewrite Z.land_ones by lia.
  apply Z.mod_small. lia.
Qed.

Lemma msb_first_bit_range (x : Z) (bit : bool) : 0 <= msb_first_bit x bit < 65536.
Proof.
  unfold msb_first_bit. destruct (xorb _ _).
  - apply (lxor_range 16); [lia|apply land_mask16_range|lia].
  - apply land_mask16_range.
Qed.

Lemma truthy_land_pow2 (x k : Z) :
  0 <= k -> truthy (Z.land x (2 ^ k)) = Z.testbit x k.
Proof.
  intros Hk. unfold truthy.
  assert (E : Z.land x (2 ^ k) = if Z.testbit x k then 2 ^ k else 0).
  { apply Z.bits_inj'. intros j Hj. rewrite Z.land_spec, Z.pow2_bits_eqb by lia.
    destruct (Z.eqb_spec k j) as [->|Hne].
    - destruct (Z.testbit x j); [now rewrite Z.pow2_bits_true|now rewrite Z.bits_0].
    - rewrite andb_false_r. destruct (Z.testbit x k); [|now rewrite Z.bits_0].
      now rewrite Z.pow2_bits_false. }
  rewrite E. destruct (Z.testbit x k); [|reflexivity].
  destruct (Z.eqb_spec (2 ^ k) 0); [|reflexivity]. lia.
Qed.

(** One shift of the calculator is the reference step on a zero message bit. *)
Lemma shift_register_ccitt (x : Z) :
  shift_register CRC_CCITT x = msb_first_bit x false.
Proof.
  unfold shift_register, msb_first_bit.
  change (topbit CRC_CCITT) with (2 ^ 15). change (bitmask CRC_CCITT) with 65535.
  change (polynomial CRC_CCITT) with 4129.
  rewrite truthy_land_pow2 by lia. rewrite xorb_false_r.
  destruct (Z.testbit x 15); [|reflexivity].
  apply Z.bits_inj'. intros j Hj.
  rewrite Z.land_spec, !Z.lxor_spec, Z.land_spec.
  destruct (Z_lt_le_dec j 16) as [Hlt|Hge].
  - change 65535 with (Z.ones 16). rewrite Z.ones_spec_low by lia.
    now rewrite !andb_true_r.
  - change 65535 with (Z.ones 16). rewrite Z.ones_spec_high by lia.
    rewrite !andb_false_r. symmetry. apply (testbit_above 16); lia.
Qed.

(** The reference step is linear in the register for summands below 2^15. *)
Lemma msb_first_bit_xor (x y : Z) (bit : bool) :
  0 <= y < 2 ^ 15 ->
  msb_first_bit (Z.lxor x y) bit = Z.lxor (msb_first_bit x bit) (Z.shiftl y 1).
Proof.
  intros Hy. unfold msb_first_bit.
  rewrite Z.lxor_spec, (testbit_above 15 y 15), xorb_false_r by lia.
  assert (E : Z.land (Z.shiftl (Z.lxor x y) 1) 65535
              = Z.lxor (Z.land (Z.shiftl x 1) 65535) (Z.shiftl y 1)).
  { apply Z.bits_inj'. intros j Hj.
    rewrite Z.land_spec, Z.lxor_spec, Z.land_spec, !Z.shiftl_spec, Z.lxor_spec by lia.
    destruct (Z_lt_le_dec j 16) as [Hlt|Hge].
    - change 65535 with (Z.ones 16). rewrite Z.ones_spec_low by lia.
      now rewrite !andb_true_r.
    - change 65535 with (Z.ones 16). rewrite Z.ones_spec_high by lia.
      rewrite !andb_false_r. symmetry. cbn [xorb]. apply (testbit_above 15); lia. }
  rewrite E. destruct (xorb (Z.testbit x 15) bit); [|reflexivity].
  rewrite !Z.lxor_assoc. f_equal. apply Z.lxor_comm.
Qed.

(** Xoring a one into the top of the register is feeding a one message bit. *)
Lemma msb_first_bit_top (x : Z) (bit : bool) :
  msb_first_bit (Z.lxor x (if bit then 2 ^ 15 else 0)) false = msb_first_bit x bit.
Proof.
  destruct bit; [|now rewrite Z.lxor_0_r].
  unfold msb_first_bit.
  rewrite Z.lxor_spec, Z.pow2_bits_true, !xorb_false_r, xorb_true_r by lia.
  assert (E : Z.land (Z.shiftl (Z.lxor x (2 ^ 15)) 1) 65535 = Z.land (Z.shiftl x 1) 65535).
  { apply Z.bits_inj'. intros j Hj.
    rewrite !Z.land_spec, !Z.shiftl_spec, Z.lxor_spec by lia.
    destruct (Z_lt_le_dec j 16) as [Hlt|Hge].
    - rewrite Z.pow2_bits_false by lia. now rewrite xorb_false_r.
    - change 65535 with (Z.ones 16). rewrite Z.ones_spec_high by lia.
      now rewrite !andb_false_r. }
  rewrite E. destruct (Z.testbit x 15); reflexivity.
Qed.

Lemma pending_split (b k : Z) :
  0 <= k < 8 ->
  exists y, 0 <= y < 2 ^ 15 /\
    pending b k = Z.lxor (if Z.testbit b (7 - k) then 2 ^ 15 else 0) y /\
    Z.shiftl y 1 = pending b (k + 1).
Proof.
  intros Hk. exists (Z.shiftl (Z.land b (Z.ones (7 - k))) (8 + k)).
  assert (Hlow : 0 <= Z.land b (Z.ones (7 - k)) < 2 ^ (7 - k)).
  { rewrite Z.land_ones by lia. apply Z.mod_pos_bound. lia. }
  split; [|split].
  - rewrite Z.shiftl_mul_pow2 by lia. split; [nia|].
    replace (2 ^ 15) with (2 ^ (7 - k) * 2 ^ (8 + k)) by (rewrite <- Z.pow_add_r by lia; f_equal; lia).
    apply Z.mul_lt_mono_pos_r; lia.
  - unfold pending. apply Z.bits_inj'. intros j Hj.
    rewrite Z.lxor_spec, !Z.shiftl_spec, !Z.land_spec by lia.
    destruct (Z_lt_le_dec (j - (8 + k)) 0) as [Hneg|Hpos].
    + rewrite !(Z.testbit_neg_r _ (j - (8 + k))) by lia. cbn [andb xorb].
      destruct (Z.testbit b (7 - k)); [|now rewrite Z.bits_0].
      rewrite Z.pow2_bits_false by lia. reflexivity.
    + destruct (Z.eq_dec j 15) as [->|Hne].
      * replace (15 - (8 + k)) with (7 - k) by lia.
        rewrite Z.ones_spec_low, Z.ones_spec_high by lia.
        rewrite andb_true_r, andb_false_r, xorb_false_r.
        destruct (Z.testbit b (7 - k)); [now rewrite Z.pow2_bits_true|now rewrite Z.bits_0].
      * assert (Hbit : Z.testbit (if Z.testbit b (7 - k) then 2 ^ 15 else 0) j = false).
        { destruct (Z.testbit b (7 - k)); [|now rewrite Z.bits_0].
          apply Z.pow2_bits_false. lia. }
        rewrite Hbit. cbn [xorb]. f_equal.
        destruct (Z_lt_le_dec (j - (8 + k)) (7 - k)).
        -- now rewrite !Z.ones_spec_low by lia.
        -- now rewrite !Z.ones_spec_high by lia.
  - unfold pending. rewrite Z.shiftl_shiftl by lia.
    f_equal; [f_equal; f_equal; lia|lia].
Qed.

Lemma shift_register_pending (x b k : Z) :
  0 <= k < 8 ->
  shift_register CRC_CCITT (Z.lxor x (pending b k))
  = Z.lxor (msb_first_bit x (Z.testbit b (7 - k))) (pending b (k + 1)).
Proof.
  intros Hk. destruct (pending_split b k Hk) as (y & Hy & -> & <-).
  rewrite shift_register_ccitt, <- Z.lxor_assoc.
  rewrite msb_first_bit_xor by exact Hy. now rewrite msb_first_bit_top.
Qed.

Lemma process_byte_ccitt (r b : Z) :
  0 <= r < 65536 -> 0 <= b < 256 ->
  process_byte CRC_CCITT r b = fold_left msb_first_bit (bits_msb_first b) r.
Proof.
  intros Hr Hb. unfold process_byte. rewrite fold_range_8.
  change (bitmask CRC_CCITT) with 65535. change (width CRC_CCITT - 8) with 8.
  assert (Hb8 : 0 <= Z.shiftl b 8 < 65536).
  { rewrite Z.shiftl_mul_pow2 by lia. change (2 ^ 8) with 256. lia. }
  rewrite land_mask16_small by (apply (lxor_range 16); lia).
  assert (E0 : Z.shiftl b 8 = pending b 0).
  { unfold pending. change (Z.ones (8 - 0)) with (Z.ones 8).
    rewrite Z.land_ones, Z.mod_small by (change (2 ^ 8) with 256; lia). reflexivity. }
  assert (E8 : pending b (0 + 1 + 1 + 1 + 1 + 1 + 1 + 1 + 1) = 0).
  { unfold pending. change (Z.ones _) with 0. now rewrite Z.land_0_r, Z.shiftl_0_l. }
  rewrite E0.
  do 8 (rewrite Nat.iter_succ_r, shift_register_pending by lia).
  rewrite E8, Z.lxor_0_r. reflexivity.
Qed.

Lemma reverse_input_ccitt : reverse_input CRC_CCITT = false.
Proof. reflexivity. Qed.

Lemma update_ccitt (data : bytes) (r : Z) :
  0 <= r < 65536 ->
  update CRC_CCITT r data
  = fold_left (fun crc b => fold_left msb_first_bit (bits_msb_first (byte_val b)) crc)
              data r.
Proof.
  revert r. induction data as [|b data IH]; intros r Hr.
  - rewrite update_nil, fold_left_nil_eq. reflexivity.
  - rewrite update_cons, fold_left_cons_eq, reverse_input_ccitt.
    rewrite IH by (now apply process_byte_range).
    rewrite process_byte_ccitt by (auto using byte_val_range).
    reflexivity.
Qed.

Lemma crc16_ccitt_reference (data : bytes) :
  crc16_ccitt data = ccitt_false_style 0x0000 0x0000 data.
Proof.
  unfold crc16_ccitt, checksum, digest, ccitt_false_style.
  rewrite (eq_refl : reverse_output CRC_CCITT = false).
  rewrite (eq_refl : Z.land (init_value CRC_CCITT) (bitmask CRC_CCITT) = 0).
  rewrite (eq_refl : final_xor_value CRC_CCITT = 0).
  rewrite update_ccitt by lia. reflexivity.
Qed.

End CrcProofs.

(** ** Properties of the packet framing *)

Section Framing.
Import Xmodemcrc Common WireFormat.

Lemma byte_of_Z_val (x : Z) : 0 <= x < 256 -> byte_val (byte_of_Z x) = x.
Proof.
  intros Hx. unfold byte_of_Z, byte_val.
  destruct (Byte.of_N (Z.to_N x)) as [b|] eqn:E.
  - apply Byte.to_of_N in E. simpl. rewrite E. lia.
  - apply Byte.of_N_None_iff in E. lia.
Qed.

Lemma byte_of_int_ok (x : Z) : 0 <= x < 256 -> byte_of_int x = Ok (byte_of_Z x).
Proof.
  intros Hx. unfold byte_of_int, byte_of_Z.
  destruct (Z.leb_spec 0 x); [|lia]. destruct (Z.ltb_spec x 256); [|lia]. cbn [andb].
  destruct (Byte.of_N (Z.to_N x)) as [b|] eqn:E; [reflexivity|].
  apply Byte.of_N_None_iff in E. lia.
Qed.

Lemma byte_of_Z_of_val (b : byte) : byte_of_Z (byte_val b) = b.
Proof.
  unfold byte_of_Z, byte_val. rewrite N2Z.id, Byte.of_to_N. reflexivity.
Qed.

Lemma byte_val_inj (a b : byte) : byte_val a = byte_val b -> a = b.
Proof.
  intros H. rewrite <- (byte_of_Z_of_val a), <- (byte_of_Z_of_val b). now rewrite H.
Qed.

Lemma update_range (c : Crc.Configuration) (data : bytes) (r : Z) :
  Crc.width c = 16 -> 0 <= r < 65536 -> 0 <= Crc.update c r data < 65536.
Proof.
  intros Hw. revert r. induction data as [|b data IH]; intros r Hr.
  - now rewrite update_nil.
  - rewrite update_cons. apply IH. now apply process_byte_range.
Qed.

Lemma crc16_ccitt_range (data : bytes) : 0 <= crc16_ccitt data < 65536.
Proof.
  unfold crc16_ccitt, Crc.checksum, Crc.digest.
  rewrite (eq_refl : Crc.reverse_output CRC_CCITT = false).
  rewrite (eq_refl : Crc.final_xor_value CRC_CCITT = 0), Z.lxor_0_r.
  apply update_range; [reflexivity|].
  rewrite (eq_refl : Z.land (Crc.init_value CRC_CCITT) (Crc.bitmask CRC_CCITT) = 0). lia.
Qed.

Lemma crc16_kermit_range (data : bytes) : 0 <= crc16_kermit data < 65536.
Proof.
  unfold crc16_kermit, Crc.checksum, Crc.digest.
  rewrite (eq_refl : Crc.reverse_output CRC_KERMIT = true).
  rewrite (eq_refl : Crc.final_xor_value CRC_KERMIT = 65535).
  apply (lxor_range 16); [lia| |lia].
  rewrite (eq_refl : Crc.width CRC_KERMIT = 16). apply reverse_bits_range. lia.
Qed.

Lemma to_bytes_2_big_ok (x : Z) :
  0 <= x < 65536 -> to_bytes_2_big x = Ok [byte_of_Z (x / 256); byte_of_Z (x mod 256)].
Proof.
  intros Hx. unfold to_bytes_2_big.
  destruct (Z.ltb_spec x 0); [lia|].
  destruct (Z.leb_spec (2 ^ 16) x) as [Hge|_]; [change (2 ^ 16) with 65536 in Hge; lia|].
  cbn [bytes_of_ints].
  rewrite Z.shiftr_div_pow2 by lia. change (2 ^ 8) with 256.
  change 255 with (Z.ones 8). rewrite Z.land_ones by lia. change (2 ^ 8) with 256.
  assert (0 <= x / 256 < 256).
  { split; [apply Z.div_pos; lia|apply Z.div_lt_upper_bound; lia]. }
  assert (0 <= x mod 256 < 256) by (apply Z.mod_pos_bound; lia).
  rewrite !byte_of_int_ok by assumption. reflexivity.
Qed.

(** A packet whose number is a byte serializes, to the wire format. *)
Lemma serialize_ok (p : Xmodem128CRCPacket) :
  0 <= number p < 256 -> serialize p = Ok (packet (number p) (payload p)).
Proof.
  intros Hn. unfold serialize. cbn [bytes_of_ints].
  rewrite (byte_of_int_ok (Symbol_value SOH)) by (cbn; lia).
  rewrite (byte_of_int_ok (number p)) by exact Hn.
  rewrite (byte_of_int_ok (255 - number p)) by lia.
  cbn [rbind].
  rewrite to_bytes_2_big_ok by apply crc16_ccitt_range.
  reflexivity.
Qed.

Lemma land_255_mod (x : Z) : Z.land x 255 = x mod 256.
Proof. change 255 with (Z.ones 8). now rewrite Z.land_ones by lia. Qed.

Lemma length_slice_block (data : bytes) (i : Z) :
  0 <= i -> 128 * (i + 1) <= len data -> length (block data i) = 128%nat.
Proof.
  intros Hi Hlen. unfold block, slice, len in *.
  rewrite length_firstn, length_skipn. lia.
Qed.

Lemma length_packet (seq_no : Z) (payload : bytes) :
  length (packet seq_no payload) = (length payload + 5)%nat.
Proof.
  unfold packet, checksum_bytes. rewrite !length_app. cbn [length]. lia.
Qed.

End Framing.

(** ** Properties of the sender: one call of [send_xmodem128_crc_data] *)

Section Exchange.
Import Xmodemcrc Common WireFormat Failure Receiver.

Lemma byte_val_symbol (s : Symbol) : byte_val (symbol_byte s) = Symbol_value s.
Proof. destruct s; reflexivity. Qed.

Lemma symbol_byte_eq (s : Symbol) (b : byte) :
  byte_val b = Symbol_value s -> b = symbol_byte s.
Proof. intros H. apply byte_val_inj. now rewrite byte_val_symbol. Qed.

Lemma evolves_refl (w : World) : evolves w w [].
Proof. split; [now rewrite app_nil_r|reflexivity]. Qed.

Lemma evolves_trans (w1 w2 w3 : World) (t1 t2 : list io) :
  evolves w1 w2 t1 -> evolves w2 w3 t2 -> evolves w1 w3 (t1 ++ t2).
Proof.
  intros [H1 P1] [H2 P2]. split; [|congruence].
  rewrite H2, H1. now rewrite app_assoc.
Qed.

Lemma send_xmodem128_crc_data_eq (data : bytes) (max_failures : Z) :
  send_xmodem128_crc_data data max_failures
  = (for_in (range (max_failures + 1)) (attempt data max_failures) ;; ret tt).
Proof. reflexivity. Qed.

(** An attempt writes the data once and then either gets no response (the
    flush or the wait raised, or the wait never ends) or reads one byte and
    ends as that byte says. *)
Lemma attempt_cases (data : bytes) (max_failures a : Z) (w : World) :
  exists r w' t,
    attempt data max_failures a w = (r, w') /\ evolves w w' t /\
    ((t = [Wr data] /\ ~ returned r) \/
     (exists b, t = [Wr data; Rd b] /\ r = respond max_failures a b)).
Proof.
  unfold attempt, bind, write, drain.
  assert (Hread : forall w1, w_trace w1 = w_trace w ++ [Wr data] ->
            w_protocol w1 = w_protocol w ->
            exists r w' t,
              (match readexactly_1 w1 with
               | (Returned rsp_byte, w2) =>
                   (if byte_val rsp_byte =? Symbol_value ACK then ret Return_
                    else if byte_val rsp_byte =? Symbol_value NAK then
                      if a >=? max_failures then raise_ (TooManyFailures max_failures)
                      else ret Next
                    else if byte_val rsp_byte =? Symbol_value CAN
                         then raise_ ReceiverCancelled
                         else raise_ (ProtocolViolation rsp_byte)) w2
               | (Raised e, w2) => (Raised e, w2)
               | (Suspended, w2) => (Suspended, w2)
               end) = (r, w') /\ evolves w w' t /\
              ((t = [Wr data] /\ ~ returned r) \/
               (exists b, t = [Wr data; Rd b] /\ r = respond max_failures a b))).
  { intros w1 Ht Hp. unfold readexactly_1.
    destruct (readexactly_loop (w_buffer w1) (w_incoming w1)) as [[[b|e|] buf] evs].
    - exists (respond max_failures a b), (log (Rd b) (with_reader buf evs w1)),
        [Wr data; Rd b].
      split; [|split].
      + unfold respond, ret, raise_.
        destruct (byte_val b =? Symbol_value ACK); [reflexivity|].
        destruct (byte_val b =? Symbol_value NAK);
          [destruct (a >=? max_failures); reflexivity|].
        destruct (byte_val b =? Symbol_value CAN); reflexivity.
      + split; cbn; [rewrite Ht; now rewrite <- app_assoc|exact Hp].
      + right. now exists b.
    - exists (Raised e), (with_reader buf evs w1), [Wr data].
      split; [reflexivity|]. split; [split; cbn; assumption|].
      left. split; [reflexivity|]. intros [x Hx]. discriminate.
    - exists Suspended, (with_reader buf evs w1), [Wr data].
      split; [reflexivity|]. split; [split; cbn; assumption|].
      left. split; [reflexivity|]. intros [x Hx]. discriminate. }
  cbn [log w_drains]. destruct (w_drains w) as [|[[]|e|] ds].
  - apply Hread; reflexivity.
  - apply Hread; reflexivity.
  - exists (Raised e), (with_drains ds (log (Wr data) w)), [Wr data].
    split; [reflexivity|]. split; [split; reflexivity|].
    left. split; [reflexivity|]. intros [x Hx]. discriminate.
  - exists Suspended, (with_drains ds (log (Wr data) w)), [Wr data].
    split; [reflexivity|]. split; [split; reflexivity|].
    left. split; [reflexivity|]. intros [x Hx]. discriminate.
Qed.

Lemma for_in_cons {A : Type} (x : A) (l : list A) (body : A -> M flow) (w : World) :
  for_in (x :: l) body w
  = match body x w with
    | (Returned Next, w') => for_in l body w'
    | (Returned Return_, w') => (Returned Return_, w')
    | (Raised e, w') => (Raised e, w')
    | (Suspended, w') => (Suspended, w')
    end.
Proof.
  cbn [for_in]. unfold bind. destruct (body x w) as [[[|]|e|] w']; reflexivity.
Qed.

Lemma respond_cases (max_failures a : Z) (b : byte) :
  (byte_val b = Symbol_value ACK /\ respond max_failures a b = Returned Return_) \/
  (byte_val b = Symbol_value NAK /\ max_failures <= a /\
     respond max_failures a b = Raised (TooManyFailures max_failures)) \/
  (byte_val b = Symbol_value NAK /\ a < max_failures /\
     respond max_failures a b = Returned Next) \/
  (byte_val b = Symbol_value CAN /\ respond max_failures a b = Raised ReceiverCancelled) \/
  (byte_val b <> Symbol_value ACK /\ byte_val b <> Symbol_value NAK /\
     byte_val b <> Symbol_value CAN /\
     respond max_failures a b = Raised (ProtocolViolation b)).
Proof.
  unfold respond.
  destruct (Z.eqb_spec (byte_val b) (Symbol_value ACK)) as [Ha|Ha]; [now left|].
  destruct (Z.eqb_spec (byte_val b) (Symbol_value NAK)) as [Hn|Hn].
  - destruct (Z.geb_spec a max_failures).
    + right; left. repeat split; [assumption|lia].
    + right; right; left. repeat split; [assumption|lia].
  - destruct (Z.eqb_spec (byte_val b) (Symbol_value CAN)) as [Hc|Hc].
    + right; right; right; left. now split.
    + right; right; right; right. now repeat split.
Qed.

(** The retry loop from attempt [a] on, with [n] attempts left. *)
Lemma attempts_shape (data : bytes) (max_failures : Z) (n a : nat) (w : World) :
  Z.of_nat a + Z.of_nat n = max_failures + 1 -> (0 < n)%nat ->
  exists r w' t,
    for_in (map Z.of_nat (seq a n)) (attempt data max_failures) w = (r, w') /\
    evolves w w' t /\ exchange data max_failures (forget r) t.
Proof.
  revert a w. induction n as [|n IH]; intros a w Hsum Hn; [lia|].
  cbn [seq map]. rewrite for_in_cons.
  destruct (attempt_cases data max_failures (Z.of_nat a) w)
    as (r1 & w1 & t1 & Hrun & Hev & [[-> Hnr]|(b & -> & ->)]).
  - rewrite Hrun. destruct r1 as [x|e|].
    + exfalso. apply Hnr. now exists x.
    + exists (Raised e), w1, [Wr data]. repeat split; try apply Hev.
      apply exchange_unanswered. intros [x Hx]. discriminate.
    + exists Suspended, w1, [Wr data]. repeat split; try apply Hev.
      apply exchange_unanswered. intros [x Hx]. discriminate.
  - rewrite Hrun.
    destruct (respond_cases max_failures (Z.of_nat a) b)
      as [[Hb ->]|[(Hb & Ha & ->)|[(Hb & Ha & ->)|[[Hb ->]|(H1 & H2 & H3 & ->)]]]].
    + exists (Returned Return_), w1, [Wr data; Rd b]. repeat split; try apply Hev.
      now apply exchange_ack.
    + exists (Raised (TooManyFailures max_failures)), w1, [Wr data; Rd b].
      repeat split; try apply Hev. now apply exchange_too_many.
    + destruct (IH (S a) w1 ltac:(lia) ltac:(lia)) as (r2 & w2 & t2 & Hrun2 & Hev2 & Hsh).
      exists r2, w2, ([Wr data; Rd b] ++ t2). split; [exact Hrun2|].
      split; [now apply (evolves_trans w w1 w2)|].
      cbn [app]. now apply exchange_retry.
    + exists (Raised ReceiverCancelled), w1, [Wr data; Rd b].
      repeat split; try apply Hev. now apply exchange_cancel.
    + exists (Raised (ProtocolViolation b)), w1, [Wr data; Rd b].
      repeat split; try apply Hev. now apply exchange_invalid.
Qed.

Lemma range_seq (n : Z) : range n = map Z.of_nat (seq 0 (Z.to_nat n)).
Proof. reflexivity. Qed.

(** Every call, whatever the receiver and the event loop do. *)
Lemma send_data_shape (data : bytes) (max_failures : Z) (w : World) :
  0 <= max_failures ->
  exists r w' t,
    send_xmodem128_crc_data data max_failures w = (r, w') /\
    evolves w w' t /\ exchange data max_failures r t.
Proof.
  intros Hmf. rewrite send_xmodem128_crc_data_eq, range_seq. unfold bind.
  destruct (attempts_shape data max_failures (Z.to_nat (max_failures + 1)) 0 w
              ltac:(lia) ltac:(lia)) as (r & w' & t & Hrun & Hev & Hsh).
  rewrite Hrun. destruct r as [f|e|]; cbn [forget] in Hsh.
  - exists (Returned tt), w', t. now repeat split; try apply Hev.
  - exists (Raised e), w', t. now repeat split; try apply Hev.
  - exists Suspended, w', t. now repeat split; try apply Hev.
Qed.

(** With a negative bound the loop has no iteration: nothing is sent. *)
Lemma send_data_negative (data : bytes) (max_failures : Z) (w : World) :
  max_failures < 0 -> send_xmodem128_crc_data data max_failures w = (Returned tt, w).
Proof.
  intros Hmf. rewrite send_xmodem128_crc_data_eq, range_seq.
  replace (Z.to_nat (max_failures + 1)) with 0%nat by lia. reflexivity.
Qed.

Lemma exchange_head (data : bytes) (max_failures : Z) (r : outcome unit) (t : list io) :
  exchange data max_failures r t -> exists t', t = Wr data :: t'.
Proof. intros H. destruct H; eauto. Qed.

(** Where a read can sit in a trace that starts with a write and a read. *)
Lemma split_at_read (data : bytes) (b b' : byte) (t pre post : list io) :
  Wr data :: Rd b :: t = pre ++ Rd b' :: post ->
  (pre = [Wr data] /\ b' = b /\ post = t) \/
  (exists pre2, pre = Wr data :: Rd b :: pre2 /\ t = pre2 ++ Rd b' :: post).
Proof.
  intros H. destruct pre as [|x pre]; [discriminate|].
  injection H as <- H. destruct pre as [|y pre].
  - injection H as <- <-. now left.
  - injection H as <- H. right. now exists pre.
Qed.

Lemma split_at_read_1 (data : bytes) (b' : byte) (pre post : list io) :
  [Wr data] = pre ++ Rd b' :: post -> False.
Proof.
  intros H. destruct pre as [|x pre]; [discriminate|].
  injection H as _ H. destruct pre; discriminate.
Qed.

Lemma symbols_distinct :
  Symbol_value ACK <> Symbol_value NAK /\ Symbol_value ACK <> Symbol_value CAN /\
  Symbol_value NAK <> Symbol_value CAN.
Proof. cbn. lia. Qed.

Lemma classified_last (data : bytes) (max_failures : Z) (r : outcome unit) (b : byte) :
  (byte_val b = Symbol_value ACK -> r = Returned tt) ->
  (byte_val b = Symbol_value NAK -> r = Raised (TooManyFailures max_failures)) ->
  (byte_val b = Symbol_value CAN -> r = Raised ReceiverCancelled) ->
  (byte_val b <> Symbol_value ACK -> byte_val b <> Symbol_value NAK ->
   byte_val b <> Symbol_value CAN -> r = Raised (ProtocolViolation b)) ->
  classified data max_failures r b [].
Proof. intros H1 H2 H3 H4. unfold classified. repeat split; auto. Qed.

Lemma exchange_classified (data : bytes) (max_failures : Z) (r : outcome unit)
    (t : list io) :
  exchange data max_failures r t ->
  forall pre b post, t = pre ++ Rd b :: post ->
    (exists pre', pre = pre' ++ [Wr data]) /\ classified data max_failures r b post.
Proof.
  pose proof symbols_distinct as (D1 & D2 & D3).
  induction 1 as [r Hr|b0 Hb|b0 r t Hb Hex IH|b0 Hb|b0 Hb|b0 H1 H2 H3];
    intros pre b post Heq.
  - exfalso. eapply split_at_read_1. exact Heq.
  - apply split_at_read in Heq as [(-> & -> & ->)|(pre2 & _ & Hnil)];
      [|now destruct pre2].
    split; [now exists []|]. apply classified_last; congruence.
  - apply split_at_read in Heq as [(-> & -> & ->)|(pre2 & -> & Ht)].
    + split; [now exists []|]. destruct (exchange_head _ _ _ _ Hex) as [t' ->].
      unfold classified. repeat split; try congruence. intros _. right. now exists t'.
    + destruct (IH _ _ _ Ht) as [[pre' ->] Hc]. split; [|exact Hc].
      now exists (Wr data :: Rd b0 :: pre').
  - apply split_at_read in Heq as [(-> & -> & ->)|(pre2 & _ & Hnil)];
      [|now destruct pre2].
    split; [now exists []|]. apply classified_last; congruence.
  - apply split_at_read in Heq as [(-> & -> & ->)|(pre2 & _ & Hnil)];
      [|now destruct pre2].
    split; [now exists []|]. apply classified_last; congruence.
  - apply split_at_read in Heq as [(-> & -> & ->)|(pre2 & _ & Hnil)];
      [|now destruct pre2].
    split; [now exists []|]. apply classified_last; congruence.
Qed.

(** Every write is followed by one read, unless no response came. *)
Lemma exchange_write_then_read (data : bytes) (max_failures : Z) (r : outcome unit)
    (t : list io) :
  exchange data max_failures r t ->
  forall pre d post, t = pre ++ Wr d :: post ->
    d = data /\ ((post = [] /\ ~ returned r) \/ (exists b post', post = Rd b :: post')).
Proof.
  induction 1 as [r Hr|b0 Hb|b0 r t Hb Hex IH|b0 Hb|b0 Hb|b0 H1 H2 H3];
    intros pre d post Heq.
  - destruct pre as [|x pre]; [|now destruct pre].
    injection Heq as <- <-. split; [reflexivity|]. now left.
  - destruct pre as [|x [|y pre]]; try discriminate; [|now destruct pre].
    injection Heq as <- <-. split; [reflexivity|]. right. eauto.
  - destruct pre as [|x [|y pre]]; try discriminate.
    + injection Heq as <- <-. split; [reflexivity|]. right. eauto.
    + injection Heq as _ _ Ht. now apply (IH pre).
  - destruct pre as [|x [|y pre]]; try discriminate; [|now destruct pre].
    injection Heq as <- <-. split; [reflexivity|]. right. eauto.
  - destruct pre as [|x [|y pre]]; try discriminate; [|now destruct pre].
    injection Heq as <- <-. split; [reflexivity|]. right. eauto.
  - destruct pre as [|x [|y pre]]; try discriminate; [|now destruct pre].
    injection Heq as <- <-. split; [reflexivity|]. right. eauto.
Qed.

(** *** Runs against a receiver whose responses are known *)

Lemma quiet_drain (w : World) :
  quiet w ->
  exists w', drain w = (Returned tt, w') /\ w_trace w' = w_trace w /\
    w_protocol w' = w_protocol w /\ w_buffer w' = w_buffer w /\
    w_incoming w' = w_incoming w /\ quiet w'.
Proof.
  unfold quiet, drain. intros Hq. destruct (w_drains w) as [|[[]|e|] ds] eqn:E.
  - exists w. repeat split. now rewrite E.
  - exists (with_drains ds w). repeat split. cbn. now inversion Hq.
  - inversion Hq; discriminate.
  - inversion Hq; discriminate.
Qed.

(** An attempt whose flush completes and whose read returns [b]. *)
Lemma attempt_answered (data : bytes) (max_failures a : Z) (w : World)
    (b : byte) (buf : bytes) (evs : list event) :
  quiet w ->
  readexactly_loop (w_buffer w) (w_incoming w) = (Returned b, buf, evs) ->
  exists w',
    attempt data max_failures a w = (respond max_failures a b, w') /\
    evolves w w' [Wr data; Rd b] /\
    w_buffer w' = buf /\ w_incoming w' = evs /\ quiet w'.
Proof.
  intros Hq Hread. unfold attempt, bind, write.
  destruct (quiet_drain (log (Wr data) w) Hq) as (w1 & -> & Ht & Hp & Hb & Hi & Hq1).
  unfold readexactly_1. rewrite Hb, Hi. cbn [log w_buffer w_incoming]. rewrite Hread.
  exists (log (Rd b) (with_reader buf evs w1)). split; [|split; [|split; [|split]]].
  - unfold respond, ret, raise_.
    destruct (byte_val b =? Symbol_value ACK); [reflexivity|].
    destruct (byte_val b =? Symbol_value NAK);
      [destruct (a >=? max_failures); reflexivity|].
    destruct (byte_val b =? Symbol_value CAN); reflexivity.
  - split; cbn; [rewrite Ht; cbn; now rewrite <- app_assoc|exact Hp].
  - reflexivity.
  - reflexivity.
  - exact Hq1.
Qed.

Lemma respond_nak_retry (max_failures a : Z) :
  a < max_failures -> respond max_failures a (symbol_byte NAK) = Returned Next.
Proof.
  intros Ha. unfold respond. rewrite byte_val_symbol. cbn [Symbol_value].
  change (21 =? 6) with false. change (21 =? 21) with true. cbv iota.
  destruct (Z.geb_spec a max_failures); [lia|reflexivity].
Qed.

Lemma respond_nak_last (max_failures a : Z) :
  max_failures <= a ->
  respond max_failures a (symbol_byte NAK) = Raised (TooManyFailures max_failures).
Proof.
  intros Ha. unfold respond. rewrite byte_val_symbol. cbn [Symbol_value].
  change (21 =? 6) with false. change (21 =? 21) with true. cbv iota.
  destruct (Z.geb_spec a max_failures); [reflexivity|lia].
Qed.

Lemma respond_verdict (max_failures a : Z) (f : byte) :
  byte_val f <> Symbol_value NAK ->
  forget (respond max_failures a f) = verdict f /\
  respond max_failures a f <> Returned Next.
Proof.
  intros Hf. unfold respond, verdict.
  destruct (byte_val f =? Symbol_value ACK); [now split|].
  destruct (Z.eqb_spec (byte_val f) (Symbol_value NAK)); [contradiction|].
  destruct (byte_val f =? Symbol_value CAN); now split.
Qed.

(** [k] NAKs and then the response [f], within the bound. *)
Lemma attempts_retried (data : bytes) (max_failures : Z) (k n a : nat) (w : World)
    (f : byte) (buf' : bytes) (evs' : list event) :
  quiet w ->
  Z.of_nat a + Z.of_nat n = max_failures + 1 -> (k < n)%nat ->
  answers (w_buffer w) (w_incoming w) (repeat (symbol_byte NAK) k ++ [f]) buf' evs' ->
  byte_val f <> Symbol_value NAK ->
  exists r w',
    for_in (map Z.of_nat (seq a n)) (attempt data max_failures) w = (r, w') /\
    forget r = verdict f /\ r <> Returned Next /\
    evolves w w' (retried data k f) /\
    w_buffer w' = buf' /\ w_incoming w' = evs' /\ quiet w'.
Proof.
  revert n a w. induction k as [|k IH]; intros n a w Hq Hsum Hk Hans Hf.
  - destruct n as [|n]; [lia|]. cbn [seq map]. rewrite for_in_cons.
    cbn [repeat app] in Hans. inversion Hans as [|? ? ? buf1 evs1 ? ? ? Hread Hrest]; subst.
    inversion Hrest; subst.
    destruct (attempt_answered data max_failures (Z.of_nat a) w f buf' evs' Hq Hread)
      as (w1 & Hrun & Hev & Hb & Hi & Hq1).
    rewrite Hrun. destruct (respond_verdict max_failures (Z.of_nat a) f Hf) as [Hv Hne].
    exists (respond max_failures (Z.of_nat a) f), w1.
    destruct (respond max_failures (Z.of_nat a) f) as [[|]|e|]; try contradiction;
      (split; [reflexivity|]); repeat split; try assumption; apply Hev.
  - destruct n as [|n]; [lia|]. cbn [seq map]. rewrite for_in_cons.
    cbn [repeat app] in Hans. inversion Hans as [|? ? ? buf1 evs1 ? ? ? Hread Hrest]; subst.
    destruct (attempt_answered data max_failures (Z.of_nat a) w _ buf1 evs1 Hq Hread)
      as (w1 & Hrun & Hev & Hb & Hi & Hq1).
    rewrite Hrun, respond_nak_retry by lia.
    rewrite <- Hb, <- Hi in Hrest.
    destruct (IH n (S a) w1 Hq1 ltac:(lia) ltac:(lia) Hrest Hf)
      as (r & w2 & Hrun2 & Hv & Hne & Hev2 & Hb2 & Hi2 & Hq2).
    exists r, w2. repeat split; try assumption.
    + destruct Hev as [Ht _], Hev2 as [Ht2 _]. rewrite Ht2, Ht. unfold retried.
      cbn [repeat concat]. now rewrite <- !app_assoc.
    + destruct Hev as [_ Hp], Hev2 as [_ Hp2]. congruence.
Qed.

(** One NAK more than the bound allows. *)
Lemma attempts_exhausted (data : bytes) (max_failures : Z) (n a : nat) (w : World)
    (buf' : bytes) (evs' : list event) :
  quiet w ->
  Z.of_nat a + Z.of_nat n = max_failures + 1 -> (0 < n)%nat ->
  answers (w_buffer w) (w_incoming w) (repeat (symbol_byte NAK) n) buf' evs' ->
  exists w',
    for_in (map Z.of_nat (seq a n)) (attempt data max_failures) w
    = (Raised (TooManyFailures max_failures), w') /\
    evolves w w' (concat (repeat [Wr data; Rd (symbol_byte NAK)] n)) /\
    w_buffer w' = buf' /\ w_incoming w' = evs' /\ quiet w'.
Proof.
  revert a w. induction n as [|n IH]; intros a w Hq Hsum Hn Hans; [lia|].
  cbn [seq map]. rewrite for_in_cons.
  cbn [repeat] in Hans. inversion Hans as [|? ? ? buf1 evs1 ? ? ? Hread Hrest]; subst.
  destruct (attempt_answered data max_failures (Z.of_nat a) w _ buf1 evs1 Hq Hread)
    as (w1 & Hrun & Hev & Hb & Hi & Hq1).
  rewrite Hrun. destruct n as [|n].
  - rewrite respond_nak_last by lia. inversion Hrest; subst.
    exists w1. repeat split; try assumption; try reflexivity; apply Hev.
  - rewrite respond_nak_retry by lia.
    rewrite <- Hb, <- Hi in Hrest.
    destruct (IH (S a) w1 Hq1 ltac:(lia) ltac:(lia) Hrest)
      as (w2 & Hrun2 & Hev2 & Hb2 & Hi2 & Hq2).
    exists w2. repeat split; try assumption.
    + destruct Hev as [Ht _], Hev2 as [Ht2 _]. rewrite Ht2, Ht.
      cbn [repeat concat]. now rewrite <- !app_assoc.
    + destruct Hev as [_ Hp], Hev2 as [_ Hp2]. congruence.
Qed.

End Exchange.

(** ** Properties of the sender: the whole transfer *)

Section Transfer.
Import Xmodemcrc Common WireFormat Failure Receiver Run.

Lemma send_xmodem128_crc_eq (data : bytes) (max_failures : Z)
    (progress_callback : option callback) :
  send_xmodem128_crc data max_failures progress_callback
  = if negb (len data mod BLOCK_SIZE =? 0) then raise_ (InvalidInput (len data))
    else
      new_stream_reader ;;
      old_protocol <- get_protocol ;;
      set_protocol StreamReaderProtocol ;;
      try_finally (transfer data max_failures progress_callback)
                  (set_protocol old_protocol).
Proof. reflexivity. Qed.

Lemma block_body_eq (data : bytes) (max_failures : Z)
    (progress_callback : option callback) (index : Z) :
  block_body data max_failures progress_callback index
  = (send_xmodem128_crc_data (block_packet data index) max_failures ;;
     call_progress progress_callback ((index + 1) * 128) (len data) ;;
     ret Next).
Proof.
  unfold block_body. rewrite serialize_ok.
  - cbn [number payload lift]. rewrite land_255_mod. reflexivity.
  - cbn [number]. rewrite land_255_mod. apply Z.mod_pos_bound. lia.
Qed.

Lemma eot_bytes : bytes_of_ints [Symbol_value EOT] = Ok end_of_transmission.
Proof. reflexivity. Qed.

(** *** Runs against a receiver whose responses are known *)

Lemma lands_intro (w w' : World) (t : list io) (buf : bytes) (evs : list event) :
  evolves w w' t -> w_buffer w' = buf -> w_incoming w' = evs -> quiet w' ->
  lands w w' t buf evs.
Proof. intros. unfold lands. auto. Qed.

Lemma lands_refl (w : World) : quiet w -> lands w w [] (w_buffer w) (w_incoming w).
Proof. intros. apply lands_intro; auto. apply evolves_refl. Qed.

Lemma lands_trans (w1 w2 w3 : World) (t1 t2 : list io) (buf2 buf3 : bytes)
    (evs2 evs3 : list event) :
  lands w1 w2 t1 buf2 evs2 -> lands w2 w3 t2 buf3 evs3 ->
  lands w1 w3 (t1 ++ t2) buf3 evs3.
Proof.
  intros (E1 & _ & _ & _) (E2 & B & I & Q).
  split; [now apply (evolves_trans w1 w2 w3)|]. now repeat split.
Qed.

Lemma answers_app (l1 l2 : list byte) (buf : bytes) (evs : list event)
    (buf' : bytes) (evs' : list event) :
  answers buf evs (l1 ++ l2) buf' evs' ->
  exists buf1 evs1, answers buf evs l1 buf1 evs1 /\ answers buf1 evs1 l2 buf' evs'.
Proof.
  revert buf evs. induction l1 as [|b l1 IH]; intros buf evs H.
  - exists buf, evs. split; [constructor|exact H].
  - cbn [app] in H. inversion H as [|? ? ? bufa evsa ? ? ? Hread Hrest]; subst.
    destruct (IH _ _ Hrest) as (buf1 & evs1 & H1 & H2).
    exists buf1, evs1. split; [|exact H2]. econstructor; eassumption.
Qed.

Lemma call_progress_returns (progress_callback : option callback) (done total : Z)
    (w : World) :
  returns progress_callback -> quiet w ->
  exists w',
    call_progress progress_callback done total w = (Returned tt, w') /\
    lands w w' (progress_events progress_callback done total) (w_buffer w) (w_incoming w).
Proof.
  intros Hcb Hq. destruct progress_callback as [f|]; cbn [call_progress progress_events].
  - rewrite (Hcb f eq_refl). exists (log (Progress done total) w).
    split; [reflexivity|]. apply lands_intro; auto. split; reflexivity.
  - exists w. split; [reflexivity|]. now apply lands_refl.
Qed.

(** [k] NAKs within the bound, then the response [f]. *)
Lemma send_data_retried (data : bytes) (max_failures : Z) (k : nat) (f : byte)
    (w : World) (buf' : bytes) (evs' : list event) :
  quiet w -> Z.of_nat k <= max_failures ->
  answers (w_buffer w) (w_incoming w) (repeat (symbol_byte NAK) k ++ [f]) buf' evs' ->
  byte_val f <> Symbol_value NAK ->
  exists w',
    send_xmodem128_crc_data data max_failures w = (verdict f, w') /\
    lands w w' (retried data k f) buf' evs'.
Proof.
  intros Hq Hk Hans Hf. rewrite send_xmodem128_crc_data_eq, range_seq. unfold bind.
  destruct (attempts_retried data max_failures k (Z.to_nat (max_failures + 1)) 0 w f
              buf' evs' Hq ltac:(lia) ltac:(lia) Hans Hf)
    as (r & w' & Hrun & Hv & Hne & Hev & Hb & Hi & Hq').
  rewrite Hrun. exists w'. split; [|now apply lands_intro].
  rewrite <- Hv. destruct r as [[|]|e|]; reflexivity.
Qed.

(** One NAK more than the bound allows. *)
Lemma send_data_exhausted (data : bytes) (max_failures : Z) (w : World)
    (buf' : bytes) (evs' : list event) :
  quiet w -> 0 <= max_failures ->
  answers (w_buffer w) (w_incoming w)
          (repeat (symbol_byte NAK) (Z.to_nat (max_failures + 1))) buf' evs' ->
  exists w',
    send_xmodem128_crc_data data max_failures w
    = (Raised (TooManyFailures max_failures), w') /\
    lands w w' (concat (repeat [Wr data; Rd (symbol_byte NAK)]
                               (Z.to_nat (max_failures + 1)))) buf' evs'.
Proof.
  intros Hq Hmf Hans. rewrite send_xmodem128_crc_data_eq, range_seq. unfold bind.
  destruct (attempts_exhausted data max_failures (Z.to_nat (max_failures + 1)) 0 w
              buf' evs' Hq ltac:(lia) ltac:(lia) Hans)
    as (w' & Hrun & Hev & Hb & Hi & Hq').
  rewrite Hrun. exists w'. split; [reflexivity|now apply lands_intro].
Qed.

Lemma verdict_ack : verdict (symbol_byte ACK) = Returned tt.
Proof. reflexivity. Qed.

Lemma ack_not_nak : byte_val (symbol_byte ACK) <> Symbol_value NAK.
Proof. rewrite byte_val_symbol. cbn. lia. Qed.

Lemma bind_returned {A B : Type} (m : M A) (k : A -> M B) (w w' : World) (a : A) :
  m w = (Returned a, w') -> bind m k w = k a w'.
Proof. intros H. unfold bind. now rewrite H. Qed.

Lemma bind_raised {A B : Type} (m : M A) (k : A -> M B) (w w' : World) (e : exn) :
  m w = (Raised e, w') -> bind m k w = (Raised e, w').
Proof. intros H. unfold bind. now rewrite H. Qed.

Lemma bind_suspended {A B : Type} (m : M A) (k : A -> M B) (w w' : World) :
  m w = (Suspended, w') -> bind m k w = (Suspended, w').
Proof. intros H. unfold bind. now rewrite H. Qed.

(** One block that the receiver acknowledges after [k] NAKs. *)
Lemma block_body_retried (data : bytes) (max_failures : Z)
    (progress_callback : option callback) (i : nat) (k : nat) (w : World)
    (buf' : bytes) (evs' : list event) :
  quiet w -> returns progress_callback -> Z.of_nat k <= max_failures ->
  answers (w_buffer w) (w_incoming w)
          (repeat (symbol_byte NAK) k ++ [symbol_byte ACK]) buf' evs' ->
  exists w',
    block_body data max_failures progress_callback (Z.of_nat i) w = (Returned Next, w') /\
    lands w w' (retried (block_packet data (Z.of_nat i)) k (symbol_byte ACK)
                ++ progress_events progress_callback ((Z.of_nat i + 1) * 128) (len data))
          buf' evs'.
Proof.
  intros Hq Hcb Hk Hans. rewrite block_body_eq.
  destruct (send_data_retried (block_packet data (Z.of_nat i)) max_failures k _ w
              buf' evs' Hq Hk Hans ack_not_nak) as (w1 & Hrun1 & Hl1).
  rewrite verdict_ack in Hrun1. rewrite (bind_returned _ _ _ _ _ Hrun1).
  destruct Hl1 as (E1 & B1 & I1 & Q1).
  destruct (call_progress_returns progress_callback ((Z.of_nat i + 1) * 128) (len data)
              w1 Hcb Q1) as (w2 & Hrun2 & Hl2).
  rewrite (bind_returned _ _ _ _ _ Hrun2). exists w2. split; [reflexivity|].
  rewrite B1, I1 in Hl2. eapply lands_trans; [|exact Hl2]. now apply lands_intro.
Qed.

(** The blocks [i], [i + 1], ... that the receiver acknowledges after
    [ks] NAKs each. *)
Lemma blocks_retried (data : bytes) (max_failures : Z)
    (progress_callback : option callback) (ks : list nat) (i : nat) (w : World)
    (buf' : bytes) (evs' : list event) :
  quiet w -> returns progress_callback ->
  Forall (fun k => Z.of_nat k <= max_failures) ks ->
  answers (w_buffer w) (w_incoming w) (responses ks) buf' evs' ->
  exists w',
    for_in (map Z.of_nat (seq i (length ks)))
           (block_body data max_failures progress_callback) w = (Returned Next, w') /\
    lands w w' (blocks_trace data progress_callback i ks) buf' evs'.
Proof.
  revert i w. induction ks as [|k ks IH]; intros i w Hq Hcb Hks Hans.
  - inversion Hans; subst. exists w. split; [reflexivity|]. now apply lands_refl.
  - cbn [responses flat_map] in Hans. apply answers_app in Hans as (buf1 & evs1 & H1 & H2).
    inversion Hks as [|? ? Hk Hks']; subst.
    cbn [length seq map]. rewrite for_in_cons.
    destruct (block_body_retried data max_failures progress_callback i k w buf1 evs1
                Hq Hcb Hk H1) as (w1 & Hrun1 & Hl1).
    rewrite Hrun1. pose proof Hl1 as (E1 & B1 & I1 & Q1).
    rewrite <- B1, <- I1 in H2.
    destruct (IH (S i) w1 Q1 Hcb Hks' H2) as (w2 & Hrun2 & Hl2).
    exists w2. split; [exact Hrun2|].
    cbn [blocks_trace]. rewrite app_assoc. eapply lands_trans; eassumption.
Qed.

Lemma for_in_app {A : Type} (l1 l2 : list A) (body : A -> M flow) (w : World) :
  for_in (l1 ++ l2) body w
  = match for_in l1 body w with
    | (Returned Next, w') => for_in l2 body w'
    | other => other
    end.
Proof.
  revert w. induction l1 as [|x l1 IH]; intros w; [reflexivity|].
  cbn [app]. rewrite !for_in_cons.
  destruct (body x w) as [[[|]|e|] w']; try reflexivity. apply IH.
Qed.

Lemma handshake_readuntil (w : World) (chunk rest : bytes) (evs : list event) :
  w_buffer w = [] -> handshake (w_incoming w) chunk rest evs ->
  readuntil "C"%byte w = (Returned chunk, log (ReadUntil chunk) (with_reader rest evs w)).
Proof.
  unfold handshake, readuntil. intros -> ->. reflexivity.
Qed.

(** The handshake and the first [length ks] blocks. *)
Lemma transfer_prefix (data : bytes) (max_failures : Z)
    (progress_callback : option callback) (w : World) (chunk rest : bytes)
    (evs1 : list event) (ks : list nat) (buf' : bytes) (evs' : list event) :
  w_buffer w = [] -> quiet w -> returns progress_callback ->
  handshake (w_incoming w) chunk rest evs1 ->
  Forall (fun k => Z.of_nat k <= max_failures) ks ->
  answers [] evs1 (responses ks) buf' evs' ->
  exists w2,
    lands w w2 (opening data progress_callback chunk rest
                ++ blocks_trace data progress_callback 0 ks) buf' evs' /\
    forall (l : list Z) (k : M unit),
      (readuntil "C"%byte ;;
       call_progress progress_callback 0 (len data) ;;
       buffer_clear ;;
       for_in (map Z.of_nat (seq 0 (length ks)) ++ l)
              (block_body data max_failures progress_callback) ;;
       k) w
      = (for_in l (block_body data max_failures progress_callback) ;; k) w2.
Proof.
  intros Hbuf Hq Hcb Hhs Hks Hans.
  pose proof (handshake_readuntil w chunk rest evs1 Hbuf Hhs) as Hrun0.
  set (w0 := log (ReadUntil chunk) (with_reader rest evs1 w)) in *.
  assert (Hq0 : quiet w0) by exact Hq.
  destruct (call_progress_returns progress_callback 0 (len data) w0 Hcb Hq0)
    as (w1 & Hrun1 & (E1 & B1 & I1 & Q1)).
  set (w1c := log (BufferClear (w_buffer w1)) (with_reader [] (w_incoming w1) w1)).
  assert (Hq1c : quiet w1c) by exact Q1.
  assert (Hans' : answers (w_buffer w1c) (w_incoming w1c) (responses ks) buf' evs').
  { cbn [w1c log with_reader w_buffer w_incoming]. now rewrite I1. }
  destruct (blocks_retried data max_failures progress_callback ks 0 w1c buf' evs'
              Hq1c Hcb Hks Hans') as (w2 & Hrun2 & (E2 & B2 & I2 & Q2)).
  exists w2. split.
  - apply lands_intro; try assumption.
    destruct E1 as [T1 P1], E2 as [T2 P2]. split.
    + rewrite T2. cbn [w1c log with_reader w_trace]. rewrite T1.
      cbn [w0 log with_reader w_trace]. unfold opening.
      rewrite B1. cbn [w0 log with_reader w_buffer]. now rewrite <- !app_assoc.
    + rewrite P2. cbn [w1c log with_reader w_protocol]. rewrite P1. reflexivity.
  - intros l k. rewrite (bind_returned _ _ _ _ _ Hrun0).
    rewrite (bind_returned _ _ _ _ _ Hrun1).
    rewrite (bind_returned buffer_clear _ w1 w1c tt eq_refl).
    unfold bind at 1. rewrite for_in_app, Hrun2. reflexivity.
Qed.

Lemma len_multiple_blocks (data : bytes) :
  range (len data / BLOCK_SIZE) = map Z.of_nat (seq 0 (Z.to_nat (len data / 128))).
Proof. reflexivity. Qed.

(** The [finally] block after a body that has ended. *)
Lemma try_finally_ended {A : Type} (body : M A) (old_protocol : protocol)
    (w w' : World) (r : outcome A) :
  body w = (r, w') -> r <> Suspended ->
  try_finally body (set_protocol old_protocol) w = (r, restored old_protocol w').
Proof.
  intros Hrun Hr. unfold try_finally. rewrite Hrun.
  destruct r; [reflexivity|reflexivity|contradiction].
Qed.

Lemma try_finally_suspended {A : Type} (body : M A) (cleanup : M unit) (w w' : World) :
  body w = (Suspended, w') -> try_finally body cleanup w = (Suspended, w').
Proof. intros Hrun. unfold try_finally. now rewrite Hrun. Qed.

(** A call with data of an accepted length enters the [try] statement. *)
Lemma send_enters (data : bytes) (max_failures : Z)
    (progress_callback : option callback) (w : World) :
  len data mod 128 = 0 ->
  send_xmodem128_crc data max_failures progress_callback w
  = try_finally (transfer data max_failures progress_callback)
                (set_protocol (w_protocol w)) (swapped w).
Proof.
  intros Hlen. rewrite send_xmodem128_crc_eq.
  change BLOCK_SIZE with 128. rewrite Hlen. reflexivity.
Qed.

Lemma not_returned_bind {A B : Type} (m : M A) (k : A -> M B) (w w' : World)
    (r : outcome A) :
  m w = (r, w') -> ~ returned r ->
  exists r', bind m k w = (r', w') /\ forget r' = forget r /\ ~ returned r'.
Proof.
  intros Hrun Hr. unfold bind. rewrite Hrun. destruct r as [a|e|].
  - exfalso. apply Hr. now exists a.
  - exists (Raised e). repeat split. intros [x Hx]. discriminate.
  - exists Suspended. repeat split. intros [x Hx]. discriminate.
Qed.

Lemma forget_unit (r : outcome unit) : forget r = r.
Proof. destruct r as [[]|e|]; reflexivity. Qed.

(** After the handshake and [j] acknowledged blocks, the run ends as the
    next call of [send_xmodem128_crc_data] does, unless that call
    acknowledges a block. *)
Lemma send_prefix_then (data : bytes) (max_failures : Z)
    (progress_callback : option callback) (w : World) (chunk rest : bytes)
    (evs1 : list event) (ks : list nat) (buf2 : bytes) (evs2 : list event) :
  len data mod 128 = 0 -> quiet w -> returns progress_callback ->
  handshake (w_incoming w) chunk rest evs1 ->
  Forall (fun k => Z.of_nat k <= max_failures) ks ->
  (length ks <= Z.to_nat (len data / 128))%nat ->
  answers [] evs1 (responses ks) buf2 evs2 ->
  exists w2,
    lands (swapped w) w2 (opening data progress_callback chunk rest
                          ++ blocks_trace data progress_callback 0 ks) buf2 evs2 /\
    forall r w3,
      send_xmodem128_crc_data (next_data data (length ks)) max_failures w2 = (r, w3) ->
      ((length ks < Z.to_nat (len data / 128))%nat -> ~ returned r) ->
      r <> Suspended ->
      send_xmodem128_crc data max_failures progress_callback w
      = (r, restored (w_protocol w) w3).
Proof.
  intros Hlen Hq Hcb Hhs Hks Hj Hans.
  destruct (transfer_prefix data max_failures progress_callback (swapped w) chunk rest
              evs1 ks buf2 evs2 eq_refl Hq Hcb Hhs Hks Hans) as (w2 & Hl & Hcont).
  exists w2. split; [exact Hl|]. intros r w3 Hrun Hnr Hns.
  rewrite (send_enters _ _ _ _ Hlen). apply try_finally_ended; [|exact Hns].
  unfold transfer. rewrite len_multiple_blocks.
  replace (Z.to_nat (len data / 128))
    with (length ks + (Z.to_nat (len data / 128) - length ks))%nat by lia.
  rewrite seq_app, map_app, Hcont. cbn [Nat.add]. unfold next_data in Hrun.
  destruct (Nat.ltb_spec (length ks) (Z.to_nat (len data / 128))) as [Hlt|Hge].
  - destruct (Z.to_nat (len data / 128) - length ks)%nat as [|m] eqn:E; [lia|].
    cbn [seq map]. specialize (Hnr Hlt).
    assert (Hbody : exists r1, block_body data max_failures progress_callback
                                 (Z.of_nat (length ks)) w2 = (r1, w3) /\
                               forget r1 = r /\ ~ returned r1).
    { rewrite block_body_eq.
      destruct (not_returned_bind _
                  (fun _ => call_progress progress_callback
                              ((Z.of_nat (length ks) + 1) * 128) (len data) ;; ret Next)
                  _ _ _ Hrun Hnr) as (r1 & H1 & H2 & H3).
      exists r1. rewrite forget_unit in H2. auto. }
    destruct Hbody as (r1 & Hb1 & Hb2 & Hb3).
    unfold bind at 1. rewrite for_in_cons, Hb1. subst r.
    destruct r1 as [x|e|]; [|reflexivity|reflexivity].
    exfalso. apply Hb3. now exists x.
  - replace (Z.to_nat (len data / 128) - length ks)%nat with 0%nat by lia.
    cbn [seq map]. unfold bind at 1. cbn [for_in ret].
    rewrite eot_bytes. exact Hrun.
Qed.

Lemma swapped_trace (w : World) :
  w_trace (swapped w) = w_trace w ++ [SetProtocol StreamReaderProtocol].
Proof. reflexivity. Qed.

Lemma restored_facts (p : protocol) (w : World) :
  w_protocol (restored p w) = p /\ w_trace (restored p w) = w_trace w ++ [SetProtocol p] /\
  w_buffer (restored p w) = w_buffer w /\ w_incoming (restored p w) = w_incoming w.
Proof. repeat split. Qed.

(** The run against a receiver that acknowledges every block after [ks]
    NAKs each, and answers the end of the transmission by [ke] NAKs and
    then [f]. *)
Lemma send_to_eot (data : bytes) (max_failures : Z)
    (progress_callback : option callback) (w : World) (chunk rest : bytes)
    (evs1 : list event) (ks : list nat) (ke : nat) (f : byte)
    (buf' : bytes) (evs' : list event) :
  len data mod 128 = 0 -> quiet w -> returns progress_callback ->
  handshake (w_incoming w) chunk rest evs1 ->
  Forall (fun k => Z.of_nat k <= max_failures) ks ->
  length ks = Z.to_nat (len data / 128) ->
  Z.of_nat ke <= max_failures -> byte_val f <> Symbol_value NAK ->
  answers [] evs1 (responses ks ++ repeat (symbol_byte NAK) ke ++ [f]) buf' evs' ->
  exists w',
    send_xmodem128_crc data max_failures progress_callback w = (verdict f, w') /\
    w_protocol w' = w_protocol w /\
    w_trace w' = w_trace w ++ [SetProtocol StreamReaderProtocol]
                 ++ opening data progress_callback chunk rest
                 ++ blocks_trace data progress_callback 0 ks
                 ++ retried end_of_transmission ke f
                 ++ [SetProtocol (w_protocol w)] /\
    w_buffer w' = buf' /\ w_incoming w' = evs'.
Proof.
  intros Hlen Hq Hcb Hhs Hks Hn Hke Hf Hans.
  apply answers_app in Hans as (buf2 & evs2 & Hans1 & Hans2).
  destruct (send_prefix_then data max_failures progress_callback w chunk rest evs1 ks
              buf2 evs2 Hlen Hq Hcb Hhs Hks ltac:(lia) Hans1) as (w2 & Hl & Hcont).
  destruct Hl as ((T2 & P2) & B2 & I2 & Q2). rewrite <- B2, <- I2 in Hans2.
  destruct (send_data_retried (next_data data (length ks)) max_failures ke f w2 buf' evs'
              Q2 Hke Hans2 Hf) as (w3 & Hrun & ((T3 & P3) & B3 & I3 & Q3)).
  exists (restored (w_protocol w) w3). split; [|split; [|split; [|split]]].
  - apply Hcont; [exact Hrun|lia|]. unfold verdict.
    destruct (_ =? _); [discriminate|]. destruct (_ =? _); discriminate.
  - reflexivity.
  - cbn [restored log with_protocol w_trace]. rewrite T3, T2, swapped_trace.
    unfold next_data. rewrite Hn, Nat.ltb_irrefl. now rewrite <- !app_assoc.
  - exact B3.
  - exact I3.
Qed.

Lemma verdict_fatal (f : byte) :
  byte_val f <> Symbol_value ACK -> ~ returned (verdict f) /\ verdict f <> Suspended.
Proof.
  intros Hf. unfold verdict.
  destruct (Z.eqb_spec (byte_val f) (Symbol_value ACK)); [contradiction|].
  destruct (_ =? _); (split; [intros [x Hx]|]; discriminate).
Qed.

(** The receiver acknowledges [length ks] blocks and answers the next
    write, of a block or of the end of the transmission, by [k] NAKs and
    then a byte [f] that is neither ACK nor NAK. *)
Lemma send_aborted (data : bytes) (max_failures : Z)
    (progress_callback : option callback) (w : World) (chunk rest : bytes)
    (evs1 : list event) (ks : list nat) (k : nat) (f : byte)
    (buf' : bytes) (evs' : list event) :
  len data mod 128 = 0 -> quiet w -> returns progress_callback ->
  handshake (w_incoming w) chunk rest evs1 ->
  Forall (fun k => Z.of_nat k <= max_failures) ks ->
  (length ks <= Z.to_nat (len data / 128))%nat ->
  Z.of_nat k <= max_failures ->
  byte_val f <> Symbol_value ACK -> byte_val f <> Symbol_value NAK ->
  answers [] evs1 (responses ks ++ repeat (symbol_byte NAK) k ++ [f]) buf' evs' ->
  exists w',
    send_xmodem128_crc data max_failures progress_callback w = (verdict f, w') /\
    w_protocol w' = w_protocol w /\
    w_trace w' = w_trace w ++ [SetProtocol StreamReaderProtocol]
                 ++ opening data progress_callback chunk rest
                 ++ blocks_trace data progress_callback 0 ks
                 ++ retried (next_data data (length ks)) k f
                 ++ [SetProtocol (w_protocol w)].
Proof.
  intros Hlen Hq Hcb Hhs Hks Hn Hk Hfa Hfn Hans.
  apply answers_app in Hans as (buf2 & evs2 & Hans1 & Hans2).
  destruct (send_prefix_then data max_failures progress_callback w chunk rest evs1 ks
              buf2 evs2 Hlen Hq Hcb Hhs Hks Hn Hans1) as (w2 & Hl & Hcont).
  destruct Hl as ((T2 & P2) & B2 & I2 & Q2). rewrite <- B2, <- I2 in Hans2.
  destruct (send_data_retried (next_data data (length ks)) max_failures k f w2 buf' evs'
              Q2 Hk Hans2 Hfn) as (w3 & Hrun & ((T3 & P3) & B3 & I3 & Q3)).
  destruct (verdict_fatal f Hfa) as [Hnr Hns].
  exists (restored (w_protocol w) w3). split; [|split].
  - apply Hcont; auto.
  - reflexivity.
  - cbn [restored log with_protocol w_trace]. rewrite T3, T2, swapped_trace.
    now rewrite <- !app_assoc.
Qed.

(** The receiver acknowledges [length ks] blocks and answers the next
    write by one NAK more than the bound allows. *)
Lemma send_too_many (data : bytes) (max_failures : Z)
    (progress_callback : option callback) (w : World) (chunk rest : bytes)
    (evs1 : list event) (ks : list nat) (buf' : bytes) (evs' : list event) :
  len data mod 128 = 0 -> quiet w -> returns progress_callback ->
  handshake (w_incoming w) chunk rest evs1 ->
  Forall (fun k => Z.of_nat k <= max_failures) ks ->
  (length ks <= Z.to_nat (len data / 128))%nat ->
  0 <= max_failures ->
  answers [] evs1
          (responses ks ++ repeat (symbol_byte NAK) (Z.to_nat (max_failures + 1)))
          buf' evs' ->
  exists w',
    send_xmodem128_crc data max_failures progress_callback w
    = (Raised (TooManyFailures max_failures), w') /\
    w_protocol w' = w_protocol w /\
    w_trace w' = w_trace w ++ [SetProtocol StreamReaderProtocol]
                 ++ opening data progress_callback chunk rest
                 ++ blocks_trace data progress_callback 0 ks
                 ++ concat (repeat [Wr (next_data data (length ks)); Rd (symbol_byte NAK)]
                                   (Z.to_nat (max_failures + 1)))
                 ++ [SetProtocol (w_protocol w)].
Proof.
  intros Hlen Hq Hcb Hhs Hks Hn Hmf Hans.
  apply answers_app in Hans as (buf2 & evs2 & Hans1 & Hans2).
  destruct (send_prefix_then data max_failures progress_callback w chunk rest evs1 ks
              buf2 evs2 Hlen Hq Hcb Hhs Hks Hn Hans1) as (w2 & Hl & Hcont).
  destruct Hl as ((T2 & P2) & B2 & I2 & Q2). rewrite <- B2, <- I2 in Hans2.
  destruct (send_data_exhausted (next_data data (length ks)) max_failures w2 buf' evs'
              Q2 Hmf Hans2) as (w3 & Hrun & ((T3 & P3) & B3 & I3 & Q3)).
  exists (restored (w_protocol w) w3). split; [|split].
  - apply Hcont; [exact Hrun| |discriminate]. intros _ [x Hx]. discriminate.
  - reflexivity.
  - cbn [restored log with_protocol w_trace]. rewrite T3, T2, swapped_trace.
    now rewrite <- !app_assoc.
Qed.

End Transfer.

(** ** Properties of the sender: every run, whatever the environment does *)

Section EveryRun.
Import Xmodemcrc Common WireFormat Failure Receiver Run.

Lemma in_app_split {A : Type} (t1 t2 pre post : list A) (x : A) :
  t1 ++ t2 = pre ++ x :: post ->
  (exists post1, t1 = pre ++ x :: post1 /\ post = post1 ++ t2) \/
  (exists pre2, pre = t1 ++ pre2 /\ t2 = pre2 ++ x :: post).
Proof.
  revert pre. induction t1 as [|y t1 IH]; intros pre H.
  - right. now exists pre.
  - destruct pre as [|z pre].
    + injection H as -> H. left. now exists t1.
    + injection H as -> H. destruct (IH pre H) as [(post1 & -> & ->)|(pre2 & -> & ->)].
      * left. now exists post1.
      * right. now exists pre2.
Qed.

Lemma exchange_settled (data : bytes) (max_failures : Z) (r : outcome unit)
    (t : list io) :
  exchange data max_failures r t -> settled r t.
Proof.
  intros Hex pre b post Heq.
  destruct (exchange_classified _ _ _ _ Hex _ _ _ Heq) as [[pre' ->] (_ & _ & Hc & Ho)].
  split; [now exists pre', data|]. intros [Ha Hn]. unfold failure_of.
  destruct (Z.eqb_spec (byte_val b) (Symbol_value CAN)) as [E|E]; auto.
Qed.

Lemma settled_returned_benign (t : list io) : settled (Returned tt) t -> benign t.
Proof.
  intros Hs pre b post Heq. destruct (Hs _ _ _ Heq) as [Hp Hf].
  split; [exact Hp|]. intros Hfat. destruct (Hf Hfat) as [_ Hr]. discriminate.
Qed.

Lemma benign_settled (r : outcome unit) (t : list io) : benign t -> settled r t.
Proof.
  intros Hb pre b post Heq. destruct (Hb _ _ _ Heq) as [Hp Hf].
  split; [exact Hp|]. intros Hfat. contradiction.
Qed.

Lemma no_reads_benign (t : list io) : no_reads t -> benign t.
Proof.
  intros Hn pre b post Heq. exfalso. apply (Hn b). rewrite Heq.
  apply in_or_app. right. now left.
Qed.

Lemma benign_app_settled (r : outcome unit) (t1 t2 : list io) :
  benign t1 -> settled r t2 -> settled r (t1 ++ t2).
Proof.
  intros H1 H2 pre b post Heq.
  apply in_app_split in Heq as [(post1 & E1 & ->)|(pre2 & -> & E2)].
  - destruct (H1 _ _ _ E1) as [Hp Hf]. split; [exact Hp|]. intros Hfat. contradiction.
  - destruct (H2 _ _ _ E2) as [(pre' & d & ->) Hf]. split; [|exact Hf].
    exists (t1 ++ pre'), d. now rewrite app_assoc.
Qed.

Lemma benign_app (t1 t2 : list io) : benign t1 -> benign t2 -> benign (t1 ++ t2).
Proof.
  intros H1 H2. apply settled_returned_benign.
  apply benign_app_settled; [exact H1|]. now apply benign_settled.
Qed.

Lemma no_reads_progress (progress_callback : option callback) (done total : Z) :
  no_reads (progress_events progress_callback done total).
Proof.
  intros b. destruct progress_callback; cbn; [|tauto]. intros [H|[]]. discriminate.
Qed.

Lemma no_reads_opening (data : bytes) (progress_callback : option callback)
    (chunk rest : bytes) :
  no_reads (opening data progress_callback chunk rest).
Proof.
  intros b. unfold opening. rewrite !in_app_iff. intros [H|[H|H]].
  - destruct H as [H|[]]. discriminate.
  - now apply no_reads_progress in H.
  - destruct H as [H|[]]. discriminate.
Qed.

(** A call of the callback: it is logged, and returns or raises. *)
Lemma call_progress_cases (progress_callback : option callback) (done total : Z)
    (w : World) :
  exists r w',
    call_progress progress_callback done total w = (r, w') /\
    evolves w w' (progress_events progress_callback done total) /\
    (r = Returned tt \/
     exists f e, progress_callback = Some f /\ f done total = Raise e /\ r = Raised e).
Proof.
  destruct progress_callback as [f|]; cbn [call_progress progress_events].
  - destruct (f done total) as [[]|e] eqn:E.
    + exists (Returned tt), (log (Progress done total) w). repeat split. now left.
    + exists (Raised e), (log (Progress done total) w). repeat split.
      right. now exists f, e.
  - exists (Returned tt), w. split; [reflexivity|]. split; [apply evolves_refl|now left].
Qed.

(** One block: the exchange, then the callback. *)
Lemma block_body_cases (data : bytes) (max_failures : Z)
    (progress_callback : option callback) (i : nat) (w : World) :
  0 <= max_failures ->
  exists r w' t,
    block_body data max_failures progress_callback (Z.of_nat i) w = (r, w') /\
    evolves w w' t /\
    ((exchange (block_packet data (Z.of_nat i)) max_failures (forget r) t /\
      ~ returned r) \/
     (exists t1 f e,
        exchange (block_packet data (Z.of_nat i)) max_failures (Returned tt) t1 /\
        progress_callback = Some f /\
        f ((Z.of_nat i + 1) * 128) (len data) = Raise e /\
        r = Raised e /\ t = t1 ++ [Progress ((Z.of_nat i + 1) * 128) (len data)]) \/
     (exists t1,
        exchange (block_packet data (Z.of_nat i)) max_failures (Returned tt) t1 /\
        r = Returned Next /\
        t = t1 ++ progress_events progress_callback ((Z.of_nat i + 1) * 128) (len data))).
Proof.
  intros Hmf. rewrite block_body_eq.
  destruct (send_data_shape (block_packet data (Z.of_nat i)) max_failures w Hmf)
    as (r1 & w1 & t1 & Hrun1 & Hev1 & Hex).
  destruct r1 as [[]|e|].
  - rewrite (bind_returned _ _ _ _ _ Hrun1).
    destruct (call_progress_cases progress_callback ((Z.of_nat i + 1) * 128) (len data) w1)
      as (r2 & w2 & Hrun2 & Hev2 & [->|(f & e & Hcb & Hf & ->)]).
    + rewrite (bind_returned _ _ _ _ _ Hrun2).
      exists (Returned Next), w2, (t1 ++ progress_events progress_callback
                                          ((Z.of_nat i + 1) * 128) (len data)).
      split; [reflexivity|]. split; [now apply (evolves_trans w w1 w2)|].
      right; right. now exists t1.
    + rewrite (bind_raised _ _ _ _ _ Hrun2).
      exists (Raised e), w2, (t1 ++ [Progress ((Z.of_nat i + 1) * 128) (len data)]).
      split; [reflexivity|]. split.
      * rewrite Hcb in Hev2. now apply (evolves_trans w w1 w2).
      * right; left. now exists t1, f, e.
  - rewrite (bind_raised _ _ _ _ _ Hrun1). exists (Raised e), w1, t1.
    split; [reflexivity|]. split; [exact Hev1|]. left. split; [exact Hex|].
    intros [x Hx]. discriminate.
  - rewrite (bind_suspended _ _ _ _ Hrun1). exists Suspended, w1, t1.
    split; [reflexivity|]. split; [exact Hev1|]. left. split; [exact Hex|].
    intros [x Hx]. discriminate.
Qed.

(** The loop over the blocks from index [i] on, and the end of the
    transmission. *)
Lemma session_shape (data : bytes) (max_failures : Z)
    (progress_callback : option callback) (m i : nat) (w : World) :
  0 <= max_failures ->
  exists r w' t,
    (for_in (map Z.of_nat (seq i m)) (block_body data max_failures progress_callback) ;;
     eot <- lift (bytes_of_ints [Symbol_value EOT]) ;;
     send_xmodem128_crc_data eot max_failures) w = (r, w') /\
    evolves w w' t /\ session data max_failures progress_callback i m r t.
Proof.
  intros Hmf. revert i w. induction m as [|m IH]; intros i w.
  - cbn [seq map]. unfold bind at 1. cbn [for_in ret]. rewrite eot_bytes.
    destruct (send_data_shape end_of_transmission max_failures w Hmf)
      as (r & w' & t & Hrun & Hev & Hex).
    exists r, w', t. split; [exact Hrun|]. split; [exact Hev|]. now apply session_eot.
  - cbn [seq map]. unfold bind at 1. rewrite for_in_cons.
    destruct (block_body_cases data max_failures progress_callback i w Hmf)
      as (r1 & w1 & t1 & Hrun1 & Hev1 &
          [[Hex Hnr]|[(t0 & f & e & Hex & Hcb & Hf & -> & ->)|(t0 & Hex & -> & ->)]]).
    + rewrite Hrun1. destruct r1 as [x|e|].
      * exfalso. apply Hnr. now exists x.
      * exists (Raised e), w1, t1. split; [reflexivity|]. split; [exact Hev1|].
        apply session_abort; [exact Hex|]. intros [x Hx]. discriminate.
      * exists Suspended, w1, t1. split; [reflexivity|]. split; [exact Hev1|].
        apply session_abort; [exact Hex|]. intros [x Hx]. discriminate.
    + rewrite Hrun1. exists (Raised e), w1, (t0 ++ [Progress ((Z.of_nat i + 1) * 128) (len data)]).
      split; [reflexivity|]. split; [exact Hev1|]. now apply (session_callback _ _ _ _ _ _ f).
    + rewrite Hrun1. destruct (IH (S i) w1) as (r2 & w2 & t2 & Hrun2 & Hev2 & Hse).
      unfold bind at 1 in Hrun2.
      exists r2, w2, ((t0 ++ progress_events progress_callback
                               ((Z.of_nat i + 1) * 128) (len data)) ++ t2).
      split; [exact Hrun2|]. split; [now apply (evolves_trans w w1 w2)|].
      rewrite <- app_assoc. now apply session_next.
Qed.

Lemma transfer_shape (data : bytes) (max_failures : Z)
    (progress_callback : option callback) (w : World) :
  0 <= max_failures -> w_buffer w = [] ->
  exists r w' t,
    transfer data max_failures progress_callback w = (r, w') /\
    evolves w w' t /\
    transfer_run data max_failures progress_callback (w_incoming w) r t.
Proof.
  intros Hmf Hbuf. unfold transfer.
  destruct (readuntil_loop "C"%byte [] (w_incoming w)) as [[r0 buf0] evs0] eqn:Hloop.
  assert (Hru : readuntil "C"%byte w
                = match r0 with
                  | Returned chunk =>
                      (Returned chunk, log (ReadUntil chunk) (with_reader buf0 evs0 w))
                  | Raised e => (Raised e, with_reader buf0 evs0 w)
                  | Suspended => (Suspended, with_reader buf0 evs0 w)
                  end).
  { unfold readuntil. rewrite Hbuf, Hloop. now destruct r0. }
  destruct r0 as [chunk|e|].
  - rewrite (bind_returned _ _ _ _ _ Hru).
    set (w0 := log (ReadUntil chunk) (with_reader buf0 evs0 w)).
    destruct (call_progress_cases progress_callback 0 (len data) w0)
      as (r1 & w1 & Hrun1 & Hev1 & [->|(f & e & Hcb & Hf & ->)]).
    + rewrite (bind_returned _ _ _ _ _ Hrun1).
      rewrite (bind_returned buffer_clear _ w1 _ tt eq_refl).
      rewrite len_multiple_blocks.
      set (w1c := log (BufferClear (w_buffer w1)) (with_reader [] (w_incoming w1) w1)).
      destruct (session_shape data max_failures progress_callback
                  (Z.to_nat (len data / 128)) 0 w1c Hmf)
        as (r2 & w2 & t2 & Hrun2 & Hev2 & Hse).
      exists r2, w2, (opening data progress_callback chunk buf0 ++ t2).
      split; [exact Hrun2|]. split.
      * destruct Hev1 as [T1 P1], Hev2 as [T2 P2]. split.
        -- rewrite T2. cbn [w1c log with_reader w_trace]. rewrite T1.
           cbn [w0 log with_reader w_trace]. unfold opening.
           assert (Hb1 : w_buffer w1 = buf0).
           { destruct progress_callback as [g|]; cbn [call_progress] in Hrun1.
             - destruct (g 0 (len data)); cbn in Hrun1; injection Hrun1 as _ <-;
                 reflexivity.
             - cbn in Hrun1. injection Hrun1 as <-. reflexivity. }
           rewrite Hb1. now rewrite <- !app_assoc.
        -- rewrite P2. cbn [w1c log with_reader w_protocol]. rewrite P1. reflexivity.
      * now apply (run_session _ _ _ _ chunk buf0 evs0).
    + rewrite (bind_raised _ _ _ _ _ Hrun1).
      exists (Raised e), w1, [ReadUntil chunk; Progress 0 (len data)].
      split; [reflexivity|]. split.
      * rewrite Hcb in Hev1. destruct Hev1 as [T1 P1]. split.
        -- rewrite T1. cbn [w0 log with_reader w_trace progress_events].
           now rewrite <- app_assoc.
        -- rewrite P1. reflexivity.
      * now apply (run_callback _ _ _ _ chunk buf0 evs0 f).
  - rewrite (bind_raised _ _ _ _ _ Hru). exists (Raised e), (with_reader buf0 evs0 w), [].
    split; [reflexivity|]. split; [split; [now rewrite app_nil_r|reflexivity]|].
    apply (run_no_handshake _ _ _ _ (Raised e) buf0 evs0 Hloop).
    intros [x Hx]. discriminate.
  - rewrite (bind_suspended _ _ _ _ Hru). exists Suspended, (with_reader buf0 evs0 w), [].
    split; [reflexivity|]. split; [split; [now rewrite app_nil_r|reflexivity]|].
    apply (run_no_handshake _ _ _ _ Suspended buf0 evs0 Hloop).
    intros [x Hx]. discriminate.
Qed.

(** Every run on data of an accepted length. *)
Lemma send_shape (data : bytes) (max_failures : Z)
    (progress_callback : option callback) (w : World) :
  len data mod 128 = 0 -> 0 <= max_failures ->
  exists r w' t,
    send_xmodem128_crc data max_failures progress_callback w = (r, w') /\
    transfer_run data max_failures progress_callback (w_incoming w) r t /\
    w_trace w' = w_trace w ++ [SetProtocol StreamReaderProtocol] ++ t
                 ++ closing r (w_protocol w) /\
    (r <> Suspended -> w_protocol w' = w_protocol w).
Proof.
  intros Hlen Hmf. rewrite (send_enters _ _ _ _ Hlen).
  destruct (transfer_shape data max_failures progress_callback (swapped w) Hmf eq_refl)
    as (r & w3 & t & Hrun & [T3 P3] & Hshape).
  destruct r as [[]|e|].
  - rewrite (try_finally_ended _ _ _ _ _ Hrun) by discriminate.
    exists (Returned tt), (restored (w_protocol w) w3), t. split; [reflexivity|].
    split; [exact Hshape|]. split; [|reflexivity].
    cbn [restored log with_protocol w_trace closing]. rewrite T3, swapped_trace.
    now rewrite <- !app_assoc.
  - rewrite (try_finally_ended _ _ _ _ _ Hrun) by discriminate.
    exists (Raised e), (restored (w_protocol w) w3), t. split; [reflexivity|].
    split; [exact Hshape|]. split; [|reflexivity].
    cbn [restored log with_protocol w_trace closing]. rewrite T3, swapped_trace.
    now rewrite <- !app_assoc.
  - rewrite (try_finally_suspended _ _ _ _ Hrun).
    exists Suspended, w3, t. split; [reflexivity|]. split; [exact Hshape|].
    split; [|intros H; contradiction].
    cbn [closing]. rewrite T3, swapped_trace, app_nil_r. now rewrite <- !app_assoc.
Qed.

Lemma session_settled (data : bytes) (max_failures : Z)
    (progress_callback : option callback) (i m : nat) (r : outcome unit) (t : list io) :
  session data max_failures progress_callback i m r t -> settled r t.
Proof.
  induction 1 as [i r t Hex|i m r t Hex Hnr|i m t f e Hex Hcb Hf|i m t r t' Hex Hse IH].
  - now apply exchange_settled in Hex.
  - now apply exchange_settled in Hex.
  - apply benign_settled. apply benign_app.
    + apply settled_returned_benign. now apply exchange_settled in Hex.
    + apply no_reads_benign. intros b [H|[]]. discriminate.
  - apply benign_app_settled.
    + apply settled_returned_benign. now apply exchange_settled in Hex.
    + apply benign_app_settled; [|exact IH].
      apply no_reads_benign, no_reads_progress.
Qed.

Lemma transfer_run_settled (data : bytes) (max_failures : Z)
    (progress_callback : option callback) (evs : list event) (r : outcome unit)
    (t : list io) :
  transfer_run data max_failures progress_callback evs r t -> settled r t.
Proof.
  intros [r0 buf evs' Hloop Hnr|chunk rest evs' f e Hhs Hcb Hf|chunk rest evs' r0 t0 Hhs Hse].
  - intros pre b post Heq. now destruct pre.
  - apply benign_settled, no_reads_benign. intros b [H|[H|[]]]; discriminate.
  - apply benign_app_settled; [apply no_reads_benign, no_reads_opening|].
    now apply session_settled in Hse.
Qed.

(** An exchange that returns is some NAKs and then an ACK. *)
Lemma exchange_returned (data : bytes) (max_failures : Z) (r : outcome unit)
    (t : list io) :
  exchange data max_failures r t -> r = Returned tt ->
  exists k, t = retried data k (symbol_byte ACK).
Proof.
  induction 1 as [r Hr|b0 Hb|b0 r t Hb Hex IH|b0 Hb|b0 Hb|b0 H1 H2 H3]; intros Hret;
    try discriminate.
  - exfalso. apply Hr. exists tt. exact Hret.
  - exists 0%nat. now rewrite (symbol_byte_eq ACK b0 Hb).
  - destruct (IH Hret) as [k ->]. exists (S k). now rewrite (symbol_byte_eq NAK b0 Hb).
Qed.

(** A session that returns acknowledged every block. *)
Lemma session_returned (data : bytes) (max_failures : Z)
    (progress_callback : option callback) (i m : nat) (r : outcome unit) (t : list io) :
  session data max_failures progress_callback i m r t -> r = Returned tt ->
  exists ks ke, length ks = m /\
    t = blocks_trace data progress_callback i ks
        ++ retried end_of_transmission ke (symbol_byte ACK).
Proof.
  induction 1 as [i r t Hex|i m r t Hex Hnr|i m t f e Hex Hcb Hf|i m t r t' Hex Hse IH];
    intros Hret.
  - destruct (exchange_returned _ _ _ _ Hex Hret) as [ke ->]. now exists [], ke.
  - exfalso. apply Hnr. exists tt. exact Hret.
  - discriminate.
  - destruct (IH Hret) as (ks & ke & Hlen & ->).
    destruct (exchange_returned _ _ _ _ Hex eq_refl) as [k ->].
    exists (k :: ks), ke. split; [cbn; now rewrite Hlen|].
    cbn [blocks_trace]. now rewrite <- !app_assoc.
Qed.

End EveryRun.

(** ** What the traces hold *)

Section Traces.
Import Xmodemcrc Common WireFormat Failure Receiver Run.

Lemma writes_of_app (t1 t2 : list io) : writes_of (t1 ++ t2) = writes_of t1 ++ writes_of t2.
Proof. apply flat_map_app. Qed.

Lemma progress_of_app (t1 t2 : list io) :
  progress_of (t1 ++ t2) = progress_of t1 ++ progress_of t2.
Proof. apply flat_map_app. Qed.

Lemma writes_of_retried (data : bytes) (k : nat) (f : byte) :
  writes_of (retried data k f) = repeat data (S k).
Proof.
  unfold retried. induction k as [|k IH]; [reflexivity|].
  cbn [repeat concat]. rewrite <- app_assoc, writes_of_app, IH. reflexivity.
Qed.

Lemma writes_of_naks (data : bytes) (n : nat) :
  writes_of (concat (repeat [Wr data; Rd (symbol_byte NAK)] n)) = repeat data n.
Proof.
  induction n as [|n IH]; [reflexivity|].
  cbn [repeat concat]. rewrite writes_of_app, IH. reflexivity.
Qed.

Lemma progress_of_retried (data : bytes) (k : nat) (f : byte) :
  progress_of (retried data k f) = [].
Proof.
  unfold retried. induction k as [|k IH]; [reflexivity|].
  cbn [repeat concat]. rewrite <- app_assoc, progress_of_app, IH. reflexivity.
Qed.

Lemma writes_of_progress (progress_callback : option callback) (a b : Z) :
  writes_of (progress_events progress_callback a b) = [].
Proof. now destruct progress_callback. Qed.

Lemma writes_of_opening (data : bytes) (progress_callback : option callback)
    (chunk rest : bytes) :
  writes_of (opening data progress_callback chunk rest) = [].
Proof. now destruct progress_callback. Qed.

Lemma writes_of_blocks (data : bytes) (progress_callback : option callback)
    (ks : list nat) (i : nat) :
  writes_of (blocks_trace data progress_callback i ks) = blocks_writes data i ks.
Proof.
  revert i. induction ks as [|k ks IH]; intros i; [reflexivity|].
  cbn [blocks_trace blocks_writes].
  now rewrite !writes_of_app, writes_of_retried, writes_of_progress, IH.
Qed.

(** No NAK at all: every block is written once. *)
Lemma blocks_writes_once (data : bytes) (n i : nat) :
  blocks_writes data i (repeat 0%nat n) = map (block_packet data) (map Z.of_nat (seq i n)).
Proof.
  revert i. induction n as [|n IH]; intros i; [reflexivity|].
  cbn [repeat blocks_writes seq map app]. now rewrite IH.
Qed.

Lemma progress_of_blocks_some (data : bytes) (f : callback) (n i : nat) :
  progress_of (blocks_trace data (Some f) i (repeat 0%nat n))
  = map (fun j => ((j + 1) * 128, len data)) (map Z.of_nat (seq i n)).
Proof.
  revert i. induction n as [|n IH]; intros i; [reflexivity|].
  cbn [repeat blocks_trace seq map].
  rewrite !progress_of_app, progress_of_retried, IH. reflexivity.
Qed.

Lemma progress_of_blocks_none (data : bytes) (ks : list nat) (i : nat) :
  progress_of (blocks_trace data None i ks) = [].
Proof.
  revert i. induction ks as [|k ks IH]; intros i; [reflexivity|].
  cbn [blocks_trace]. now rewrite !progress_of_app, progress_of_retried, IH.
Qed.

Lemma responses_once (n : nat) : responses (repeat 0%nat n) = repeat (symbol_byte ACK) n.
Proof.
  induction n as [|n IH]; [reflexivity|].
  cbn [repeat responses flat_map app]. unfold responses in IH. now rewrite IH.
Qed.

Lemma repeat_snoc {A : Type} (x : A) (n : nat) : repeat x (S n) = repeat x n ++ [x].
Proof. induction n as [|n IH]; [reflexivity|]. cbn [repeat app] in *. now rewrite <- IH. Qed.

End Traces.

(** ** The specification's statements about the block transfer *)

Section BlockTransfer.
Import Xmodemcrc Common WireFormat Failure Receiver Run.

(** C5. Data whose length is not a multiple of 128 makes
    [send_xmodem128_crc] raise the [ValueError] of the length check at once:
    the state of the transport and of the environment is untouched, so
    nothing was written, nothing was read and no protocol was set. *)
Theorem send_rejects_bad_length (data : bytes) (max_failures : Z)
    (progress_callback : option callback) (w : World) :
  len data mod 128 <> 0 ->
  send_xmodem128_crc data max_failures progress_callback w
  = (Raised (InvalidInput (len data)), w).
Proof.
  intros Hlen. rewrite send_xmodem128_crc_eq. change BLOCK_SIZE with 128.
  destruct (Z.eqb_spec (len data mod 128) 0) as [E|_]; [contradiction|]. reflexivity.
Qed.

Lemma send_rejects_bad_length_witness :
  len ["a"%byte] mod 128 <> 0 /\
  send_xmodem128_crc ["a"%byte] 3 None (sample_world [Feed ["C"%byte]])
  = (Raised (InvalidInput 1), sample_world [Feed ["C"%byte]]).
Proof.
  assert (H : len ["a"%byte] mod 128 <> 0) by (vm_compute; discriminate).
  split; [exact H|].
  exact (send_rejects_bad_length ["a"%byte] 3 None (sample_world [Feed ["C"%byte]]) H).
Defined.

(** C4. When the length check passes, the call swaps the protocol, runs the
    body of its [try] statement, and, on every way out of that body (a
    return, any exception raised in it, among them the three failures of
    the transfer and a cancellation thrown into a wait), sets the protocol
    the transport had before the call as its last action: the caller gets
    the outcome of the body with the protocol already restored. *)
Theorem send_restores_protocol (data : bytes) (max_failures : Z)
    (progress_callback : option callback) (w : World) (r : outcome unit) (w' : World) :
  len data mod 128 = 0 ->
  send_xmodem128_crc data max_failures progress_callback w = (r, w') ->
  r <> Suspended ->
  w_protocol (swapped w) = StreamReaderProtocol /\
  (exists w3,
     transfer data max_failures progress_callback (swapped w) = (r, w3) /\
     w' = restored (w_protocol w) w3) /\
  w_protocol w' = w_protocol w /\
  (exists t, w_trace w' = t ++ [SetProtocol (w_protocol w)]).
Proof.
  intros Hlen Hrun Hr. rewrite (send_enters _ _ _ _ Hlen) in Hrun.
  destruct (transfer data max_failures progress_callback (swapped w)) as [r3 w3] eqn:Hbody.
  destruct r3 as [[]|e|].
  - rewrite (try_finally_ended _ _ _ _ _ Hbody) in Hrun by discriminate.
    injection Hrun as <- <-. split; [reflexivity|]. split; [now exists w3|].
    split; [reflexivity|]. now exists (w_trace w3).
  - rewrite (try_finally_ended _ _ _ _ _ Hbody) in Hrun by discriminate.
    injection Hrun as <- <-. split; [reflexivity|]. split; [now exists w3|].
    split; [reflexivity|]. now exists (w_trace w3).
  - rewrite (try_finally_suspended _ _ _ _ Hbody) in Hrun. injection Hrun as <- _.
    contradiction.
Qed.

(** A cancellation thrown into the wait for the first response. *)
Lemma send_restores_protocol_witness :
  exists w',
    send_xmodem128_crc sample_block 3 None
      (sample_world [Feed ["C"%byte]; Throw CancelledError]) = (Raised CancelledError, w') /\
    w_protocol w' = CallerProtocol 0.
Proof.
  destruct (send_xmodem128_crc sample_block 3 None
              (sample_world [Feed ["C"%byte]; Throw CancelledError])) as [r w'] eqn:Hrun.
  assert (Hr : r = Raised CancelledError).
  { vm_compute in Hrun. now injection Hrun as <- _. }
  subst r. exists w'. split; [reflexivity|].
  assert (Hlen : len sample_block mod 128 = 0) by (vm_compute; reflexivity).
  exact (proj1 (proj2 (proj2
           (send_restores_protocol sample_block 3 None _ _ w' Hlen Hrun ltac:(discriminate))))).
Defined.

Lemma block_bounds (data : bytes) (i : Z) :
  len data mod 128 = 0 -> 0 <= i < len data / 128 -> 128 * (i + 1) <= len data.
Proof.
  intros Hlen Hi. pose proof (Z.div_mod (len data) 128 ltac:(lia)) as Hdm. lia.
Qed.

Lemma packet_payload (seq_no : Z) (payload : bytes) :
  length payload = 128%nat -> slice (packet seq_no payload) 3 131 = payload.
Proof.
  intros Hlen. unfold slice, packet.
  change (Z.to_nat (131 - 3)) with 128%nat. change (Z.to_nat 3) with 3%nat.
  cbn [app skipn]. rewrite skipn_O, firstn_app, Hlen, Nat.sub_diag. cbn [firstn].
  rewrite app_nil_r. rewrite <- Hlen. apply firstn_all.
Qed.

Lemma packet_checksum (seq_no : Z) (payload : bytes) :
  length payload = 128%nat ->
  slice (packet seq_no payload) 131 133 = checksum_bytes payload.
Proof.
  intros Hlen. unfold slice, packet.
  change (Z.to_nat (133 - 131)) with 2%nat. change (Z.to_nat 131) with (128 + 3)%nat.
  rewrite <- skipn_skipn. cbn [app skipn]. rewrite skipn_O.
  rewrite skipn_app, Hlen, Nat.sub_diag, skipn_O.
  rewrite <- Hlen, skipn_all. reflexivity.
Qed.

Lemma checksum_bytes_value (payload : bytes) :
  int_from_bytes_2_big (checksum_bytes payload) = crc16_ccitt payload.
Proof.
  unfold checksum_bytes, int_from_bytes_2_big.
  change (Crc.checksum CrcReference.variant_A payload) with (crc16_ccitt payload).
  pose proof (crc16_ccitt_range payload) as Hr.
  assert (H1 : 0 <= crc16_ccitt payload / 256 < 256).
  { split; [apply Z.div_pos; lia|apply Z.div_lt_upper_bound; lia]. }
  assert (H2 : 0 <= crc16_ccitt payload mod 256 < 256) by (apply Z.mod_pos_bound; lia).
  rewrite (byte_of_Z_val _ H1), (byte_of_Z_val _ H2).
  pose proof (Z.div_mod (crc16_ccitt payload) 256 ltac:(lia)). lia.
Qed.

(** A run that returns acknowledged every block and the end of the
    transmission. *)
Lemma send_returned (data : bytes) (max_failures : Z)
    (progress_callback : option callback) (w w' : World) :
  len data mod 128 = 0 -> 0 <= max_failures ->
  send_xmodem128_crc data max_failures progress_callback w = (Returned tt, w') ->
  exists chunk rest ks ke,
    length ks = Z.to_nat (len data / 128) /\
    w_trace w' = w_trace w ++ [SetProtocol StreamReaderProtocol]
                 ++ opening data progress_callback chunk rest
                 ++ blocks_trace data progress_callback 0 ks
                 ++ retried end_of_transmission ke (symbol_byte ACK)
                 ++ [SetProtocol (w_protocol w)].
Proof.
  intros Hlen Hmf Hrun.
  destruct (send_shape data max_failures progress_callback w Hlen Hmf)
    as (r & w0 & t & Hrun0 & Hshape & Htrace & _).
  rewrite Hrun in Hrun0. injection Hrun0 as <- <-.
  inversion Hshape as [r0 buf evs' Hloop Hnr Hr|chunk rest evs' f e Hhs Hcb Hf|
                       chunk rest evs' r0 t0 Hhs Hse]; subst.
  - exfalso. destruct r0 as [x|e|]; try discriminate. apply Hnr. now exists x.
  - destruct (session_returned _ _ _ _ _ _ _ Hse eq_refl) as (ks & ke & Hks & ->).
    exists chunk, rest, ks, ke. split; [exact Hks|].
    rewrite Htrace. cbn [closing]. now rewrite <- !app_assoc.
Qed.

(** C1. For data whose length is a multiple of 128: the packet that the
    loop builds for the block with index [i] has the sequence number
    [(i + 1) mod 256] and a payload of 128 bytes, the slice of the block; it
    serializes to 133 bytes, which are 0x01, the sequence number, 255 minus
    the sequence number, the payload, and the Variant A checksum of the
    payload in big-endian order, so that the checksum recomputed over the
    payload bytes of the serialized packet is the number its last two bytes
    encode.  Against a receiver that sends the handshake byte and
    acknowledges every block and the end of the transmission, each after
    at most [max_failures] NAKs, the run returns and has written these
    packets for the blocks 0, 1, ..., [len(data)/128 - 1] in this order,
    each once and once more for every NAK, followed by the
    end-of-transmission byte: with no NAK, the [len(data)/128] packets in
    the order of the blocks and then that byte.  And every run that
    returns, whatever the environment did, has written the packets in this
    way. *)
Theorem send_packets_in_order (data : bytes) (max_failures : Z)
    (progress_callback : option callback) (w : World) :
  len data mod 128 = 0 -> 0 <= max_failures ->
  (forall i, 0 <= i < len data / 128 ->
     let packet := {| number := Z.land (i + 1) 0xFF;
                      payload := slice data (BLOCK_SIZE * i) (BLOCK_SIZE * (i + 1)) |} in
     number packet = (i + 1) mod 256 /\
     length (payload packet) = 128%nat /\
     serialize packet = Ok (block_packet data i) /\
     block_packet data i
     = [byte_of_Z 0x01; byte_of_Z ((i + 1) mod 256); byte_of_Z (255 - (i + 1) mod 256)]
       ++ slice data (128 * i) (128 * (i + 1))
       ++ [byte_of_Z (crc16_ccitt (slice data (128 * i) (128 * (i + 1))) / 256);
           byte_of_Z (crc16_ccitt (slice data (128 * i) (128 * (i + 1))) mod 256)] /\
     byte_val (byte_of_Z ((i + 1) mod 256)) = (i + 1) mod 256 /\
     byte_val (byte_of_Z (255 - (i + 1) mod 256)) = 255 - (i + 1) mod 256 /\
     length (block_packet data i) = 133%nat /\
     int_from_bytes_2_big (slice (block_packet data i) 131 133)
     = crc16_ccitt (slice (block_packet data i) 3 131)) /\
  (forall chunk rest evs1 ks ke buf' evs',
     quiet w -> returns progress_callback ->
     handshake (w_incoming w) chunk rest evs1 ->
     Forall (fun k => Z.of_nat k <= max_failures) ks ->
     length ks = Z.to_nat (len data / 128) -> Z.of_nat ke <= max_failures ->
     answers [] evs1
       (responses ks ++ repeat (symbol_byte NAK) ke ++ [symbol_byte ACK]) buf' evs' ->
     exists w' t,
       send_xmodem128_crc data max_failures progress_callback w = (Returned tt, w') /\
       w_trace w' = w_trace w ++ t /\
       writes_of t = blocks_writes data 0 ks ++ repeat end_of_transmission (S ke) /\
       (Forall (fun k => k = 0%nat) ks -> ke = 0%nat ->
        writes_of t
        = map (block_packet data) (range (len data / 128)) ++ [end_of_transmission])) /\
  (forall w',
     send_xmodem128_crc data max_failures progress_callback w = (Returned tt, w') ->
     exists t ks ke,
       w_trace w' = w_trace w ++ t /\
       length ks = Z.to_nat (len data / 128) /\
       writes_of t = blocks_writes data 0 ks ++ repeat end_of_transmission (S ke)).
Proof.
  intros Hlen Hmf. split; [|split].
  - intros i Hi packet. subst packet. cbn [number payload]. change BLOCK_SIZE with 128.
    pose proof (block_bounds data i Hlen Hi) as Hb.
    assert (Hseq : 0 <= (i + 1) mod 256 < 256) by (apply Z.mod_pos_bound; lia).
    assert (Hpl : length (block data i) = 128%nat) by (apply length_slice_block; lia).
    split; [apply land_255_mod|]. split; [exact Hpl|]. split.
    { rewrite serialize_ok; cbn [number payload]; rewrite land_255_mod;
        [reflexivity|exact Hseq]. }
    split; [reflexivity|]. split; [now apply byte_of_Z_val|].
    split; [apply byte_of_Z_val; lia|]. split.
    { unfold block_packet. rewrite length_packet, Hpl. reflexivity. }
    unfold block_packet.
    rewrite packet_payload, packet_checksum by exact Hpl. apply checksum_bytes_value.
  - intros chunk rest evs1 ks ke buf' evs' Hq Hcb Hhs Hks Hn Hke Hans.
    destruct (send_to_eot data max_failures progress_callback w chunk rest evs1 ks ke
                (symbol_byte ACK) buf' evs' Hlen Hq Hcb Hhs Hks Hn Hke ack_not_nak Hans)
      as (w' & Hrun & _ & Ht & _).
    rewrite verdict_ack in Hrun.
    assert (Hw : writes_of ([SetProtocol StreamReaderProtocol]
                            ++ opening data progress_callback chunk rest
                            ++ blocks_trace data progress_callback 0 ks
                            ++ retried end_of_transmission ke (symbol_byte ACK)
                            ++ [SetProtocol (w_protocol w)])
                 = blocks_writes data 0 ks ++ repeat end_of_transmission (S ke)).
    { rewrite !writes_of_app, writes_of_opening, writes_of_blocks, writes_of_retried.
      cbn [writes_of flat_map app]. now rewrite app_nil_r. }
    eexists w', _. split; [exact Hrun|]. split; [exact Ht|]. split; [exact Hw|].
    intros Hz ->. rewrite Hw. cbn [repeat]. f_equal.
    assert (Hrep : ks = repeat 0%nat (length ks)).
    { clear -Hz. induction Hz as [|k ks -> _ IH]; [reflexivity|].
      cbn [length repeat]. now rewrite <- IH. }
    rewrite Hrep, blocks_writes_once, Hn. reflexivity.
  - intros w' Hrun.
    destruct (send_returned data max_failures progress_callback w w' Hlen Hmf Hrun)
      as (chunk & rest & ks & ke & Hks & Htrace).
    eexists _, ks, ke. split; [exact Htrace|]. split; [exact Hks|].
    rewrite !writes_of_app, writes_of_opening, writes_of_blocks, writes_of_retried.
    cbn [writes_of flat_map app]. now rewrite app_nil_r.
Qed.

(** One block, sent again after a NAK, and the end of the transmission. *)
Lemma send_packets_in_order_witness :
  exists w' t,
    send_xmodem128_crc sample_block 3 None
      (sample_world [Feed ["C"%byte]; Feed [nak; ack]; Feed [ack]]) = (Returned tt, w') /\
    w_trace w' = [] ++ t /\
    writes_of t = [block_packet sample_block 0; block_packet sample_block 0;
                   end_of_transmission] /\
    serialize {| number := Z.land (0 + 1) 0xFF;
                 payload := slice sample_block (BLOCK_SIZE * 0) (BLOCK_SIZE * (0 + 1)) |}
    = Ok (block_packet sample_block 0) /\
    length (block_packet sample_block 0) = 133%nat.
Proof.
  pose (w := sample_world [Feed ["C"%byte]; Feed [nak; ack]; Feed [ack]]).
  assert (Hlen : len sample_block mod 128 = 0) by (vm_compute; reflexivity).
  assert (Hmf : 0 <= 3) by lia.
  assert (Hi : 0 <= 0 < len sample_block / 128) by (vm_compute; split; congruence).
  assert (Hq : quiet w) by (repeat constructor).
  assert (Hcb : returns None) by (intros f Hf; discriminate).
  assert (Hhs : handshake (w_incoming w) ["C"%byte] [] [Feed [nak; ack]; Feed [ack]])
    by reflexivity.
  assert (Hks : Forall (fun k => Z.of_nat k <= 3) [1%nat]) by (constructor; [lia|constructor]).
  assert (Hn : length [1%nat] = Z.to_nat (len sample_block / 128)) by (vm_compute; reflexivity).
  destruct (send_packets_in_order sample_block 3 None w Hlen Hmf) as (Hframe & Hsend & _).
  destruct (Hframe 0 Hi) as (_ & _ & Hser & _ & _ & _ & Hlen133 & _).
  destruct (Hsend ["C"%byte] [] [Feed [nak; ack]; Feed [ack]] [1%nat] 0%nat [] []
              Hq Hcb Hhs Hks Hn ltac:(lia)) as (w' & t & Hrun & Ht & Hw & _).
  { repeat (eapply answers_cons; [reflexivity|]). apply answers_nil. }
  exists w', t. split; [exact Hrun|]. split; [exact Ht|]. split; [exact Hw|].
  split; [exact Hser|exact Hlen133].
Defined.

Lemma next_data_last (data : bytes) (ks : list nat) :
  length ks = Z.to_nat (len data / 128) -> next_data data (length ks) = end_of_transmission.
Proof. intros H. unfold next_data. now rewrite H, Nat.ltb_irrefl. Qed.

(** C2. Against a receiver that has acknowledged the first [length ks]
    blocks, the block with index [i] after [ks !! i] NAKs, none of them more
    than [max_failures]: (1) [max_failures + 1] NAKs in answer to the next
    write, of a block or of the end-of-transmission byte, make the run
    raise the [ValueError] of the retry bound, after [max_failures + 1]
    writes of the same bytes and with the protocol restored; (2) when the
    blocks are all acknowledged, at most [max_failures] NAKs and then an ACK
    in answer to the end-of-transmission byte make the run return; the NAKs
    of different blocks do not add up, and everything written again is the
    bytes written first; (3) and (4) the same two facts for one call of
    [send_xmodem128_crc_data] on any bytes. *)
Theorem send_retry_bound (data : bytes) (max_failures : Z)
    (progress_callback : option callback) (w : World) (chunk rest : bytes)
    (evs1 : list event) (ks : list nat) :
  len data mod 128 = 0 -> 0 <= max_failures ->
  quiet w -> returns progress_callback ->
  handshake (w_incoming w) chunk rest evs1 ->
  Forall (fun k => Z.of_nat k <= max_failures) ks ->
  (length ks <= Z.to_nat (len data / 128))%nat ->
  (forall buf' evs',
     answers [] evs1
       (responses ks ++ repeat (symbol_byte NAK) (Z.to_nat (max_failures + 1))) buf' evs' ->
     exists w' t,
       send_xmodem128_crc data max_failures progress_callback w
       = (Raised (TooManyFailures max_failures), w') /\
       w_protocol w' = w_protocol w /\
       w_trace w' = w_trace w ++ t /\
       writes_of t = blocks_writes data 0 ks
                     ++ repeat (next_data data (length ks)) (Z.to_nat (max_failures + 1))) /\
  (forall ke buf' evs',
     length ks = Z.to_nat (len data / 128) -> Z.of_nat ke <= max_failures ->
     answers [] evs1
       (responses ks ++ repeat (symbol_byte NAK) ke ++ [symbol_byte ACK]) buf' evs' ->
     exists w' t,
       send_xmodem128_crc data max_failures progress_callback w = (Returned tt, w') /\
       w_protocol w' = w_protocol w /\
       w_trace w' = w_trace w ++ t /\
       writes_of t = blocks_writes data 0 ks ++ repeat end_of_transmission (S ke)) /\
  (forall d w2 buf' evs',
     quiet w2 ->
     answers (w_buffer w2) (w_incoming w2)
       (repeat (symbol_byte NAK) (Z.to_nat (max_failures + 1))) buf' evs' ->
     exists w3,
       send_xmodem128_crc_data d max_failures w2
       = (Raised (TooManyFailures max_failures), w3) /\
       w_trace w3 = w_trace w2
                    ++ concat (repeat [Wr d; Rd (symbol_byte NAK)]
                                      (Z.to_nat (max_failures + 1)))) /\
  (forall d k w2 buf' evs',
     quiet w2 -> Z.of_nat k <= max_failures ->
     answers (w_buffer w2) (w_incoming w2)
       (repeat (symbol_byte NAK) k ++ [symbol_byte ACK]) buf' evs' ->
     exists w3,
       send_xmodem128_crc_data d max_failures w2 = (Returned tt, w3) /\
       w_trace w3 = w_trace w2 ++ retried d k (symbol_byte ACK) /\
       writes_of (retried d k (symbol_byte ACK)) = repeat d (S k)).
Proof.
  intros Hlen Hmf Hq Hcb Hhs Hks Hn. split; [|split; [|split]].
  - intros buf' evs' Hans.
    destruct (send_too_many data max_failures progress_callback w chunk rest evs1 ks
                buf' evs' Hlen Hq Hcb Hhs Hks Hn Hmf Hans) as (w' & Hrun & Hp & Ht).
    eexists w', _. split; [exact Hrun|]. split; [exact Hp|]. split; [exact Ht|].
    rewrite !writes_of_app, writes_of_opening, writes_of_blocks, writes_of_naks.
    cbn [writes_of flat_map app]. now rewrite app_nil_r.
  - intros ke buf' evs' Hfull Hke Hans.
    destruct (send_to_eot data max_failures progress_callback w chunk rest evs1 ks ke
                (symbol_byte ACK) buf' evs' Hlen Hq Hcb Hhs Hks Hfull Hke ack_not_nak Hans)
      as (w' & Hrun & Hp & Ht & _).
    eexists w', _. split; [exact Hrun|]. split; [exact Hp|]. split; [exact Ht|].
    rewrite !writes_of_app, writes_of_opening, writes_of_blocks, writes_of_retried.
    cbn [writes_of flat_map app]. now rewrite app_nil_r.
  - intros d w2 buf' evs' Hq2 Hans.
    destruct (send_data_exhausted d max_failures w2 buf' evs' Hq2 Hmf Hans)
      as (w3 & Hrun & ((Ht & _) & _)).
    now exists w3.
  - intros d k w2 buf' evs' Hq2 Hk Hans.
    destruct (send_data_retried d max_failures k (symbol_byte ACK) w2 buf' evs'
                Hq2 Hk Hans ack_not_nak) as (w3 & Hrun & ((Ht & _) & _)).
    exists w3. split; [exact Hrun|]. split; [exact Ht|]. apply writes_of_retried.
Qed.

(** One block with bound 1: a NAK and an ACK for the block, a NAK and an
    ACK for the end of the transmission. *)
Lemma send_retry_bound_witness :
  exists w' t,
    send_xmodem128_crc sample_block 1 (Some sample_callback)
      (sample_world [Feed ["C"%byte]; Feed [nak; ack]; Feed [nak]; Feed [ack]])
    = (Returned tt, w') /\
    w_trace w' = [] ++ t /\
    writes_of t = blocks_writes sample_block 0 [1%nat] ++ repeat end_of_transmission 2.
Proof.
  pose (w := sample_world [Feed ["C"%byte]; Feed [nak; ack]; Feed [nak]; Feed [ack]]).
  assert (Hlen : len sample_block mod 128 = 0) by (vm_compute; reflexivity).
  assert (Hq : quiet w) by (repeat constructor).
  assert (Hcb : returns (Some sample_callback)).
  { intros f Hf a b. injection Hf as <-. reflexivity. }
  assert (Hhs : handshake (w_incoming w) ["C"%byte] []
                  [Feed [nak; ack]; Feed [nak]; Feed [ack]]) by reflexivity.
  assert (Hks : Forall (fun k => Z.of_nat k <= 1) [1%nat]) by (constructor; [lia|constructor]).
  assert (Hn : (length [1%nat] <= Z.to_nat (len sample_block / 128))%nat)
    by (vm_compute; constructor).
  destruct (send_retry_bound sample_block 1 (Some sample_callback) w ["C"%byte] []
              [Feed [nak; ack]; Feed [nak]; Feed [ack]] [1%nat]
              Hlen ltac:(lia) Hq Hcb Hhs Hks Hn) as (_ & Hok & _).
  destruct (Hok 1%nat [] [] eq_refl ltac:(lia)) as (w' & t & Hrun & _ & Ht & Hw).
  { repeat (eapply answers_cons; [reflexivity|]). apply answers_nil. }
  exists w', t. auto.
Defined.

Lemma no_reads_closing {A : Type} (r : outcome A) (p : protocol) : no_reads (closing r p).
Proof. intros b. destruct r; cbn; [intros [H|[]]|intros [H|[]]|tauto]; discriminate. Qed.

(** In the trace of a whole run a fatal response is followed by the
    [finally] block only. *)
Lemma send_settled (data : bytes) (max_failures : Z)
    (progress_callback : option callback) (w : World) (r : outcome unit) (w' : World) :
  len data mod 128 = 0 -> 0 <= max_failures ->
  send_xmodem128_crc data max_failures progress_callback w = (r, w') ->
  exists t,
    w_trace w' = w_trace w ++ t /\
    forall pre b post, t = pre ++ Rd b :: post ->
      (exists pre' d, pre = pre' ++ [Wr d]) /\
      (fatal b -> post = [SetProtocol (w_protocol w)] /\ r = Raised (failure_of b)).
Proof.
  intros Hlen Hmf Hrun.
  destruct (send_shape data max_failures progress_callback w Hlen Hmf)
    as (r0 & w0 & t & Hrun0 & Hshape & Htrace & _).
  rewrite Hrun in Hrun0. injection Hrun0 as <- <-.
  exists ([SetProtocol StreamReaderProtocol] ++ t ++ closing r (w_protocol w)).
  split; [exact Htrace|]. intros pre b post Heq.
  pose proof (transfer_run_settled _ _ _ _ _ _ Hshape) as Hset.
  apply in_app_split in Heq as [(post1 & E1 & _)|(pre2 & -> & E2)].
  - exfalso. destruct pre as [|x [|y pre]]; discriminate.
  - apply in_app_split in E2 as [(post1 & E1 & ->)|(pre3 & _ & E3)].
    + destruct (Hset _ _ _ E1) as [(pre' & d & ->) Hf]. split.
      * exists ([SetProtocol StreamReaderProtocol] ++ pre'), d. now rewrite app_assoc.
      * intros Hfat. destruct (Hf Hfat) as [-> ->]. split; reflexivity.
    + exfalso. apply (no_reads_closing r (w_protocol w) b). rewrite E3.
      apply in_or_app. right. now left.
Qed.

(** One call of [send_xmodem128_crc_data] whose first flush completes and
    whose first response is [b]: the data is written, the byte is read,
    and the byte decides how the call goes on. *)
Lemma send_data_answered (data : bytes) (max_failures : Z) (w : World)
    (b : byte) (buf : bytes) (evs : list event) :
  0 <= max_failures -> quiet w ->
  readexactly_loop (w_buffer w) (w_incoming w) = (Returned b, buf, evs) ->
  exists r w' t,
    send_xmodem128_crc_data data max_failures w = (r, w') /\
    w_trace w' = w_trace w ++ Wr data :: Rd b :: t /\
    (byte_val b = Symbol_value ACK -> r = Returned tt /\ t = []) /\
    (byte_val b = Symbol_value NAK ->
       (max_failures = 0 -> r = Raised (TooManyFailures max_failures) /\ t = []) /\
       (0 < max_failures -> exists t', t = Wr data :: t')) /\
    (byte_val b = Symbol_value CAN -> r = Raised ReceiverCancelled /\ t = []) /\
    (byte_val b <> Symbol_value ACK -> byte_val b <> Symbol_value NAK ->
     byte_val b <> Symbol_value CAN -> r = Raised (ProtocolViolation b) /\ t = []).
Proof.
  intros Hmf Hq Hread. rewrite send_xmodem128_crc_data_eq, range_seq. unfold bind.
  destruct (Z.to_nat (max_failures + 1)) as [|n] eqn:En; [lia|].
  cbn [seq map]. rewrite for_in_cons.
  destruct (attempt_answered data max_failures (Z.of_nat 0) w b buf evs Hq Hread)
    as (w1 & Hrun & [Ht Hp] & Hb & Hi & Hq1).
  rewrite Hrun. pose proof symbols_distinct as (D1 & D2 & D3).
  destruct (respond_cases max_failures (Z.of_nat 0) b)
    as [[Hv ->]|[(Hv & Ha & ->)|[(Hv & Ha & ->)|[[Hv ->]|(H1 & H2 & H3 & ->)]]]].
  - exists (Returned tt), w1, []. split; [reflexivity|]. split; [exact Ht|].
    repeat split; intros; congruence.
  - exists (Raised (TooManyFailures max_failures)), w1, [].
    split; [reflexivity|]. split; [exact Ht|].
    split; [intros; congruence|]. split; [|split; intros; congruence].
    intros _. split; [now split|]. intros Hpos. change (Z.of_nat 0) with 0 in Ha. lia.
  - change (Z.of_nat 0) with 0 in Ha.
    destruct (attempts_shape data max_failures n 1 w1 ltac:(lia) ltac:(lia))
      as (r2 & w2 & t2 & Hrun2 & [Ht2 _] & Hsh).
    rewrite Hrun2. destruct (exchange_head _ _ _ _ Hsh) as [t' ->].
    exists (forget r2), w2, (Wr data :: t'). split.
    { destruct r2 as [x|e|]; reflexivity. }
    split; [rewrite Ht2, Ht; now rewrite <- app_assoc|].
    split; [intros; congruence|]. split; [|split; intros; congruence].
    intros _. split; [intros; lia|]. intros _. now exists t'.
  - exists (Raised ReceiverCancelled), w1, []. split; [reflexivity|]. split; [exact Ht|].
    repeat split; intros; congruence.
  - exists (Raised (ProtocolViolation b)), w1, []. split; [reflexivity|].
    split; [exact Ht|]. repeat split; intros; congruence.
Qed.

Lemma verdict_failure (f : byte) :
  byte_val f <> Symbol_value ACK -> verdict f = Raised (failure_of f).
Proof.
  intros Hf. unfold verdict, failure_of.
  destruct (Z.eqb_spec (byte_val f) (Symbol_value ACK)); [contradiction|].
  now destruct (byte_val f =? Symbol_value CAN).
Qed.

(** C3. (1) In what one call of [send_xmodem128_crc_data] adds to the
    trace, every write is of the data and is followed by exactly one read,
    unless the flush or the wait for the response raised or never ended;
    and the byte read decides what follows: after ACK the call returns,
    after NAK the same data is written again or, when the attempts are used
    up, the call raises the [ValueError] of the retry bound, after CAN it
    raises [ReceiverCancelled], after any other byte the [ValueError] of an
    invalid response, in these two cases with nothing written or read after
    the byte.  (2) In a whole run, a CAN or an invalid byte at any point is
    followed by the [finally] block only, and the run raises
    [ReceiverCancelled] or that [ValueError].  (3) The three failures are
    different exceptions: [ReceiverCancelled] has a class of its own, the
    other two are [ValueError]s with different messages.  (4) A call of
    [send_xmodem128_crc_data] whose flush completes and that is sent a
    response does write the data and read the response, and then returns
    for ACK, writes the data again for NAK (or raises the [ValueError] of
    the retry bound when the bound is 0), and raises [ReceiverCancelled]
    for CAN and the [ValueError] of an invalid response for any other
    byte.  (5) In a run in which the receiver has acknowledged some blocks
    and answers the next write, of a block or of the end-of-transmission
    byte, by NAKs within the bound and then by CAN or an invalid byte, the
    call raises [ReceiverCancelled] or that [ValueError] with the protocol
    restored, and the byte is the last thing read: after it comes the
    [finally] block only and nothing is written. *)
Theorem send_classifies_responses (data : bytes) (max_failures : Z)
    (progress_callback : option callback) (w : World) :
  len data mod 128 = 0 -> 0 <= max_failures ->
  (forall d w2 r w3,
     send_xmodem128_crc_data d max_failures w2 = (r, w3) ->
     exists t,
       w_trace w3 = w_trace w2 ++ t /\
       (forall pre x post, t = pre ++ Wr x :: post ->
          x = d /\
          ((post = [] /\ ~ returned r) \/ (exists b post', post = Rd b :: post'))) /\
       (forall pre b post, t = pre ++ Rd b :: post ->
          (exists pre', pre = pre' ++ [Wr d]) /\
          (byte_val b = Symbol_value ACK -> post = [] /\ r = Returned tt) /\
          (byte_val b = Symbol_value NAK ->
             (post = [] /\ r = Raised (TooManyFailures max_failures)) \/
             (exists post', post = Wr d :: post')) /\
          (byte_val b = Symbol_value CAN -> post = [] /\ r = Raised ReceiverCancelled) /\
          (byte_val b <> Symbol_value ACK -> byte_val b <> Symbol_value NAK ->
           byte_val b <> Symbol_value CAN ->
           post = [] /\ r = Raised (ProtocolViolation b)))) /\
  (forall r w',
     send_xmodem128_crc data max_failures progress_callback w = (r, w') ->
     exists t,
       w_trace w' = w_trace w ++ t /\
       forall pre b post, t = pre ++ Rd b :: post ->
         (exists pre' d, pre = pre' ++ [Wr d]) /\
         (byte_val b = Symbol_value CAN ->
            r = Raised ReceiverCancelled /\ post = [SetProtocol (w_protocol w)] /\
            writes_of post = []) /\
         (byte_val b <> Symbol_value ACK -> byte_val b <> Symbol_value NAK ->
          byte_val b <> Symbol_value CAN ->
            r = Raised (ProtocolViolation b) /\ post = [SetProtocol (w_protocol w)] /\
            writes_of post = [])) /\
  (forall m b,
     ReceiverCancelled <> TooManyFailures m /\
     ReceiverCancelled <> ProtocolViolation b /\
     ProtocolViolation b <> TooManyFailures m) /\
  (forall d w2 b buf1 evs1,
     quiet w2 ->
     readexactly_loop (w_buffer w2) (w_incoming w2) = (Returned b, buf1, evs1) ->
     exists r w3 t,
       send_xmodem128_crc_data d max_failures w2 = (r, w3) /\
       w_trace w3 = w_trace w2 ++ Wr d :: Rd b :: t /\
       (byte_val b = Symbol_value ACK -> r = Returned tt /\ t = []) /\
       (byte_val b = Symbol_value NAK ->
          (max_failures = 0 -> r = Raised (TooManyFailures max_failures) /\ t = []) /\
          (0 < max_failures -> exists t', t = Wr d :: t')) /\
       (byte_val b = Symbol_value CAN -> r = Raised ReceiverCancelled /\ t = []) /\
       (byte_val b <> Symbol_value ACK -> byte_val b <> Symbol_value NAK ->
        byte_val b <> Symbol_value CAN -> r = Raised (ProtocolViolation b) /\ t = [])) /\
  (forall chunk rest evs1 ks k f buf' evs',
     quiet w -> returns progress_callback ->
     handshake (w_incoming w) chunk rest evs1 ->
     Forall (fun k => Z.of_nat k <= max_failures) ks ->
     (length ks <= Z.to_nat (len data / 128))%nat -> Z.of_nat k <= max_failures ->
     byte_val f <> Symbol_value ACK -> byte_val f <> Symbol_value NAK ->
     answers [] evs1 (responses ks ++ repeat (symbol_byte NAK) k ++ [f]) buf' evs' ->
     exists w' t,
       send_xmodem128_crc data max_failures progress_callback w
       = (Raised (if byte_val f =? Symbol_value CAN then ReceiverCancelled
                  else ProtocolViolation f), w') /\
       w_protocol w' = w_protocol w /\
       w_trace w' = w_trace w ++ t ++ [Rd f; SetProtocol (w_protocol w)] /\
       writes_of t = blocks_writes data 0 ks
                     ++ repeat (next_data data (length ks)) (S k)).
Proof.
  intros Hlen Hmf. split; [|split; [|split; [|split]]].
  - intros d w2 r w3 Hrun.
    destruct (send_data_shape d max_failures w2 Hmf) as (r0 & w0 & t & Hrun0 & Hev & Hex).
    rewrite Hrun in Hrun0. injection Hrun0 as <- <-.
    exists t. split; [apply Hev|]. split.
    + exact (exchange_write_then_read _ _ _ _ Hex).
    + intros pre b post Heq.
      destruct (exchange_classified _ _ _ _ Hex _ _ _ Heq) as [Hp Hc]. split; [exact Hp|].
      exact Hc.
  - intros r w' Hrun.
    destruct (send_settled data max_failures progress_callback w r w' Hlen Hmf Hrun)
      as (t & Ht & Hset).
    exists t. split; [exact Ht|]. intros pre b post Heq.
    destruct (Hset _ _ _ Heq) as [Hp Hf]. split; [exact Hp|].
    pose proof symbols_distinct as (D1 & D2 & D3). split.
    + intros Hc. destruct Hf as [-> ->]; [split; congruence|].
      unfold failure_of. rewrite Hc, Z.eqb_refl. now repeat split.
    + intros Ha Hn Hc. destruct Hf as [-> ->]; [now split|].
      unfold failure_of. destruct (Z.eqb_spec (byte_val b) (Symbol_value CAN));
        [contradiction|]. now repeat split.
  - intros m b. repeat split; discriminate.
  - intros d w2 b buf1 evs1 Hq Hread.
    exact (send_data_answered d max_failures w2 b buf1 evs1 Hmf Hq Hread).
  - intros chunk rest evs1 ks k f buf' evs' Hq Hcb Hhs Hks Hn Hk Hfa Hfn Hans.
    destruct (send_aborted data max_failures progress_callback w chunk rest evs1 ks k f
                buf' evs' Hlen Hq Hcb Hhs Hks Hn Hk Hfa Hfn Hans) as (w' & Hrun & Hp & Ht).
    rewrite (verdict_failure f Hfa) in Hrun. unfold failure_of in Hrun.
    exists w', ([SetProtocol StreamReaderProtocol]
                ++ opening data progress_callback chunk rest
                ++ blocks_trace data progress_callback 0 ks
                ++ concat (repeat [Wr (next_data data (length ks)); Rd (symbol_byte NAK)] k)
                ++ [Wr (next_data data (length ks))]).
    split; [exact Hrun|]. split; [exact Hp|]. split.
    + rewrite Ht. unfold retried. now rewrite <- !app_assoc.
    + rewrite !writes_of_app, writes_of_opening, writes_of_blocks, writes_of_naks.
      cbn [writes_of flat_map app]. now rewrite repeat_snoc.
Qed.

(** A CAN in answer to the first block. *)
Lemma send_classifies_responses_witness :
  exists w' t,
    send_xmodem128_crc sample_block 3 None (sample_world [Feed ["C"%byte]; Feed [can; ack]])
    = (Raised ReceiverCancelled, w') /\
    w_protocol w' = CallerProtocol 0 /\
    w_trace w' = [] ++ t ++ [Rd can; SetProtocol (CallerProtocol 0)] /\
    writes_of t = [block_packet sample_block 0].
Proof.
  pose (w := sample_world [Feed ["C"%byte]; Feed [can; ack]]).
  assert (Hlen : len sample_block mod 128 = 0) by (vm_compute; reflexivity).
  assert (Hq : quiet w) by (repeat constructor).
  assert (Hcb : returns None) by (intros f Hf; discriminate).
  assert (Hhs : handshake (w_incoming w) ["C"%byte] [] [Feed [can; ack]]) by reflexivity.
  assert (Hn : (length (@nil nat) <= Z.to_nat (len sample_block / 128))%nat)
    by (vm_compute; lia).
  destruct (send_classifies_responses sample_block 3 None w Hlen ltac:(lia))
    as (_ & _ & _ & _ & Habort).
  destruct (Habort ["C"%byte] [] [Feed [can; ack]] [] 0%nat can [ack] []
              Hq Hcb Hhs ltac:(constructor) Hn ltac:(lia))
    as (w' & t & Hrun & Hp & Ht & Hw).
  - vm_compute. discriminate.
  - vm_compute. discriminate.
  - eapply answers_cons; [reflexivity|]. apply answers_nil.
  - exists w', t. split; [exact Hrun|]. split; [exact Hp|]. split; [exact Ht|exact Hw].
Defined.

Lemma Forall_repeat_le (n : nat) (max_failures : Z) :
  0 <= max_failures -> Forall (fun k => Z.of_nat k <= max_failures) (repeat 0%nat n).
Proof. intros H. induction n; cbn; constructor; auto. Qed.

(** The first arguments of the calls after the blocks increase. *)
Lemma block_progress_sorted (n a : nat) :
  StronglySorted Z.lt (map (fun i => (i + 1) * 128) (map Z.of_nat (seq a n))) /\
  Forall (fun x => Z.of_nat a * 128 < x) (map (fun i => (i + 1) * 128) (map Z.of_nat (seq a n))).
Proof.
  revert a. induction n as [|n IH]; intros a; cbn [seq map].
  - split; constructor.
  - destruct (IH (S a)) as [Hs Hf]. split.
    + constructor; [exact Hs|]. eapply Forall_impl; [exact Hf|]. cbn. intros x Hx. lia.
    + constructor; [lia|]. eapply Forall_impl; [exact Hf|]. cbn. intros x Hx. lia.
Qed.

Lemma progress_calls_firsts (data : bytes) (n : Z) :
  map fst (progress_calls data n) = 0 :: map (fun i => (i + 1) * 128) (range n).
Proof.
  unfold progress_calls. cbn [map fst]. f_equal. rewrite map_map. reflexivity.
Qed.

Lemma progress_calls_sorted (data : bytes) (n : Z) :
  StronglySorted Z.lt (map fst (progress_calls data n)).
Proof.
  rewrite progress_calls_firsts. unfold range.
  destruct (block_progress_sorted (Z.to_nat n) 0) as [Hs Hf].
  constructor; [exact Hs|]. eapply Forall_impl; [exact Hf|]. cbn. intros x Hx. lia.
Qed.

Lemma progress_calls_last (data : bytes) :
  len data mod 128 = 0 ->
  last (map fst (progress_calls data (len data / 128))) = Some (len data).
Proof.
  intros Hlen. rewrite progress_calls_firsts. unfold range.
  pose proof (Z.div_mod (len data) 128 ltac:(lia)) as Hdm.
  pose proof (len_nonneg data) as Hnn.
  assert (Hq : 0 <= len data / 128) by (apply Z.div_pos; lia).
  destruct (Z.to_nat (len data / 128)) as [|m] eqn:E.
  - cbn. f_equal. lia.
  - rewrite seq_S, !map_app. cbn [map Nat.add].
    rewrite app_comm_cons, last_snoc. f_equal. lia.
Qed.

(** C6. Against a receiver that answers every write by ACK, the run
    returns after one write per block, in order, and one write of the
    end-of-transmission byte 0x04: [len(data)/128 + 1] writes.  A callback
    that is supplied is called [len(data)/128 + 1] times: with
    [(0, len(data))] right after the wait for the handshake byte, and with
    [((i + 1) * 128, len(data))] after the ACK of the block with index [i];
    its first arguments increase strictly and end at [len(data)]. *)
Theorem send_all_acknowledged (data : bytes) (max_failures : Z)
    (progress_callback : option callback) (w : World) (chunk rest : bytes)
    (evs1 : list event) (buf' : bytes) (evs' : list event) :
  len data mod 128 = 0 -> 0 <= max_failures ->
  quiet w -> returns progress_callback ->
  handshake (w_incoming w) chunk rest evs1 ->
  answers [] evs1 (repeat (symbol_byte ACK) (S (Z.to_nat (len data / 128)))) buf' evs' ->
  exists w' t,
    send_xmodem128_crc data max_failures progress_callback w = (Returned tt, w') /\
    w_protocol w' = w_protocol w /\
    w_trace w' = w_trace w ++ t /\
    t = [SetProtocol StreamReaderProtocol]
        ++ opening data progress_callback chunk rest
        ++ blocks_trace data progress_callback 0 (repeat 0%nat (Z.to_nat (len data / 128)))
        ++ [Wr end_of_transmission; Rd (symbol_byte ACK)]
        ++ [SetProtocol (w_protocol w)] /\
    writes_of t = map (block_packet data) (range (len data / 128)) ++ [end_of_transmission] /\
    len (writes_of t) = len data / 128 + 1 /\
    end_of_transmission = [byte_of_Z 0x04] /\
    (progress_callback = None -> progress_of t = []) /\
    (forall f, progress_callback = Some f ->
       progress_of t = progress_calls data (len data / 128) /\
       len (progress_of t) = len data / 128 + 1 /\
       StronglySorted Z.lt (map fst (progress_of t)) /\
       last (map fst (progress_of t)) = Some (len data)).
Proof.
  intros Hlen Hmf Hq Hcb Hhs Hans.
  set (n := Z.to_nat (len data / 128)) in *.
  assert (Hn : 0 <= len data / 128) by (apply Z.div_pos; [apply len_nonneg|lia]).
  rewrite repeat_snoc, <- responses_once in Hans.
  destruct (send_to_eot data max_failures progress_callback w chunk rest evs1
              (repeat 0%nat n) 0 (symbol_byte ACK) buf' evs' Hlen Hq Hcb Hhs
              (Forall_repeat_le n max_failures Hmf) (repeat_length _ _) ltac:(lia)
              ack_not_nak Hans) as (w' & Hrun & Hp & Ht & _).
  eexists w', _. split; [exact Hrun|]. split; [exact Hp|]. split; [exact Ht|].
  split; [reflexivity|].
  assert (Hw : writes_of ([SetProtocol StreamReaderProtocol]
                 ++ opening data progress_callback chunk rest
                 ++ blocks_trace data progress_callback 0 (repeat 0%nat n)
                 ++ retried end_of_transmission 0 (symbol_byte ACK)
                 ++ [SetProtocol (w_protocol w)])
               = map (block_packet data) (range (len data / 128)) ++ [end_of_transmission]).
  { rewrite !writes_of_app, writes_of_opening, writes_of_blocks, writes_of_retried,
      blocks_writes_once. cbn [writes_of flat_map app repeat]. reflexivity. }
  split; [exact Hw|]. split.
  { rewrite Hw. unfold len at 1. unfold range.
    rewrite length_app, !length_map, length_seq. cbn [length]. lia. }
  split; [reflexivity|]. split.
  - intros ->. rewrite !progress_of_app, progress_of_blocks_none, progress_of_retried.
    reflexivity.
  - intros f ->.
    assert (Hpr : progress_of ([SetProtocol StreamReaderProtocol]
                    ++ opening data (Some f) chunk rest
                    ++ blocks_trace data (Some f) 0 (repeat 0%nat n)
                    ++ retried end_of_transmission 0 (symbol_byte ACK)
                    ++ [SetProtocol (w_protocol w)])
                  = progress_calls data (len data / 128)).
    { rewrite !progress_of_app, progress_of_blocks_some, progress_of_retried.
      cbn [progress_of flat_map app opening progress_events]. rewrite app_nil_r.
      reflexivity. }
    rewrite Hpr. split; [reflexivity|]. split.
    { unfold len at 1. unfold progress_calls, range. cbn [length].
      rewrite !length_map, length_seq. lia. }
    split; [apply progress_calls_sorted|now apply progress_calls_last].
Qed.

Lemma send_all_acknowledged_witness :
  exists w' t,
    send_xmodem128_crc sample_block 3 (Some sample_callback)
      (sample_world [Feed ["C"%byte]; Feed [ack]; Feed [ack]]) = (Returned tt, w') /\
    w_trace w' = [] ++ t /\
    writes_of t = [block_packet sample_block 0; end_of_transmission] /\
    progress_of t = [(0, 128); (128, 128)].
Proof.
  pose (w := sample_world [Feed ["C"%byte]; Feed [ack]; Feed [ack]]).
  assert (Hlen : len sample_block mod 128 = 0) by (vm_compute; reflexivity).
  assert (Hq : quiet w) by (repeat constructor).
  assert (Hcb : returns (Some sample_callback)).
  { intros f Hf a b. injection Hf as <-. reflexivity. }
  assert (Hhs : handshake (w_incoming w) ["C"%byte] [] [Feed [ack]; Feed [ack]])
    by reflexivity.
  assert (Hans : answers [] [Feed [ack]; Feed [ack]]
                   (repeat (symbol_byte ACK) (S (Z.to_nat (len sample_block / 128)))) [] []).
  { change (Z.to_nat (len sample_block / 128)) with 1%nat. cbn [repeat].
    repeat (eapply answers_cons; [reflexivity|]). apply answers_nil. }
  destruct (send_all_acknowledged sample_block 3 (Some sample_callback) w ["C"%byte] []
              [Feed [ack]; Feed [ack]] [] [] Hlen ltac:(lia) Hq Hcb Hhs Hans)
    as (w' & t & Hrun & _ & Ht & _ & Hw & _ & _ & _ & Hpr).
  exists w', t. split; [exact Hrun|]. split; [exact Ht|]. split; [exact Hw|].
  destruct (Hpr sample_callback eq_refl) as (-> & _). reflexivity.
Defined.

Lemma exchange_writes (data : bytes) (max_failures : Z) (r : outcome unit) (t : list io) :
  exchange data max_failures r t ->
  Forall (fun d => d = data) (writes_of t) /\ progress_of t = [].
Proof.
  induction 1 as [r Hr|b0 Hb|b0 r t Hb Hex [IH1 IH2]|b0 Hb|b0 Hb|b0 H1 H2 H3];
    cbn [writes_of progress_of flat_map app]; split; auto.
Qed.

(** C9. Empty data passes the length check.  The run then swaps the
    protocol and waits for the handshake byte.  When that byte arrives (and
    the callback, if there is one, returns), the run calls the callback once,
    with [(0, 0)], drops what is left in the buffer, sends no data packet,
    and makes the one call of [send_xmodem128_crc_data] for the
    end-of-transmission byte, whose trace and outcome are those of any such
    call: all that is written is that byte, and an ACK makes the run
    return after one write. *)
Theorem send_empty_data (max_failures : Z) (progress_callback : option callback)
    (w : World) (chunk rest : bytes) (evs1 : list event) :
  0 <= max_failures -> returns progress_callback ->
  handshake (w_incoming w) chunk rest evs1 ->
  send_xmodem128_crc [] max_failures progress_callback w
  = try_finally (transfer [] max_failures progress_callback)
                (set_protocol (w_protocol w)) (swapped w) /\
  (exists r w' te,
     send_xmodem128_crc [] max_failures progress_callback w = (r, w') /\
     w_trace w' = w_trace w
                  ++ [SetProtocol StreamReaderProtocol; ReadUntil chunk]
                  ++ progress_events progress_callback 0 0
                  ++ [BufferClear rest]
                  ++ te ++ closing r (w_protocol w) /\
     exchange end_of_transmission max_failures r te /\
     Forall (fun d => d = end_of_transmission) (writes_of te) /\
     progress_of te = []) /\
  (forall buf' evs',
     quiet w -> answers [] evs1 [symbol_byte ACK] buf' evs' ->
     exists w',
       send_xmodem128_crc [] max_failures progress_callback w = (Returned tt, w') /\
       w_trace w' = w_trace w
                    ++ [SetProtocol StreamReaderProtocol; ReadUntil chunk]
                    ++ progress_events progress_callback 0 0
                    ++ [BufferClear rest]
                    ++ [Wr end_of_transmission; Rd (symbol_byte ACK)]
                    ++ [SetProtocol (w_protocol w)]).
Proof.
  intros Hmf Hcb Hhs.
  assert (Hlen : len (@nil byte) mod 128 = 0) by reflexivity.
  split; [now apply send_enters|]. split.
  - destruct (send_shape [] max_failures progress_callback w Hlen Hmf)
      as (r & w' & t & Hrun & Hshape & Htrace & _).
    inversion Hshape as [r0 buf evs' Hloop Hnr Hr|chunk' rest' evs' f e Hhs' Hcb' Hf|
                         chunk' rest' evs' r0 t0 Hhs' Hse]; subst.
    + exfalso. unfold handshake in Hhs. rewrite Hhs in Hloop.
      injection Hloop as <- _ _. apply Hnr. now exists chunk.
    + exfalso. rewrite (Hcb f eq_refl) in Hf. discriminate.
    + unfold handshake in Hhs, Hhs'. rewrite Hhs in Hhs'. injection Hhs' as <- <- <-.
      change (Z.to_nat (len (@nil byte) / 128)) with 0%nat in Hse.
      inversion Hse as [i r1 t1 Hex| | |]; subst.
      exists r, w', t0. split; [exact Hrun|]. split.
      * rewrite Htrace. unfold opening. cbn [app]. now rewrite <- !app_assoc.
      * split; [exact Hex|]. now apply exchange_writes in Hex.
  - intros buf' evs' Hq Hans.
    destruct (send_to_eot [] max_failures progress_callback w chunk rest evs1 [] 0
                (symbol_byte ACK) buf' evs' Hlen Hq Hcb Hhs ltac:(constructor) eq_refl
                ltac:(lia) ack_not_nak Hans) as (w' & Hrun & _ & Ht & _).
    exists w'. split; [exact Hrun|]. rewrite Ht. unfold opening, retried.
    cbn [blocks_trace repeat concat app]. now rewrite <- !app_assoc.
Qed.

Lemma send_empty_data_witness :
  exists w',
    send_xmodem128_crc [] 3 (Some sample_callback)
      (sample_world [Feed ["x"; "C"; "C"]%byte; Feed [ack]]) = (Returned tt, w') /\
    w_trace w' = [SetProtocol StreamReaderProtocol; ReadUntil ["x"; "C"]%byte;
                  Progress 0 0; BufferClear ["C"%byte];
                  Wr end_of_transmission; Rd ack; SetProtocol (CallerProtocol 0)].
Proof.
  pose (w := sample_world [Feed ["x"; "C"; "C"]%byte; Feed [ack]]).
  assert (Hcb : returns (Some sample_callback)).
  { intros f Hf a b. injection Hf as <-. reflexivity. }
  assert (Hhs : handshake (w_incoming w) ["x"; "C"]%byte ["C"%byte] [Feed [ack]])
    by reflexivity.
  destruct (send_empty_data 3 (Some sample_callback) w _ _ _ ltac:(lia) Hcb Hhs)
    as (_ & _ & Hack).
  destruct (Hack [] []) as (w' & Hrun & Ht).
  { repeat constructor. }
  { eapply answers_cons; [reflexivity|]. apply answers_nil. }
  exists w'. split; [exact Hrun|]. exact Ht.
Defined.

End BlockTransfer.

(** ** The specification's statements about the checksums *)

Section Checksums.
Import Common Crc CrcReference.

(** The check values of the two checksums: those that the catalogue of
    parametrised CRC algorithms lists for these two parameter sets. *)
Example crc16_ccitt_check : crc16_ccitt check_input = 0x31C3.
Proof. vm_compute. reflexivity. Qed.

Example crc16_kermit_check : crc16_kermit check_input = 0x906E.
Proof. vm_compute. reflexivity. Qed.

(** The two reference algorithms, run with the parameters that the
    catalogue lists under the names CRC-16/CCITT-FALSE (start 0xFFFF, no
    final xor) and CRC-16/KERMIT (start 0x0000, no final xor), give the
    check values listed there. *)
Example ccitt_false_style_check : ccitt_false_style 0xFFFF 0x0000 check_input = 0x29B1.
Proof. vm_compute. reflexivity. Qed.

Example kermit_style_check : kermit_style 0x0000 0x0000 check_input = 0x2189.
Proof. vm_compute. reflexivity. Qed.

(** C7. The configurations of [crc16_ccitt] and [crc16_kermit] are the
    specification's Variant A and Variant B, with the polynomial 0x1021, and
    for every byte string the two functions return what the bit-serial
    reference algorithms return: the unreflected one, most significant bit
    first, started at 0x0000 and xored with 0x0000 at the end, and the
    reflected one, least significant bit first with the polynomial reversed,
    started at 0xFFFF and xored with 0xFFFF at the end.  Both results are
    16-bit numbers. *)
Theorem crc16_match_references (data : bytes) :
  CRC_CCITT = variant_A /\ CRC_KERMIT = variant_B /\
  polynomial CRC_CCITT = 0x1021 /\ polynomial CRC_KERMIT = 0x1021 /\
  crc16_ccitt data = checksum variant_A data /\
  crc16_kermit data = checksum variant_B data /\
  crc16_ccitt data = ccitt_false_style 0x0000 0x0000 data /\
  crc16_kermit data = kermit_style 0xFFFF 0xFFFF data /\
  0 <= crc16_ccitt data < 2 ^ 16 /\
  0 <= crc16_kermit data < 2 ^ 16.
Proof.
  split; [reflexivity|]. split; [reflexivity|]. split; [reflexivity|].
  split; [reflexivity|]. split; [reflexivity|]. split; [reflexivity|].
  split; [apply crc16_ccitt_reference|]. split; [apply crc16_kermit_reference|].
  split; [apply crc16_ccitt_range|apply crc16_kermit_range].
Qed.

End Checksums.

(** ** The specification's statements about [StateMachine] *)

Section StateMachineProofs.
Import Common.

Lemma set_results_error (l : list nat) (futures futures' : gmap nat future_state) (e : exn) :
  set_results l futures = (Raise e, futures') -> e = InvalidStateError.
Proof.
  revert futures. induction l as [|f l IH]; intros futures H; cbn [set_results] in H.
  - discriminate.
  - unfold set_result in H. destruct (futures !! f) as [[| |]|]; try (now injection H as <- _).
    now apply IH in H.
Qed.

(** A loop of [set_result] that completes found every future pending, and
    leaves exactly the futures of the list done. *)
Lemma set_results_ok (l : list nat) (futures futures' : gmap nat future_state) :
  set_results l futures = (Ok tt, futures') ->
  (forall f, f ∈ l -> futures !! f = Some FutPending /\ futures' !! f = Some FutDone) /\
  (forall f, f ∉ l -> futures' !! f = futures !! f).
Proof.
  revert futures. induction l as [|f0 l IH]; intros futures H; cbn [set_results] in H.
  - injection H as <-. split; [intros f Hf; inversion Hf|reflexivity].
  - unfold set_result in H. destruct (futures !! f0) as [[| |]|] eqn:E0; try discriminate.
    destruct (IH _ H) as [Hin Hout].
    assert (Hf0 : f0 ∉ l).
    { intros Hf0. destruct (Hin f0 Hf0) as [Hp _].
      rewrite lookup_insert_eq in Hp. discriminate. }
    split.
    + intros f Hf. apply elem_of_cons in Hf as [->|Hf].
      * split; [exact E0|]. rewrite (Hout f0 Hf0). apply lookup_insert_eq.
      * destruct (Hin f Hf) as [Hp Hd]. split; [|exact Hd].
        destruct (decide (f0 = f)) as [->|Hne]; [contradiction|].
        now rewrite lookup_insert_ne in Hp.
    + intros f Hf. apply not_elem_of_cons in Hf as [Hne Hf].
      rewrite (Hout f Hf). now apply lookup_insert_ne.
Qed.

Lemma futures_for_insert (sm : StateMachine) (new_state s : string) :
  default [] (<[new_state := futures_for sm new_state]> (_futures_for_state sm) !! s)
  = futures_for sm s.
Proof.
  unfold futures_for. destruct (decide (new_state = s)) as [->|Hne].
  - now rewrite lookup_insert_eq.
  - now rewrite lookup_insert_ne.
Qed.

(** A loop of [set_result] over distinct pending futures completes. *)
Lemma set_results_pending (l : list nat) (futures : gmap nat future_state) :
  NoDup l -> (forall f, f ∈ l -> futures !! f = Some FutPending) ->
  exists futures', set_results l futures = (Ok tt, futures').
Proof.
  revert futures. induction l as [|f l IH]; intros futures Hnd Hp; cbn [set_results].
  - now exists futures.
  - apply NoDup_cons in Hnd as [Hf Hnd]. unfold set_result.
    rewrite (Hp f ltac:(left)). apply IH; [exact Hnd|].
    intros g Hg. rewrite lookup_insert_ne; [apply Hp; now right|].
    intros ->. contradiction.
Qed.

(** A loop of [set_result] that completes went over distinct futures. *)
Lemma set_results_distinct (l : list nat) (futures futures' : gmap nat future_state) :
  set_results l futures = (Ok tt, futures') -> NoDup l.
Proof.
  revert futures. induction l as [|f0 l IH]; intros futures H; [constructor|].
  cbn [set_results] in H. unfold set_result in H.
  destruct (futures !! f0) as [[| |]|] eqn:E0; try discriminate.
  apply NoDup_cons. split; [|exact (IH _ H)].
  intros Hin. destruct (set_results_ok _ _ _ H) as [Hall _].
  destruct (Hall f0 Hin) as [Hp _]. rewrite lookup_insert_eq in Hp. discriminate.
Qed.

(** C8. (1) The constructor raises its [ValueError] exactly when the initial
    name is not in the declared set, and otherwise gives a machine in that
    state with no waiter.  (2) The setter of [state] raises its
    [ValueError] exactly when the new name is not in the declared set, and
    then leaves the machine and every future as they were.  (3) When the
    setter returns, the machine is in the new state, every future that was
    registered for that state was pending and is now done, every other
    future is as it was, and the registrations are the same for every
    state.  (4) [wait_for_state] on the active state returns at once: it
    creates no future, registers nothing and does not suspend.  (5) The
    setter does return for a declared name whose registered futures are
    distinct and pending, among them a name without waiters: the machine is
    then in the new state and exactly these futures are done.  (6) It
    returns in no other case. *)
Theorem state_machine_spec (states : gset string) :
  (forall initial,
     (exists msg, StateMachine_init states initial = Raise (ValueError msg))
     <-> initial ∉ states) /\
  (forall initial, initial ∈ states ->
     exists sm, StateMachine_init states initial = Ok sm /\
       state sm = initial /\ _states sm = states /\ forall s, futures_for sm s = []) /\
  (forall sm futures new_state,
     (exists msg, (set_state new_state sm futures).1.1 = Raise (ValueError msg))
     <-> new_state ∉ _states sm) /\
  (forall sm futures new_state, new_state ∉ _states sm ->
     (set_state new_state sm futures).1.2 = sm /\
     (set_state new_state sm futures).2 = futures) /\
  (forall sm futures new_state sm' futures',
     set_state new_state sm futures = (Ok tt, sm', futures') ->
     state sm' = new_state /\ _states sm' = _states sm /\
     (forall s, futures_for sm' s = futures_for sm s) /\
     (forall f, f ∈ futures_for sm new_state ->
        futures !! f = Some FutPending /\ futures' !! f = Some FutDone) /\
     (forall f, f ∉ futures_for sm new_state -> futures' !! f = futures !! f)) /\
  (forall sm futures wanted, wanted ∈ _states sm -> state sm = wanted ->
     wait_for_state wanted sm futures = (WaitReturned, sm, futures)) /\
  (forall sm futures new_state,
     new_state ∈ _states sm -> NoDup (futures_for sm new_state) ->
     (forall f, f ∈ futures_for sm new_state -> futures !! f = Some FutPending) ->
     exists sm' futures',
       set_state new_state sm futures = (Ok tt, sm', futures') /\
       state sm' = new_state /\ _states sm' = _states sm /\
       (forall s, futures_for sm' s = futures_for sm s) /\
       (forall f, f ∈ futures_for sm new_state -> futures' !! f = Some FutDone) /\
       (forall f, f ∉ futures_for sm new_state -> futures' !! f = futures !! f)) /\
  (forall sm futures new_state,
     (set_state new_state sm futures).1.1 = Ok tt <->
     new_state ∈ _states sm /\ NoDup (futures_for sm new_state) /\
     forall f, f ∈ futures_for sm new_state -> futures !! f = Some FutPending).
Proof.
  split; [|split; [|split; [|split; [|split; [|split; [|split]]]]]].
  - intros initial. unfold StateMachine_init. destruct (decide (initial ∈ states)).
    + split; [intros [msg H]; discriminate|contradiction].
    + split; [auto|]. intros _. eexists. reflexivity.
  - intros initial Hin. unfold StateMachine_init.
    destruct (decide (initial ∈ states)); [|contradiction].
    eexists. split; [reflexivity|]. repeat split.
  - intros sm futures new_state. unfold set_state.
    destruct (decide (new_state ∈ _states sm)).
    + split; [|contradiction]. intros [msg H].
      destruct (set_results (futures_for sm new_state) futures) as [[[]|err] futures'] eqn:E;
        cbn in H; [discriminate|].
      apply set_results_error in E. subst err. discriminate.
    + split; [auto|]. intros _. eexists. reflexivity.
  - intros sm futures new_state Hnot. unfold set_state.
    destruct (decide (new_state ∈ _states sm)); [contradiction|]. now split.
  - intros sm futures new_state sm' futures' H. unfold set_state in H.
    destruct (decide (new_state ∈ _states sm)); [|discriminate].
    destruct (set_results (futures_for sm new_state) futures) as [r futures1] eqn:E.
    injection H as -> <- <-.
    destruct (set_results_ok _ _ _ E) as [Hin Hout].
    split; [reflexivity|]. split; [reflexivity|].
    split; [apply futures_for_insert|]. split; assumption.
  - intros sm futures wanted Hin Hst. unfold wait_for_state.
    destruct (decide (wanted ∈ _states sm)); [|contradiction].
    destruct (decide (state sm = wanted)); [reflexivity|contradiction].
  - intros sm futures new_state Hin Hnd Hp. unfold set_state.
    destruct (decide (new_state ∈ _states sm)); [|contradiction].
    destruct (set_results_pending _ _ Hnd Hp) as [futures' E]. rewrite E.
    destruct (set_results_ok _ _ _ E) as [Hdone Hout].
    eexists _, futures'. split; [reflexivity|]. split; [reflexivity|].
    split; [reflexivity|]. split; [apply futures_for_insert|].
    split; [|exact Hout]. intros f Hf. now destruct (Hdone f Hf).
  - intros sm futures new_state. unfold set_state.
    destruct (decide (new_state ∈ _states sm)) as [Hin|Hnot].
    + destruct (set_results (futures_for sm new_state) futures) as [r futures'] eqn:E.
      cbn [fst]. split.
      * intros ->. split; [exact Hin|]. split; [exact (set_results_distinct _ _ _ E)|].
        intros f Hf. now destruct (proj1 (set_results_ok _ _ _ E) f Hf).
      * intros (_ & Hnd & Hp). destruct (set_results_pending _ futures Hnd Hp) as [fs E'].
        rewrite E' in E. now injection E as <- _.
    + cbn [fst]. split; [discriminate|]. intros [Hin _]. contradiction.
Qed.

(** A machine with one task waiting for "connected": the transition
    returns and resolves the future of the task. *)
Lemma state_machine_spec_witness :
  exists sm' futures',
    set_state "connected"
      {| _states := {["connected"; "disconnected"]}; _state := "disconnected";
         _futures_for_state := {["connected" := [0%nat]]} |}
      {[0%nat := FutPending]}
    = (Ok tt, sm', futures') /\
    state sm' = "connected" /\ futures' !! 0%nat = Some FutDone.
Proof.
  destruct (state_machine_spec {["connected"; "disconnected"]})
    as (_ & _ & _ & _ & _ & _ & Hset & _).
  assert (Hl : futures_for
                 {| _states := {["connected"; "disconnected"]}; _state := "disconnected";
                    _futures_for_state := {["connected" := [0%nat]]} |} "connected"
               = [0%nat]).
  { unfold futures_for. cbn [_futures_for_state]. now rewrite lookup_singleton_eq. }
  destruct (Hset {| _states := {["connected"; "disconnected"]}; _state := "disconnected";
                    _futures_for_state := {["connected" := [0%nat]]} |}
                 {[0%nat := FutPending]} "connected")
    as (sm' & futures' & Hrun & Hst & _ & _ & Hdone & _).
  - apply (bool_decide_unpack _). vm_compute. exact I.
  - rewrite Hl. apply NoDup_singleton.
  - rewrite Hl. intros f Hf. apply list_elem_of_singleton in Hf as ->.
    apply lookup_singleton_eq.
  - exists sm', futures'. split; [exact Hrun|]. split; [exact Hst|].
    apply Hdone. rewrite Hl. now left.
Defined.

(** A task that waits for another state is registered and suspended; the
    transition to that state resolves its future, and the task then leaves
    the list and returns. *)
Example wait_then_transition :
  let states : gset string := {["connected"; "disconnected"]} in
  exists sm0 f sm1 futures1 sm2 futures2 sm3,
    StateMachine_init states "disconnected" = Ok sm0 /\
    wait_for_state "connected" sm0 ∅ = (WaitSuspended f, sm1, futures1) /\
    futures_for sm1 "connected" = [f] /\
    set_state "connected" sm1 futures1 = (Ok tt, sm2, futures2) /\
    futures2 !! f = Some FutDone /\
    wait_for_state_resume "connected" f sm2 futures2 = (Ok tt, sm3) /\
    futures_for sm3 "connected" = [] /\ state sm3 = "connected".
Proof.
  cbn zeta. do 7 eexists.
  split; [reflexivity|]. split; [reflexivity|]. split; [reflexivity|].
  split; [reflexivity|]. split; [reflexivity|]. split; [reflexivity|]. split; reflexivity.
Qed.

(** A second transition to the same state, made before the waiter has run
    and left the list, finds its future done: [set_result] raises
    [asyncio.InvalidStateError], after the state was set. *)
Example transition_twice :
  let states : gset string := {["connected"; "disconnected"]} in
  exists sm0 f sm1 futures1 sm2 futures2 sm3 futures3,
    StateMachine_init states "disconnected" = Ok sm0 /\
    wait_for_state "connected" sm0 ∅ = (WaitSuspended f, sm1, futures1) /\
    set_state "connected" sm1 futures1 = (Ok tt, sm2, futures2) /\
    set_state "connected" sm2 futures2 = (Raise InvalidStateError, sm3, futures3).
Proof.
  cbn zeta. do 8 eexists.
  split; [reflexivity|]. split; [reflexivity|]. split; reflexivity.
Qed.

End StateMachineProofs.

(** ** More about [pad_to_multiple] *)

Section PadToMultipleMore.
Import Common Xmodemcrc Run.

Lemma pad_to_multiple_eq (data : bytes) (m : Z) (p : byte) :
  pad_to_multiple data m [p]
  = if m =? 0 then Raise ZeroDivisionError
    else if len data mod m =? 0 then Ok data
    else Ok (data ++ repeat p (Z.to_nat (m * (len data / m + 1) - len data))).
Proof.
  unfold pad_to_multiple. cbn [length len negb]. change (Z.of_nat 1 =? 1) with true.
  cbn [negb]. now rewrite bytes_mul_singleton.
Qed.

(** Padding what is already padded changes nothing more: the function is
    idempotent, whatever the second padding byte. *)
Theorem pad_to_multiple_idempotent (data : bytes) (m : Z) (p q : byte) (out : bytes) :
  pad_to_multiple data m [p] = Ok out -> 0 < m ->
  pad_to_multiple out m [q] = Ok out.
Proof.
  intros Hpad Hm. rewrite pad_to_multiple_eq in *.
  destruct (Z.eqb_spec m 0) as [|_]; [lia|].
  destruct (Z.eqb_spec (len data mod m) 0) as [Hz|Hnz].
  - injection Hpad as <-. apply Z.eqb_eq in Hz. now rewrite Hz.
  - injection Hpad as <-.
    pose proof (padded_size_spec (len data) m Hm (len_nonneg data)) as (Hlt & _ & Hmod & _).
    assert (Hout : len (data ++ repeat p (Z.to_nat (m * (len data / m + 1) - len data)))
                   = m * (len data / m + 1)).
    { rewrite len_app, len_repeat. lia. }
    rewrite Hout, Hmod. reflexivity.
Qed.

Lemma pad_to_multiple_idempotent_witness :
  pad_to_multiple ["a"; "b"; "c"]%byte 4 ["000"%byte] = Ok ["a"; "b"; "c"; "000"]%byte /\
  pad_to_multiple ["a"; "b"; "c"; "000"]%byte 4 ["255"%byte]
  = Ok ["a"; "b"; "c"; "000"]%byte.
Proof.
  split; [reflexivity|].
  apply (pad_to_multiple_idempotent ["a"; "b"; "c"]%byte 4 "000"%byte); [reflexivity|lia].
Defined.

(** The checks and the arithmetic at the edges.  A padding that is not one
    byte long fails the assertion before anything else is looked at; a
    multiple of zero raises [ZeroDivisionError]; with a negative multiple
    the data comes back unchanged, whether its length is a multiple or not,
    because the padded size then lies below the length and a byte string
    times a negative number is empty; and empty data, or a multiple of one,
    needs no padding. *)
Theorem pad_to_multiple_edges (data : bytes) :
  (forall m padding, len padding <> 1 ->
     pad_to_multiple data m padding = Raise AssertionError) /\
  (forall p, pad_to_multiple data 0 [p] = Raise ZeroDivisionError) /\
  (forall m p, m < 0 -> pad_to_multiple data m [p] = Ok data) /\
  (forall m p, m <> 0 -> pad_to_multiple [] m [p] = Ok []) /\
  (forall p, pad_to_multiple data 1 [p] = Ok data).
Proof.
  split; [|split; [|split; [|split]]].
  - intros m padding Hp. unfold pad_to_multiple.
    destruct (Z.eqb_spec (len padding) 1); [contradiction|reflexivity].
  - intros p. now rewrite pad_to_multiple_eq.
  - intros m p Hm. rewrite pad_to_multiple_eq.
    destruct (Z.eqb_spec m 0) as [|_]; [lia|].
    destruct (Z.eqb_spec (len data mod m) 0) as [Hz|Hnz]; [reflexivity|].
    pose proof (Z.mod_neg_bound (len data) m Hm) as Hb.
    pose proof (Z.div_mod (len data) m ltac:(lia)) as Hdm.
    replace (Z.to_nat (m * (len data / m + 1) - len data)) with 0%nat by lia.
    cbn [repeat]. now rewrite app_nil_r.
  - intros m p Hm. rewrite pad_to_multiple_eq.
    destruct (Z.eqb_spec m 0) as [|_]; [contradiction|].
    change (len (@nil byte)) with 0. now rewrite Z.mod_0_l.
  - intros p. rewrite pad_to_multiple_eq. now rewrite Z.mod_1_r.
Qed.

(** Padding to the block size makes any data acceptable to the sender:
    the padded data is the data followed by fewer than 128 padding bytes,
    its length is 128 times the number of blocks needed to hold the data,
    and [send_xmodem128_crc] on it passes the length check and enters its
    [try] statement. *)
Theorem pad_then_send (data : bytes) (p : byte) :
  exists out k,
    pad_to_multiple data BLOCK_SIZE [p] = Ok out /\
    out = data ++ repeat p k /\ (k < 128)%nat /\
    len out = 128 * ((len data + 127) / 128) /\
    forall max_failures progress_callback w,
      send_xmodem128_crc out max_failures progress_callback w
      = try_finally (transfer out max_failures progress_callback)
                    (set_protocol (w_protocol w)) (swapped w).
Proof.
  pose proof (len_nonneg data) as Hn.
  pose proof (Z.div_mod (len data) 128 ltac:(lia)) as Hdm.
  pose proof (Z.mod_pos_bound (len data) 128 ltac:(lia)) as Hb.
  rewrite pad_to_multiple_eq. change BLOCK_SIZE with 128. change (128 =? 0) with false.
  cbv iota.
  destruct (Z.eqb_spec (len data mod 128) 0) as [Hz|Hnz].
  - exists data, 0%nat. split; [reflexivity|]. cbn [repeat]. rewrite app_nil_r.
    split; [reflexivity|]. split; [lia|]. split.
    + assert ((len data + 127) / 128 = len data / 128); [|lia].
      rewrite Hdm at 1. rewrite Hz, Z.add_0_r.
      replace (128 * (len data / 128) + 127) with (127 + (len data / 128) * 128) by lia.
      rewrite Z.div_add by lia. reflexivity.
    + intros mf cb w. now apply send_enters.
  - eexists _, (Z.to_nat (128 * (len data / 128 + 1) - len data)).
    split; [reflexivity|]. split; [reflexivity|]. split; [lia|].
    assert (Hout : len (data ++ repeat p (Z.to_nat (128 * (len data / 128 + 1) - len data)))
                   = 128 * (len data / 128 + 1)).
    { rewrite len_app, len_repeat. lia. }
    split.
    + rewrite Hout. f_equal.
      assert (H1 : len data + 127 = (len data mod 128 - 1) + (len data / 128 + 1) * 128)
        by lia.
      rewrite H1, Z.div_add by lia.
      rewrite (Z.div_small (len data mod 128 - 1) 128) by lia. lia.
    + intros mf cb w. apply send_enters. rewrite Hout.
      rewrite Z.mul_comm. apply Z.mod_mul. lia.
Qed.

End PadToMultipleMore.

(** ** More about the checksums *)

Section ChecksumsMore.
Import Crc CrcReference Common Xmodemcrc WireFormat.

Lemma crc16_ccitt_update (data : bytes) : crc16_ccitt data = update CRC_CCITT 0 data.
Proof.
  unfold crc16_ccitt, checksum, digest.
  rewrite (eq_refl : reverse_output CRC_CCITT = false).
  rewrite (eq_refl : Z.land (init_value CRC_CCITT) (bitmask CRC_CCITT) = 0).
  rewrite (eq_refl : final_xor_value CRC_CCITT = 0). apply Z.lxor_0_r.
Qed.

Lemma update_app (c : Configuration) (r : Z) (a b : bytes) :
  update c r (a ++ b) = update c (update c r a) b.
Proof. unfold update. apply fold_left_app. Qed.

(** One shift of the register, as one formula. *)
Lemma shift_register_formula (x : Z) :
  shift_register CRC_CCITT x
  = Z.lxor (Z.land (Z.shiftl x 1) 65535) (if Z.testbit x 15 then 4129 else 0).
Proof.
  rewrite shift_register_ccitt. unfold msb_first_bit. rewrite xorb_false_r.
  destruct (Z.testbit x 15); [reflexivity|now rewrite Z.lxor_0_r].
Qed.

(** The register is shifted linearly over GF(2). *)
Lemma shift_register_lxor (x y : Z) :
  shift_register CRC_CCITT (Z.lxor x y)
  = Z.lxor (shift_register CRC_CCITT x) (shift_register CRC_CCITT y).
Proof.
  rewrite !shift_register_formula. apply Z.bits_inj'. intros j Hj.
  rewrite !Z.lxor_spec, !Z.land_spec, !Z.shiftl_spec, !Z.lxor_spec by lia.
  destruct (Z.testbit x 15), (Z.testbit y 15); cbn [xorb];
    rewrite ?Z.bits_0;
    destruct (Z.testbit x (j - 1)), (Z.testbit y (j - 1)), (Z.testbit 65535 j),
      (Z.testbit 4129 j); reflexivity.
Qed.

Lemma shift_register_0 : shift_register CRC_CCITT 0 = 0.
Proof. reflexivity. Qed.

(** A shift loses nothing: the polynomial is odd, so the bit that leaves
    the register shows in the lowest bit of the result. *)
Lemma shift_register_zero (x : Z) :
  0 <= x < 65536 -> shift_register CRC_CCITT x = 0 -> x = 0.
Proof.
  intros Hx H.
  assert (Hc : check_bits 16 (fun z => negb (shift_register CRC_CCITT z =? 0) || (z =? 0))
               = true) by (vm_compute; reflexivity).
  pose proof (check_bits_sound 16 _ Hc x Hx) as Hb. cbv beta in Hb.
  rewrite H in Hb. cbn in Hb. now apply Z.eqb_eq in Hb.
Qed.

Lemma iter_shift_lxor (n : nat) (x y : Z) :
  Nat.iter n (shift_register CRC_CCITT) (Z.lxor x y)
  = Z.lxor (Nat.iter n (shift_register CRC_CCITT) x)
           (Nat.iter n (shift_register CRC_CCITT) y).
Proof.
  induction n as [|n IH]; [reflexivity|].
  rewrite !Nat.iter_succ, IH. apply shift_register_lxor.
Qed.

Lemma iter_shift_range (n : nat) (x : Z) :
  0 <= x < 65536 -> 0 <= Nat.iter n (shift_register CRC_CCITT) x < 65536.
Proof.
  intros Hx. destruct n as [|n]; [exact Hx|].
  rewrite Nat.iter_succ. now apply shift_register_range.
Qed.

Lemma iter_shift_zero (n : nat) (x : Z) :
  0 <= x < 65536 -> Nat.iter n (shift_register CRC_CCITT) x = 0 -> x = 0.
Proof.
  intros Hx. induction n as [|n IH]; [auto|].
  rewrite Nat.iter_succ. intros H. apply IH.
  apply shift_register_zero; [now apply iter_shift_range|exact H].
Qed.

Lemma lxor_eq_zero (x y : Z) : Z.lxor x y = 0 -> x = y.
Proof. apply Z.lxor_eq. Qed.

Lemma iter_shift_inj (n : nat) (x y : Z) :
  0 <= x < 65536 -> 0 <= y < 65536 ->
  Nat.iter n (shift_register CRC_CCITT) x = Nat.iter n (shift_register CRC_CCITT) y ->
  x = y.
Proof.
  intros Hx Hy H. apply lxor_eq_zero.
  apply (iter_shift_zero n); [apply (lxor_range 16); lia|].
  rewrite iter_shift_lxor, H. apply Z.lxor_nilpotent.
Qed.

(** The calculator on one byte: the byte enters at the top, and the
    register shifts eight times. *)
Lemma process_byte_iter (r b : Z) :
  0 <= r < 65536 -> 0 <= b < 256 ->
  process_byte CRC_CCITT r b
  = Nat.iter 8 (shift_register CRC_CCITT) (Z.lxor r (Z.shiftl b 8)).
Proof.
  intros Hr Hb. unfold process_byte. rewrite fold_range_8.
  change (bitmask CRC_CCITT) with 65535. change (width CRC_CCITT - 8) with 8.
  assert (Hb8 : 0 <= Z.shiftl b 8 < 65536).
  { rewrite Z.shiftl_mul_pow2 by lia. change (2 ^ 8) with 256. lia. }
  now rewrite land_mask16_small by (apply (lxor_range 16); lia).
Qed.

Lemma shiftl_8_range (b : Z) : 0 <= b < 256 -> 0 <= Z.shiftl b 8 < 65536.
Proof. intros Hb. rewrite Z.shiftl_mul_pow2 by lia. change (2 ^ 8) with 256. lia. Qed.

(** Eight shifts move a byte from the low half of the register to the top. *)
Lemma iter_shift_low_byte (b : Z) :
  0 <= b < 256 -> Nat.iter 8 (shift_register CRC_CCITT) b = Z.shiftl b 8.
Proof.
  intros Hb.
  assert (Hc : check_bits 8 (fun z => Nat.iter 8 (shift_register CRC_CCITT) z
                                      =? Z.shiftl z 8) = true) by (vm_compute; reflexivity).
  pose proof (check_bits_sound 8 _ Hc b Hb) as H. now apply Z.eqb_eq in H.
Qed.

(** Two bytes: the register, xored with the two bytes, shifts sixteen times. *)
Lemma update_two_bytes (r : Z) (b1 b2 : byte) :
  0 <= r < 65536 ->
  update CRC_CCITT r [b1; b2]
  = Nat.iter 16 (shift_register CRC_CCITT)
      (Z.lxor r (Z.lxor (Z.shiftl (byte_val b1) 8) (byte_val b2))).
Proof.
  intros Hr. pose proof (byte_val_range b1) as H1. pose proof (byte_val_range b2) as H2.
  pose proof (shiftl_8_range _ H1) as H18.
  rewrite !update_cons, update_nil, reverse_input_ccitt.
  rewrite (process_byte_iter r) by assumption.
  rewrite process_byte_iter
    by (try assumption; apply iter_shift_range, (lxor_range 16); lia).
  rewrite <- (iter_shift_low_byte (byte_val b2)) by assumption.
  rewrite <- iter_shift_lxor. change 16%nat with (8 + 8)%nat.
  rewrite Nat.iter_add. now rewrite Z.lxor_assoc.
Qed.

Lemma process_byte_inj_register (r1 r2 : Z) (b : byte) :
  0 <= r1 < 65536 -> 0 <= r2 < 65536 ->
  process_byte CRC_CCITT r1 (byte_val b) = process_byte CRC_CCITT r2 (byte_val b) ->
  r1 = r2.
Proof.
  intros H1 H2 H. pose proof (byte_val_range b) as Hb.
  pose proof (shiftl_8_range _ Hb) as Hb8.
  rewrite !process_byte_iter in H by assumption.
  apply iter_shift_inj in H; try (apply (lxor_range 16); lia).
  apply (f_equal (fun z => Z.lxor z (Z.shiftl (byte_val b) 8))) in H.
  now rewrite !Z.lxor_assoc, !Z.lxor_nilpotent, !Z.lxor_0_r in H.
Qed.

(** Different registers stay different, whatever bytes follow. *)
Lemma update_inj_register (data : bytes) (r1 r2 : Z) :
  0 <= r1 < 65536 -> 0 <= r2 < 65536 ->
  update CRC_CCITT r1 data = update CRC_CCITT r2 data -> r1 = r2.
Proof.
  revert r1 r2. induction data as [|b data IH]; intros r1 r2 H1 H2 H.
  - now rewrite !update_nil in H.
  - rewrite !update_cons, reverse_input_ccitt in H.
    apply IH in H; try (now apply process_byte_range).
    now apply process_byte_inj_register in H.
Qed.

Lemma shiftl_8_lxor_byte (a b : Z) :
  0 <= a < 256 -> 0 <= b < 256 -> Z.lxor (Z.shiftl a 8) b = 256 * a + b.
Proof.
  intros Ha Hb. rewrite Z.shiftl_mul_pow2 by lia. change (2 ^ 8) with 256.
  rewrite <- Z.add_nocarry_lxor; [lia|].
  apply Z.bits_inj'. intros j Hj. rewrite Z.land_spec, Z.bits_0.
  destruct (Z_lt_le_dec j 8).
  - replace (a * 256) with (a * 2 ^ 8) by reflexivity.
    now rewrite Z.mul_pow2_bits_low by lia.
  - rewrite (testbit_above 8 b j) by (change (2 ^ 8) with 256; lia).
    apply andb_false_r.
Qed.

(** The residue of a packet: the checksum of the payload followed by its
    checksum, most significant byte first, is zero.  A receiver can check a
    packet by one pass over its payload and checksum bytes. *)
Theorem serialize_checksum_residue (p : Xmodem128CRCPacket) (s : bytes) :
  serialize p = Ok s ->
  skipn 3 s = payload p ++ checksum_bytes (payload p) /\
  crc16_ccitt (skipn 3 s) = 0.
Proof.
  intros Hser. unfold serialize in Hser.
  destruct (bytes_of_ints [Symbol_value SOH; number p; 255 - number p])
    as [header|e] eqn:Hh; [|discriminate].
  assert (Hlen : length header = 3%nat).
  { cbn [bytes_of_ints] in Hh.
    destruct (byte_of_int (Symbol_value SOH)) as [b0|]; [|discriminate].
    destruct (byte_of_int (number p)) as [b1|]; [|discriminate].
    destruct (byte_of_int (255 - number p)) as [b2|]; [|discriminate].
    cbn in Hh. now injection Hh as <-. }
  cbn [rbind] in Hser.
  rewrite to_bytes_2_big_ok in Hser by apply crc16_ccitt_range.
  cbn [rbind] in Hser. injection Hser as <-.
  assert (Hskip : skipn 3 (header ++ payload p
                           ++ [byte_of_Z (crc16_ccitt (payload p) / 256);
                               byte_of_Z (crc16_ccitt (payload p) mod 256)])
                  = payload p ++ checksum_bytes (payload p)).
  { rewrite skipn_app, Hlen, Nat.sub_diag, skipn_all2 by lia. reflexivity. }
  split; [exact Hskip|]. rewrite Hskip. unfold checksum_bytes.
  change (checksum variant_A (payload p)) with (crc16_ccitt (payload p)).
  pose proof (crc16_ccitt_range (payload p)) as Hr.
  set (c := crc16_ccitt (payload p)) in *.
  rewrite crc16_ccitt_update, update_app. fold (crc16_ccitt (payload p)).
  rewrite <- crc16_ccitt_update. fold c.
  rewrite update_two_bytes by exact Hr.
  assert (Hhi : 0 <= c / 256 < 256).
  { split; [apply Z.div_pos; lia|apply Z.div_lt_upper_bound; lia]. }
  assert (Hlo : 0 <= c mod 256 < 256) by (apply Z.mod_pos_bound; lia).
  rewrite !byte_of_Z_val by assumption.
  rewrite shiftl_8_lxor_byte by assumption.
  replace (256 * (c / 256) + c mod 256) with c by (rewrite (Z.div_mod c 256) at 1; lia).
  rewrite Z.lxor_nilpotent. reflexivity.
Qed.

Lemma serialize_checksum_residue_witness :
  exists s,
    serialize {| number := 1; payload := sample_block |} = Ok s /\
    crc16_ccitt (skipn 3 s) = 0.
Proof.
  destruct (serialize {| number := 1; payload := sample_block |}) as [s|e] eqn:E;
    [|vm_compute in E; discriminate].
  exists s. split; [reflexivity|].
  exact (proj2 (serialize_checksum_residue _ s E)).
Defined.

(** Corruption confined to one byte, or to two adjacent bytes, always
    changes the checksum: two byte strings that differ in one place only,
    by one or two bytes, never have the same [crc16_ccitt]. *)
Theorem crc16_ccitt_detects_short_errors (before after : bytes) :
  (forall a b, a <> b ->
     crc16_ccitt (before ++ [a] ++ after) <> crc16_ccitt (before ++ [b] ++ after)) /\
  (forall a1 a2 b1 b2, (a1, a2) <> (b1, b2) ->
     crc16_ccitt (before ++ [a1; a2] ++ after)
     <> crc16_ccitt (before ++ [b1; b2] ++ after)).
Proof.
  assert (Hr : 0 <= update CRC_CCITT 0 before < 65536)
    by (apply update_range; [reflexivity|lia]).
  set (r := update CRC_CCITT 0 before) in *.
  split.
  - intros a b Hab H. rewrite !crc16_ccitt_update, !update_app in H. fold r in H.
    apply update_inj_register in H; try (apply update_range; [reflexivity|assumption]).
    rewrite !update_cons, !update_nil, reverse_input_ccitt in H.
    pose proof (byte_val_range a) as Ha. pose proof (byte_val_range b) as Hb.
    pose proof (shiftl_8_range _ Ha). pose proof (shiftl_8_range _ Hb).
    rewrite !process_byte_iter in H by assumption.
    apply iter_shift_inj in H; try (apply (lxor_range 16); lia).
    apply (f_equal (Z.lxor r)) in H.
    rewrite <- !Z.lxor_assoc, !Z.lxor_nilpotent, !Z.lxor_0_l in H.
    rewrite !Z.shiftl_mul_pow2 in H by lia. apply Hab, byte_val_inj. lia.
  - intros a1 a2 b1 b2 Hab H. rewrite !crc16_ccitt_update, !update_app in H. fold r in H.
    apply update_inj_register in H; try (apply update_range; [reflexivity|assumption]).
    rewrite !update_two_bytes in H by assumption.
    pose proof (byte_val_range a1). pose proof (byte_val_range a2).
    pose proof (byte_val_range b1). pose proof (byte_val_range b2).
    rewrite !shiftl_8_lxor_byte in H by assumption.
    apply iter_shift_inj in H; try (apply (lxor_range 16); lia).
    apply (f_equal (Z.lxor r)) in H.
    rewrite <- !Z.lxor_assoc, !Z.lxor_nilpotent, !Z.lxor_0_l in H.
    apply Hab. f_equal; apply byte_val_inj; lia.
Qed.

(** The checksum of Variant A starts from a zero register, so zero bytes
    in front of the data leave it as it is; in particular the checksum of
    any number of zero bytes is zero, as is that of the empty string. *)
Theorem crc16_ccitt_leading_zeros (k : nat) (data : bytes) :
  crc16_ccitt (repeat "000"%byte k ++ data) = crc16_ccitt data /\
  crc16_ccitt (repeat "000"%byte k) = 0.
Proof.
  assert (Hz : update CRC_CCITT 0 (repeat "000"%byte k) = 0).
  { induction k as [|k IH]; [apply update_nil|].
    cbn [repeat]. rewrite update_cons, reverse_input_ccitt.
    rewrite (eq_refl : process_byte CRC_CCITT 0 (byte_val "000"%byte) = 0). exact IH. }
  split.
  - now rewrite !crc16_ccitt_update, update_app, Hz.
  - now rewrite crc16_ccitt_update.
Qed.

(** The residue of Variant B: the checksum of the data followed by its
    checksum, least significant byte first (the frame check sequence of an
    HDLC frame), is the same number for all data, 0x0F47. *)
Theorem crc16_kermit_residue (data : bytes) :
  crc16_kermit (data ++ [byte_of_Z (crc16_kermit data mod 256);
                         byte_of_Z (crc16_kermit data / 256)]) = 0x0F47.
Proof.
  pose proof (crc16_kermit_range data) as Hr.
  rewrite crc16_kermit_reference. unfold kermit_style at 1.
  rewrite fold_left_app.
  assert (HR : fold_left (fun crc b => lsb_first_byte crc (byte_val b)) data 65535
               = Z.lxor (crc16_kermit data) 65535).
  { rewrite crc16_kermit_reference. unfold kermit_style.
    now rewrite Z.lxor_assoc, Z.lxor_nilpotent, Z.lxor_0_r. }
  rewrite HR. set (c := crc16_kermit data) in *.
  assert (Hhi : 0 <= c / 256 < 256).
  { split; [apply Z.div_pos; lia|apply Z.div_lt_upper_bound; lia]. }
  assert (Hlo : 0 <= c mod 256 < 256) by (apply Z.mod_pos_bound; lia).
  rewrite fold_left_cons_eq, fold_left_cons_eq, fold_left_nil_eq.
  rewrite !byte_of_Z_val by assumption.
  assert (Hc : check_bits 16
                 (fun c => Z.lxor (lsb_first_byte (lsb_first_byte (Z.lxor c 65535)
                                                     (c mod 256)) (c / 256)) 65535
                           =? 3911) = true) by (vm_compute; reflexivity).
  pose proof (check_bits_sound 16 _ Hc c Hr) as H. now apply Z.eqb_eq in H.
Qed.

End ChecksumsMore.

(** ** More about [StateMachine] *)

Section StateMachineMore.
Import Common.

(** A loop of [set_result] stops at the first future that is not pending. *)
Lemma set_results_not_pending (l : list nat) (futures : gmap nat future_state) (f : nat) :
  f ∈ l -> futures !! f <> Some FutPending ->
  exists futures', set_results l futures = (Raise InvalidStateError, futures').
Proof.
  revert futures. induction l as [|g l IH]; intros futures Hin Hf; [inversion Hin|].
  cbn [set_results]. unfold set_result.
  destruct (futures !! g) as [[| |]|] eqn:Eg; try (eexists; reflexivity).
  apply elem_of_cons in Hin as [->|Hin]; [congruence|].
  apply IH; [exact Hin|].
  destruct (decide (g = f)) as [->|Hne]; [now rewrite lookup_insert_eq|].
  now rewrite lookup_insert_ne.
Qed.

Lemma list_remove_snoc (f : nat) (l : list nat) :
  f ∉ l -> list_remove f (l ++ [f]) = Ok l.
Proof.
  induction l as [|g l IH]; intros Hf; cbn [app list_remove].
  - destruct (decide (f = f)); [reflexivity|contradiction].
  - apply not_elem_of_cons in Hf as [Hne Hf].
    destruct (decide (g = f)) as [->|_]; [contradiction|]. now rewrite IH.
Qed.

Lemma wait_for_state_suspends (wanted : string) (sm : StateMachine)
    (futures : gmap nat future_state) :
  wanted ∈ _states sm -> state sm <> wanted ->
  wait_for_state wanted sm futures
  = (WaitSuspended (fresh (dom futures)),
     {| _states := _states sm; _state := _state sm;
        _futures_for_state :=
          <[wanted := futures_for sm wanted ++ [fresh (dom futures)]]>
            (_futures_for_state sm) |},
     <[fresh (dom futures) := FutPending]> futures).
Proof.
  intros Hin Hne. unfold wait_for_state.
  destruct (decide (wanted ∈ _states sm)); [|contradiction].
  destruct (decide (state sm = wanted)); [contradiction|reflexivity].
Qed.

Lemma fresh_future_new (futures : gmap nat future_state) :
  futures !! fresh (dom futures) = None.
Proof. apply not_elem_of_dom, is_fresh. Qed.

(** The whole life of a waiter.  A task that waits for a state other than
    the active one gets a new pending future, registered last in the list of
    that state.  When the other waiters of that state are distinct pending
    futures, the transition to the state returns and resolves the future;
    the task then resumes, takes its future off the list and returns, and
    the registrations are again what they were before the wait: nothing is
    left behind. *)
Theorem wait_transition_resume (sm : StateMachine) (futures : gmap nat future_state)
    (wanted : string) :
  wanted ∈ _states sm -> state sm <> wanted ->
  NoDup (futures_for sm wanted) ->
  (forall f, f ∈ futures_for sm wanted -> futures !! f = Some FutPending) ->
  exists f sm1 futures1 sm2 futures2 sm3,
    wait_for_state wanted sm futures = (WaitSuspended f, sm1, futures1) /\
    futures !! f = None /\ futures1 !! f = Some FutPending /\
    futures_for sm1 wanted = futures_for sm wanted ++ [f] /\
    set_state wanted sm1 futures1 = (Ok tt, sm2, futures2) /\
    futures2 !! f = Some FutDone /\
    wait_for_state_resume wanted f sm2 futures2 = (Ok tt, sm3) /\
    state sm3 = wanted /\ _states sm3 = _states sm /\
    forall s, futures_for sm3 s = futures_for sm s.
Proof.
  intros Hin Hne Hnd Hp.
  set (f := fresh (dom futures)). set (l := futures_for sm wanted) in *.
  assert (Hnew : futures !! f = None) by apply fresh_future_new.
  assert (Hfl : f ∉ l).
  { intros Hf. rewrite (Hp f Hf) in Hnew. discriminate. }
  rewrite (wait_for_state_suspends _ _ _ Hin Hne). fold f l.
  set (sm1 := {| _states := _states sm; _state := _state sm;
                 _futures_for_state := <[wanted := l ++ [f]]> (_futures_for_state sm) |}).
  set (futures1 := <[f := FutPending]> futures).
  assert (Hl1 : futures_for sm1 wanted = l ++ [f]).
  { unfold futures_for, sm1. cbn [_futures_for_state]. now rewrite lookup_insert_eq. }
  destruct (set_results_pending (l ++ [f]) futures1) as [futures2 Hset].
  { apply NoDup_app. split; [exact Hnd|]. split; [|apply NoDup_singleton].
    intros x Hx Hx'. apply list_elem_of_singleton in Hx'. now subst x. }
  { intros x Hx. unfold futures1. apply elem_of_app in Hx as [Hx|Hx].
    - rewrite lookup_insert_ne; [now apply Hp|]. intros <-. contradiction.
    - apply list_elem_of_singleton in Hx. subst x. apply lookup_insert_eq. }
  destruct (set_results_ok _ _ _ Hset) as [Hdone _].
  set (sm2 := {| _states := _states sm1; _state := wanted;
                 _futures_for_state := <[wanted := l ++ [f]]> (_futures_for_state sm1) |}).
  assert (Hsetter : set_state wanted sm1 futures1 = (Ok tt, sm2, futures2)).
  { unfold set_state. destruct (decide (wanted ∈ _states sm1)); [|contradiction].
    rewrite Hl1, Hset. reflexivity. }
  assert (Hf2 : futures2 !! f = Some FutDone).
  { apply Hdone, elem_of_app. right. now apply list_elem_of_singleton. }
  set (sm3 := {| _states := _states sm2; _state := _state sm2;
                 _futures_for_state := <[wanted := l]> (_futures_for_state sm2) |}).
  exists f, sm1, futures1, sm2, futures2, sm3.
  split; [reflexivity|]. split; [exact Hnew|]. split; [apply lookup_insert_eq|].
  split; [exact Hl1|]. split; [exact Hsetter|]. split; [exact Hf2|]. split.
  { unfold wait_for_state_resume.
    assert (Hl2 : futures_for sm2 wanted = l ++ [f]).
    { unfold futures_for, sm2. cbn [_futures_for_state]. now rewrite lookup_insert_eq. }
    rewrite Hl2, (list_remove_snoc _ _ Hfl), Hf2. reflexivity. }
  split; [reflexivity|]. split; [reflexivity|].
  intros s. unfold futures_for at 1. unfold sm3, sm2, sm1. cbn [_futures_for_state].
  destruct (decide (wanted = s)) as [->|Hs].
  - now rewrite lookup_insert_eq.
  - now rewrite !lookup_insert_ne by exact Hs.
Qed.

Lemma wait_transition_resume_witness :
  exists sm0 f sm1 futures1 sm2 futures2 sm3,
    StateMachine_init {["connected"; "disconnected"]} "disconnected" = Ok sm0 /\
    wait_for_state "connected" sm0 ∅ = (WaitSuspended f, sm1, futures1) /\
    set_state "connected" sm1 futures1 = (Ok tt, sm2, futures2) /\
    wait_for_state_resume "connected" f sm2 futures2 = (Ok tt, sm3) /\
    forall s, futures_for sm3 s = futures_for sm0 s.
Proof.
  set (sm0 := {| _states := {["connected"; "disconnected"]}; _state := "disconnected";
                 _futures_for_state := ∅ |}).
  assert (Hin : "connected" ∈ _states sm0)
    by (apply (bool_decide_unpack _); vm_compute; exact I).
  assert (Hne : state sm0 <> "connected") by discriminate.
  assert (Hnd : NoDup (futures_for sm0 "connected")) by constructor.
  assert (Hp : forall f, f ∈ futures_for sm0 "connected" ->
                 (∅ : gmap nat future_state) !! f = Some FutPending)
    by (intros f Hf; inversion Hf).
  destruct (wait_transition_resume sm0 ∅ "connected" Hin Hne Hnd Hp)
    as (f & sm1 & futures1 & sm2 & futures2 & sm3 & H1 & _ & _ & _ & H2 & _ & H3 & _ & _ & H4).
  exists sm0, f, sm1, futures1, sm2, futures2, sm3.
  split; [reflexivity|]. split; [exact H1|]. split; [exact H2|]. split; [exact H3|exact H4].
Defined.

(** A transition to a state for which a future is registered that is no
    longer pending raises [asyncio.InvalidStateError], out of
    [set_result], after the state was changed.  This is what happens when
    the state is set twice before a waiter it resolved has run, and when it
    is set after a waiting task was cancelled and before that task has left
    the list. *)
Theorem set_state_invalid_state (sm : StateMachine) (futures : gmap nat future_state)
    (new_state : string) (f : nat) :
  new_state ∈ _states sm -> f ∈ futures_for sm new_state ->
  futures !! f <> Some FutPending ->
  exists sm' futures',
    set_state new_state sm futures = (Raise InvalidStateError, sm', futures') /\
    state sm' = new_state /\ _states sm' = _states sm /\
    forall s, futures_for sm' s = futures_for sm s.
Proof.
  intros Hin Hf Hnp. unfold set_state.
  destruct (decide (new_state ∈ _states sm)); [|contradiction].
  destruct (set_results_not_pending _ _ _ Hf Hnp) as [futures' ->].
  eexists _, futures'. split; [reflexivity|]. split; [reflexivity|].
  split; [reflexivity|]. apply futures_for_insert.
Qed.

(** A future that already has its result is still registered. *)
Lemma set_state_invalid_state_witness :
  exists sm' futures',
    set_state "connected"
      {| _states := {["connected"; "disconnected"]}; _state := "connected";
         _futures_for_state := {["connected" := [0%nat]]} |}
      {[0%nat := FutDone]}
    = (Raise InvalidStateError, sm', futures') /\
    state sm' = "connected".
Proof.
  destruct (set_state_invalid_state
              {| _states := {["connected"; "disconnected"]}; _state := "connected";
                 _futures_for_state := {["connected" := [0%nat]]} |}
              {[0%nat := FutDone]} "connected" 0%nat)
    as (sm' & futures' & Hset & Hst & _).
  - apply (bool_decide_unpack _). vm_compute. exact I.
  - unfold futures_for. cbn [_futures_for_state]. rewrite lookup_singleton_eq. now left.
  - rewrite lookup_singleton_eq. discriminate.
  - now exists sm', futures'.
Defined.

(** A waiter that is cancelled.  The future it waits on is cancelled with
    the task; when the task runs again its [finally] block takes the future
    off the list, the cancellation propagates, and the registrations are
    what they were before the wait. *)
Theorem wait_cancel_resume (sm : StateMachine) (futures : gmap nat future_state)
    (wanted : string) :
  wanted ∈ _states sm -> state sm <> wanted ->
  (forall f, f ∈ futures_for sm wanted -> f ∈ dom futures) ->
  exists f sm1 futures1,
    wait_for_state wanted sm futures = (WaitSuspended f, sm1, futures1) /\
    forall futures2, futures2 !! f = Some FutCancelled ->
      exists sm3,
        wait_for_state_resume wanted f sm1 futures2 = (Raise CancelledError, sm3) /\
        state sm3 = state sm /\ _states sm3 = _states sm /\
        forall s, futures_for sm3 s = futures_for sm s.
Proof.
  intros Hin Hne Hdom.
  set (f := fresh (dom futures)). set (l := futures_for sm wanted) in *.
  assert (Hfl : f ∉ l).
  { intros Hf. apply Hdom in Hf. now apply is_fresh in Hf. }
  rewrite (wait_for_state_suspends _ _ _ Hin Hne). fold f l.
  eexists f, _, _. split; [reflexivity|]. intros futures2 Hc.
  unfold wait_for_state_resume, futures_for at 1. cbn [_futures_for_state].
  rewrite lookup_insert_eq. change (default [] (Some (l ++ [f]))) with (l ++ [f]).
  rewrite (list_remove_snoc _ _ Hfl), Hc.
  eexists. split; [reflexivity|]. split; [reflexivity|]. split; [reflexivity|].
  intros s. unfold futures_for at 1. cbn [_futures_for_state].
  destruct (decide (wanted = s)) as [->|Hs].
  - now rewrite lookup_insert_eq.
  - now rewrite !lookup_insert_ne by exact Hs.
Qed.

Lemma wait_cancel_resume_witness :
  exists sm0 f sm1 futures1 sm3,
    StateMachine_init {["connected"; "disconnected"]} "disconnected" = Ok sm0 /\
    wait_for_state "connected" sm0 ∅ = (WaitSuspended f, sm1, futures1) /\
    wait_for_state_resume "connected" f sm1 (<[f := FutCancelled]> futures1)
    = (Raise CancelledError, sm3) /\
    forall s, futures_for sm3 s = futures_for sm0 s.
Proof.
  set (sm0 := {| _states := {["connected"; "disconnected"]}; _state := "disconnected";
                 _futures_for_state := ∅ |}).
  assert (Hin : "connected" ∈ _states sm0)
    by (apply (bool_decide_unpack _); vm_compute; exact I).
  assert (Hne : state sm0 <> "connected") by discriminate.
  assert (Hdom : forall f, f ∈ futures_for sm0 "connected" ->
                   f ∈ dom (∅ : gmap nat future_state))
    by (intros f Hf; inversion Hf).
  destruct (wait_cancel_resume sm0 ∅ "connected" Hin Hne Hdom)
    as (f & sm1 & futures1 & H1 & H2).
  destruct (H2 (<[f := FutCancelled]> futures1) (lookup_insert_eq _ _ _))
    as (sm3 & H3 & _ & _ & H4).
  exists sm0, f, sm1, futures1, sm3.
  split; [reflexivity|]. split; [exact H1|]. split; [exact H3|exact H4].
Defined.

End StateMachineMore.

(** ** Properties of [put_first] *)

Section PutFirst.
Import Common.
Context {A : Type} `{EqDecision A}.

Lemma filter_all (P : A -> Prop) `{forall x, Decision (P x)} (l : list A) :
  Forall P l -> filter P l = l.
Proof.
  induction 1 as [|x l Hx _ IH]; [reflexivity|]. now rewrite filter_cons_True, IH.
Qed.

Lemma filter_none (P : A -> Prop) `{forall x, Decision (P x)} (l : list A) :
  Forall (fun x => ~ P x) l -> filter P l = [].
Proof.
  induction 1 as [|x l Hx _ IH]; [reflexivity|]. now rewrite filter_cons_False.
Qed.

Lemma list_count_app (x : A) (l1 l2 : list A) :
  list_count x (l1 ++ l2) = (list_count x l1 + list_count x l2)%nat.
Proof. unfold list_count. now rewrite filter_app, length_app. Qed.

(** Filtering keeps every occurrence of what it keeps, and none of what
    it drops. *)
Lemma list_count_filter (P : A -> Prop) `{forall x, Decision (P x)} (x : A) (l : list A) :
  list_count x (filter P l) = if decide (P x) then list_count x l else 0%nat.
Proof.
  unfold list_count. induction l as [|y l IH].
  - now destruct (decide (P x)).
  - destruct (decide (P y)) as [Hy|Hy].
    + rewrite (filter_cons_True P) by exact Hy.
      destruct (decide (y = x)) as [->|Hne].
      * rewrite !(filter_cons_True (fun z => z = x)) by reflexivity.
        cbn [length]. rewrite IH. destruct (decide (P x)); [reflexivity|contradiction].
      * rewrite !(filter_cons_False (fun z => z = x)) by exact Hne. exact IH.
    + rewrite (filter_cons_False P) by exact Hy. rewrite IH.
      destruct (decide (P x)) as [Hx|Hx]; [|reflexivity].
      rewrite (filter_cons_False (fun z => z = x)); [reflexivity|].
      intros ->. contradiction.
Qed.

Lemma list_count_cons (x y : A) (l : list A) :
  list_count x (y :: l) = if decide (y = x) then S (list_count x l) else list_count x l.
Proof.
  unfold list_count. destruct (decide (y = x)) as [Hy|Hy].
  - now rewrite (filter_cons_True (fun z => z = x)) by exact Hy.
  - now rewrite (filter_cons_False (fun z => z = x)) by exact Hy.
Qed.

Lemma list_count_sublist (x : A) (l1 l2 : list A) :
  l1 `sublist_of` l2 -> (list_count x l1 <= list_count x l2)%nat.
Proof.
  induction 1 as [|y l1 l2 _ IH|y l1 l2 _ IH]; [lia| |].
  - rewrite !list_count_cons. destruct (decide (y = x)); lia.
  - rewrite list_count_cons. destruct (decide (y = x)); lia.
Qed.

(** A sublist that holds the members outside [elements] as often as the
    list does, and no member of [elements], is what the comprehension of
    [put_first] keeps. *)
Lemma sublist_counts_filter (elements rest lst : list A) :
  rest `sublist_of` lst ->
  (forall x, list_count x rest = if decide (x ∈ elements) then 0%nat
                                 else list_count x lst) ->
  rest = filter (fun e => e ∉ elements) lst.
Proof.
  induction 1 as [|y l1 l2 Hsub IH|y l1 l2 Hsub IH]; intros Hc.
  - reflexivity.
  - assert (Hy : y ∉ elements).
    { intros Hy. specialize (Hc y). rewrite list_count_cons in Hc.
      destruct (decide (y = y)); [|contradiction].
      destruct (decide (y ∈ elements)); [discriminate|contradiction]. }
    rewrite filter_cons_True by exact Hy. f_equal. apply IH. intros x.
    specialize (Hc x). rewrite !list_count_cons in Hc.
    destruct (decide (y = x)) as [->|Hne]; [|exact Hc].
    destruct (decide (x ∈ elements)); [contradiction|]. lia.
  - assert (Hy : y ∈ elements).
    { destruct (decide (y ∈ elements)) as [Hy|Hy]; [exact Hy|exfalso].
      specialize (Hc y). rewrite list_count_cons in Hc.
      destruct (decide (y = y)); [|contradiction].
      destruct (decide (y ∈ elements)); [contradiction|].
      pose proof (list_count_sublist y _ _ Hsub). lia. }
    rewrite filter_cons_False by (intros Hn; contradiction). apply IH. intros x.
    specialize (Hc x). rewrite list_count_cons in Hc.
    destruct (decide (y = x)) as [->|Hne]; [|exact Hc].
    destruct (decide (x ∈ elements)); [exact Hc|contradiction].
Qed.

(** What [put_first] returns starts with [elements], as they are given and
    whether or not they occur in the list; the rest is the list without
    the members of [elements], in the order of the list, and holds every
    other member of the list as often as the list does.  Nothing else is
    added and nothing else is dropped, and a second application changes
    nothing. *)
Theorem put_first_spec (lst elements : list A) :
  take (length elements) (put_first lst elements) = elements /\
  drop (length elements) (put_first lst elements) `sublist_of` lst /\
  (forall x, x ∈ drop (length elements) (put_first lst elements)
             <-> x ∈ lst /\ x ∉ elements) /\
  (forall x, x ∈ put_first lst elements <-> x ∈ elements \/ x ∈ lst) /\
  put_first (put_first lst elements) elements = put_first lst elements /\
  put_first lst [] = lst /\
  put_first [] elements = elements /\
  (forall x, list_count x (drop (length elements) (put_first lst elements))
             = if decide (x ∈ elements) then 0%nat else list_count x lst) /\
  (forall x, list_count x (put_first lst elements)
             = (list_count x elements
                + if decide (x ∈ elements) then 0 else list_count x lst)%nat) /\
  (forall rest, rest `sublist_of` lst ->
     (forall x, list_count x rest = if decide (x ∈ elements) then 0%nat
                                    else list_count x lst) ->
     put_first lst elements = elements ++ rest).
Proof.
  unfold put_first.
  split; [|split; [|split; [|split; [|split; [|split; [|split; [|split; [|split]]]]]]]].
  - now rewrite take_app_length.
  - rewrite drop_app_length. apply sublist_filter.
  - intros x. rewrite drop_app_length, list_elem_of_filter. tauto.
  - intros x. rewrite elem_of_app, list_elem_of_filter.
    destruct (decide (x ∈ elements)); tauto.
  - f_equal. rewrite filter_app, (filter_none _ elements), app_nil_l.
    + apply filter_all, Forall_forall. intros x Hx.
      now apply list_elem_of_filter in Hx as [Hx _].
    + apply Forall_forall. intros x Hx Hn. contradiction.
  - cbn [app]. apply filter_all, Forall_forall. intros x _ Hx. inversion Hx.
  - now rewrite filter_nil, app_nil_r.
  - intros x. rewrite drop_app_length, list_count_filter.
    destruct (decide (x ∉ elements)), (decide (x ∈ elements)); try reflexivity;
      contradiction.
  - intros x. rewrite list_count_app, list_count_filter.
    destruct (decide (x ∉ elements)), (decide (x ∈ elements)); try reflexivity;
      contradiction.
  - intros rest Hsub Hc. f_equal. symmetry. now apply sublist_counts_filter.
Qed.

(** When the elements are distinct members of a list without repetition,
    [put_first] only reorders the list. *)
Theorem put_first_permutation (lst elements : list A) :
  NoDup lst -> NoDup elements -> elements ⊆ lst ->
  put_first lst elements ≡ₚ lst /\ NoDup (put_first lst elements).
Proof.
  intros Hl He Hsub.
  assert (Hperm : put_first lst elements ≡ₚ lst).
  { unfold put_first.
    rewrite <- (filter_app_complement (fun e => e ∈ elements) lst) at 2.
    apply Permutation_app; [|reflexivity].
    apply NoDup_Permutation; [exact He|now apply NoDup_filter|].
    intros x. rewrite list_elem_of_filter. split; [|tauto]. intros Hx. split; auto. }
  split; [exact Hperm|]. now rewrite Hperm.
Qed.

End PutFirst.

Lemma put_first_permutation_witness :
  Common.put_first [1; 2; 3; 4] [3; 1] = [3; 1; 2; 4] /\
  Common.put_first [1; 2; 3; 4] [3; 1] ≡ₚ [1; 2; 3; 4].
Proof.
  split; [reflexivity|].
  apply (put_first_permutation [1; 2; 3; 4] [3; 1]);
    apply (bool_decide_unpack _); vm_compute; exact I.
Defined.

(** ** Properties of the string operations *)

Section Strings.
Import Common.

Lemma str_app_cons (c : ascii) (a b : string) : String c a +:+ b = String c (a +:+ b).
Proof. reflexivity. Qed.

Lemma str_app_nil_l (s : string) : EmptyString +:+ s = s.
Proof. reflexivity. Qed.

Lemma str_app_nil_r (s : string) : s +:+ EmptyString = s.
Proof. induction s as [|c s IH]; [reflexivity|]. now rewrite str_app_cons, IH. Qed.

Lemma str_app_assoc (a b c : string) : (a +:+ b) +:+ c = a +:+ (b +:+ c).
Proof. induction a as [|x a IH]; [reflexivity|]. now rewrite !str_app_cons, IH. Qed.

Lemma str_length_app (a b : string) :
  String.length (a +:+ b) = (String.length a + String.length b)%nat.
Proof.
  induction a as [|x a IH]; [reflexivity|]. rewrite str_app_cons. cbn [String.length].
  now rewrite IH.
Qed.

Lemma str_all_app (p : ascii -> bool) (a b : string) :
  str_all p (a +:+ b) = str_all p a && str_all p b.
Proof.
  induction a as [|x a IH]; [reflexivity|]. rewrite str_app_cons. cbn [str_all].
  rewrite IH. now rewrite andb_assoc.
Qed.

Lemma str_all_impl (p q : ascii -> bool) (s : string) :
  (forall c, p c = true -> q c = true) -> str_all p s = true -> str_all q s = true.
Proof.
  intros Hpq. induction s as [|c s IH]; [reflexivity|]. cbn.
  intros H. apply andb_true_iff in H as [Hc Hs]. now rewrite (Hpq c Hc), IH.
Qed.

(** A prefix, as the text with something behind it. *)
Lemma startswith_app (s sep : string) :
  startswith s sep = true <-> exists rest, s = sep +:+ rest.
Proof.
  revert s. induction sep as [|a sep IH]; intros s; cbn [startswith].
  - split; [intros _; now exists s|reflexivity].
  - destruct s as [|b s];
      [split; [discriminate|intros [r Hr]; rewrite str_app_cons in Hr; discriminate]|].
    destruct (Ascii.eqb_spec a b) as [->|Hne]; cbn [andb].
    + rewrite IH. split; intros [r Hr]; exists r;
        [now rewrite str_app_cons, Hr|rewrite str_app_cons in Hr; now injection Hr].
    + split; [discriminate|]. intros [r Hr]. rewrite str_app_cons in Hr.
      injection Hr as <- _. contradiction.
Qed.

Lemma str_drop_app (a b : string) : str_drop (String.length a) (a +:+ b) = b.
Proof.
  induction a as [|x a IH]; [now destruct b|]. rewrite str_app_cons. exact IH.
Qed.

Lemma str_drop_0 (s : string) : str_drop 0 s = s.
Proof. reflexivity. Qed.

Lemma concat_cons_nil (s : string) (l : list string) :
  String.concat EmptyString (s :: l) = s +:+ String.concat EmptyString l.
Proof.
  destruct l as [|t l]; [symmetry; apply str_app_nil_r|reflexivity].
Qed.

End Strings.

(** ** Properties of the split at the separators *)

Section Split.
Import Common.

Lemma match_at_Some (separators : list string) (s sep : string) :
  match_at separators s = Some sep -> sep ∈ separators /\ startswith s sep = true.
Proof.
  induction separators as [|x l IH]; cbn [match_at]; [discriminate|].
  destruct (startswith s x) eqn:E.
  - intros [= <-]. split; [left|exact E].
  - intros H. destruct (IH H) as [Hin Hs]. split; [now right|exact Hs].
Qed.

Lemma match_at_None (separators : list string) (s : string) :
  match_at separators s = None -> forall sep, sep ∈ separators -> startswith s sep = false.
Proof.
  induction separators as [|x l IH]; cbn [match_at]; intros H sep Hin; [inversion Hin|].
  destruct (startswith s x) eqn:E; [discriminate|].
  apply elem_of_cons in Hin as [->|Hin]; [exact E|now apply IH].
Qed.

Lemma separators_cases (sep : string) :
  sep ∈ _SEPARATORS ->
  sep = "." \/ sep = "-" \/ sep = "/" \/ sep = "_" \/ sep = " build ".
Proof.
  unfold _SEPARATORS. rewrite !elem_of_cons, elem_of_nil. tauto.
Qed.

Lemma separators_nonempty : Forall (fun sep => sep <> EmptyString) _SEPARATORS.
Proof. repeat constructor; discriminate. Qed.

(** At most one separator matches at a position: the separators start
    with different characters. *)
Lemma separators_exclusive (s sep1 sep2 : string) :
  sep1 ∈ _SEPARATORS -> sep2 ∈ _SEPARATORS ->
  startswith s sep1 = true -> startswith s sep2 = true -> sep1 = sep2.
Proof.
  intros H1 H2. apply separators_cases in H1, H2.
  destruct s as [|c s]; [destruct H1 as [->|[->|[->|[->| ->]]]]; discriminate|].
  destruct H1 as [->|[->|[->|[->| ->]]]], H2 as [->|[->|[->|[->| ->]]]];
    try reflexivity; cbn [startswith];
    destruct (Ascii.eqb_spec "." c), (Ascii.eqb_spec "-" c), (Ascii.eqb_spec "/" c),
      (Ascii.eqb_spec "_" c), (Ascii.eqb_spec " " c);
    subst; cbn [andb]; congruence.
Qed.

(** The order of the alternatives does not matter. *)
Lemma match_at_permutation (separators : list string) (s : string) :
  separators ≡ₚ _SEPARATORS -> match_at separators s = match_at _SEPARATORS s.
Proof.
  intros Hp.
  destruct (match_at separators s) as [sep1|] eqn:E1,
           (match_at _SEPARATORS s) as [sep2|] eqn:E2; try reflexivity.
  - apply match_at_Some in E1 as [H1 S1], E2 as [H2 S2]. rewrite Hp in H1.
    f_equal. now apply (separators_exclusive s).
  - apply match_at_Some in E1 as [H1 S1]. rewrite Hp in H1.
    now rewrite (match_at_None _ _ E2 _ H1) in S1.
  - apply match_at_Some in E2 as [H2 S2]. rewrite <- Hp in H2.
    now rewrite (match_at_None _ _ E1 _ H2) in S2.
Qed.

Lemma re_split_permutation (separators : list string) (s : string) (skip : nat)
    (piece : string) :
  separators ≡ₚ _SEPARATORS ->
  re_split separators skip piece s = re_split _SEPARATORS skip piece s.
Proof.
  intros Hp. revert skip piece. induction s as [|c s IH]; intros skip piece; [reflexivity|].
  cbn [re_split]. destruct skip as [|k]; [|apply IH].
  rewrite (match_at_permutation _ _ Hp).
  destruct (match_at _SEPARATORS (String c s)); now rewrite IH.
Qed.

Lemma startswith_nonempty (s sep : string) :
  sep <> EmptyString -> startswith s sep = true ->
  exists c sep' rest, sep = String c sep' /\ s = String c (sep' +:+ rest).
Proof.
  intros Hne H. apply startswith_app in H as [rest ->].
  destruct sep as [|c sep']; [contradiction|]. now exists c, sep', rest.
Qed.

(** Joined, the pieces and separators are the text. *)
Lemma re_split_concat (separators : list string) (s : string) (skip : nat)
    (piece : string) :
  Forall (fun sep => sep <> EmptyString) separators ->
  (skip <= String.length s)%nat ->
  String.concat EmptyString (re_split separators skip piece s) = piece +:+ str_drop skip s.
Proof.
  intros Hne. revert skip piece. induction s as [|c s IH]; intros skip piece Hk.
  - cbn [re_split String.concat]. destruct skip; cbn [str_drop]; now rewrite str_app_nil_r.
  - cbn [re_split]. destruct skip as [|k].
    + destruct (match_at separators (String c s)) as [sep|] eqn:E.
      * apply match_at_Some in E as [Hin Hs].
        destruct (startswith_nonempty _ _ (proj1 (Forall_forall _ _) Hne _ Hin) Hs)
          as (c' & sep' & rest & -> & Heq).
        injection Heq as <- ->.
        rewrite !concat_cons_nil, IH.
        2:{ cbn [String.length]. rewrite str_length_app. lia. }
        replace (String.length (String c sep') - 1)%nat with (String.length sep')
          by (cbn [String.length]; lia).
        rewrite str_drop_app.
        cbn [str_drop]. now rewrite str_app_nil_l, str_app_cons.
      * rewrite IH by lia. cbn [str_drop]. now rewrite str_app_assoc.
    + rewrite IH by (cbn [String.length] in Hk; lia). reflexivity.
Qed.

Lemma str_drop_beyond (i : nat) (s : string) :
  (String.length s <= i)%nat -> str_drop i s = EmptyString.
Proof.
  revert i. induction s as [|c s IH]; intros i Hi; [now destruct i|].
  destruct i as [|i]; [cbn in Hi; lia|]. cbn [str_drop]. apply IH. cbn in Hi. lia.
Qed.

Lemma str_drop_app_lt (i : nat) (a b : string) :
  (i <= String.length a)%nat -> str_drop i (a +:+ b) = str_drop i a +:+ b.
Proof.
  revert i. induction a as [|c a IH]; intros i Hi.
  - destruct i; [reflexivity|cbn in Hi; lia].
  - destruct i as [|i]; [reflexivity|]. rewrite str_app_cons. cbn [str_drop].
    apply IH. cbn in Hi. lia.
Qed.

Lemma startswith_app_l (a b sep : string) :
  startswith a sep = true -> startswith (a +:+ b) sep = true.
Proof.
  intros H. apply startswith_app in H as [r ->]. apply startswith_app.
  exists (r +:+ b). apply str_app_assoc.
Qed.

Lemma startswith_empty (sep : string) :
  sep <> EmptyString -> startswith EmptyString sep = false.
Proof. destruct sep; [contradiction|reflexivity]. Qed.

(** A piece in whose text, followed by what is still to be scanned, no
    separator starts is clean when the scan ends or a separator is found. *)
Lemma clean_piece (separators : list string) (piece s : string) :
  Forall (fun sep => sep <> EmptyString) separators ->
  (forall i sep, (i < String.length piece)%nat -> sep ∈ separators ->
     startswith (str_drop i (piece +:+ s)) sep = false) ->
  clean separators piece.
Proof.
  intros Hne Hinv i sep Hin.
  destruct (Nat.lt_ge_cases i (String.length piece)) as [Hlt|Hge].
  - specialize (Hinv i sep Hlt Hin). rewrite str_drop_app_lt in Hinv by lia.
    destruct (startswith (str_drop i piece) sep) eqn:E; [|reflexivity].
    now rewrite (startswith_app_l _ s _ E) in Hinv.
  - rewrite str_drop_beyond by exact Hge. apply startswith_empty.
    exact (proj1 (Forall_forall _ _) Hne _ Hin).
Qed.

Lemma re_split_interleaved (separators : list string) (s : string) (skip : nat)
    (piece : string) :
  Forall (fun sep => sep <> EmptyString) separators ->
  (skip = 0%nat \/ piece = EmptyString) ->
  (forall i sep, (i < String.length piece)%nat -> sep ∈ separators ->
     startswith (str_drop i (piece +:+ s)) sep = false) ->
  interleaved separators (re_split separators skip piece s).
Proof.
  intros Hne. revert skip piece. induction s as [|c s IH]; intros skip piece Hk Hinv.
  - cbn [re_split]. apply interleaved_last. now apply (clean_piece _ _ EmptyString).
  - cbn [re_split]. destruct skip as [|k].
    + destruct (match_at separators (String c s)) as [sep|] eqn:E.
      * apply interleaved_more.
        -- now apply (clean_piece _ _ (String c s)).
        -- now apply match_at_Some in E as [Hin _].
        -- apply IH; [now right|]. intros i sep' Hi. cbn in Hi. lia.
      * apply IH; [now left|]. intros i sep Hi Hin.
        rewrite str_length_app in Hi. cbn [String.length] in Hi.
        rewrite str_app_assoc, str_app_cons, str_app_nil_l.
        destruct (Nat.eq_dec i (String.length piece)) as [->|Hne'].
        -- rewrite str_drop_app. now apply (match_at_None _ _ E).
        -- apply Hinv; [lia|exact Hin].
    + destruct Hk as [Hk| ->]; [discriminate|].
      apply IH; [now right|]. intros i sep' Hi. cbn in Hi. lia.
Qed.

Lemma interleaved_shape (separators : list string) (pieces : list string) :
  interleaved separators pieces ->
  (exists k, length pieces = (2 * k + 1)%nat) /\
  (forall i sep, pieces !! (2 * i + 1)%nat = Some sep -> sep ∈ separators) /\
  (forall i piece, pieces !! (2 * i)%nat = Some piece -> clean separators piece).
Proof.
  induction 1 as [piece Hc|piece sep pieces Hc Hin _ (( k & Hk) & Hodd & Heven)].
  - split; [now exists 0%nat|]. split.
    + intros i sep H. replace (2 * i + 1)%nat with (S (2 * i)) in H by lia. discriminate.
    + intros [|i] p H; [now injection H as <-|].
      replace (2 * S i)%nat with (S (S (2 * i))) in H by lia. discriminate.
  - split; [exists (S k); cbn [length]; lia|]. split.
    + intros [|i] x H; [now injection H as <-|].
      replace (2 * S i + 1)%nat with (S (S (2 * i + 1))) in H by lia.
      now apply (Hodd i).
    + intros [|i] p H; [now injection H as <-|].
      replace (2 * S i)%nat with (S (S (2 * i))) in H by lia.
      now apply (Heven i).
Qed.

(** The split of a version string: joined, the pieces are the string;
    their number is odd; every second one is a separator; and in the others
    no separator starts anywhere. *)
Lemma separators_split (version : string) :
  String.concat EmptyString (_SEPARATORS_REGEX_split version) = version /\
  interleaved _SEPARATORS (_SEPARATORS_REGEX_split version).
Proof.
  unfold _SEPARATORS_REGEX_split. split.
  - rewrite re_split_concat; [reflexivity|apply separators_nonempty|lia].
  - apply re_split_interleaved; [apply separators_nonempty|now left|].
    intros i sep Hi. cbn in Hi. lia.
Qed.

End Split.

(** ** Properties of [int] and of [Version.__init__] *)

Section VersionInit.
Import Common.

(** A digit is no white space, no sign and no underscore, no separator
    starts with one, and below U+0080 the digits are the decimal digits. *)
Lemma char_isdigit_facts (c : ascii) :
  char_isdigit c = true ->
  char_int_space c = false /\ (c <> "+")%char /\ (c <> "-")%char /\ (c <> "_")%char /\
  (c <> ".")%char /\ (c <> "/")%char /\ (c <> " ")%char /\
  ((ord c <? 128) = true -> char_isdecimal c = true).
Proof.
  destruct c as [[] [] [] [] [] [] [] []]; intros H; try discriminate H;
    repeat split; try discriminate; reflexivity.
Qed.

Lemma char_isdecimal_isdigit (c : ascii) : char_isdecimal c = true -> char_isdigit c = true.
Proof. unfold char_isdigit. now intros ->. Qed.

Lemma int_sign_digit (c : ascii) (s : string) :
  (c <> "+")%char -> (c <> "-")%char -> int_sign (String c s) = (false, String c s).
Proof.
  destruct c as [[] [] [] [] [] [] [] []]; intros H1 H2; try reflexivity; contradiction.
Qed.

Lemma decimal_value_from_nonneg (s : string) (value : Z) :
  str_all char_isdecimal s = true -> 0 <= value -> 0 <= decimal_value_from value s.
Proof.
  revert value. induction s as [|c s IH]; intros value Hs Hv; [exact Hv|].
  cbn [str_all] in Hs. apply andb_true_iff in Hs as [Hc Hs]. cbn [decimal_value_from].
  apply IH; [exact Hs|]. unfold char_isdecimal in Hc.
  apply andb_true_iff in Hc as [H1 H2]. apply Z.leb_le in H1, H2. unfold ord in *. lia.
Qed.

(** The digits of a literal that is all decimal digits. *)
Lemma int_digits_decimal (s : string) (after_digit : bool) (value ndigits : Z) :
  str_all char_isdecimal s = true -> s <> EmptyString \/ after_digit = true ->
  int_digits after_digit value ndigits s
  = Some (decimal_value_from value s, ndigits + Z.of_nat (String.length s), EmptyString).
Proof.
  revert after_digit value ndigits.
  induction s as [|c s IH]; intros after_digit value ndigits Hs Hne.
  - destruct Hne as [Hne| ->]; [contradiction|]. cbn. now rewrite Z.add_0_r.
  - cbn [str_all] in Hs. apply andb_true_iff in Hs as [Hc Hs].
    cbn [int_digits decimal_value_from]. rewrite Hc, IH by auto.
    cbn [String.length].
    now replace (ndigits + 1 + Z.of_nat (String.length s))
      with (ndigits + Z.of_nat (S (String.length s))) by lia.
Qed.

(** In a string of digits that are not all decimal, the literal ends in
    front of a superscript, or has no digit at all. *)
Lemma int_digits_superscript (s : string) (after_digit : bool) (value ndigits : Z) :
  str_all char_isdigit s = true -> str_all char_isdecimal s = false ->
  match int_digits after_digit value ndigits s with
  | None => True
  | Some (_, _, rest) => skip_int_space rest <> EmptyString
  end.
Proof.
  revert after_digit value ndigits.
  induction s as [|c s IH]; intros after_digit value ndigits Hd Hn; [discriminate|].
  cbn [str_all] in Hd, Hn. apply andb_true_iff in Hd as [Hc Hd].
  cbn [int_digits]. destruct (char_isdecimal c) eqn:Edec.
  - now apply IH.
  - destruct (char_isdigit_facts c Hc) as (Hsp & _ & _ & Hu & _).
    destruct (Ascii.eqb_spec c "_") as [->|_]; [contradiction|].
    destruct after_digit; [|exact I]. cbn [skip_int_space]. rewrite Hsp. discriminate.
Qed.

Lemma int_base10_raises (s : string) (e : exn) :
  int_base10 s = Raise e -> exists msg, e = ValueError msg.
Proof.
  unfold int_base10. destruct (int_sign (skip_int_space s)) as [negative digits].
  destruct (int_digits false 0 0 digits) as [[[value ndigits] rest]|];
    [|intros [= <-]; eauto].
  destruct (ndigits >? max_str_digits); [intros [= <-]; eauto|].
  destruct (skip_int_space rest); [discriminate|intros [= <-]; eauto].
Qed.

(** [int] on a string for which [isdigit] holds. *)
Lemma int_base10_isdigit (s : string) :
  isdigit s = true ->
  (str_all char_isdecimal s = true -> Z.of_nat (String.length s) <= max_str_digits ->
   int_base10 s = Ok (decimal_value s)) /\
  (str_all char_isdecimal s = false \/ max_str_digits < Z.of_nat (String.length s) ->
   exists msg, int_base10 s = Raise (ValueError msg)).
Proof.
  intros Hd. destruct s as [|c s]; [discriminate|]. cbn [isdigit] in Hd.
  assert (Hd' := Hd). cbn [str_all] in Hd'. apply andb_true_iff in Hd' as [Hc _].
  destruct (char_isdigit_facts c Hc) as (Hsp & Hplus & Hminus & _).
  assert (Hskip : skip_int_space (String c s) = String c s)
    by (cbn [skip_int_space]; now rewrite Hsp).
  unfold int_base10. rewrite Hskip, (int_sign_digit c s Hplus Hminus).
  split.
  - intros Hdec Hlen.
    rewrite (int_digits_decimal _ false 0 0 Hdec) by (left; discriminate).
    destruct (Z.gtb_spec (0 + Z.of_nat (String.length (String c s))) max_str_digits);
      [lia|reflexivity].
  - intros [Hnd|Hlong].
    + pose proof (int_digits_superscript _ false 0 0 Hd Hnd) as H.
      destruct (int_digits false 0 0 (String c s)) as [[[value ndigits] rest]|]; [|eauto].
      destruct (ndigits >? max_str_digits); [eauto|].
      destruct (skip_int_space rest); [contradiction|eauto].
    + destruct (str_all char_isdecimal (String c s)) eqn:Hdec.
      * rewrite (int_digits_decimal _ false 0 0 Hdec) by (left; discriminate).
        destruct (Z.gtb_spec (0 + Z.of_nat (String.length (String c s))) max_str_digits);
          [eauto|lia].
      * pose proof (int_digits_superscript _ false 0 0 Hd Hdec) as H.
        destruct (int_digits false 0 0 (String c s)) as [[[value ndigits] rest]|]; [|eauto].
        destruct (ndigits >? max_str_digits); [eauto|].
        destruct (skip_int_space rest); [contradiction|eauto].
Qed.

(** What the body of the loop makes of a piece. *)
Lemma Version_component_cases (piece : string) (c : VersionComponent) :
  Version_component piece = Ok c ->
  (isdigit piece = true /\ str_all char_isdecimal piece = true /\
   c = num (decimal_value piece) /\ 0 <= decimal_value piece) \/
  (isdigit piece = false /\ c = {| comparable := false; data := Str piece |}).
Proof.
  unfold Version_component. destruct (isdigit piece) eqn:Hd.
  - destruct (int_base10_isdigit piece Hd) as [Hok Hbad]. intros H. left.
    destruct (str_all char_isdecimal piece) eqn:Hdec.
    + destruct (Z_le_gt_dec (Z.of_nat (String.length piece)) max_str_digits) as [Hlen|Hlen].
      * rewrite (Hok eq_refl Hlen) in H. injection H as <-.
        repeat split. now apply decimal_value_from_nonneg.
      * destruct Hbad as [msg Hmsg]; [right; lia|]. rewrite Hmsg in H. discriminate.
    + destruct Hbad as [msg Hmsg]; [now left|]. rewrite Hmsg in H. discriminate.
  - intros [= <-]. now right.
Qed.

Lemma Version_component_built (piece : string) (c : VersionComponent) :
  Version_component piece = Ok c -> built c.
Proof.
  intros H. destruct (Version_component_cases _ _ H) as [(_ & _ & -> & Hn)|[Hd ->]].
  - now split.
  - now split.
Qed.

Lemma Version_init_loop_Ok (pieces : list string) (cs : list VersionComponent) :
  Version_init_loop pieces = Ok cs <->
  Forall2 (fun piece c => Version_component piece = Ok c) pieces cs.
Proof.
  revert cs. induction pieces as [|p pieces IH]; intros cs; cbn [Version_init_loop].
  - split; [intros [= <-]; constructor|intros H; now inversion H].
  - destruct (Version_component p) as [c|e] eqn:Ec; cbn [rbind].
    + destruct (Version_init_loop pieces) as [cs'|e] eqn:El; cbn [rbind].
      * split.
        -- intros [= <-]. constructor; [exact Ec|now apply IH].
        -- intros H. inversion H as [|p' c' ps' cs'' Hc Hcs]; subst.
           rewrite Ec in Hc. injection Hc as ->. apply IH in Hcs. now injection Hcs as ->.
      * split; [discriminate|]. intros H. inversion H as [|p' c' ps' cs'' Hc Hcs]; subst.
        apply IH in Hcs. discriminate.
    + split; [discriminate|]. intros H. inversion H as [|p' c' ps' cs'' Hc Hcs]; subst.
      rewrite Ec in Hc. discriminate.
Qed.

Lemma Version_init_Ok (version : string) (v : Version) :
  Version_init version = Ok v <->
  Forall2 (fun piece c => Version_component piece = Ok c)
          (_SEPARATORS_REGEX_split version) (components v).
Proof.
  unfold Version_init. rewrite <- Version_init_loop_Ok.
  destruct (Version_init_loop (_SEPARATORS_REGEX_split version)) as [cs|e]; cbn [rbind].
  - destruct v as [cs']. cbn [components]. split; intros [= ->]; reflexivity.
  - split; discriminate.
Qed.

Lemma separator_component (sep : string) :
  sep ∈ _SEPARATORS ->
  Version_component sep = Ok {| comparable := false; data := Str sep |}.
Proof.
  intros H. apply separators_cases in H as [->|[->|[->|[->| ->]]]]; reflexivity.
Qed.

Lemma Forall2_lookup_both {A B : Type} (R : A -> B -> Prop) (l : list A) (k : list B)
    (i : nat) (y : B) :
  Forall2 R l k -> k !! i = Some y -> exists x, l !! i = Some x /\ R x y.
Proof.
  intros H. revert i. induction H as [|a b l k Hab _ IH]; intros i Hi; [discriminate|].
  destruct i as [|i]; [injection Hi as <-; now exists a|]. now apply IH.
Qed.

Lemma Version_init_built (version : string) (v : Version) :
  Version_init version = Ok v -> Forall built (components v).
Proof.
  intros Hinit. apply Version_init_Ok in Hinit.
  apply Forall_forall. intros c Hc. apply list_elem_of_lookup in Hc as [i Hi].
  destruct (Forall2_lookup_both _ _ _ _ _ Hinit Hi) as (p & _ & Hp).
  now apply (Version_component_built p).
Qed.

(** A version that was constructed.  Its components are what the loop
    makes of the pieces of the version string, which joined give back the
    string.  Their number is odd.  Every second one is a separator, kept
    as a text that is not comparable.  The others are a number that is not
    negative, which is comparable, or a text that is not a number and in
    which no separator starts, which is not. *)
Theorem Version_init_components (version : string) (v : Version) :
  Version_init version = Ok v ->
  Forall built (components v) /\
  (exists k, length (components v) = (2 * k + 1)%nat) /\
  (forall i c, components v !! (2 * i + 1)%nat = Some c ->
     exists sep, sep ∈ _SEPARATORS /\ c = {| comparable := false; data := Str sep |}) /\
  (forall i c, components v !! (2 * i)%nat = Some c ->
     (exists n, c = num n /\ 0 <= n) \/
     (exists text, c = {| comparable := false; data := Str text |} /\
                   isdigit text = false /\ clean _SEPARATORS text)) /\
  exists pieces,
    String.concat EmptyString pieces = version /\
    Forall2 (fun piece c => Version_component piece = Ok c) pieces (components v).
Proof.
  intros Hinit. pose proof (Version_init_built _ _ Hinit) as Hbuilt.
  apply Version_init_Ok in Hinit.
  destruct (separators_split version) as [Hjoin Hinter].
  destruct (interleaved_shape _ _ Hinter) as ((k & Hk) & Hodd & Heven).
  split; [|split; [|split; [|split]]].
  - exact Hbuilt.
  - exists k. now rewrite <- (Forall2_length _ _ _ Hinit).
  - intros i c Hi. destruct (Forall2_lookup_both _ _ _ _ _ Hinit Hi) as (p & Hp & Hc).
    pose proof (Hodd i p Hp) as Hsep. exists p. split; [exact Hsep|].
    rewrite (separator_component p Hsep) in Hc. now injection Hc as <-.
  - intros i c Hi. destruct (Forall2_lookup_both _ _ _ _ _ Hinit Hi) as (p & Hp & Hc).
    destruct (Version_component_cases _ _ Hc) as [(_ & _ & -> & Hn)|[Hd ->]].
    + left. now exists (decimal_value p).
    + right. exists p. split; [reflexivity|]. split; [exact Hd|]. now apply (Heven i).
  - now exists (_SEPARATORS_REGEX_split version).
Qed.

Lemma Version_init_components_witness :
  exists v,
    Version_init "7.2.2.0 build 190" = Ok v /\
    length (components v) = 9%nat /\ Forall built (components v).
Proof.
  destruct (Version_init "7.2.2.0 build 190") as [v|e] eqn:E;
    [|vm_compute in E; discriminate].
  exists v. split; [reflexivity|].
  split; [vm_compute in E; now injection E as <-|].
  exact (proj1 (Version_init_components _ v E)).
Defined.

Lemma concat_member (q : ascii -> bool) (pieces : list string) (piece : string) :
  piece ∈ pieces ->
  (str_all q (String.concat EmptyString pieces) = true -> str_all q piece = true) /\
  (String.length piece <= String.length (String.concat EmptyString pieces))%nat.
Proof.
  induction pieces as [|p pieces IH]; intros Hin; [inversion Hin|].
  rewrite concat_cons_nil, str_all_app, str_length_app.
  apply elem_of_cons in Hin as [->|Hin].
  - split; [intros H; now apply andb_true_iff in H as [H _]|lia].
  - destruct (IH Hin) as [Ha Hl]. split; [|lia].
    intros H. apply andb_true_iff in H as [_ H]. now apply Ha.
Qed.

(** A version string of at most 4300 characters, all below U+0080, always
    constructs. *)
Theorem Version_init_ascii (version : string) :
  str_all (fun c => ord c <? 128) version = true ->
  Z.of_nat (String.length version) <= 4300 ->
  exists v, Version_init version = Ok v.
Proof.
  intros Hascii Hlen. destruct (separators_split version) as [Hjoin _].
  assert (Hall : forall pieces,
            (forall p, p ∈ pieces -> str_all (fun c => ord c <? 128) p = true /\
                                     Z.of_nat (String.length p) <= 4300) ->
            exists cs, Forall2 (fun piece c => Version_component piece = Ok c) pieces cs).
  { induction pieces as [|p pieces IH]; intros Hp; [exists []; constructor|].
    destruct IH as [cs Hcs]; [intros q Hq; apply Hp; now right|].
    destruct (Hp p ltac:(left)) as [Ha Hl].
    assert (Hc : exists c, Version_component p = Ok c).
    { unfold Version_component. destruct (isdigit p) eqn:Hd; [|eauto].
      destruct (int_base10_isdigit p Hd) as [Hok _]. rewrite Hok; [eauto| |exact Hl].
      destruct p as [|c0 p0]; [discriminate|]. cbn [isdigit] in Hd. clear - Hd Ha.
      revert Hd Ha. generalize (String c0 p0). intros s.
      induction s as [|c s IHs]; [reflexivity|]. cbn [str_all]. intros Hd Ha.
      apply andb_true_iff in Hd as [Hc Hd], Ha as [Hac Ha].
      destruct (char_isdigit_facts c Hc) as (_ & _ & _ & _ & _ & _ & _ & Hdec).
      now rewrite (Hdec Hac), IHs. }
    destruct Hc as [c Hc]. exists (c :: cs). now constructor. }
  destruct (Hall (_SEPARATORS_REGEX_split version)) as [cs Hcs].
  { intros p Hp. destruct (concat_member (fun c => ord c <? 128) _ _ Hp) as [Ha Hl].
    rewrite Hjoin in Ha, Hl. split; [now apply Ha|lia]. }
  exists {| components := cs |}. now apply Version_init_Ok.
Qed.

Lemma Version_init_ascii_witness :
  exists v, Version_init "SL-OPENTHREAD/2.2.2.0_GitHub-91fa1f455" = Ok v.
Proof.
  apply Version_init_ascii; [reflexivity|].
  vm_compute. discriminate.
Defined.

(** A string that is scanned without a match is one piece. *)
Lemma re_split_no_match (separators : list string) (s piece : string) :
  (forall i, match_at separators (str_drop i s) = None) ->
  re_split separators 0 piece s = [piece +:+ s].
Proof.
  revert piece. induction s as [|c s IH]; intros piece Hn.
  - cbn. now rewrite str_app_nil_r.
  - cbn [re_split]. rewrite (Hn 0%nat : match_at separators (String c s) = None).
    rewrite IH; [now rewrite str_app_assoc|]. intros i. exact (Hn (S i)).
Qed.

Lemma digits_no_separator (s : string) (i : nat) :
  str_all char_isdigit s = true -> match_at _SEPARATORS (str_drop i s) = None.
Proof.
  revert i. induction s as [|c s IH]; intros i Hd; [now destruct i|].
  cbn [str_all] in Hd. apply andb_true_iff in Hd as [Hc Hd].
  destruct i as [|i]; [|now apply IH].
  destruct (char_isdigit_facts c Hc) as (_ & _ & Hm & Hu & Hp & Hs & Hsp & _).
  cbn [str_drop match_at _SEPARATORS startswith].
  destruct (Ascii.eqb_spec "." c) as [<-|_]; [contradiction|].
  destruct (Ascii.eqb_spec "-" c) as [<-|_]; [contradiction|].
  destruct (Ascii.eqb_spec "/" c) as [<-|_]; [contradiction|].
  destruct (Ascii.eqb_spec "_" c) as [<-|_]; [contradiction|].
  destruct (Ascii.eqb_spec " " c) as [<-|_]; [contradiction|]. reflexivity.
Qed.

(** A version string on which [isdigit] holds is one piece, handed to
    [int].  When its digits are decimal digits, at most 4300 of them, the
    version has the one comparable component of their value.  Otherwise,
    that is with one of the superscripts U+00B2, U+00B3 and U+00B9, for
    which [isdigit] holds too, or with more digits than [int] converts, the
    constructor raises the [ValueError] of [int]. *)
Theorem Version_init_digits (version : string) :
  isdigit version = true ->
  _SEPARATORS_REGEX_split version = [version] /\
  (str_all char_isdecimal version = true -> Z.of_nat (String.length version) <= 4300 ->
   Version_init version = Ok {| components := [num (decimal_value version)] |}) /\
  (str_all char_isdecimal version = false \/ 4300 < Z.of_nat (String.length version) ->
   exists msg, Version_init version = Raise (ValueError msg)).
Proof.
  intros Hd.
  assert (Hall : str_all char_isdigit version = true) by (now destruct version).
  assert (Hsplit : _SEPARATORS_REGEX_split version = [version]).
  { unfold _SEPARATORS_REGEX_split. rewrite re_split_no_match; [reflexivity|].
    intros i. now apply digits_no_separator. }
  destruct (int_base10_isdigit version Hd) as [Hok Hbad].
  split; [exact Hsplit|]. unfold Version_init. rewrite Hsplit.
  cbn [Version_init_loop]. unfold Version_component. rewrite Hd. split.
  - intros Hdec Hlen. now rewrite (Hok Hdec Hlen).
  - intros H. destruct (Hbad H) as [msg ->]. now exists msg.
Qed.

(** The superscript two: [isdigit] holds, [int] refuses it. *)
Lemma Version_init_digits_witness :
  isdigit (String "178" EmptyString) = true /\
  exists msg, Version_init (String "178" EmptyString) = Raise (ValueError msg).
Proof.
  split; [reflexivity|].
  apply (proj2 (proj2 (Version_init_digits (String "178" EmptyString) eq_refl))).
  now left.
Defined.

(** The set of separators can be iterated in any order: the expression
    built from any arrangement of them splits every string in the same
    way, because no two separators start with the same character. *)
Theorem separators_order_irrelevant (separators : list string) (version : string) :
  separators ≡ₚ _SEPARATORS ->
  re_split separators 0 EmptyString version = _SEPARATORS_REGEX_split version.
Proof. intros Hp. now apply re_split_permutation. Qed.

Lemma separators_order_irrelevant_witness :
  re_split ["-"; "_"; "/"; "."; " build "] 0 EmptyString "4.4.0-2546d625-dirty-676fdb09"
  = _SEPARATORS_REGEX_split "4.4.0-2546d625-dirty-676fdb09".
Proof.
  apply separators_order_irrelevant. unfold _SEPARATORS.
  apply NoDup_Permutation.
  - apply (bool_decide_unpack _). vm_compute. exact I.
  - apply (bool_decide_unpack _). vm_compute. exact I.
  - intros x. rewrite !elem_of_cons, !elem_of_nil. tauto.
Defined.

End VersionInit.

(** ** Properties of the comparisons of versions *)

Section VersionOrder.
Import Common.

Lemma built_comparable (cs : list VersionComponent) :
  Forall built cs ->
  exists ns, filter (fun c => comparable c = true) cs = map num ns /\
             Forall (fun n => 0 <= n) ns.
Proof.
  induction 1 as [|c cs Hc _ (ns & Hns & Hpos)]; [exists []; now split|].
  destruct c as [cmp [s|n]]; unfold built in Hc; cbn [data comparable] in Hc;
    destruct Hc as [-> Hc].
  - exists ns. rewrite filter_cons_False by (cbn; discriminate). now split.
  - exists (n :: ns). rewrite filter_cons_True by reflexivity. cbn [map].
    rewrite Hns. split; [reflexivity|now constructor].
Qed.

Lemma num_inj (x y : Z) : num x = num y -> x = y.
Proof. now intros [= ->]. Qed.

(** On numbers, the comparison of tuples is the lexicographic order. *)
Lemma tuple_lt_numbers (xs ys : list Z) :
  tuple_lt (map num xs) (map num ys) = Some (lex_ltb xs ys).
Proof.
  revert ys. induction xs as [|x xs IH]; intros [|y ys]; try reflexivity.
  cbn [map tuple_lt lex_ltb]. destruct (decide (num x = num y)) as [E|N].
  - apply num_inj in E. subst y. now rewrite Z.eqb_refl, IH.
  - destruct (Z.eqb_spec x y) as [->|Hne]; [contradiction|].
    unfold VersionComponent_lt. cbn [num comparable data Bool.eqb negb].
    destruct (decide (Int x = Int y)) as [[= E]|_]; [contradiction|reflexivity].
Qed.

Lemma lex_ltb_irrefl (xs : list Z) : lex_ltb xs xs = false.
Proof. induction xs as [|x xs IH]; [reflexivity|]. cbn. now rewrite Z.eqb_refl. Qed.

Lemma lex_ltb_asym (xs ys : list Z) : lex_ltb xs ys = true -> lex_ltb ys xs = false.
Proof.
  revert ys. induction xs as [|x xs IH]; intros [|y ys]; cbn [lex_ltb]; try easy.
  destruct (Z.eqb_spec x y) as [->|Hne].
  - rewrite Z.eqb_refl. apply IH.
  - destruct (Z.eqb_spec y x) as [->|_]; [contradiction|].
    intros H. apply Z.ltb_lt in H. apply Z.ltb_ge. lia.
Qed.

Lemma lex_ltb_trans (xs ys zs : list Z) :
  lex_ltb xs ys = true -> lex_ltb ys zs = true -> lex_ltb xs zs = true.
Proof.
  revert ys zs. induction xs as [|x xs IH]; intros [|y ys] [|z zs]; cbn [lex_ltb];
    try easy.
  destruct (Z.eqb_spec x y) as [->|Hxy], (Z.eqb_spec y z) as [->|Hyz].
  - apply IH.
  - auto.
  - destruct (Z.eqb_spec x z); [contradiction|]. auto.
  - intros H1 H2. apply Z.ltb_lt in H1, H2.
    destruct (Z.eqb_spec x z); [lia|]. apply Z.ltb_lt. lia.
Qed.

Lemma lex_ltb_total (xs ys : list Z) :
  lex_ltb xs ys = false -> lex_ltb ys xs = false -> xs = ys.
Proof.
  revert ys. induction xs as [|x xs IH]; intros [|y ys]; cbn [lex_ltb]; try easy.
  destruct (Z.eqb_spec x y) as [->|Hxy].
  - rewrite Z.eqb_refl. intros H1 H2. f_equal. now apply IH.
  - destruct (Z.eqb_spec y x) as [->|_]; [contradiction|].
    intros H1 H2. apply Z.ltb_ge in H1, H2. lia.
Qed.

(** On versions that were constructed, [<] never fails for mixed types
    and is the lexicographic order of the numbers in them, texts and
    separators left out: a strict order, total up to the equality of the
    comparable components. *)
Theorem Version_lt_strict_order (a b c : Version) :
  Forall built (components a) -> Forall built (components b) ->
  Forall built (components c) ->
  (exists xs ys,
     comparable_components a = map num xs /\
     comparable_components b = map num ys /\
     Version_lt a b = Some (lex_ltb xs ys)) /\
  Version_lt a a = Some false /\
  (Version_lt a b = Some true -> Version_lt b a = Some false) /\
  (Version_lt a b = Some true -> Version_lt b c = Some true ->
   Version_lt a c = Some true) /\
  (Version_lt a b = Some false -> Version_lt b a = Some false ->
   comparable_components a = comparable_components b).
Proof.
  intros Ha Hb Hc.
  destruct (built_comparable _ Ha) as (xs & Hxs & _).
  destruct (built_comparable _ Hb) as (ys & Hys & _).
  destruct (built_comparable _ Hc) as (zs & Hzs & _).
  unfold Version_lt, comparable_components. rewrite Hxs, Hys, Hzs, !tuple_lt_numbers.
  split; [now exists xs, ys|]. split; [now rewrite lex_ltb_irrefl|].
  split; [intros [= H]; now rewrite (lex_ltb_asym _ _ H)|].
  split; [intros [= H1] [= H2]; now rewrite (lex_ltb_trans _ _ _ H1 H2)|].
  intros [= H1] [= H2]. now rewrite (lex_ltb_total _ _ H1 H2).
Qed.

Lemma Version_lt_strict_order_witness :
  exists a b,
    Version_init "2.00.01" = Ok a /\ Version_init "7.2.2.0 build 190" = Ok b /\
    Version_lt a b = Some true /\ Version_lt b a = Some false.
Proof.
  destruct (Version_init "2.00.01") as [a|] eqn:Ea; [|vm_compute in Ea; discriminate].
  destruct (Version_init "7.2.2.0 build 190") as [b|] eqn:Eb;
    [|vm_compute in Eb; discriminate].
  exists a, b. split; [reflexivity|]. split; [reflexivity|].
  assert (Hlt : Version_lt a b = Some true).
  { vm_compute in Ea, Eb. injection Ea as <-. injection Eb as <-. reflexivity. }
  split; [exact Hlt|].
  exact (proj1 (proj2 (proj2 (Version_lt_strict_order a b a
           (Version_init_built _ _ Ea) (Version_init_built _ _ Eb)
           (Version_init_built _ _ Ea)))) Hlt).
Defined.

(** Equality looks at all components, the order only at the comparable
    ones, and the comparisons that [functools.total_ordering] derives mix
    the two.  For two constructed versions with the same numbers and
    different texts, such as 1.0 and 1-0: neither is smaller or equal, each
    is greater than the other, and [a >= b] holds while [b <= a] does not. *)
Theorem Version_total_ordering_inconsistent (a b : Version) :
  Forall built (components a) -> Forall built (components b) ->
  comparable_components a = comparable_components b ->
  components a <> components b ->
  Version_eq a b = false /\
  Version_lt a b = Some false /\ Version_lt b a = Some false /\
  Version_gt a b = Some true /\ Version_gt b a = Some true /\
  Version_le a b = Some false /\ Version_le b a = Some false /\
  Version_ge a b = Some true /\ Version_ge b a = Some true.
Proof.
  intros Ha Hb Hcc Hne.
  destruct (built_comparable _ Ha) as (xs & Hxs & _).
  assert (Hlt : Version_lt a b = Some false).
  { unfold Version_lt. rewrite <- Hcc. unfold comparable_components.
    now rewrite Hxs, tuple_lt_numbers, lex_ltb_irrefl. }
  assert (Hlt' : Version_lt b a = Some false).
  { unfold Version_lt. rewrite <- Hcc. unfold comparable_components.
    now rewrite Hxs, tuple_lt_numbers, lex_ltb_irrefl. }
  assert (Heq : Version_eq a b = false).
  { unfold Version_eq. now apply bool_decide_eq_false. }
  assert (Heq' : Version_eq b a = false).
  { unfold Version_eq. apply bool_decide_eq_false. congruence. }
  unfold Version_gt, Version_le, Version_ge, Version_ne.
  rewrite Hlt, Hlt', Heq, Heq'. repeat split.
Qed.

Lemma Version_total_ordering_inconsistent_witness :
  exists a b,
    Version_init "1.0" = Ok a /\ Version_init "1-0" = Ok b /\
    Version_gt a b = Some true /\ Version_gt b a = Some true /\
    Version_ge a b = Some true /\ Version_le b a = Some false.
Proof.
  destruct (Version_init "1.0") as [a|] eqn:Ea; [|vm_compute in Ea; discriminate].
  destruct (Version_init "1-0") as [b|] eqn:Eb; [|vm_compute in Eb; discriminate].
  exists a, b. split; [reflexivity|]. split; [reflexivity|].
  assert (Hcc : comparable_components a = comparable_components b).
  { vm_compute in Ea, Eb. injection Ea as <-. injection Eb as <-. reflexivity. }
  assert (Hne : components a <> components b).
  { vm_compute in Ea, Eb. injection Ea as <-. injection Eb as <-. discriminate. }
  destruct (Version_total_ordering_inconsistent a b
              (Version_init_built _ _ Ea) (Version_init_built _ _ Eb) Hcc Hne)
    as (_ & _ & _ & H1 & H2 & _ & H3 & H4 & _).
  repeat split; assumption.
Defined.

Lemma take_min_prefix {A : Type} (l k : list A) :
  take (Nat.min (length l) (length k)) l = take (Nat.min (length l) (length k)) k <->
  l `prefix_of` k \/ k `prefix_of` l.
Proof.
  split.
  - intros H. destruct (Nat.le_ge_cases (length l) (length k)) as [Hle|Hle].
    + left. rewrite Nat.min_l in H by exact Hle. rewrite firstn_all in H.
      exists (drop (length l) k). rewrite H at 1. now rewrite take_drop.
    + right. rewrite Nat.min_r in H by exact Hle. rewrite (firstn_all k) in H.
      exists (drop (length k) l). rewrite <- H at 1. now rewrite take_drop.
  - intros [[r ->]|[r ->]].
    + rewrite length_app, Nat.min_l by lia. now rewrite firstn_all, take_app_length.
    + rewrite length_app, Nat.min_r by lia. now rewrite firstn_all, take_app_length.
Qed.

(** Two versions are compatible when the comparable components of one
    are an initial part of those of the other.  The relation is reflexive
    and symmetric, and equal versions are compatible; it is not transitive:
    1 is compatible with 1.2 and with 1.3, which are not compatible with
    each other. *)
Theorem compatible_with_spec (a b : Version) :
  compatible_with a a = true /\
  compatible_with a b = compatible_with b a /\
  (compatible_with a b = true <->
   comparable_components a `prefix_of` comparable_components b \/
   comparable_components b `prefix_of` comparable_components a) /\
  (Version_eq a b = true -> compatible_with a b = true) /\
  (exists x y z,
     Version_init "1.2" = Ok x /\ Version_init "1" = Ok y /\ Version_init "1.3" = Ok z /\
     compatible_with x y = true /\ compatible_with y z = true /\
     compatible_with x z = false).
Proof.
  assert (Hchar : forall u v,
            compatible_with u v = true <->
            comparable_components u `prefix_of` comparable_components v \/
            comparable_components v `prefix_of` comparable_components u).
  { intros u v. unfold compatible_with. cbv zeta. rewrite bool_decide_eq_true.
    apply take_min_prefix. }
  split; [|split; [|split; [|split]]].
  - apply Hchar. now left.
  - destruct (compatible_with a b) eqn:E1, (compatible_with b a) eqn:E2; try reflexivity.
    + apply Hchar in E1. apply not_true_iff_false in E2. exfalso. apply E2, Hchar. tauto.
    + apply Hchar in E2. apply not_true_iff_false in E1. exfalso. apply E1, Hchar. tauto.
  - apply Hchar.
  - unfold Version_eq. rewrite bool_decide_eq_true. intros Heq. apply Hchar. left.
    unfold comparable_components. now rewrite Heq.
  - eexists _, _, _. split; [reflexivity|]. split; [reflexivity|]. split; [reflexivity|].
    split; [reflexivity|]. split; reflexivity.
Qed.

End VersionOrder.

(** ** Properties of [CommaSeparatedNumbers.convert] *)

Section Convert.
Import Common.

Lemma str_split_nonempty (sep : ascii) (s : string) : str_split sep s <> [].
Proof.
  induction s as [|c s IH]; cbn [str_split]; [discriminate|].
  destruct (Ascii.eqb c sep); [discriminate|]. now destruct (str_split sep s).
Qed.

(** Splitting a text with a separator in it: the pieces in front of the
    separator, then the pieces behind it. *)
Lemma str_split_at (sep : ascii) (a b : string) :
  str_split sep (a +:+ String sep b) = str_split sep a ++ str_split sep b.
Proof.
  induction a as [|c a IH].
  - rewrite str_app_nil_l. cbn [str_split]. now rewrite Ascii.eqb_refl.
  - rewrite str_app_cons. cbn [str_split]. rewrite IH.
    destruct (Ascii.eqb c sep); [reflexivity|].
    pose proof (str_split_nonempty sep a) as Hne.
    now destruct (str_split sep a) as [|p l].
Qed.

Lemma str_split_none (sep : ascii) (s : string) :
  str_all (fun c => negb (Ascii.eqb c sep)) s = true -> str_split sep s = [s].
Proof.
  induction s as [|c s IH]; [reflexivity|]. cbn [str_all str_split]. intros H.
  apply andb_true_iff in H as [Hc Hs]. apply negb_true_iff in Hc.
  now rewrite Hc, (IH Hs).
Qed.

Lemma str_split_join (sep : ascii) (pieces : list string) :
  pieces <> [] ->
  Forall (fun p => str_all (fun c => negb (Ascii.eqb c sep)) p = true) pieces ->
  str_split sep (String.concat (String sep EmptyString) pieces) = pieces.
Proof.
  induction pieces as [|p pieces IH]; intros Hne Hall; [contradiction|].
  inversion Hall as [|p' l Hp Hl]; subst.
  destruct pieces as [|q pieces]; [now apply str_split_none|].
  change (String.concat (String sep EmptyString) (p :: q :: pieces))
    with (p +:+ String sep (String.concat (String sep EmptyString) (q :: pieces))).
  rewrite str_split_at, (str_split_none _ _ Hp), IH by (discriminate || assumption).
  reflexivity.
Qed.

(** The loop with numbers already collected. *)
Lemma convert_loop_values (pieces : list string) (values : list Z) :
  convert_loop pieces values
  = match convert_loop pieces [] with
    | Numbers numbers => Numbers (values ++ numbers)
    | BadParameter message => BadParameter message
    end.
Proof.
  revert values. induction pieces as [|v pieces IH]; intros values; cbn [convert_loop].
  - now rewrite app_nil_r.
  - destruct (strip v); [apply IH|].
    destruct (int_base10 v) as [n|e]; [|reflexivity].
    rewrite (IH (values ++ [n])), (IH ([] ++ [n])).
    destruct (convert_loop pieces []); [|reflexivity]. now rewrite <- app_assoc.
Qed.

Lemma convert_loop_app (l1 l2 : list string) (values : list Z) :
  convert_loop (l1 ++ l2) values
  = match convert_loop l1 values with
    | Numbers numbers => convert_loop l2 numbers
    | BadParameter message => BadParameter message
    end.
Proof.
  revert values. induction l1 as [|v l1 IH]; intros values; cbn [app convert_loop];
    [reflexivity|].
  destruct (strip v); [apply IH|]. destruct (int_base10 v); [apply IH|reflexivity].
Qed.

(** A list that is a list already comes back as it is; an empty text gives
    no number; and the conversion of two texts joined by a comma is the
    conversion of the first followed by that of the second, the first bad
    value being the one that is reported. *)
Theorem convert_concat (a b : string) (numbers : list Z) :
  convert (inl numbers) = Numbers numbers /\
  convert (inr EmptyString) = Numbers [] /\
  convert (inr (a +:+ String "," b))
  = match convert (inr a) with
    | Numbers first =>
        match convert (inr b) with
        | Numbers second => Numbers (first ++ second)
        | BadParameter message => BadParameter message
        end
    | BadParameter message => BadParameter message
    end.
Proof.
  split; [reflexivity|]. split; [reflexivity|].
  cbn [convert]. rewrite str_split_at, convert_loop_app.
  destruct (convert_loop (str_split "," a) []) as [first|message]; [|reflexivity].
  apply convert_loop_values.
Qed.

Lemma strip_decimal (d : string) :
  d <> EmptyString -> str_all char_isdecimal d = true -> strip d <> EmptyString.
Proof.
  destruct d as [|c d]; [contradiction|]. intros _ H. cbn [str_all] in H.
  apply andb_true_iff in H as [Hc _]. unfold strip. cbn [lstrip].
  assert (Hsp : char_isspace c = false).
  { clear - Hc. destruct c as [[] [] [] [] [] [] [] []]; try discriminate Hc; reflexivity. }
  rewrite Hsp. cbn [rstrip]. rewrite Hsp. now destruct (rstrip d).
Qed.

Lemma decimal_no_comma (d : string) :
  str_all char_isdecimal d = true ->
  str_all (fun c => negb (Ascii.eqb c ",")) d = true.
Proof.
  apply str_all_impl. intros c Hc.
  destruct c as [[] [] [] [] [] [] [] []]; try discriminate Hc; reflexivity.
Qed.

Lemma isdigit_decimal (d : string) :
  d <> EmptyString -> str_all char_isdecimal d = true -> isdigit d = true.
Proof.
  destruct d as [|c d]; [contradiction|]. intros _ H. cbn [isdigit].
  revert H. apply str_all_impl, char_isdecimal_isdigit.
Qed.

(** Numbers written with decimal digits and joined by commas are
    converted to the numbers. *)
Theorem convert_decimal_list (numerals : list string) :
  Forall (fun d => d <> EmptyString /\ str_all char_isdecimal d = true /\
                   Z.of_nat (String.length d) <= 4300) numerals ->
  convert (inr (String.concat "," numerals)) = Numbers (map decimal_value numerals).
Proof.
  intros Hall. destruct numerals as [|d numerals]; [reflexivity|].
  cbn [convert]. rewrite str_split_join.
  2:{ discriminate. }
  2:{ eapply Forall_impl; [exact Hall|]. intros x (_ & Hx & _). now apply decimal_no_comma. }
  change (Numbers (map decimal_value (d :: numerals)))
    with (Numbers ([] ++ map decimal_value (d :: numerals))).
  generalize (@nil Z) as values. revert Hall. generalize (d :: numerals) as l. clear.
  induction l as [|x l IH]; intros Hall values; cbn [convert_loop map].
  - now rewrite app_nil_r.
  - inversion Hall as [|x' l' (Hne & Hdec & Hlen) Hl]; subst.
    pose proof (strip_decimal x Hne Hdec) as Hs.
    destruct (strip x); [contradiction|].
    destruct (int_base10_isdigit x (isdigit_decimal x Hne Hdec)) as [Hok _].
    rewrite (Hok Hdec Hlen), (IH Hl). now rewrite <- app_assoc.
Qed.

Lemma convert_decimal_list_witness :
  convert (inr "11,0,255"%string) = Numbers [11; 0; 255].
Proof.
  apply (convert_decimal_list ["11"; "0"; "255"]%string).
  repeat constructor; try discriminate; vm_compute; discriminate.
Defined.

(** What [convert] reports.  When it raises, the value it names is a
    piece of the text that is not blank and that [int] refuses, and every
    piece in front of it is blank or a number; when it returns, every piece
    that is not blank is a number, and the numbers are returned in the
    order of the pieces. *)
Theorem convert_reports (text : string) :
  (forall message, convert (inr text) = BadParameter message ->
     exists before v after msg,
       str_split "," text = before ++ v :: after /\
       message = [Lit "Comma-separated list of numbers contains bad value: "; FReprStr v] /\
       strip v <> EmptyString /\ int_base10 v = Raise (ValueError msg) /\
       Forall (fun p => strip p = EmptyString \/ exists n, int_base10 p = Ok n) before) /\
  (forall numbers, convert (inr text) = Numbers numbers ->
     Forall2 (fun p n => int_base10 p = Ok n)
             (filter (fun p => strip p <> EmptyString) (str_split "," text)) numbers).
Proof.
  cbn [convert]. generalize (str_split "," text) as pieces. intros pieces. split.
  - generalize (@nil Z) as values. induction pieces as [|p pieces IH];
      intros values message H; cbn [convert_loop] in H; [discriminate|].
    destruct (strip p) eqn:Es.
    + destruct (IH _ _ H) as (before & v & after & msg & -> & Hm & Hv & Hi & Hb).
      exists (p :: before), v, after, msg. repeat split; auto.
    + destruct (int_base10 p) as [n|e] eqn:Ei.
      * destruct (IH _ _ H) as (before & v & after & msg & -> & Hm & Hv & Hi & Hb).
        exists (p :: before), v, after, msg. repeat split; eauto.
      * injection H as <-. destruct (int_base10_raises _ _ Ei) as [msg ->].
        exists [], p, pieces, msg. repeat split; auto. now rewrite Es.
  - intros numbers H. rewrite convert_loop_values in H.
    destruct (convert_loop pieces []) as [ns|] eqn:E; [|discriminate].
    injection H as <-. cbn [app]. revert ns E.
    induction pieces as [|p pieces IH]; intros ns E; cbn [convert_loop] in E.
    + injection E as <-. constructor.
    + destruct (strip p) eqn:Es.
      * rewrite filter_cons_False by (intros Hn; now apply Hn). now apply IH.
      * rewrite filter_cons_True by (rewrite Es; discriminate).
        destruct (int_base10 p) as [n|e] eqn:Ei; [|discriminate].
        rewrite convert_loop_values in E.
        destruct (convert_loop pieces []) as [ns'|] eqn:E'; [|discriminate].
        injection E as <-. cbn [app]. constructor; [exact Ei|now apply IH].
Qed.

End Convert.

(** ** Properties of the sender that hold in every run *)

Section EveryRunMore.
Import Xmodemcrc Common WireFormat Failure Receiver Run.

Lemma emits_weaken {A : Type} (P Q : list io -> Prop) (m : M A) :
  (forall t, P t -> Q t) -> emits P m -> emits Q m.
Proof.
  intros HPQ Hm w r w' Hrun. destruct (Hm w r w' Hrun) as (t & Ht & HP).
  exists t. auto.
Qed.

Lemma emits_and {A : Type} (P Q : list io -> Prop) (m : M A) :
  emits P m -> emits Q m -> emits (fun t => P t /\ Q t) m.
Proof.
  intros HP HQ w r w' Hrun.
  destruct (HP w r w' Hrun) as (t & Ht & Hp). destruct (HQ w r w' Hrun) as (t' & Ht' & Hq).
  rewrite Ht in Ht'. apply app_inv_head in Ht'. subst t'. exists t. auto.
Qed.

Lemma emits_ret {A : Type} (P : list io -> Prop) (a : A) : P [] -> emits P (ret a).
Proof.
  intros HP w r w' Hrun. injection Hrun as <- <-. exists []. now rewrite app_nil_r.
Qed.

Lemma emits_raise {A : Type} (P : list io -> Prop) (e : exn) :
  P [] -> emits P (@raise_ A e).
Proof.
  intros HP w r w' Hrun. injection Hrun as <- <-. exists []. now rewrite app_nil_r.
Qed.

Lemma emits_lift {A : Type} (P : list io -> Prop) (x : result A) :
  P [] -> emits P (lift x).
Proof. intros HP. destruct x; [now apply emits_ret|now apply emits_raise]. Qed.

Lemma emits_bind {A B : Type} (P Q R : list io -> Prop) (m : M A) (k : A -> M B) :
  (forall t1 t2, P t1 -> Q t2 -> R (t1 ++ t2)) -> (forall t1, P t1 -> R t1) ->
  emits P m -> (forall a, emits Q (k a)) -> emits R (bind m k).
Proof.
  intros Happ Hstop Hm Hk w r w' Hrun. unfold bind in Hrun.
  destruct (m w) as [r1 w1] eqn:E1. destruct (Hm w r1 w1 E1) as (t1 & Ht1 & HP).
  destruct r1 as [a|e|].
  - destruct (Hk a w1 r w' Hrun) as (t2 & Ht2 & HQ).
    exists (t1 ++ t2). split; [now rewrite Ht2, Ht1, app_assoc|auto].
  - injection Hrun as <- <-. exists t1. auto.
  - injection Hrun as <- <-. exists t1. auto.
Qed.

Lemma emits_seq {A B : Type} (P : list io -> Prop) (m : M A) (k : A -> M B) :
  closed P -> emits P m -> (forall a, emits P (k a)) -> emits P (bind m k).
Proof. intros [_ Happ]. apply emits_bind; auto. Qed.

Lemma emits_for_in {A : Type} (P : list io -> Prop) (l : list A) (body : A -> M flow) :
  closed P -> (forall x, emits P (body x)) -> emits P (for_in l body).
Proof.
  intros HP Hbody. induction l as [|x l IH]; cbn [for_in].
  - apply emits_ret, HP.
  - apply emits_seq; [exact HP|apply Hbody|].
    intros [|]; [exact IH|apply emits_ret, HP].
Qed.

Lemma at_most_writes_app (k1 k2 : nat) (t1 t2 : list io) :
  at_most_writes k1 t1 -> at_most_writes k2 t2 -> at_most_writes (k1 + k2) (t1 ++ t2).
Proof.
  unfold at_most_writes. intros H1 H2. rewrite writes_of_app, length_app. lia.
Qed.

Lemma at_most_writes_le (k1 k2 : nat) (t : list io) :
  (k1 <= k2)%nat -> at_most_writes k1 t -> at_most_writes k2 t.
Proof. unfold at_most_writes. lia. Qed.

(** A loop whose body writes at most [k] times writes at most [k] times
    for every element. *)
Lemma emits_for_in_count {A : Type} (k : nat) (l : list A) (body : A -> M flow) :
  (forall x, emits (at_most_writes k) (body x)) ->
  emits (at_most_writes (length l * k)) (for_in l body).
Proof.
  intros Hbody. induction l as [|x l IH]; cbn [for_in length].
  - apply emits_ret. unfold at_most_writes. cbn. lia.
  - apply (emits_bind (at_most_writes k) (at_most_writes (length l * k))).
    + intros t1 t2 H1 H2. replace (S (length l) * k)%nat with (k + length l * k)%nat by lia.
      now apply at_most_writes_app.
    + intros t1. apply at_most_writes_le. lia.
    + apply Hbody.
    + intros [|]; [exact IH|]. apply emits_ret. unfold at_most_writes. cbn. lia.
Qed.

Lemma emits_try_finally {A : Type} (P Q R : list io -> Prop) (body : M A)
    (cleanup : M unit) :
  (forall t1 t2, P t1 -> Q t2 -> R (t1 ++ t2)) -> (forall t1, P t1 -> R t1) ->
  emits P body -> emits Q cleanup -> emits R (try_finally body cleanup).
Proof.
  intros Happ Hstop Hb Hc w r w' Hrun. unfold try_finally in Hrun.
  destruct (body w) as [r1 w1] eqn:E1. destruct (Hb w r1 w1 E1) as (t1 & Ht1 & HP).
  assert (Hfin : forall r2 w2, cleanup w1 = (r2, w2) ->
            exists t, w_trace w2 = w_trace w ++ t /\ R t).
  { intros r2 w2 E2. destruct (Hc w1 r2 w2 E2) as (t2 & Ht2 & HQ).
    exists (t1 ++ t2). split; [now rewrite Ht2, Ht1, app_assoc|auto]. }
  destruct r1 as [a|e|].
  - destruct (cleanup w1) as [[[]|e2|] w2] eqn:E2; injection Hrun as <- <-; eauto.
  - destruct (cleanup w1) as [[[]|e2|] w2] eqn:E2; injection Hrun as <- <-; eauto.
  - injection Hrun as <- <-. exists t1. auto.
Qed.

Lemma closed_silent : closed silent.
Proof.
  split; [now split|]. intros t1 t2 [W1 P1] [W2 P2]. split.
  - now rewrite writes_of_app, W1, W2.
  - now rewrite progress_of_app, P1, P2.
Qed.

Lemma closed_no_progress : closed no_progress.
Proof.
  split; [reflexivity|]. unfold no_progress. intros t1 t2 P1 P2.
  now rewrite progress_of_app, P1, P2.
Qed.

Lemma closed_no_writes : closed no_writes.
Proof.
  split; [reflexivity|]. unfold no_writes. intros t1 t2 P1 P2.
  now rewrite writes_of_app, P1, P2.
Qed.

(** *** What the operations on the transport add to the trace *)

Lemma emits_write (data : bytes) : emits (fun t => t = [Wr data]) (write data).
Proof. intros w r w' Hrun. injection Hrun as <- <-. now exists [Wr data]. Qed.

Lemma emits_drain : emits (fun t => t = []) drain.
Proof.
  intros w r w' Hrun. unfold drain in Hrun. exists []. rewrite app_nil_r.
  destruct (w_drains w) as [|r0 ds]; injection Hrun as <- <-; auto.
Qed.

Lemma emits_readexactly_1 : emits (fun t => t = [] \/ exists b, t = [Rd b]) readexactly_1.
Proof.
  intros w r w' Hrun. unfold readexactly_1 in Hrun.
  destruct (readexactly_loop (w_buffer w) (w_incoming w)) as [[[b|e|] buf] evs];
    injection Hrun as <- <-.
  - exists [Rd b]. split; [reflexivity|]. right. now exists b.
  - exists []. rewrite app_nil_r. auto.
  - exists []. rewrite app_nil_r. auto.
Qed.

Lemma emits_readuntil (sep : byte) :
  emits (fun t => t = [] \/ exists chunk, t = [ReadUntil chunk]) (readuntil sep).
Proof.
  intros w r w' Hrun. unfold readuntil in Hrun.
  destruct (readuntil_loop sep (w_buffer w) (w_incoming w)) as [[[c|e|] buf] evs];
    injection Hrun as <- <-.
  - exists [ReadUntil c]. split; [reflexivity|]. right. now exists c.
  - exists []. rewrite app_nil_r. auto.
  - exists []. rewrite app_nil_r. auto.
Qed.

Lemma emits_buffer_clear : emits (fun t => exists d, t = [BufferClear d]) buffer_clear.
Proof. intros w r w' Hrun. injection Hrun as <- <-. eexists. split; [reflexivity|eauto]. Qed.

Lemma emits_set_protocol (p : protocol) :
  emits (fun t => t = [SetProtocol p]) (set_protocol p).
Proof. intros w r w' Hrun. injection Hrun as <- <-. now exists [SetProtocol p]. Qed.

Lemma emits_call_progress (progress_callback : option callback) (done total : Z) :
  emits (fun t => t = progress_events progress_callback done total)
        (call_progress progress_callback done total).
Proof.
  intros w r w' Hrun. destruct progress_callback as [f|]; cbn [call_progress] in Hrun.
  - exists [Progress done total]. split; [|reflexivity].
    destruct (f done total); injection Hrun as <- <-; reflexivity.
  - injection Hrun as <- <-. exists []. now rewrite app_nil_r.
Qed.

(** *** One call of [send_xmodem128_crc_data], for any bound *)

Lemma emits_attempt (data : bytes) (max_failures a : Z) :
  emits (fun t => t = [Wr data] \/ exists b, t = [Wr data; Rd b])
        (attempt data max_failures a).
Proof.
  intros w r w' Hrun.
  destruct (attempt_cases data max_failures a w)
    as (r0 & w0 & t & Hrun0 & [Ht _] & Hcases).
  rewrite Hrun in Hrun0. injection Hrun0 as <- <-. exists t. split; [exact Ht|].
  destruct Hcases as [[-> _]|(b & -> & _)]; [now left|right; now exists b].
Qed.

Lemma length_range (n : Z) : length (range n) = Z.to_nat n.
Proof. unfold range. now rewrite length_map, length_seq. Qed.

(** Whatever the receiver does: at most [max_failures + 1] writes, and no
    call of the callback. *)
Lemma emits_send_data (data : bytes) (max_failures : Z) :
  emits (fun t => at_most_writes (Z.to_nat (max_failures + 1)) t /\ no_progress t)
        (send_xmodem128_crc_data data max_failures).
Proof.
  rewrite send_xmodem128_crc_data_eq. apply emits_and.
  - apply (emits_bind (at_most_writes (Z.to_nat (max_failures + 1))) (fun t => t = [])).
    + intros t1 t2 H ->. now rewrite app_nil_r.
    + auto.
    + replace (Z.to_nat (max_failures + 1))
        with (length (range (max_failures + 1)) * 1)%nat by (rewrite length_range; lia).
      apply emits_for_in_count. intros a.
      eapply emits_weaken; [|apply emits_attempt].
      intros t [->|[b ->]]; unfold at_most_writes; cbn; lia.
    + intros a. now apply emits_ret.
  - apply emits_seq; [apply closed_no_progress| |intros; apply emits_ret; reflexivity].
    apply emits_for_in; [apply closed_no_progress|]. intros a.
    eapply emits_weaken; [|apply emits_attempt].
    intros t [->|[b ->]]; reflexivity.
Qed.

(** *** The whole transfer, for any bound *)

Lemma emits_after_silence {A B : Type} (P : list io -> Prop) (k : nat)
    (m : M A) (f : A -> M B) :
  (forall t, P t -> no_writes t) ->
  emits P m -> (forall a, emits (at_most_writes k) (f a)) ->
  emits (at_most_writes k) (bind m f).
Proof.
  intros HP Hm Hf. apply (emits_bind P (at_most_writes k)); auto.
  - intros t1 t2 H1 H2. unfold at_most_writes in *.
    rewrite writes_of_app, (HP t1 H1). exact H2.
  - intros t1 H1. unfold at_most_writes. rewrite (HP t1 H1). cbn. lia.
Qed.

Lemma no_writes_progress_events (progress_callback : option callback) (done total : Z) :
  no_writes (progress_events progress_callback done total).
Proof. now destruct progress_callback. Qed.

Lemma emits_block_body (data : bytes) (max_failures : Z)
    (progress_callback : option callback) (index : Z) :
  emits (at_most_writes (Z.to_nat (max_failures + 1)))
        (block_body data max_failures progress_callback index).
Proof.
  rewrite block_body_eq.
  apply (emits_bind (at_most_writes (Z.to_nat (max_failures + 1))) no_writes).
  - intros t1 t2 H1 H2. unfold at_most_writes in *. rewrite writes_of_app, H2, app_nil_r.
    exact H1.
  - auto.
  - eapply emits_weaken; [|apply emits_send_data]. now intros t [H _].
  - intros _. apply emits_seq; [apply closed_no_writes| |intros; now apply emits_ret].
    eapply emits_weaken; [|apply emits_call_progress].
    intros t ->. apply no_writes_progress_events.
Qed.

(** What follows the wait for the handshake byte. *)
Lemma emits_after_handshake (data : bytes) (max_failures : Z)
    (progress_callback : option callback) :
  emits (at_most_writes ((Z.to_nat (len data / 128) + 1) * Z.to_nat (max_failures + 1)))
        (call_progress progress_callback 0 (len data) ;;
         buffer_clear ;;
         for_in (range (len data / BLOCK_SIZE))
                (block_body data max_failures progress_callback) ;;
         eot <- lift (bytes_of_ints [Symbol_value EOT]) ;;
         send_xmodem128_crc_data eot max_failures).
Proof.
  eapply emits_after_silence; [|apply emits_call_progress|intros _];
    [intros t ->; apply no_writes_progress_events|].
  eapply emits_after_silence; [|apply emits_buffer_clear|intros _];
    [intros t [d ->]; reflexivity|].
  apply (emits_bind
           (at_most_writes (Z.to_nat (len data / 128) * Z.to_nat (max_failures + 1)))
           (at_most_writes (Z.to_nat (max_failures + 1)))).
  - intros t1 t2 H1 H2.
    replace ((Z.to_nat (len data / 128) + 1) * Z.to_nat (max_failures + 1))%nat
      with (Z.to_nat (len data / 128) * Z.to_nat (max_failures + 1)
            + Z.to_nat (max_failures + 1))%nat by lia.
    now apply at_most_writes_app.
  - intros t1. apply at_most_writes_le. lia.
  - change BLOCK_SIZE with 128.
    rewrite <- (length_range (len data / 128)).
    apply emits_for_in_count. intros index. apply emits_block_body.
  - intros _. rewrite eot_bytes. cbn [lift]. unfold bind at 1, ret.
    eapply emits_weaken; [|apply emits_send_data]. now intros t [H _].
Qed.

Lemma emits_transfer (data : bytes) (max_failures : Z)
    (progress_callback : option callback) :
  emits (at_most_writes ((Z.to_nat (len data / 128) + 1) * Z.to_nat (max_failures + 1)))
        (transfer data max_failures progress_callback).
Proof.
  unfold transfer.
  eapply emits_after_silence; [|apply emits_readuntil|intros _];
    [intros t [->|[c ->]]; reflexivity|].
  apply emits_after_handshake.
Qed.

Lemma emits_silent_step {A : Type} (m : M A) :
  (forall w, w_trace (m w).2 = w_trace w) -> emits (fun t => t = []) m.
Proof.
  intros Hm w r w' Hrun. specialize (Hm w). rewrite Hrun in Hm.
  exists []. now rewrite app_nil_r.
Qed.

Lemma emits_send (data : bytes) (max_failures : Z) (progress_callback : option callback) :
  emits (at_most_writes ((Z.to_nat (len data / 128) + 1) * Z.to_nat (max_failures + 1)))
        (send_xmodem128_crc data max_failures progress_callback).
Proof.
  rewrite send_xmodem128_crc_eq.
  destruct (negb (len data mod BLOCK_SIZE =? 0)).
  { apply emits_raise. unfold at_most_writes. cbn. lia. }
  eapply emits_after_silence; [|apply emits_silent_step|intros _];
    [now intros t ->|reflexivity|].
  eapply emits_after_silence; [|apply emits_silent_step|intros old_protocol];
    [now intros t ->|reflexivity|].
  eapply emits_after_silence; [|apply emits_set_protocol|intros _];
    [now intros t ->|].
  apply (emits_try_finally
           (at_most_writes ((Z.to_nat (len data / 128) + 1) * Z.to_nat (max_failures + 1)))
           (fun t => t = [SetProtocol old_protocol])).
  - intros t1 t2 H1 ->. unfold at_most_writes in *. rewrite writes_of_app. cbn.
    now rewrite app_nil_r.
  - auto.
  - apply emits_transfer.
  - apply emits_set_protocol.
Qed.

(** Every write of one call is of the data it was called with. *)
Lemma emits_send_data_same (data : bytes) (max_failures : Z) :
  emits (fun t => Forall (fun d => d = data) (writes_of t))
        (send_xmodem128_crc_data data max_failures).
Proof.
  assert (Hc : closed (fun t => Forall (fun d => d = data) (writes_of t))).
  { split; [constructor|]. intros t1 t2 H1 H2. rewrite writes_of_app.
    apply Forall_app. now split. }
  rewrite send_xmodem128_crc_data_eq.
  apply emits_seq; [exact Hc| |intros; apply emits_ret; constructor].
  apply emits_for_in; [exact Hc|]. intros a.
  eapply emits_weaken; [|apply emits_attempt].
  intros t [->|[b ->]]; cbn; now constructor.
Qed.

(** Whatever the receiver, the event loop and the callback do: one call of
    [send_xmodem128_crc_data] writes nothing but its data, at most
    [max_failures + 1] times, and a whole transfer makes at most
    [(len(data)/128 + 1) * (max_failures + 1)] writes. *)
Theorem send_write_bound (data : bytes) (max_failures : Z)
    (progress_callback : option callback) (w : World) :
  (exists t,
     w_trace (send_xmodem128_crc_data data max_failures w).2 = w_trace w ++ t /\
     Forall (fun d => d = data) (writes_of t) /\
     len (writes_of t) <= Z.max 0 (max_failures + 1)) /\
  (exists t,
     w_trace (send_xmodem128_crc data max_failures progress_callback w).2 = w_trace w ++ t /\
     len (writes_of t) <= (len data / 128 + 1) * Z.max 0 (max_failures + 1)).
Proof.
  split.
  - destruct (send_xmodem128_crc_data data max_failures w) as [r w'] eqn:Hrun.
    destruct (emits_and _ _ _ (emits_send_data data max_failures)
                (emits_send_data_same data max_failures) w r w' Hrun)
      as (t & Ht & [Hk _] & Hsame).
    exists t. split; [exact Ht|]. split; [exact Hsame|].
    unfold at_most_writes in Hk. unfold len. lia.
  - destruct (send_xmodem128_crc data max_failures progress_callback w) as [r w'] eqn:Hrun.
    destruct (emits_send data max_failures progress_callback w r w' Hrun) as (t & Ht & Hk).
    exists t. split; [exact Ht|]. unfold at_most_writes in Hk.
    assert (Hn : 0 <= len data / 128) by (apply Z.div_pos; [apply len_nonneg|lia]).
    unfold len at 1.
    replace ((len data / 128 + 1) * Z.max 0 (max_failures + 1))
      with (Z.of_nat ((Z.to_nat (len data / 128) + 1) * Z.to_nat (max_failures + 1))) by lia.
    lia.
Qed.

(** *** Where exceptions come from, and when a run stays suspended *)

Lemma propagates_nil (cb : option callback) (r : outcome unit) : propagates cb [] [] [] r.
Proof.
  split; [|split].
  - intros pre e post H. now destruct pre.
  - intros pre x post H. now destruct pre.
  - intros f pre done total post e _ H. now destruct pre.
Qed.

Lemma propagates_app (cb : option callback) (evs1 evs2 : list event)
    (ds1 ds2 : list (outcome unit)) (t1 t2 : list io) (r : outcome unit) :
  propagates cb evs1 ds1 t1 (Returned tt) -> propagates cb evs2 ds2 t2 r ->
  propagates cb (evs1 ++ evs2) (ds1 ++ ds2) (t1 ++ t2) r.
Proof.
  intros (E1 & D1 & C1) (E2 & D2 & C2). split; [|split].
  - intros pre e post H.
    apply in_app_split in H as [(post1 & H & _)|(pre2 & _ & H)].
    + destruct (E1 _ _ _ H) as [_ Hr]. discriminate.
    + exact (E2 _ _ _ H).
  - intros pre x post H Hx.
    apply in_app_split in H as [(post1 & H & _)|(pre2 & _ & H)].
    + destruct (D1 _ _ _ H Hx) as [_ Hr]. now subst x.
    + exact (D2 _ _ _ H Hx).
  - intros f pre done total post e Hf H He.
    apply in_app_split in H as [(post1 & H & _)|(pre2 & _ & H)].
    + destruct (C1 _ _ _ _ _ _ Hf H He) as [_ Hr]. discriminate.
    + exact (C2 _ _ _ _ _ _ Hf H He).
Qed.

Lemma origin_app (cb : option callback) (mf : Z) (evs1 evs2 : list event)
    (ds1 ds2 : list (outcome unit)) (t1 t2 : list io) (e : exn) :
  origin cb mf evs2 ds2 t2 e -> origin cb mf (evs1 ++ evs2) (ds1 ++ ds2) (t1 ++ t2) e.
Proof.
  intros [H|[H|[[pre ->]|[[pre ->]|(f & pre & done & total & Hf & He & ->)]]]].
  - now left.
  - right; now left.
  - right; right; left. exists (evs1 ++ pre). now rewrite app_assoc.
  - right; right; right; left. exists (ds1 ++ pre). now rewrite app_assoc.
  - right; right; right; right. exists f, (t1 ++ pre), done, total.
    now rewrite app_assoc.
Qed.

Lemma tracks_ret {A : Type} (cb : option callback) (mf : Z) (a : A) : tracks cb mf (ret a).
Proof.
  intros w r w' Hrun. injection Hrun as <- <-. split; [reflexivity|].
  exists [], [], []. rewrite app_nil_r.
  split; [reflexivity|]. split; [reflexivity|]. split; [reflexivity|].
  split; [apply propagates_nil|]. split; discriminate.
Qed.

Lemma tracks_raise {A : Type} (cb : option callback) (mf : Z) (e : exn) :
  raised_by_sender mf e -> tracks cb mf (@raise_ A e).
Proof.
  intros He w r w' Hrun. injection Hrun as <- <-. split; [reflexivity|].
  exists [], [], []. rewrite app_nil_r.
  split; [reflexivity|]. split; [reflexivity|]. split; [reflexivity|].
  split; [apply propagates_nil|]. split; [|discriminate].
  intros e' [= <-]. now left.
Qed.

Lemma tracks_bind {A B : Type} (cb : option callback) (mf : Z) (m : M A) (k : A -> M B) :
  tracks cb mf m -> (forall a, tracks cb mf (k a)) -> tracks cb mf (bind m k).
Proof.
  intros Hm Hk w r w' Hrun. unfold bind in Hrun.
  destruct (m w) as [r1 w1] eqn:E1.
  destruct (Hm w r1 w1 E1) as (P1 & evs1 & ds1 & t1 & I1 & D1 & T1 & S1 & O1 & U1).
  destruct r1 as [a|e|].
  - destruct (Hk a w1 r w' Hrun) as (P2 & evs2 & ds2 & t2 & I2 & D2 & T2 & S2 & O2 & U2).
    split; [congruence|]. exists (evs1 ++ evs2), (ds1 ++ ds2), (t1 ++ t2).
    split; [rewrite I1, I2; apply app_assoc|].
    split; [rewrite D1, D2; apply app_assoc|].
    split; [rewrite T2, T1; symmetry; apply app_assoc|].
    split; [now apply propagates_app|]. split.
    + intros e He. apply origin_app. now apply O2.
    + intros Hs. destruct (U2 Hs) as [H|[pre ->]]; [now left|right].
      exists (ds1 ++ pre). now rewrite app_assoc.
  - injection Hrun as <- <-. split; [exact P1|]. exists evs1, ds1, t1.
    split; [exact I1|]. split; [exact D1|]. split; [exact T1|].
    split; [exact S1|]. split; [|discriminate].
    intros e' [= <-]. now apply O1.
  - injection Hrun as <- <-. split; [exact P1|]. exists evs1, ds1, t1.
    split; [exact I1|]. split; [exact D1|]. split; [exact T1|].
    split; [exact S1|]. split; [discriminate|]. intros _. now apply U1.
Qed.

Lemma tracks_for_in {A : Type} (cb : option callback) (mf : Z) (l : list A)
    (body : A -> M flow) :
  (forall x, tracks cb mf (body x)) -> tracks cb mf (for_in l body).
Proof.
  intros Hbody. induction l as [|x l IH]; cbn [for_in].
  - apply tracks_ret.
  - apply tracks_bind; [apply Hbody|]. intros [|]; [exact IH|apply tracks_ret].
Qed.

(** A trace of one event that is not a call of the callback. *)
Lemma propagates_step (cb : option callback) (x : io) (r : outcome unit) :
  (forall done total, x <> Progress done total) -> propagates cb [] [] [x] r.
Proof.
  intros Hx. split; [|split].
  - intros pre e post H. now destruct pre.
  - intros pre y post H. now destruct pre.
  - intros f pre done total post e _ H. destruct pre as [|y pre].
    + injection H as ->. now destruct (Hx done total).
    + now destruct pre.
Qed.

Lemma tracks_write (cb : option callback) (mf : Z) (data : bytes) :
  tracks cb mf (write data).
Proof.
  intros w r w' Hrun. injection Hrun as <- <-. split; [reflexivity|].
  exists [], [], [Wr data].
  split; [reflexivity|]. split; [reflexivity|]. split; [reflexivity|].
  split; [now apply propagates_step|]. split; discriminate.
Qed.

Lemma tracks_buffer_clear (cb : option callback) (mf : Z) : tracks cb mf buffer_clear.
Proof.
  intros w r w' Hrun. injection Hrun as <- <-. split; [reflexivity|].
  exists [], [], [BufferClear (w_buffer w)].
  split; [reflexivity|]. split; [reflexivity|]. split; [reflexivity|].
  split; [now apply propagates_step|]. split; discriminate.
Qed.

Lemma tracks_drain (cb : option callback) (mf : Z) : tracks cb mf drain.
Proof.
  intros w r w' Hrun. unfold drain in Hrun.
  destruct (w_drains w) as [|x ds] eqn:E; injection Hrun as <- <-.
  - split; [reflexivity|]. exists [], [], []. rewrite app_nil_r, E.
    split; [reflexivity|]. split; [reflexivity|]. split; [reflexivity|].
    split; [apply propagates_nil|]. split; discriminate.
  - split; [reflexivity|]. exists [], [x], []. rewrite app_nil_r.
    split; [reflexivity|]. split; [reflexivity|]. split; [reflexivity|]. split.
    { split; [|split].
      - intros pre e post H. now destruct pre.
      - intros pre y post H Hy. destruct pre as [|z pre]; [|now destruct pre].
        injection H as <- <-. split; [reflexivity|]. now destruct x as [[]| |].
      - intros f pre done total post e _ H. now destruct pre. }
    split.
    + intros e ->. right; right; right; left. now exists [].
    + intros ->. right. now exists [].
Qed.


(** A wait for one byte takes events from the front; an exception among
    them is the last and is what the wait raises, and the wait stays
    suspended only at the end of the events. *)
Lemma wait_for_byte_spec (evs : list event) (r : outcome (byte * bytes))
    (evs' : list event) :
  wait_for_byte evs = (r, evs') ->
  exists taken, evs = taken ++ evs' /\
    (forall pre e post, taken = pre ++ Throw e :: post -> post = [] /\ r = Raised e) /\
    (forall e, r = Raised e -> exists pre, taken = pre ++ [Throw e]) /\
    (r = Suspended -> evs' = []).
Proof.
  revert r evs'. induction evs as [|[[|b rest]|e] evs IH]; intros r evs' H;
    cbn [wait_for_byte] in H.
  - injection H as <- <-. exists []. split; [reflexivity|]. split; [|split].
    + intros pre e post H. now destruct pre.
    + discriminate.
    + reflexivity.
  - destruct (IH r evs' H) as (taken & -> & T & O & S). exists (Feed [] :: taken).
    split; [reflexivity|]. split; [|split; [|exact S]].
    + intros pre e post Heq. destruct pre as [|y pre]; [discriminate|].
      injection Heq as _ Heq. exact (T _ _ _ Heq).
    + intros e He. destruct (O e He) as [pre ->]. now exists (Feed [] :: pre).
  - injection H as <- <-. exists [Feed (b :: rest)]. split; [reflexivity|].
    split; [|split; discriminate].
    intros pre e post Heq. destruct pre as [|y pre]; [discriminate|now destruct pre].
  - injection H as <- <-. exists [Throw e]. split; [reflexivity|]. split; [|split].
    + intros pre e' post Heq. destruct pre as [|y pre]; [|now destruct pre].
      now injection Heq as <- <-.
    + intros e' [= <-]. now exists [].
    + discriminate.
Qed.

Lemma tracks_readexactly_1 (cb : option callback) (mf : Z) : tracks cb mf readexactly_1.
Proof.
  intros w r w' Hrun. unfold readexactly_1, readexactly_loop in Hrun.
  destruct (w_buffer w) as [|b rest].
  - destruct (wait_for_byte (w_incoming w)) as [r0 evs0] eqn:E.
    destruct (wait_for_byte_spec _ _ _ E) as (taken & I & T & O & S).
    destruct r0 as [[b rest]|e|]; injection Hrun as <- <-; (split; [reflexivity|]).
    + exists taken, [], [Rd b]. split; [exact I|]. split; [reflexivity|].
      split; [reflexivity|]. split; [|split; discriminate].
      split; [|split].
      * intros pre e post Heq. destruct (T _ _ _ Heq) as [_ Hr]. discriminate.
      * intros pre x post Heq. now destruct pre.
      * intros f pre done total post e _ Heq.
        destruct pre as [|y pre]; [discriminate|now destruct pre].
    + exists taken, [], []. rewrite app_nil_r. split; [exact I|]. split; [reflexivity|].
      split; [reflexivity|]. split; [|split; [|discriminate]].
      * split; [|split].
        -- intros pre e' post Heq. destruct (T _ _ _ Heq) as [-> Hr].
           split; [reflexivity|]. now injection Hr as <-.
        -- intros pre x post Heq. now destruct pre.
        -- intros f pre done total post e' _ Heq. now destruct pre.
      * intros e' [= <-]. right; right; left. now apply O.
    + exists taken, [], []. rewrite app_nil_r. split; [exact I|]. split; [reflexivity|].
      split; [reflexivity|]. split; [|split; [discriminate|]].
      * split; [|split].
        -- intros pre e' post Heq. destruct (T _ _ _ Heq) as [_ Hr]. discriminate.
        -- intros pre x post Heq. now destruct pre.
        -- intros f pre done total post e' _ Heq. now destruct pre.
      * intros _. left. now apply S.
  - injection Hrun as <- <-. split; [reflexivity|]. exists [], [], [Rd b].
    split; [reflexivity|]. split; [reflexivity|]. split; [reflexivity|].
    split; [now apply propagates_step|]. split; discriminate.
Qed.

Lemma readuntil_loop_spec (sep : byte) (evs : list event) (buf : bytes)
    (r : outcome bytes) (buf' : bytes) (evs' : list event) :
  readuntil_loop sep buf evs = (r, buf', evs') ->
  exists taken, evs = taken ++ evs' /\
    (forall pre e post, taken = pre ++ Throw e :: post -> post = [] /\ r = Raised e) /\
    (forall e, r = Raised e -> e = LimitOverrunError \/ exists pre, taken = pre ++ [Throw e]) /\
    (r = Suspended -> evs' = []).
Proof.
  assert (Hnone : forall (r0 : outcome bytes) (evs0 : list event),
            (forall e, r0 = Raised e -> e = LimitOverrunError) -> r0 <> Suspended ->
            exists taken, evs0 = taken ++ evs0 /\
              (forall pre e post, taken = pre ++ Throw e :: post ->
                 post = [] /\ r0 = Raised e) /\
              (forall e, r0 = Raised e ->
                 e = LimitOverrunError \/ exists pre, taken = pre ++ [Throw e]) /\
              (r0 = Suspended -> evs0 = [])).
  { intros r0 evs0 Hr Hs. exists []. split; [reflexivity|]. split; [|split].
    - intros pre e post Heq. now destruct pre.
    - intros e He. left. now apply Hr.
    - intros He. contradiction. }
  revert buf r buf' evs'. induction evs as [|ev evs IH]; intros buf r buf' evs' H;
    cbn [readuntil_loop] in H.
  - destruct (find_byte sep buf) as [isep|].
    + destruct (Z.of_nat isep >? limit); injection H as <- <- <-; apply Hnone;
        try discriminate; now intros e [= <-].
    + destruct (len buf >? limit); injection H as <- <- <-.
      * apply Hnone; try discriminate; now intros e [= <-].
      * exists []. split; [reflexivity|]. split; [|split].
        -- intros pre e post Heq. now destruct pre.
        -- discriminate.
        -- reflexivity.
  - destruct (find_byte sep buf) as [isep|].
    + destruct (Z.of_nat isep >? limit); injection H as <- <- <-; apply Hnone;
        try discriminate; now intros e [= <-].
    + destruct (len buf >? limit).
      * injection H as <- <- <-. apply Hnone; try discriminate; now intros e [= <-].
      * destruct ev as [chunk|e0].
        -- destruct (IH _ _ _ _ H) as (taken & -> & T & O & S).
           exists (Feed chunk :: taken). split; [reflexivity|]. split; [|split; [|exact S]].
           ++ intros pre e post Heq. destruct pre as [|y pre]; [discriminate|].
              injection Heq as _ Heq. exact (T _ _ _ Heq).
           ++ intros e He. destruct (O e He) as [->|[pre ->]]; [now left|right].
              now exists (Feed chunk :: pre).
        -- injection H as <- <- <-. exists [Throw e0]. split; [reflexivity|].
           split; [|split].
           ++ intros pre e' post Heq. destruct pre as [|y pre]; [|now destruct pre].
              now injection Heq as <- <-.
           ++ intros e' [= <-]. right. now exists [].
           ++ discriminate.
Qed.

Lemma tracks_readuntil (cb : option callback) (mf : Z) (sep : byte) :
  tracks cb mf (readuntil sep).
Proof.
  intros w r w' Hrun. unfold readuntil in Hrun.
  destruct (readuntil_loop sep (w_buffer w) (w_incoming w)) as [[r0 buf0] evs0] eqn:E.
  destruct (readuntil_loop_spec _ _ _ _ _ _ E) as (taken & I & T & O & S).
  destruct r0 as [c|e|]; injection Hrun as <- <-; (split; [reflexivity|]).
  - exists taken, [], [ReadUntil c]. split; [exact I|]. split; [reflexivity|].
    split; [reflexivity|]. split; [|split; discriminate].
    split; [|split].
    + intros pre e post Heq. destruct (T _ _ _ Heq) as [_ Hr]. discriminate.
    + intros pre x post Heq. now destruct pre.
    + intros f pre done total post e _ Heq.
      destruct pre as [|y pre]; [discriminate|now destruct pre].
  - exists taken, [], []. rewrite app_nil_r. split; [exact I|]. split; [reflexivity|].
    split; [reflexivity|]. split; [|split; [|discriminate]].
    + split; [|split].
      * intros pre e' post Heq. destruct (T _ _ _ Heq) as [-> Hr].
        split; [reflexivity|]. now injection Hr as <-.
      * intros pre x post Heq. now destruct pre.
      * intros f pre done total post e' _ Heq. now destruct pre.
    + intros e' [= <-]. destruct (O e eq_refl) as [->|H]; [right; now left|].
      right; right; now left.
  - exists taken, [], []. rewrite app_nil_r. split; [exact I|]. split; [reflexivity|].
    split; [reflexivity|]. split; [|split; [discriminate|]].
    + split; [|split].
      * intros pre e' post Heq. destruct (T _ _ _ Heq) as [_ Hr]. discriminate.
      * intros pre x post Heq. now destruct pre.
      * intros f pre done total post e' _ Heq. now destruct pre.
    + intros _. left. now apply S.
Qed.

Lemma tracks_call_progress (cb : option callback) (mf : Z) (done total : Z) :
  tracks cb mf (call_progress cb done total).
Proof.
  destruct cb as [f|] eqn:Ecb; cbn [call_progress]; [|apply tracks_ret].
  intros w r w' Hrun. destruct (f done total) as [[]|e] eqn:E; injection Hrun as <- <-;
    (split; [reflexivity|]); exists [], [], [Progress done total];
    (split; [reflexivity|]); (split; [reflexivity|]); (split; [reflexivity|]).
  - split; [|split; discriminate]. split; [|split].
    + intros pre e post Heq. now destruct pre.
    + intros pre x post Heq. now destruct pre.
    + intros f' pre done' total' post e [= <-] Heq He.
      destruct pre as [|y pre]; [|now destruct pre].
      injection Heq as <- <- <-. rewrite E in He. discriminate.
  - split; [|split; [|discriminate]].
    + split; [|split].
      * intros pre e' post Heq. now destruct pre.
      * intros pre x post Heq. now destruct pre.
      * intros f' pre done' total' post e' [= <-] Heq He.
        destruct pre as [|y pre]; [|now destruct pre].
        injection Heq as <- <- <-. rewrite E in He. injection He as <-. now split.
    + intros e' [= <-]. right; right; right; right. now exists f, [], done, total.
Qed.

Lemma tracks_attempt (cb : option callback) (mf : Z) (data : bytes) (a : Z) :
  tracks cb mf (attempt data mf a).
Proof.
  unfold attempt. apply tracks_bind; [apply tracks_write|]. intros _.
  apply tracks_bind; [apply tracks_drain|]. intros _.
  apply tracks_bind; [apply tracks_readexactly_1|]. intros b.
  destruct (byte_val b =? Symbol_value ACK); [apply tracks_ret|].
  destruct (byte_val b =? Symbol_value NAK).
  { destruct (a >=? mf); [|apply tracks_ret]. apply tracks_raise. now left. }
  destruct (byte_val b =? Symbol_value CAN).
  - apply tracks_raise. right; now left.
  - apply tracks_raise. right; right. now exists b.
Qed.

Lemma tracks_send_data (cb : option callback) (mf : Z) (data : bytes) :
  tracks cb mf (send_xmodem128_crc_data data mf).
Proof.
  rewrite send_xmodem128_crc_data_eq.
  apply tracks_bind; [|intros; apply tracks_ret].
  apply tracks_for_in. intros a. apply tracks_attempt.
Qed.

Lemma tracks_transfer (cb : option callback) (mf : Z) (data : bytes) :
  tracks cb mf (transfer data mf cb).
Proof.
  unfold transfer.
  apply tracks_bind; [apply tracks_readuntil|]. intros _.
  apply tracks_bind; [apply tracks_call_progress|]. intros _.
  apply tracks_bind; [apply tracks_buffer_clear|]. intros _.
  apply tracks_bind.
  - apply tracks_for_in. intros index. rewrite block_body_eq.
    apply tracks_bind; [apply tracks_send_data|]. intros _.
    apply tracks_bind; [apply tracks_call_progress|]. intros _. apply tracks_ret.
  - intros _. rewrite eot_bytes. cbn [lift]. unfold bind at 1, ret.
    apply tracks_send_data.
Qed.

(** *** Nothing happens before the handshake *)

(** What [readuntil] returns ends with the first separator in it. *)
Lemma find_byte_split (sep : byte) (buf : bytes) (isep : nat) :
  find_byte sep buf = Some isep ->
  exists before, firstn (S isep) buf = before ++ [sep] /\ ~ In sep before.
Proof.
  revert isep. induction buf as [|b buf IH]; intros isep H; cbn [find_byte] in H;
    [discriminate|].
  destruct (Byte.eqb b sep) eqn:E.
  - injection H as <-. apply Byte.byte_dec_bl in E. subst b. now exists [].
  - destruct (find_byte sep buf) as [i|]; [|discriminate]. injection H as <-.
    destruct (IH i eq_refl) as (before & Hb & Hn). exists (b :: before).
    split; [cbn [firstn] in *; now rewrite Hb|].
    intros [->|Hin]; [|contradiction].
    assert (Byte.eqb sep sep = true) by now apply Byte.byte_dec_lb. congruence.
Qed.

Lemma readuntil_loop_returned (sep : byte) (evs : list event) (buf chunk buf' : bytes)
    (evs' : list event) :
  readuntil_loop sep buf evs = (Returned chunk, buf', evs') ->
  exists before, chunk = before ++ [sep] /\ ~ In sep before.
Proof.
  revert buf. induction evs as [|ev evs IH]; intros buf H; cbn [readuntil_loop] in H.
  - destruct (find_byte sep buf) as [isep|] eqn:E.
    + destruct (Z.of_nat isep >? limit); [discriminate|]. injection H as <- _ _.
      now apply find_byte_split.
    + destruct (len buf >? limit); discriminate.
  - destruct (find_byte sep buf) as [isep|] eqn:E.
    + destruct (Z.of_nat isep >? limit); [discriminate|]. injection H as <- _ _.
      now apply find_byte_split.
    + destruct (len buf >? limit); [discriminate|].
      destruct ev as [c|e]; [now apply IH in H|discriminate].
Qed.

(** The sender writes nothing, and does not call the callback, before it
    has read the handshake byte: a trace with a write or a call of the
    callback starts with the swap of the protocol and the return of
    [readuntil], whose text ends with the first "C" received. *)
Theorem send_waits_for_handshake (data : bytes) (max_failures : Z)
    (progress_callback : option callback) (w : World) :
  exists t,
    w_trace (send_xmodem128_crc data max_failures progress_callback w).2 = w_trace w ++ t /\
    (writes_of t <> [] \/ progress_of t <> [] ->
     exists before t',
       t = SetProtocol StreamReaderProtocol :: ReadUntil (before ++ ["C"%byte]) :: t' /\
       ~ In "C"%byte before).
Proof.
  destruct (Z.eq_dec (len data mod 128) 0) as [Hlen|Hlen].
  2:{ rewrite send_xmodem128_crc_eq. change BLOCK_SIZE with 128.
      destruct (Z.eqb_spec (len data mod 128) 0) as [E|_]; [contradiction|].
      exists []. cbn. rewrite app_nil_r. split; [reflexivity|]. intros [H|H]; contradiction. }
  rewrite (send_enters _ _ _ _ Hlen).
  destruct (transfer data max_failures progress_callback (swapped w)) as [r3 w3] eqn:Hbody.
  assert (Hfin : forall t3, w_trace w3 = w_trace (swapped w) ++ t3 ->
            (writes_of t3 <> [] \/ progress_of t3 <> [] ->
             exists before t', t3 = ReadUntil (before ++ ["C"%byte]) :: t' /\
                               ~ In "C"%byte before) ->
            exists t,
              w_trace (try_finally (transfer data max_failures progress_callback)
                         (set_protocol (w_protocol w)) (swapped w)).2 = w_trace w ++ t /\
              (writes_of t <> [] \/ progress_of t <> [] ->
               exists before t',
                 t = SetProtocol StreamReaderProtocol :: ReadUntil (before ++ ["C"%byte]) :: t'
                 /\ ~ In "C"%byte before)).
  { intros t3 Ht3 Hc. rewrite swapped_trace in Ht3.
    destruct r3 as [[]|e|].
    - rewrite (try_finally_ended _ _ _ _ _ Hbody) by discriminate.
      exists ([SetProtocol StreamReaderProtocol] ++ t3 ++ [SetProtocol (w_protocol w)]).
      split; [cbn [snd restored log w_trace with_protocol]; rewrite Ht3;
              now rewrite <- !app_assoc|].
      rewrite !writes_of_app, !progress_of_app. cbn. rewrite !app_nil_r. intros H.
      destruct (Hc H) as (before & t' & -> & Hn). now exists before, (t' ++ [SetProtocol (w_protocol w)]).
    - rewrite (try_finally_ended _ _ _ _ _ Hbody) by discriminate.
      exists ([SetProtocol StreamReaderProtocol] ++ t3 ++ [SetProtocol (w_protocol w)]).
      split; [cbn [snd restored log w_trace with_protocol]; rewrite Ht3;
              now rewrite <- !app_assoc|].
      rewrite !writes_of_app, !progress_of_app. cbn. rewrite !app_nil_r. intros H.
      destruct (Hc H) as (before & t' & -> & Hn). now exists before, (t' ++ [SetProtocol (w_protocol w)]).
    - rewrite (try_finally_suspended _ _ _ _ Hbody).
      exists ([SetProtocol StreamReaderProtocol] ++ t3).
      split; [cbn [snd]; rewrite Ht3; now rewrite <- !app_assoc|].
      rewrite !writes_of_app, !progress_of_app. cbn. intros H.
      destruct (Hc H) as (before & t' & -> & Hn). now exists before, t'. }
  unfold transfer in Hbody. unfold bind at 1 in Hbody. unfold readuntil at 1 in Hbody.
  change (w_buffer (swapped w)) with (@nil byte) in Hbody.
  destruct (readuntil_loop "C"%byte [] (w_incoming (swapped w))) as [[r0 buf0] evs0] eqn:Hloop.
  destruct r0 as [chunk|e|].
  - destruct (readuntil_loop_returned _ _ _ _ _ _ Hloop) as (before & -> & Hn).
    destruct (emits_after_handshake data max_failures progress_callback _ _ _ Hbody)
      as (t' & Ht' & _).
    apply (Hfin (ReadUntil (before ++ ["C"%byte]) :: t')).
    + rewrite Ht'. cbn [log w_trace with_reader]. now rewrite <- app_assoc.
    + intros _. now exists before, t'.
  - injection Hbody as <- <-. apply (Hfin []).
    + cbn [with_reader w_trace]. now rewrite app_nil_r.
    + intros [H|H]; contradiction.
  - injection Hbody as <- <-. apply (Hfin []).
    + cbn [with_reader w_trace]. now rewrite app_nil_r.
    + intros [H|H]; contradiction.
Qed.

(** *** The calls of the progress callback *)

Lemma block_progress_cons (data : bytes) (i m : nat) :
  block_progress data i (S m)
  = ((Z.of_nat i + 1) * 128, len data) :: block_progress data (S i) m.
Proof. reflexivity. Qed.

Lemma progress_calls_blocks (data : bytes) (n : Z) :
  progress_calls data n = (0, len data) :: block_progress data 0 (Z.to_nat n).
Proof. unfold progress_calls, block_progress, range. now rewrite map_map. Qed.

(** One block with a callback: the callback is called once when the
    exchange returned, and not at all otherwise. *)
Lemma block_body_progress (data : bytes) (max_failures : Z) (f : callback) (i : nat)
    (w : World) (r : outcome flow) (w' : World) :
  block_body data max_failures (Some f) (Z.of_nat i) w = (r, w') ->
  exists t,
    w_trace w' = w_trace w ++ t /\
    (progress_of t = [] \/ progress_of t = [((Z.of_nat i + 1) * 128, len data)]) /\
    (returned r ->
     r = Returned Next /\ progress_of t = [((Z.of_nat i + 1) * 128, len data)]).
Proof.
  rewrite block_body_eq. intros Hrun. unfold bind at 1 in Hrun.
  destruct (send_xmodem128_crc_data (block_packet data (Z.of_nat i)) max_failures w)
    as [r1 w1] eqn:E1.
  destruct (emits_send_data _ _ _ _ _ E1) as (t1 & Ht1 & _ & Hp1).
  destruct r1 as [[]|e|].
  - unfold bind at 1 in Hrun. cbn [call_progress] in Hrun.
    exists (t1 ++ [Progress ((Z.of_nat i + 1) * 128) (len data)]).
    rewrite progress_of_app, Hp1. cbn [app progress_of flat_map].
    destruct (f ((Z.of_nat i + 1) * 128) (len data)) as [[]|e]; injection Hrun as <- <-;
      (split; [cbn [log w_trace]; rewrite Ht1; now rewrite <- app_assoc|]);
      (split; [now right|]).
    + now intros _.
    + intros [x Hx]. discriminate.
  - injection Hrun as <- <-. exists t1. split; [exact Ht1|]. split; [now left|].
    intros [x Hx]. discriminate.
  - injection Hrun as <- <-. exists t1. split; [exact Ht1|]. split; [now left|].
    intros [x Hx]. discriminate.
Qed.

Lemma blocks_progress (data : bytes) (max_failures : Z) (f : callback) (m i : nat)
    (w : World) (r : outcome flow) (w' : World) :
  for_in (map Z.of_nat (seq i m)) (block_body data max_failures (Some f)) w = (r, w') ->
  exists t,
    w_trace w' = w_trace w ++ t /\
    progress_of t `prefix_of` block_progress data i m /\
    (returned r -> progress_of t = block_progress data i m).
Proof.
  revert i w. induction m as [|m IH]; intros i w Hrun.
  - injection Hrun as <- <-. exists []. rewrite app_nil_r. now repeat split.
  - cbn [seq map] in Hrun. rewrite for_in_cons in Hrun.
    destruct (block_body data max_failures (Some f) (Z.of_nat i) w) as [r1 w1] eqn:E1.
    destruct (block_body_progress _ _ _ _ _ _ _ E1) as (t1 & Ht1 & Hp1 & Hr1).
    rewrite block_progress_cons.
    assert (Hstop : ~ returned r1 -> r = r1 -> w' = w1 ->
              exists t, w_trace w' = w_trace w ++ t /\
                progress_of t `prefix_of`
                  ((Z.of_nat i + 1) * 128, len data) :: block_progress data (S i) m /\
                (returned r ->
                 progress_of t
                 = ((Z.of_nat i + 1) * 128, len data) :: block_progress data (S i) m)).
    { intros Hn -> ->. exists t1. split; [exact Ht1|]. split.
      - destruct Hp1 as [->| ->]; [apply prefix_nil|].
        apply prefix_cons, prefix_nil.
      - intros Hr. contradiction. }
    destruct r1 as [[|]|e|].
    + destruct (Hr1 ltac:(now exists Next)) as [_ Hp].
      destruct (IH (S i) w1 Hrun) as (t2 & Ht2 & Hp2 & Hr2).
      exists (t1 ++ t2). split; [now rewrite Ht2, Ht1, app_assoc|].
      rewrite progress_of_app, Hp. cbn [app]. split; [now apply prefix_cons|].
      intros Hr. now rewrite (Hr2 Hr).
    + destruct (Hr1 ltac:(now exists Return_)) as [Habs _]. discriminate.
    + injection Hrun as <- <-. apply Hstop; [intros [x Hx]; discriminate|reflexivity..].
    + injection Hrun as <- <-. apply Hstop; [intros [x Hx]; discriminate|reflexivity..].
Qed.

(** Without a callback, no call of it. *)
Lemma emits_transfer_no_callback (data : bytes) (max_failures : Z) :
  emits no_progress (transfer data max_failures None).
Proof.
  pose proof closed_no_progress as Hc. unfold transfer.
  apply emits_seq; [exact Hc| |intros _].
  { eapply emits_weaken; [|apply emits_readuntil]. intros t [->|[c ->]]; reflexivity. }
  apply emits_seq; [exact Hc| |intros _].
  { eapply emits_weaken; [|apply emits_call_progress]. now intros t ->. }
  apply emits_seq; [exact Hc| |intros _].
  { eapply emits_weaken; [|apply emits_buffer_clear]. now intros t [d ->]. }
  apply emits_seq; [exact Hc| |intros _].
  { apply emits_for_in; [exact Hc|]. intros index. rewrite block_body_eq.
    apply emits_seq; [exact Hc| |intros _].
    { eapply emits_weaken; [|apply emits_send_data]. now intros t [_ H]. }
    apply emits_seq; [exact Hc| |intros _; now apply emits_ret].
    eapply emits_weaken; [|apply emits_call_progress]. now intros t ->. }
  rewrite eot_bytes. cbn [lift]. unfold bind at 1, ret.
  eapply emits_weaken; [|apply emits_send_data]. now intros t [_ H].
Qed.

(** The body of the [try] statement with a callback. *)
Lemma transfer_progress (data : bytes) (max_failures : Z) (f : callback)
    (w : World) (r : outcome unit) (w' : World) :
  transfer data max_failures (Some f) w = (r, w') ->
  exists t,
    w_trace w' = w_trace w ++ t /\
    progress_of t `prefix_of` progress_calls data (len data / 128) /\
    (returned r -> progress_of t = progress_calls data (len data / 128)).
Proof.
  intros Hrun. rewrite progress_calls_blocks.
  unfold transfer in Hrun. unfold bind at 1 in Hrun.
  destruct (readuntil "C"%byte w) as [r0 w0] eqn:E0.
  destruct (emits_readuntil _ _ _ _ E0) as (t0 & Ht0 & Hs0).
  assert (Hp0 : progress_of t0 = []) by (destruct Hs0 as [->|[c ->]]; reflexivity).
  assert (Hstop : forall t, progress_of t = [] \/ progress_of t = [(0, len data)] ->
            ~ returned r -> w_trace w' = w_trace w ++ t ->
            exists t, w_trace w' = w_trace w ++ t /\
              progress_of t `prefix_of`
                (0, len data) :: block_progress data 0 (Z.to_nat (len data / 128)) /\
              (returned r ->
               progress_of t
               = (0, len data) :: block_progress data 0 (Z.to_nat (len data / 128)))).
  { intros t Hp Hn Ht. exists t. split; [exact Ht|]. split; [|intros; contradiction].
    destruct Hp as [->| ->]; [apply prefix_nil|apply prefix_cons, prefix_nil]. }
  destruct r0 as [chunk|e|].
  2:{ injection Hrun as <- <-. apply (Hstop t0); auto. intros [x Hx]. discriminate. }
  2:{ injection Hrun as <- <-. apply (Hstop t0); auto. intros [x Hx]. discriminate. }
  unfold bind at 1 in Hrun. cbn [call_progress] in Hrun.
  destruct (f 0 (len data)) as [[]|e]; cbn [lift] in Hrun.
  2:{ injection Hrun as <- <-.
      apply (Hstop (t0 ++ [Progress 0 (len data)])).
      - rewrite progress_of_app, Hp0. now right.
      - intros [x Hx]. discriminate.
      - cbn [log w_trace]. rewrite Ht0. now rewrite <- app_assoc. }
  unfold ret at 1 in Hrun. unfold bind at 1 in Hrun. unfold buffer_clear at 1 in Hrun.
  unfold bind at 1 in Hrun. change BLOCK_SIZE with 128 in Hrun.
  rewrite range_seq in Hrun.
  match type of Hrun with
  | context [for_in _ _ ?w2] => set (w2' := w2) in *;
      destruct (for_in (map Z.of_nat (seq 0 (Z.to_nat (len data / 128))))
                  (block_body data max_failures (Some f)) w2') as [r2 w3] eqn:E2
  end.
  destruct (blocks_progress _ _ _ _ _ _ _ _ E2) as (t2 & Ht2 & Hp2 & Hr2).
  assert (Hw2 : w_trace w2'
                = w_trace w ++ t0 ++ [Progress 0 (len data); BufferClear (w_buffer w0)]).
  { subst w2'. cbn [log w_trace with_reader]. rewrite Ht0. now rewrite <- !app_assoc. }
  destruct r2 as [fl|e|].
  2:{ injection Hrun as <- <-.
      exists (t0 ++ [Progress 0 (len data); BufferClear (w_buffer w0)] ++ t2).
      split; [rewrite Ht2, Hw2; now rewrite <- !app_assoc|].
      rewrite !progress_of_app, Hp0. cbn [app progress_of flat_map].
      split; [now apply prefix_cons|]. intros [x Hx]. discriminate. }
  2:{ injection Hrun as <- <-.
      exists (t0 ++ [Progress 0 (len data); BufferClear (w_buffer w0)] ++ t2).
      split; [rewrite Ht2, Hw2; now rewrite <- !app_assoc|].
      rewrite !progress_of_app, Hp0. cbn [app progress_of flat_map].
      split; [now apply prefix_cons|]. intros [x Hx]. discriminate. }
  rewrite eot_bytes in Hrun. cbn [lift] in Hrun. unfold bind at 1, ret in Hrun.
  destruct (emits_send_data _ _ _ _ _ Hrun) as (t4 & Ht4 & _ & Hp4).
  exists (t0 ++ [Progress 0 (len data); BufferClear (w_buffer w0)] ++ t2 ++ t4).
  split; [rewrite Ht4, Ht2, Hw2; now rewrite <- !app_assoc|].
  rewrite !progress_of_app, Hp0, Hp4, (Hr2 ltac:(now exists fl)).
  cbn [app progress_of flat_map]. rewrite app_nil_r. split; [reflexivity|]. now intros _.
Qed.

(** In every run, whatever the receiver and the event loop do, the calls
    of the progress callback are an initial part of the calls
    [(0, len(data))], [(128, len(data))], ..., [(len(data), len(data))], in
    this order; a run that returns has made them all, and without a
    callback there is none. *)
Theorem send_progress_prefix (data : bytes) (max_failures : Z)
    (progress_callback : option callback) (w : World) :
  exists t,
    w_trace (send_xmodem128_crc data max_failures progress_callback w).2 = w_trace w ++ t /\
    progress_of t `prefix_of` progress_calls data (len data / 128) /\
    (progress_callback = None -> progress_of t = []) /\
    (progress_callback <> None ->
     returned (send_xmodem128_crc data max_failures progress_callback w).1 ->
     progress_of t = progress_calls data (len data / 128)).
Proof.
  destruct (Z.eq_dec (len data mod 128) 0) as [Hlen|Hlen].
  2:{ rewrite send_xmodem128_crc_eq. change BLOCK_SIZE with 128.
      destruct (Z.eqb_spec (len data mod 128) 0) as [E|_]; [contradiction|].
      exists []. cbn [snd fst raise_ negb]. rewrite app_nil_r. split; [reflexivity|].
      split; [apply prefix_nil|]. split; [reflexivity|]. intros _ [x Hx]. discriminate. }
  rewrite (send_enters _ _ _ _ Hlen).
  destruct (transfer data max_failures progress_callback (swapped w)) as [r3 w3] eqn:Hbody.
  assert (Hbody' : exists t3,
            w_trace w3 = w_trace (swapped w) ++ t3 /\
            progress_of t3 `prefix_of` progress_calls data (len data / 128) /\
            (progress_callback = None -> progress_of t3 = []) /\
            (progress_callback <> None -> returned r3 ->
             progress_of t3 = progress_calls data (len data / 128))).
  { destruct progress_callback as [f|].
    - destruct (transfer_progress _ _ _ _ _ _ Hbody) as (t3 & Ht3 & Hp3 & Hr3).
      exists t3. split; [exact Ht3|]. split; [exact Hp3|]. split; [discriminate|].
      intros _. exact Hr3.
    - destruct (emits_transfer_no_callback _ _ _ _ _ Hbody) as (t3 & Ht3 & Hp3).
      exists t3. split; [exact Ht3|]. unfold no_progress in Hp3. rewrite Hp3.
      split; [apply prefix_nil|]. split; [reflexivity|]. intros H. contradiction. }
  destruct Hbody' as (t3 & Ht3 & Hp3 & Hn3 & Hr3). rewrite swapped_trace in Ht3.
  destruct r3 as [[]|e|].
  - rewrite (try_finally_ended _ _ _ _ _ Hbody) by discriminate.
    exists ([SetProtocol StreamReaderProtocol] ++ t3 ++ [SetProtocol (w_protocol w)]).
    split; [cbn [snd restored log w_trace with_protocol]; rewrite Ht3;
            now rewrite <- !app_assoc|].
    rewrite !progress_of_app. cbn [progress_of flat_map app]. rewrite app_nil_r.
    split; [exact Hp3|]. split; [exact Hn3|]. intros Hcb _. apply Hr3; [exact Hcb|].
    now exists tt.
  - rewrite (try_finally_ended _ _ _ _ _ Hbody) by discriminate.
    exists ([SetProtocol StreamReaderProtocol] ++ t3 ++ [SetProtocol (w_protocol w)]).
    split; [cbn [snd restored log w_trace with_protocol]; rewrite Ht3;
            now rewrite <- !app_assoc|].
    rewrite !progress_of_app. cbn [progress_of flat_map app]. rewrite app_nil_r.
    split; [exact Hp3|]. split; [exact Hn3|]. intros _ [x Hx]. discriminate.
  - rewrite (try_finally_suspended _ _ _ _ Hbody).
    exists ([SetProtocol StreamReaderProtocol] ++ t3).
    split; [cbn [snd]; rewrite Ht3; now rewrite <- !app_assoc|].
    rewrite !progress_of_app. cbn [progress_of flat_map app].
    split; [exact Hp3|]. split; [exact Hn3|]. intros _ [x Hx]. discriminate.
Qed.

(** *** A negative bound *)

Lemma blocks_negative (data : bytes) (max_failures : Z)
    (progress_callback : option callback) (m i : nat) (w : World) :
  max_failures < 0 -> returns progress_callback ->
  exists w',
    for_in (map Z.of_nat (seq i m)) (block_body data max_failures progress_callback) w
    = (Returned Next, w') /\
    w_trace w' = w_trace w
                 ++ concat (map (fun j => progress_events progress_callback
                                            ((Z.of_nat j + 1) * 128) (len data))
                                (seq i m)) /\
    w_protocol w' = w_protocol w /\ w_incoming w' = w_incoming w /\
    w_buffer w' = w_buffer w /\ w_drains w' = w_drains w.
Proof.
  intros Hmf Hcb. revert i w. induction m as [|m IH]; intros i w.
  - exists w. cbn. now rewrite app_nil_r.
  - cbn [seq map concat]. rewrite for_in_cons, block_body_eq. unfold bind at 1.
    rewrite (send_data_negative _ _ _ Hmf). unfold bind at 1.
    assert (Hcall : exists w1,
              call_progress progress_callback ((Z.of_nat i + 1) * 128) (len data) w
              = (Returned tt, w1) /\
              w_trace w1 = w_trace w
                           ++ progress_events progress_callback ((Z.of_nat i + 1) * 128)
                                (len data) /\
              w_protocol w1 = w_protocol w /\ w_incoming w1 = w_incoming w /\
              w_buffer w1 = w_buffer w /\ w_drains w1 = w_drains w).
    { destruct progress_callback as [f|]; cbn [call_progress progress_events].
      - rewrite (Hcb f eq_refl). eexists. split; [reflexivity|]. now repeat split.
      - exists w. rewrite app_nil_r. now repeat split. }
    destruct Hcall as (w1 & -> & T1 & P1 & I1 & B1 & D1). cbn [ret].
    destruct (IH (S i) w1) as (w' & Hrun & T & P & I & B & D).
    exists w'. split; [exact Hrun|]. rewrite T, T1, <- app_assoc.
    repeat split; congruence.
Qed.

(** With a negative [max_failures] the retry loop of
    [send_xmodem128_crc_data] has no iteration, so every call of it returns
    without having written or read anything: once the handshake byte has
    arrived, the transfer returns as if it had succeeded, having reported
    all the progress to the callback and sent nothing, not even the
    end-of-transmission byte. *)
Theorem send_negative_bound (data : bytes) (max_failures : Z)
    (progress_callback : option callback) (w : World) (chunk rest : bytes)
    (evs1 : list event) :
  len data mod 128 = 0 -> max_failures < 0 -> returns progress_callback ->
  handshake (w_incoming w) chunk rest evs1 ->
  (forall d w2, send_xmodem128_crc_data d max_failures w2 = (Returned tt, w2)) /\
  exists w' t,
    send_xmodem128_crc data max_failures progress_callback w = (Returned tt, w') /\
    w_trace w' = w_trace w ++ t /\
    t = [SetProtocol StreamReaderProtocol]
        ++ opening data progress_callback chunk rest
        ++ concat (map (fun j => progress_events progress_callback
                                   ((Z.of_nat j + 1) * 128) (len data))
                       (seq 0 (Z.to_nat (len data / 128))))
        ++ [SetProtocol (w_protocol w)] /\
    writes_of t = [] /\ (forall b, ~ In (Rd b) t) /\
    w_incoming w' = evs1 /\
    (progress_callback <> None -> progress_of t = progress_calls data (len data / 128)).
Proof.
  intros Hlen Hmf Hcb Hhs. split; [intros d w2; now apply send_data_negative|].
  rewrite (send_enters _ _ _ _ Hlen).
  assert (Hbody : exists w3,
            transfer data max_failures progress_callback (swapped w) = (Returned tt, w3) /\
            w_trace w3 = w_trace (swapped w)
                         ++ opening data progress_callback chunk rest
                         ++ concat (map (fun j => progress_events progress_callback
                                                    ((Z.of_nat j + 1) * 128) (len data))
                                        (seq 0 (Z.to_nat (len data / 128)))) /\
            w_incoming w3 = evs1).
  { unfold transfer. unfold bind at 1.
    rewrite (handshake_readuntil (swapped w) chunk rest evs1 eq_refl Hhs).
    unfold bind at 1.
    assert (Hcall : forall w1, exists w2,
              call_progress progress_callback 0 (len data) w1 = (Returned tt, w2) /\
              w_trace w2 = w_trace w1 ++ progress_events progress_callback 0 (len data) /\
              w_incoming w2 = w_incoming w1 /\ w_buffer w2 = w_buffer w1).
    { intros w1. destruct progress_callback as [f|]; cbn [call_progress progress_events].
      - rewrite (Hcb f eq_refl). eexists. split; [reflexivity|]. now repeat split.
      - exists w1. rewrite app_nil_r. now repeat split. }
    destruct (Hcall (log (ReadUntil chunk) (with_reader rest evs1 (swapped w))))
      as (w2 & -> & T2 & I2 & B2).
    unfold bind at 1. unfold buffer_clear at 1. unfold bind at 1.
    change BLOCK_SIZE with 128. rewrite range_seq.
    match goal with
    | |- context [for_in _ _ ?w0] =>
        destruct (blocks_negative data max_failures progress_callback
                    (Z.to_nat (len data / 128)) 0 w0 Hmf Hcb)
          as (w3 & -> & T3 & _ & I3 & _)
    end.
    rewrite eot_bytes. cbn [lift]. unfold bind at 1, ret.
    rewrite (send_data_negative _ _ _ Hmf). exists w3. split; [reflexivity|].
    split.
    - rewrite T3. cbn [log w_trace with_reader]. rewrite T2, B2. cbn [log w_trace with_reader w_buffer].
      unfold opening. now rewrite <- !app_assoc.
    - rewrite I3. cbn [log w_incoming with_reader]. rewrite I2. reflexivity. }
  destruct Hbody as (w3 & Hbody & T3 & I3).
  rewrite (try_finally_ended _ _ _ _ _ Hbody) by discriminate.
  eexists (restored (w_protocol w) w3), _. split; [reflexivity|].
  split.
  { cbn [restored log w_trace with_protocol]. rewrite T3, swapped_trace.
    rewrite <- !app_assoc. reflexivity. }
  split; [reflexivity|].
  assert (Hw : forall l,
            writes_of (concat (map (fun j => progress_events progress_callback
                                               ((Z.of_nat j + 1) * 128) (len data)) l))
            = []).
  { induction l as [|j l IH]; [reflexivity|]. cbn [map concat].
    now rewrite writes_of_app, writes_of_progress, IH. }
  assert (Hr : forall l b,
            ~ In (Rd b) (concat (map (fun j => progress_events progress_callback
                                                 ((Z.of_nat j + 1) * 128) (len data)) l))).
  { induction l as [|j l IH]; intros b; [intros []|]. cbn [map concat].
    intros Hin. apply in_app_or in Hin as [Hin|Hin]; [|now apply (IH b)].
    destruct progress_callback; cbn in Hin; [destruct Hin as [Hin|[]]; discriminate|
      contradiction]. }
  split; [|split; [|split]].
  - rewrite !writes_of_app, writes_of_opening, Hw. reflexivity.
  - intros b Hin. cbn [app] in Hin. destruct Hin as [Hin|Hin]; [discriminate|].
    apply in_app_or in Hin as [Hin|Hin].
    { unfold opening in Hin. cbn [app] in Hin. destruct Hin as [Hin|Hin]; [discriminate|].
      apply in_app_or in Hin as [Hin|Hin].
      - destruct progress_callback; cbn in Hin;
          [destruct Hin as [Hin|[]]; discriminate|contradiction].
      - destruct Hin as [Hin|[]]. discriminate. }
    apply in_app_or in Hin as [Hin|Hin]; [now apply Hr in Hin|].
    destruct Hin as [Hin|[]]. discriminate.
  - exact I3.
  - intros Hsome. destruct progress_callback as [f|]; [|contradiction].
    assert (Hp : forall l,
              progress_of (concat (map (fun j => progress_events (Some f)
                                                   ((Z.of_nat j + 1) * 128) (len data)) l))
              = map (fun j => ((Z.of_nat j + 1) * 128, len data)) l).
    { induction l as [|j l IH]; [reflexivity|]. cbn [map concat].
      rewrite progress_of_app, IH. reflexivity. }
    rewrite !progress_of_app, Hp, progress_calls_blocks.
    cbn [progress_of flat_map opening progress_events app]. now rewrite app_nil_r.
Qed.

Lemma send_negative_bound_witness :
  exists w',
    send_xmodem128_crc sample_block (-1) None (sample_world [Feed ["C"%byte]])
    = (Returned tt, w') /\
    writes_of (w_trace w') = [].
Proof.
  assert (Hlen : len sample_block mod 128 = 0) by (vm_compute; reflexivity).
  destruct (send_negative_bound sample_block (-1) None (sample_world [Feed ["C"%byte]])
              ["C"%byte] [] [] Hlen ltac:(lia) ltac:(intros f; discriminate) eq_refl)
    as (_ & w' & t & Hrun & Ht & _ & Hw & _).
  exists w'. split; [exact Hrun|]. rewrite Ht. exact Hw.
Defined.

(** *** The order of the writes, in every run *)

Lemma Forall_eq_repeat {A : Type} (x : A) (l : list A) :
  Forall (fun y => y = x) l -> l = repeat x (length l).
Proof. induction 1 as [|y l -> _ IH]; cbn; [reflexivity|now rewrite <- IH]. Qed.

Lemma exchange_writes_repeat (data : bytes) (max_failures : Z) (r : outcome unit)
    (t : list io) :
  exchange data max_failures r t -> exists k, writes_of t = repeat data (S k).
Proof.
  intros Hex. destruct (exchange_writes _ _ _ _ Hex) as [Hall _].
  destruct (exchange_head _ _ _ _ Hex) as [t' ->]. cbn [writes_of flat_map app] in *.
  exists (length (writes_of t')). inversion Hall as [|x l _ Hl]; subst.
  cbn [repeat]. f_equal. now apply Forall_eq_repeat.
Qed.

Lemma next_data_block (data : bytes) (i : nat) :
  (i < Z.to_nat (len data / 128))%nat -> next_data data i = block_packet data (Z.of_nat i).
Proof. intros H. unfold next_data. apply Nat.ltb_lt in H. now rewrite H. Qed.

Lemma next_data_end (data : bytes) (i : nat) :
  (Z.to_nat (len data / 128) <= i)%nat -> next_data data i = end_of_transmission.
Proof. intros H. unfold next_data. apply Nat.ltb_ge in H. now rewrite H. Qed.

Lemma session_writes (data : bytes) (max_failures : Z)
    (progress_callback : option callback) (i m : nat) (r : outcome unit) (t : list io) :
  session data max_failures progress_callback i m r t ->
  (i + m = Z.to_nat (len data / 128))%nat ->
  exists ks k,
    (length ks <= m)%nat /\
    writes_of t = blocks_writes data i ks ++ repeat (next_data data (i + length ks)) k.
Proof.
  induction 1 as [i r t Hex|i m r t Hex Hnr|i m t f e Hex Hcb Hf|i m t r t' Hex Hse IH];
    intros Hsum.
  - destruct (exchange_writes_repeat _ _ _ _ Hex) as [k Hk].
    exists [], (S k). split; [cbn; lia|]. cbn [blocks_writes app length].
    rewrite next_data_end by lia. exact Hk.
  - destruct (exchange_writes_repeat _ _ _ _ Hex) as [k Hk].
    exists [], (S k). split; [cbn; lia|]. cbn [blocks_writes app length].
    rewrite Nat.add_0_r, next_data_block by lia. exact Hk.
  - destruct (exchange_writes_repeat _ _ _ _ Hex) as [k Hk].
    exists [k], 0%nat. split; [cbn; lia|]. rewrite writes_of_app, Hk.
    cbn [blocks_writes repeat writes_of flat_map app]. now rewrite !app_nil_r.
  - destruct (exchange_writes_repeat _ _ _ _ Hex) as [k Hk].
    destruct (IH ltac:(lia)) as (ks & k' & Hlen & Hw).
    exists (k :: ks), k'. split; [cbn; lia|].
    rewrite !writes_of_app, Hk, writes_of_progress, Hw. cbn [blocks_writes app length].
    rewrite <- app_assoc. now replace (i + S (length ks))%nat with (S i + length ks)%nat by lia.
Qed.

(** In every run with a bound that is not negative, whether it returns,
    fails, is cancelled or stays suspended, what has been written is: the
    packets of the first blocks, in the order of the blocks, each at least
    once, and then possibly the packet that comes next (the next block, or
    the end-of-transmission byte when all blocks are through), any number
    of times.  No block is skipped, none is sent before the one before it
    was acknowledged, and the end of the transmission is not sent before
    the last block was. *)
Theorem send_writes_in_order (data : bytes) (max_failures : Z)
    (progress_callback : option callback) (w : World) :
  len data mod 128 = 0 -> 0 <= max_failures ->
  exists t ks k,
    w_trace (send_xmodem128_crc data max_failures progress_callback w).2 = w_trace w ++ t /\
    (length ks <= Z.to_nat (len data / 128))%nat /\
    writes_of t = blocks_writes data 0 ks ++ repeat (next_data data (length ks)) k.
Proof.
  intros Hlen Hmf.
  destruct (send_shape data max_failures progress_callback w Hlen Hmf)
    as (r & w' & t & Hrun & Hshape & Htrace & _).
  rewrite Hrun. cbn [snd].
  assert (Hwr : forall t0, writes_of ([SetProtocol StreamReaderProtocol] ++ t0
                                       ++ closing r (w_protocol w)) = writes_of t0).
  { intros t0. rewrite !writes_of_app. cbn [writes_of flat_map app].
    destruct r; cbn; now rewrite app_nil_r. }
  inversion Hshape as [r0 buf evs' Hloop Hnr Hr|chunk rest evs' f e Hhs Hcb Hf|
                       chunk rest evs' r0 t0 Hhs Hse]; subst.
  - eexists _, [], 0%nat. split; [exact Htrace|]. split; [cbn; lia|].
    rewrite Hwr. reflexivity.
  - eexists _, [], 0%nat. split; [exact Htrace|]. split; [cbn; lia|].
    rewrite Hwr. reflexivity.
  - destruct (session_writes _ _ _ _ _ _ _ Hse ltac:(lia)) as (ks & k & Hks & Hw).
    eexists _, ks, k. split; [exact Htrace|]. split; [exact Hks|].
    rewrite Hwr, writes_of_app, writes_of_opening. exact Hw.
Qed.

Lemma send_writes_in_order_witness :
  exists t ks k,
    w_trace (send_xmodem128_crc sample_block 3 None
               (sample_world [Feed ["C"%byte]; Feed [nak; can]])).2 = t /\
    writes_of t = blocks_writes sample_block 0 ks ++ repeat (next_data sample_block (length ks)) k.
Proof.
  assert (Hlen : len sample_block mod 128 = 0) by (vm_compute; reflexivity).
  destruct (send_writes_in_order sample_block 3 None
              (sample_world [Feed ["C"%byte]; Feed [nak; can]]) Hlen ltac:(lia))
    as (t & ks & k & Ht & _ & Hw).
  exists t, ks, k. split; [exact Ht|exact Hw].
Defined.

(** *** More than the limit of the reader before the handshake byte *)

Lemma readuntil_loop_eq (sep : byte) (buf : bytes) (evs : list event) :
  readuntil_loop sep buf evs
  = match find_byte sep buf with
    | Some isep =>
        if Z.of_nat isep >? limit then (Raised LimitOverrunError, buf, evs)
        else (Returned (firstn (S isep) buf), skipn (S isep) buf, evs)
    | None =>
        if len buf >? limit then (Raised LimitOverrunError, buf, evs)
        else
          match evs with
          | [] => (Suspended, buf, [])
          | Throw e :: evs' => (Raised e, buf, evs')
          | Feed chunk :: evs' => readuntil_loop sep (buf ++ chunk) evs'
          end
    end.
Proof. destruct evs; reflexivity. Qed.

Lemma find_byte_none (sep : byte) (buf : bytes) : ~ In sep buf -> find_byte sep buf = None.
Proof.
  induction buf as [|b buf IH]; intros Hn; [reflexivity|]. cbn [find_byte].
  destruct (Byte.eqb b sep) eqn:E.
  - apply Byte.byte_dec_bl in E. subst b. exfalso. apply Hn. now left.
  - rewrite IH; [reflexivity|]. intros Hin. apply Hn. now right.
Qed.

Lemma readuntil_loop_overrun (sep : byte) (chunks : list bytes) (evs' : list event)
    (buf : bytes) :
  ~ In sep (buf ++ concat chunks) -> limit < len (buf ++ concat chunks) ->
  exists buf' evs'',
    readuntil_loop sep buf (map Feed chunks ++ evs') = (Raised LimitOverrunError, buf', evs'').
Proof.
  revert buf. induction chunks as [|c chunks IH]; intros buf Hn Hl.
  - cbn [concat] in Hn, Hl. rewrite app_nil_r in Hn, Hl.
    rewrite readuntil_loop_eq, (find_byte_none _ _ Hn).
    destruct (Z.gtb_spec (len buf) limit); [eauto|lia].
  - rewrite readuntil_loop_eq. rewrite find_byte_none.
    2:{ intros Hin. apply Hn, in_or_app. now left. }
    destruct (Z.gtb_spec (len buf) limit); [eauto|].
    cbn [map app]. apply IH; cbn [concat] in Hn, Hl; now rewrite <- app_assoc.
Qed.

(** When more than 65536 bytes arrive without a "C" among them, the
    search for the handshake byte gives up: the call raises
    [asyncio.LimitOverrunError], with the old protocol restored and
    nothing written. *)
Theorem send_limit_overrun (data : bytes) (max_failures : Z)
    (progress_callback : option callback) (w : World) (chunks : list bytes)
    (evs' : list event) :
  len data mod 128 = 0 ->
  w_incoming w = map Feed chunks ++ evs' ->
  ~ In "C"%byte (concat chunks) -> 65536 < len (concat chunks) ->
  exists w',
    send_xmodem128_crc data max_failures progress_callback w
    = (Raised LimitOverrunError, w') /\
    w_trace w' = w_trace w ++ [SetProtocol StreamReaderProtocol; SetProtocol (w_protocol w)] /\
    w_protocol w' = w_protocol w.
Proof.
  intros Hlen Hin Hn Hl. rewrite (send_enters _ _ _ _ Hlen).
  destruct (readuntil_loop_overrun "C"%byte chunks evs' [] Hn Hl) as (buf' & evs'' & Hloop).
  assert (Hbody : transfer data max_failures progress_callback (swapped w)
                  = (Raised LimitOverrunError, with_reader buf' evs'' (swapped w))).
  { unfold transfer. unfold bind at 1. unfold readuntil.
    change (w_buffer (swapped w)) with (@nil byte).
    change (w_incoming (swapped w)) with (w_incoming w). rewrite Hin, Hloop. reflexivity. }
  rewrite (try_finally_ended _ _ _ _ _ Hbody) by discriminate.
  eexists. split; [reflexivity|]. split; [|reflexivity].
  cbn [restored log w_trace with_protocol with_reader swapped]. now rewrite <- app_assoc.
Qed.

Lemma send_limit_overrun_witness :
  exists w',
    send_xmodem128_crc sample_block 3 None
      (sample_world [Feed (repeat "x"%byte (Z.to_nat 65537)); Feed ["C"%byte]])
    = (Raised LimitOverrunError, w') /\
    w_protocol w' = CallerProtocol 0.
Proof.
  assert (Hlen : len sample_block mod 128 = 0) by (vm_compute; reflexivity).
  assert (Hn : ~ In "C"%byte (concat [repeat "x"%byte (Z.to_nat 65537)])).
  { cbn [concat]. rewrite app_nil_r. intros Hin. apply repeat_spec in Hin. discriminate. }
  assert (Hl : 65536 < len (concat [repeat "x"%byte (Z.to_nat 65537)])).
  { cbn [concat]. rewrite app_nil_r, len_repeat. lia. }
  destruct (send_limit_overrun sample_block 3 None
              (sample_world [Feed (repeat "x"%byte (Z.to_nat 65537)); Feed ["C"%byte]])
              [repeat "x"%byte (Z.to_nat 65537)] [Feed ["C"%byte]] Hlen eq_refl Hn Hl)
    as (w' & Hrun & _ & Hp).
  exists w'. split; [exact Hrun|exact Hp].
Defined.

(** *** Exceptions and suspension, in every run *)

(** The whole call, once the length check has passed. *)
Lemma send_tracks (data : bytes) (max_failures : Z)
    (progress_callback : option callback) (w : World) (r : outcome unit) (w' : World) :
  len data mod 128 = 0 ->
  send_xmodem128_crc data max_failures progress_callback w = (r, w') ->
  exists evs ds t,
    w_incoming w = evs ++ w_incoming w' /\
    w_drains w = ds ++ w_drains w' /\
    w_trace w' = w_trace w ++ [SetProtocol StreamReaderProtocol] ++ t
                 ++ closing r (w_protocol w) /\
    propagates progress_callback evs ds t r /\
    (forall e, r = Raised e -> origin progress_callback max_failures evs ds t e) /\
    (r = Suspended ->
     w_protocol w' = StreamReaderProtocol /\
     (w_incoming w' = [] \/ exists pre, ds = pre ++ [Suspended])).
Proof.
  intros Hlen Hrun. rewrite (send_enters _ _ _ _ Hlen) in Hrun.
  destruct (transfer data max_failures progress_callback (swapped w)) as [r3 w3] eqn:Hbody.
  destruct (tracks_transfer _ _ _ _ _ _ Hbody)
    as (P & evs & ds & t & I & D & T & S & O & U).
  rewrite forget_unit in S.
  assert (Hcase : (r3 <> Suspended /\ r = r3 /\ w' = restored (w_protocol w) w3) \/
                  (r3 = Suspended /\ r = Suspended /\ w' = w3)).
  { destruct r3 as [[]|e3|].
    - rewrite (try_finally_ended _ _ _ _ _ Hbody) in Hrun by discriminate.
      injection Hrun as <- <-. left. now repeat split.
    - rewrite (try_finally_ended _ _ _ _ _ Hbody) in Hrun by discriminate.
      injection Hrun as <- <-. left. now repeat split.
    - rewrite (try_finally_suspended _ _ _ _ Hbody) in Hrun.
      injection Hrun as <- <-. right. now repeat split. }
  exists evs, ds, t.
  destruct Hcase as [(Hns & -> & ->)|(-> & -> & ->)].
  - split; [exact I|]. split; [exact D|]. split.
    { cbn [restored log with_protocol w_trace]. rewrite T, swapped_trace.
      rewrite <- !app_assoc. destruct r3 as [[]|e3|]; [reflexivity..|contradiction]. }
    split; [exact S|]. split; [exact O|]. intros ->. contradiction.
  - split; [exact I|]. split; [exact D|]. split.
    { rewrite T, swapped_trace. cbn [closing]. now rewrite app_nil_r, <- app_assoc. }
    split; [exact S|]. split; [exact O|]. intros _. split; [exact P|]. now apply U.
Qed.

(** An exception thrown into the wait for the handshake byte. *)
Lemma readuntil_loop_thrown (sep : byte) (chunks : list bytes) (e : exn)
    (evs' : list event) (buf : bytes) :
  ~ In sep (buf ++ concat chunks) -> len (buf ++ concat chunks) <= limit ->
  readuntil_loop sep buf (map Feed chunks ++ Throw e :: evs')
  = (Raised e, buf ++ concat chunks, evs').
Proof.
  revert buf. induction chunks as [|c chunks IH]; intros buf Hn Hl.
  - cbn [concat] in *. rewrite app_nil_r in *.
    rewrite readuntil_loop_eq, (find_byte_none _ _ Hn).
    destruct (Z.gtb_spec (len buf) limit); [lia|reflexivity].
  - rewrite readuntil_loop_eq. rewrite find_byte_none.
    2:{ intros Hin. apply Hn, in_or_app. now left. }
    pose proof (len_nonneg (concat (c :: chunks))) as Hnn. rewrite len_app in Hl.
    destruct (Z.gtb_spec (len buf) limit); [lia|].
    cbn [map app concat] in *. rewrite app_assoc. apply IH.
    + now rewrite <- app_assoc.
    + now rewrite <- app_assoc, len_app.
Qed.

(** An attempt whose flush does not complete. *)
Lemma attempt_flush (data : bytes) (max_failures a : Z) (w : World)
    (x : outcome unit) (ds : list (outcome unit)) :
  w_drains w = x :: ds -> x <> Returned tt ->
  exists r, attempt data max_failures a w = (r, with_drains ds (log (Wr data) w)) /\
            forget r = x.
Proof.
  intros Hd Hx. unfold attempt, bind, write, drain. cbn [log w_drains]. rewrite Hd.
  destruct x as [[]|e|]; [contradiction| |]; eexists; split; reflexivity.
Qed.

(** An attempt whose flush completes and whose wait for the response
    raises or never ends. *)
Lemma attempt_unanswered (data : bytes) (max_failures a : Z) (w : World)
    (r0 : outcome byte) (buf : bytes) (evs : list event) :
  quiet w ->
  readexactly_loop (w_buffer w) (w_incoming w) = (r0, buf, evs) -> ~ returned r0 ->
  exists r w',
    attempt data max_failures a w = (r, w') /\ forget r = forget r0 /\
    evolves w w' [Wr data] /\ w_buffer w' = buf /\ w_incoming w' = evs /\ quiet w'.
Proof.
  intros Hq Hread Hnr. unfold attempt, bind, write.
  destruct (quiet_drain (log (Wr data) w) Hq) as (w1 & -> & Ht & Hp & Hb & Hi & Hq1).
  unfold readexactly_1. rewrite Hb, Hi. cbn [log w_buffer w_incoming]. rewrite Hread.
  destruct r0 as [b|e|].
  - exfalso. apply Hnr. now exists b.
  - exists (Raised e), (with_reader buf evs w1). split; [reflexivity|].
    split; [reflexivity|]. split; [split; cbn; [exact Ht|exact Hp]|]. now repeat split.
  - exists Suspended, (with_reader buf evs w1). split; [reflexivity|].
    split; [reflexivity|]. split; [split; cbn; [exact Ht|exact Hp]|]. now repeat split.
Qed.

(** [k] NAKs within the bound, and then a wait for the response that
    raises or never ends. *)
Lemma attempts_unanswered (data : bytes) (max_failures : Z) (k n a : nat) (w : World)
    (buf1 : bytes) (evs1 : list event) (r0 : outcome byte) (buf' : bytes)
    (evs' : list event) :
  quiet w ->
  Z.of_nat a + Z.of_nat n = max_failures + 1 -> (k < n)%nat ->
  answers (w_buffer w) (w_incoming w) (repeat (symbol_byte NAK) k) buf1 evs1 ->
  readexactly_loop buf1 evs1 = (r0, buf', evs') -> ~ returned r0 ->
  exists r w',
    for_in (map Z.of_nat (seq a n)) (attempt data max_failures) w = (r, w') /\
    forget r = forget r0 /\
    evolves w w' (concat (repeat [Wr data; Rd (symbol_byte NAK)] k) ++ [Wr data]) /\
    w_incoming w' = evs'.
Proof.
  revert n a w. induction k as [|k IH]; intros n a w Hq Hsum Hk Hans Hread Hnr.
  - destruct n as [|n]; [lia|]. cbn [seq map]. rewrite for_in_cons.
    inversion Hans; subst.
    destruct (attempt_unanswered data max_failures (Z.of_nat a) w r0 buf' evs' Hq Hread Hnr)
      as (r & w1 & Hrun & Hf & Hev & Hb & Hi & Hq1).
    rewrite Hrun. destruct r as [x|e|].
    + exfalso. apply Hnr. destruct r0 as [b|e|]; [now exists b|discriminate..].
    + exists (Raised e), w1. now repeat split; try apply Hev.
    + exists Suspended, w1. now repeat split; try apply Hev.
  - destruct n as [|n]; [lia|]. cbn [seq map]. rewrite for_in_cons.
    cbn [repeat] in Hans. inversion Hans as [|? ? ? bufa evsa ? ? ? Hrd Hrest]; subst.
    destruct (attempt_answered data max_failures (Z.of_nat a) w _ bufa evsa Hq Hrd)
      as (w1 & Hrun & Hev & Hb & Hi & Hq1).
    rewrite Hrun, respond_nak_retry by lia.
    rewrite <- Hb, <- Hi in Hrest.
    destruct (IH n (S a) w1 Hq1 ltac:(lia) ltac:(lia) Hrest Hread Hnr)
      as (r & w2 & Hrun2 & Hf & Hev2 & Hi2).
    exists r, w2. split; [exact Hrun2|]. split; [exact Hf|]. split; [|exact Hi2].
    destruct Hev as [Ht Hp], Hev2 as [Ht2 Hp2]. split; [|congruence].
    rewrite Ht2, Ht. cbn [repeat concat]. now rewrite <- !app_assoc.
Qed.

Lemma send_data_unanswered (data : bytes) (max_failures : Z) (k : nat) (w : World)
    (buf1 : bytes) (evs1 : list event) (r0 : outcome byte) (buf' : bytes)
    (evs' : list event) :
  quiet w -> Z.of_nat k <= max_failures ->
  answers (w_buffer w) (w_incoming w) (repeat (symbol_byte NAK) k) buf1 evs1 ->
  readexactly_loop buf1 evs1 = (r0, buf', evs') -> ~ returned r0 ->
  exists w',
    send_xmodem128_crc_data data max_failures w = (forget r0, w') /\
    evolves w w' (concat (repeat [Wr data; Rd (symbol_byte NAK)] k) ++ [Wr data]) /\
    w_incoming w' = evs'.
Proof.
  intros Hq Hk Hans Hread Hnr. rewrite send_xmodem128_crc_data_eq, range_seq. unfold bind.
  destruct (attempts_unanswered data max_failures k (Z.to_nat (max_failures + 1)) 0 w
              buf1 evs1 r0 buf' evs' Hq ltac:(lia) ltac:(lia) Hans Hread Hnr)
    as (r & w' & Hrun & Hf & Hev & Hi).
  rewrite Hrun. exists w'. split; [|split; assumption].
  rewrite <- Hf. destruct r as [x|e|]; [|reflexivity..].
  exfalso. apply Hnr. destruct r0 as [b|e|]; [now exists b|discriminate..].
Qed.

Lemma send_data_flush (data : bytes) (max_failures : Z) (w : World)
    (x : outcome unit) (ds : list (outcome unit)) :
  0 <= max_failures -> w_drains w = x :: ds -> x <> Returned tt ->
  send_xmodem128_crc_data data max_failures w = (x, with_drains ds (log (Wr data) w)).
Proof.
  intros Hmf Hd Hx. rewrite send_xmodem128_crc_data_eq, range_seq. unfold bind.
  destruct (Z.to_nat (max_failures + 1)) as [|n] eqn:E; [lia|].
  cbn [seq map]. rewrite for_in_cons.
  destruct (attempt_flush data max_failures (Z.of_nat 0) w x ds Hd Hx) as (r & -> & Hf).
  destruct r as [y|e|]; cbn [forget] in Hf; subst x; [contradiction|reflexivity..].
Qed.

(** The sender swallows no exception and invents none.  Of what a run took
    from the event loop, of its flushes and of its calls of the progress
    callback, only the last can be an exception thrown into a wait, a flush
    that raises, or a call that raises, and the run then ends with that
    exception, after the [finally] block.  An exception that leaves the
    call is the [ValueError] of the length check, one of the three failures
    that the sender raises in reaction to a response, the
    [LimitOverrunError] of the search for the handshake byte, or came in
    this way.  And the exceptions do come out: one thrown into the wait for
    the handshake byte, one raised by the first call of the callback, one
    thrown into the wait for a response (to any block or to the end of the
    transmission, after any number of NAKs within the bound), and one
    raised by a flush. *)
Theorem send_failure_origin (data : bytes) (max_failures : Z)
    (progress_callback : option callback) (w : World) :
  let r := (send_xmodem128_crc data max_failures progress_callback w).1 in
  let w' := (send_xmodem128_crc data max_failures progress_callback w).2 in
  (exists evs ds t,
     w_incoming w = evs ++ w_incoming w' /\
     w_drains w = ds ++ w_drains w' /\
     w_trace w' = w_trace w ++ t /\
     (forall pre e post, evs = pre ++ Throw e :: post -> post = [] /\ r = Raised e) /\
     (forall pre e post, ds = pre ++ Raised e :: post -> post = [] /\ r = Raised e) /\
     (forall f pre done total post e,
        progress_callback = Some f -> t = pre ++ Progress done total :: post ->
        f done total = Raise e ->
        post = [SetProtocol (w_protocol w)] /\ r = Raised e) /\
     (forall e, r = Raised e ->
        e = InvalidInput (len data) \/
        e = TooManyFailures max_failures \/
        e = ReceiverCancelled \/
        (exists b, e = ProtocolViolation b) \/
        e = LimitOverrunError \/
        (exists pre, evs = pre ++ [Throw e]) \/
        (exists pre, ds = pre ++ [Raised e]) \/
        (exists f pre done total,
           progress_callback = Some f /\ f done total = Raise e /\
           t = pre ++ [Progress done total; SetProtocol (w_protocol w)]))) /\
  (forall chunks e evs',
     len data mod 128 = 0 ->
     w_incoming w = map Feed chunks ++ Throw e :: evs' ->
     ~ In "C"%byte (concat chunks) -> len (concat chunks) <= 65536 ->
     r = Raised e /\ w_incoming w' = evs' /\ w_protocol w' = w_protocol w) /\
  (forall chunk rest evs1 f e,
     len data mod 128 = 0 -> handshake (w_incoming w) chunk rest evs1 ->
     progress_callback = Some f -> f 0 (len data) = Raise e ->
     r = Raised e /\ w_protocol w' = w_protocol w) /\
  (forall chunk rest evs1 ks k buf2 evs2 e buf' evs',
     len data mod 128 = 0 -> quiet w -> returns progress_callback ->
     handshake (w_incoming w) chunk rest evs1 ->
     Forall (fun k => Z.of_nat k <= max_failures) ks ->
     (length ks <= Z.to_nat (len data / 128))%nat -> Z.of_nat k <= max_failures ->
     answers [] evs1 (responses ks ++ repeat (symbol_byte NAK) k) buf2 evs2 ->
     readexactly_loop buf2 evs2 = (Raised e, buf', evs') ->
     r = Raised e /\ w_incoming w' = evs' /\ w_protocol w' = w_protocol w) /\
  (forall d w2 e ds,
     0 <= max_failures -> w_drains w2 = Raised e :: ds ->
     send_xmodem128_crc_data d max_failures w2
     = (Raised e, with_drains ds (log (Wr d) w2))).
Proof.
  cbv zeta. split; [|split; [|split; [|split]]].
  - destruct (Z.eq_dec (len data mod 128) 0) as [Hlen|Hlen].
    + destruct (send_xmodem128_crc data max_failures progress_callback w) as [r w'] eqn:Hrun.
      cbn [fst snd].
      destruct (send_tracks _ _ _ _ _ _ Hlen Hrun) as (evs & ds & t & I & D & T & S & O & _).
      destruct S as (S1 & S2 & S3).
      exists evs, ds, ([SetProtocol StreamReaderProtocol] ++ t ++ closing r (w_protocol w)).
      split; [exact I|]. split; [exact D|]. split; [exact T|].
      split; [exact S1|]. split; [|split].
      * intros pre e post Heq. apply (S2 _ _ _ Heq). discriminate.
      * intros f pre done total post e Hf Heq He.
        apply in_app_split in Heq as [(post1 & Heq & _)|(pre2 & _ & Heq)].
        { destruct pre as [|y pre]; [discriminate|now destruct pre]. }
        apply in_app_split in Heq as [(post1 & Heq & ->)|(pre3 & _ & Heq)].
        -- destruct (S3 _ _ _ _ _ _ Hf Heq He) as [-> ->]. now split.
        -- exfalso. destruct r as [[]|e0|]; cbn [closing] in Heq.
           ++ destruct pre3 as [|y pre3]; [discriminate|now destruct pre3].
           ++ destruct pre3 as [|y pre3]; [discriminate|now destruct pre3].
           ++ now destruct pre3.
      * intros e ->.
        destruct (O e eq_refl)
          as [[H|[H|H]]|[H|[H|[H|(f & pre & done & total & Hf & He & ->)]]]]; auto 10.
        do 7 right. exists f, ([SetProtocol StreamReaderProtocol] ++ pre), done, total.
        split; [exact Hf|]. split; [exact He|]. cbn [closing]. now rewrite <- !app_assoc.
    + rewrite send_xmodem128_crc_eq. change BLOCK_SIZE with 128.
      destruct (Z.eqb_spec (len data mod 128) 0) as [E|_]; [contradiction|].
      cbn [negb raise_ fst snd].
      exists [], [], []. rewrite app_nil_r.
      split; [reflexivity|]. split; [reflexivity|]. split; [reflexivity|].
      split; [intros pre e post H; now destruct pre|].
      split; [intros pre e post H; now destruct pre|].
      split; [intros f pre done total post e _ H; now destruct pre|].
      intros e [= <-]. now left.
  - intros chunks e evs' Hlen Hin Hn Hl. rewrite (send_enters _ _ _ _ Hlen).
    assert (Hbody : transfer data max_failures progress_callback (swapped w)
                    = (Raised e, with_reader (concat chunks) evs' (swapped w))).
    { unfold transfer. unfold bind at 1. unfold readuntil.
      change (w_buffer (swapped w)) with (@nil byte).
      change (w_incoming (swapped w)) with (w_incoming w).
      rewrite Hin, (readuntil_loop_thrown "C"%byte chunks e evs' [] Hn Hl). reflexivity. }
    rewrite (try_finally_ended _ _ _ _ _ Hbody) by discriminate. now repeat split.
  - intros chunk rest evs1 f e Hlen Hhs Hcb He. rewrite (send_enters _ _ _ _ Hlen).
    assert (Hbody : transfer data max_failures progress_callback (swapped w)
                    = (Raised e, log (Progress 0 (len data))
                                     (log (ReadUntil chunk)
                                        (with_reader rest evs1 (swapped w))))).
    { unfold transfer.
      rewrite (bind_returned _ _ _ _ _ (handshake_readuntil (swapped w) chunk rest evs1
                                          eq_refl Hhs)).
      unfold bind at 1. subst progress_callback. cbn [call_progress]. now rewrite He. }
    rewrite (try_finally_ended _ _ _ _ _ Hbody) by discriminate. now repeat split.
  - intros chunk rest evs1 ks k buf2 evs2 e buf' evs' Hlen Hq Hcb Hhs Hks Hn Hk Hans Hread.
    apply answers_app in Hans as (buf1 & evs1' & Hans1 & Hans2).
    destruct (send_prefix_then data max_failures progress_callback w chunk rest evs1 ks
                buf1 evs1' Hlen Hq Hcb Hhs Hks Hn Hans1) as (w2 & Hl & Hcont).
    destruct Hl as ((T2 & P2) & B2 & I2 & Q2). rewrite <- B2, <- I2 in Hans2.
    destruct (send_data_unanswered (next_data data (length ks)) max_failures k w2
                buf2 evs2 (Raised e) buf' evs' Q2 Hk Hans2 Hread)
      as (w3 & Hrun & _ & I3).
    { intros [x Hx]. discriminate. }
    cbn [forget] in Hrun. rewrite (Hcont _ _ Hrun); [|intros _ [x Hx]|]; try discriminate.
    cbn [fst snd]. now repeat split.
  - intros d w2 e ds Hmf Hd. now apply send_data_flush.
Qed.

(** The connection is lost while the sender waits for the first response. *)
Lemma send_failure_origin_witness :
  (send_xmodem128_crc sample_block 0 None
     (sample_world [Feed ["C"%byte]; Throw ConnectionResetError])).1
  = Raised ConnectionResetError /\
  w_protocol (send_xmodem128_crc sample_block 0 None
                (sample_world [Feed ["C"%byte]; Throw ConnectionResetError])).2
  = CallerProtocol 0.
Proof.
  pose (w := sample_world [Feed ["C"%byte]; Throw ConnectionResetError]).
  assert (Hlen : len sample_block mod 128 = 0) by (vm_compute; reflexivity).
  assert (Hq : quiet w) by (repeat constructor).
  assert (Hcb : returns None) by (intros f Hf; discriminate).
  assert (Hhs : handshake (w_incoming w) ["C"%byte] [] [Throw ConnectionResetError])
    by reflexivity.
  assert (Hn : (length (@nil nat) <= Z.to_nat (len sample_block / 128))%nat)
    by (vm_compute; lia).
  destruct (send_failure_origin sample_block 0 None w) as (_ & _ & _ & Hwait & _).
  destruct (Hwait ["C"%byte] [] [Throw ConnectionResetError] [] 0%nat []
              [Throw ConnectionResetError] ConnectionResetError [] []
              Hlen Hq Hcb Hhs ltac:(constructor) Hn ltac:(lia) (answers_nil _ _) eq_refl)
    as (Hr & _ & Hp).
  split; [exact Hr|exact Hp].
Defined.

(** A call stays suspended only in a wait that does not end: the wait for
    input when the event loop has nothing more to deliver, or a flush that
    the transport never completes, in which case input can be left unread.
    Such a call has passed the length check and leaves the protocol of the
    stream reader attached to the transport; the flushes before the one
    that hangs completed.  And these waits do suspend the call: with
    nothing to deliver the call waits for the handshake byte, and one call
    of [send_xmodem128_crc_data] stays in a flush that hangs or, after any
    number of NAKs within the bound, in the wait for a response that does
    not come. *)
Theorem send_suspended (data : bytes) (max_failures : Z)
    (progress_callback : option callback) (w : World) :
  ((send_xmodem128_crc data max_failures progress_callback w).1 = Suspended ->
   len data mod 128 = 0 /\
   w_protocol (send_xmodem128_crc data max_failures progress_callback w).2
   = StreamReaderProtocol /\
   (w_incoming (send_xmodem128_crc data max_failures progress_callback w).2 = [] \/
    exists ds,
      w_drains w
      = ds ++ Suspended
           :: w_drains (send_xmodem128_crc data max_failures progress_callback w).2 /\
      Forall (fun d => d = Returned tt) ds)) /\
  (len data mod 128 = 0 -> w_incoming w = [] ->
   send_xmodem128_crc data max_failures progress_callback w
   = (Suspended, swapped w)) /\
  (forall d w2 ds,
     0 <= max_failures -> w_drains w2 = Suspended :: ds ->
     send_xmodem128_crc_data d max_failures w2
     = (Suspended, with_drains ds (log (Wr d) w2))) /\
  (forall d w2 k,
     quiet w2 -> Z.of_nat k <= max_failures ->
     answers (w_buffer w2) (w_incoming w2) (repeat (symbol_byte NAK) k) [] [] ->
     exists w3,
       send_xmodem128_crc_data d max_failures w2 = (Suspended, w3) /\
       w_trace w3 = w_trace w2 ++ concat (repeat [Wr d; Rd (symbol_byte NAK)] k) ++ [Wr d] /\
       w_incoming w3 = []).
Proof.
  split; [|split; [|split]].
  - intros Hrun.
    destruct (Z.eq_dec (len data mod 128) 0) as [Hlen|Hlen].
    + split; [exact Hlen|].
      destruct (send_xmodem128_crc data max_failures progress_callback w) as [r w'] eqn:E.
      cbn [fst snd] in *. subst r.
      destruct (send_tracks _ _ _ _ _ _ Hlen E) as (evs & ds & t & I & D & T & S & O & U).
      destruct (U eq_refl) as [Hp [Hi|[pre ->]]].
      * split; [exact Hp|]. now left.
      * split; [exact Hp|]. right. exists pre. split; [now rewrite D, <- app_assoc|].
        destruct S as (_ & S2 & _). apply Forall_forall. intros x Hx.
        apply list_elem_of_split in Hx as (l1 & l2 & ->).
        destruct x as [[]|e|]; [reflexivity|exfalso..];
          rewrite <- app_assoc in S2; cbn [app] in S2.
        -- destruct (S2 l1 (Raised e) (l2 ++ [Suspended]) eq_refl ltac:(discriminate))
             as [Hnil _]. now destruct l2.
        -- destruct (S2 l1 Suspended (l2 ++ [Suspended]) eq_refl ltac:(discriminate))
             as [Hnil _]. now destruct l2.
    + exfalso. rewrite send_xmodem128_crc_eq in Hrun. change BLOCK_SIZE with 128 in Hrun.
      destruct (Z.eqb_spec (len data mod 128) 0) as [E|_]; [contradiction|]. discriminate.
  - intros Hlen Hin. rewrite (send_enters _ _ _ _ Hlen).
    apply try_finally_suspended. unfold transfer. unfold bind at 1. unfold readuntil.
    change (w_buffer (swapped w)) with (@nil byte).
    change (w_incoming (swapped w)) with (w_incoming w). rewrite Hin.
    cbn. unfold with_reader, swapped, log, with_protocol, with_reader. cbn.
    now rewrite Hin.
  - intros d w2 ds Hmf Hd. apply send_data_flush; [exact Hmf|exact Hd|discriminate].
  - intros d w2 k Hq Hk Hans.
    destruct (send_data_unanswered d max_failures k w2 [] [] Suspended [] []
                Hq Hk Hans eq_refl) as (w3 & Hrun & [Ht _] & Hi).
    + intros [x Hx]. discriminate.
    + exists w3. now repeat split.
Qed.

(** The handshake byte and an ACK have arrived, and the first flush never
    completes: the call hangs with the ACK unread. *)
Lemma send_suspended_witness :
  (send_xmodem128_crc sample_block 3 None
     (with_drains [Suspended] (sample_world [Feed ["C"%byte]; Feed [ack]]))).1 = Suspended /\
  w_protocol (send_xmodem128_crc sample_block 3 None
                (with_drains [Suspended] (sample_world [Feed ["C"%byte]; Feed [ack]]))).2
  = StreamReaderProtocol /\
  w_incoming (send_xmodem128_crc sample_block 3 None
                (with_drains [Suspended] (sample_world [Feed ["C"%byte]; Feed [ack]]))).2
  = [Feed [ack]].
Proof.
  split; [reflexivity|]. split; [|reflexivity].
  destruct (send_suspended sample_block 3 None
              (with_drains [Suspended] (sample_world [Feed ["C"%byte]; Feed [ack]])))
    as [H _].
  exact (proj1 (proj2 (H eq_refl))).
Defined.

End EveryRunMore.

